(** * fairseq/search.py: the candidate-selection step of beam-style decoding

    A shallow embedding of the search strategies of [fairseq/search.py]
    ([BeamSearch], [LengthConstrainedBeamSearch], [DiverseBeamSearch],
    [Sampling], [DiverseSiblingsSearch]) and the properties of their [step]
    methods.

    Conventions of the embedding.
    - A tensor of rank 2 or 3 is a nested list, outermost dimension first;
      [size3] reads the shape off the first element of every dimension, the
      way [lprobs.size()] is used by the source.  Rectangular shapes are
      stated by [wf3].  A nested list without batch elements has lost its
      inner dimensions, and the source's [view(bsz, -1)] raises on an empty
      batch: the embedding stands for the source on batches of at least one
      element, and the statements that assert a returned result assume
      [1 <= B].
    - A log-probability is a rational number or minus infinity ([lprob]);
      the source's IEEE floats are not modelled (no rounding, no NaN):
      sums and products are exact.
    - A Python exception is the [Raise] outcome of the [result] monad.
    - [torch.topk] and [Tensor.sort] are modelled by a stable descending
      insertion sort: among equal values the lower index comes first.  The
      order of equal values is not fixed by torch: on an input with ties
      the embedding describes one of the orders torch may return. *)

From Stdlib Require Import List Arith ZArith QArith Bool Lia Lqa Permutation.
From Stdlib Require Import Sorting.Sorted.
Import ListNotations.

Set Implicit Arguments.
Local Open Scope nat_scope.

(** ** Exceptions *)

Inductive exn : Type :=
| ValueError
| IndexError
| RuntimeError
| AttributeError
| UnboundLocalError
| ZeroDivisionError.

Inductive result (A : Type) : Type :=
| Ok (a : A)
| Raise (e : exn).

Arguments Ok {A} a.
Arguments Raise {A} e.

Definition bind {A B : Type} (c : result A) (k : A -> result B) : result B :=
  match c with
  | Ok a => k a
  | Raise e => Raise e
  end.

Notation "x <- c ;; k" := (bind c (fun x => k))
  (at level 61, c at next level, right associativity).
Notation "' p <- c ;; k" := (bind c (fun p => k))
  (at level 61, p pattern, c at next level, right associativity).

Fixpoint mapM {A B : Type} (f : A -> result B) (l : list A) : result (list B) :=
  match l with
  | [] => Ok []
  | x :: l' => y <- f x ;; ys <- mapM f l' ;; Ok (y :: ys)
  end.

(** [zipM e f l1 l2] applies [f] pointwise; operands of different lengths
    are a shape mismatch, raised as [e] (broadcasting of size-1 dimensions is
    not modelled). *)
Fixpoint zipM {A B C : Type} (e : exn) (f : A -> B -> result C)
  (l1 : list A) (l2 : list B) : result (list C) :=
  match l1, l2 with
  | [], [] => Ok []
  | x :: l1', y :: l2' => z <- f x y ;; zs <- zipM e f l1' l2' ;; Ok (z :: zs)
  | _, _ => Raise e
  end.

(** ** Log-probabilities *)

Inductive lprob : Type :=
| NegInf
| Fin (q : Q).

Definition lp_add (a b : lprob) : lprob :=
  match a, b with
  | Fin x, Fin y => Fin (x + y)
  | _, _ => NegInf
  end.

Definition lp_sub (a : lprob) (q : Q) : lprob :=
  match a with
  | Fin x => Fin (x - q)
  | NegInf => NegInf
  end.

Definition lp_leb (a b : lprob) : bool :=
  match a, b with
  | NegInf, _ => true
  | Fin _, NegInf => false
  | Fin x, Fin y => Qle_bool x y
  end.

Definition lp_ltb (a b : lprob) : bool := negb (lp_leb b a).

(** An integer-valued log-probability, for the examples. *)
Definition lp (z : Z) : lprob := Fin (inject_Z z).

(** ** Tensors as nested lists *)

Abbreviation tensor2 A := (list (list A)) (only parsing).
Abbreviation tensor3 A := (list (list (list A))) (only parsing).

Definition size3 {A : Type} (t : tensor3 A) : nat * nat * nat :=
  (length t, length (hd [] t), length (hd [] (hd [] t))).

Definition wf2 {A : Type} (R C : nat) (t : tensor2 A) : Prop :=
  length t = R /\ Forall (fun r => length r = C) t.

Definition wf3 {A : Type} (B K V : nat) (t : tensor3 A) : Prop :=
  length t = B /\ Forall (wf2 K V) t.

(** [l[start::stride]] for a positive stride. *)
Fixpoint every_nth {A : Type} (stride fuel : nat) (l : list A) : list A :=
  match fuel with
  | 0 => []
  | S fuel' =>
      match l with
      | [] => []
      | x :: _ => x :: every_nth stride fuel' (skipn stride l)
      end
  end.

Definition strided {A : Type} (start stride : nat) (l : list A) : result (list A) :=
  if stride =? 0 then Raise ValueError
  else Ok (every_nth stride (length l) (skipn start l)).

(** [t[:, start::stride, :]] *)
Definition slice_dim1 {A : Type} (start stride : nat) (t : tensor3 A)
  : result (tensor3 A) :=
  mapM (strided start stride) t.

(** [t.view(bsz, -1)] of a rank-3 tensor. *)
Definition view_flat {A : Type} (t : tensor3 A) : tensor2 A :=
  map (@concat A) t.

(** [t.size(1)] of a rank-2 tensor. *)
Definition size_dim1 {A : Type} (t : tensor2 A) : nat := length (hd [] t).

Definition getitem {A : Type} (l : list A) (i : nat) : result A :=
  match nth_error l i with
  | Some x => Ok x
  | None => Raise IndexError
  end.

(** ** Sorting and [torch.topk] *)

Section Sorting.
Variable A : Type.
(** [geb x y]: [x] ranks at least as high as [y]. *)
Variable geb : A -> A -> bool.

Fixpoint insert_desc (x : A) (l : list A) : list A :=
  match l with
  | [] => [x]
  | y :: l' => if geb x y then x :: l else y :: insert_desc x l'
  end.

Fixpoint sort_desc (l : list A) : list A :=
  match l with
  | [] => []
  | x :: l' => insert_desc x (sort_desc l')
  end.
End Sorting.

(** A row with the position of every entry: [(value, index)]. *)
Definition enumerate {A : Type} (row : list A) : list (A * nat) :=
  combine row (seq 0 (length row)).

Definition lp_geb_fst (x y : lprob * nat) : bool := lp_leb (fst y) (fst x).

(** [torch.topk(row, k)]: the [k] largest entries, best first, with their
    positions; [k] outside [0 .. len(row)] is a RuntimeError. *)
Definition topk (k : Z) (row : list lprob) : result (list (lprob * nat)) :=
  if ((k <? 0) || (Z.of_nat (length row) <? k))%Z then Raise RuntimeError
  else Ok (firstn (Z.to_nat k) (sort_desc lp_geb_fst (enumerate row))).

(** ** Search.__init__ and BeamSearch *)

(** What the strategies read of the target dictionary. *)
Record Dictionary : Type := {
  dict_pad : nat;
  dict_unk : nat;
  dict_eos : nat;
  dict_len : nat
}.

(** [src_lengths] is a 0-dimensional tensor until [set_src_lengths] stores
    the per-example lengths. *)
Inductive long_tensor : Type :=
| Scalar0 (z : Z)
| Vector1 (l : list Z).

Record Search : Type := {
  pad : nat;
  unk : nat;
  eos : nat;
  vocab_size : nat;
  src_lengths : long_tensor
}.

Definition Search_init (tgt_dict : Dictionary) : Search :=
  {| pad := dict_pad tgt_dict;
     unk := dict_unk tgt_dict;
     eos := dict_eos tgt_dict;
     vocab_size := dict_len tgt_dict;
     src_lengths := Scalar0 (-1) |}.

Definition set_src_lengths (self : Search) (lens : long_tensor) : Search :=
  {| pad := pad self;
     unk := unk self;
     eos := eos self;
     vocab_size := vocab_size self;
     src_lengths := lens |}.

Definition triple : Type := (tensor2 lprob * tensor2 nat * tensor2 nat)%type.

(** [lprobs.add_(scores[:, :, step - 1].unsqueeze(-1))] *)
Definition add_last_score (step : nat) (lprobs scores : tensor3 lprob)
  : result (tensor3 lprob) :=
  zipM RuntimeError
       (zipM RuntimeError
             (fun row hist =>
                s <- getitem hist (step - 1) ;;
                Ok (map (fun x => lp_add x s) row)))
       lprobs scores.

(** [torch.div(indices, d)] on integer tensors: integer division, which
    raises on a zero divisor as soon as there is an element to divide. *)
Definition div_long (t : tensor2 nat) (d : nat) : result (tensor2 nat) :=
  if (d =? 0) && negb (forallb (fun r => length r =? 0) t)
  then Raise RuntimeError
  else Ok (map (map (fun i => i / d)) t).

(** [indices.fmod_(d)] *)
Definition fmod_long (t : tensor2 nat) (d : nat) : result (tensor2 nat) :=
  if (d =? 0) && negb (forallb (fun r => length r =? 0) t)
  then Raise RuntimeError
  else Ok (map (map (fun i => i mod d)) t).

(** Lines 69-75 of [BeamSearch.step]: the tensor whose flattening is
    ranked. *)
Definition ranked (step : nat) (lprobs scores : tensor3 lprob)
  : result (tensor3 lprob) :=
  let '(bsz, beam_size, vocab_size) := size3 lprobs in
  if step =? 0 then slice_dim1 0 beam_size lprobs
  else add_last_score step lprobs scores.

Definition BeamSearch_step (step : nat) (lprobs scores : tensor3 lprob)
  : result triple :=
  let '(bsz, beam_size, vocab_size) := size3 lprobs in
  lprobs <- (if step =? 0 then slice_dim1 0 beam_size lprobs
             else add_last_score step lprobs scores) ;;
  let flat := view_flat lprobs in
  let k := Z.min (Z.of_nat beam_size * 2) (Z.of_nat (size_dim1 flat) - 1) in
  top_prediction <- mapM (topk k) flat ;;
  let scores_buf := map (map fst) top_prediction in
  let indices_buf := map (map snd) top_prediction in
  beams_buf <- div_long indices_buf vocab_size ;;
  indices_buf <- fmod_long indices_buf vocab_size ;;
  Ok (scores_buf, indices_buf, beams_buf).


(** ** LengthConstrainedBeamSearch *)

Record LengthConstrainedBeamSearch : Type := {
  lc_base : Search;
  min_len_a : Z;
  min_len_b : Z;
  max_len_a : Z;
  max_len_b : Z
}.

Inductive bool_tensor : Type :=
| BScalar0 (c : bool)
| BVector1 (m : list bool).

(** [a * src_lengths + b] *)
Definition affine (a b : Z) (t : long_tensor) : long_tensor :=
  match t with
  | Scalar0 z => Scalar0 (a * z + b)
  | Vector1 l => Vector1 (map (fun z => (a * z + b)%Z) l)
  end.

(** An elementwise comparison of the step with a tensor of lengths. *)
Definition compare_with (test : Z -> bool) (t : long_tensor) : bool_tensor :=
  match t with
  | Scalar0 z => BScalar0 (test z)
  | Vector1 l => BVector1 (map test l)
  end.

(** [l[i] = v] *)
Fixpoint setitem {A : Type} (i : nat) (v : A) (l : list A) : result (list A) :=
  match l, i with
  | [], _ => Raise IndexError
  | _ :: l', 0 => Ok (v :: l')
  | x :: l', S i' => l'' <- setitem i' v l' ;; Ok (x :: l'')
  end.

(** [lprobs[mask, :, e] = v].
    With a mask of one dimension the rows of the selected batch elements get
    [v] at position [e] of the last dimension; the integer index is checked
    against that dimension whatever the mask holds.
    A mask of no dimension inserts a new leading axis instead of consuming
    the batch axis, so that [:] ranges over the batch and the integer [e]
    indexes the beam dimension: when the mask is True the whole row of beam
    [e] is overwritten in every batch element. *)
Definition setitem_masked (mask : bool_tensor) (e : nat) (v : lprob)
  (lprobs : tensor3 lprob) : result (tensor3 lprob) :=
  match mask with
  | BVector1 m =>
      zipM IndexError
           (fun (c : bool) (beams : tensor2 lprob) =>
              beams' <- mapM (setitem e v) beams ;;
              Ok (if c then beams' else beams))
           m lprobs
  | BScalar0 c =>
      mapM (fun beams : tensor2 lprob =>
              row <- getitem beams e ;;
              beams' <- setitem e (map (fun _ => v) row) beams ;;
              Ok (if c then beams' else beams))
           lprobs
  end.

(** Lines 104-108 of [LengthConstrainedBeamSearch.step]: the three masked
    assignments, in the order of the source. *)
Definition length_mask (self : LengthConstrainedBeamSearch) (step : nat)
  (lprobs : tensor3 lprob) : result (tensor3 lprob) :=
  let lens := src_lengths (lc_base self) in
  let e := eos (lc_base self) in
  let min_lens := affine (min_len_a self) (min_len_b self) lens in
  let max_lens := affine (max_len_a self) (max_len_b self) lens in
  lprobs <- setitem_masked
              (compare_with (fun m => (Z.of_nat step <? m)%Z) min_lens)
              e NegInf lprobs ;;
  lprobs <- setitem_masked
              (compare_with (fun m => (Z.of_nat step =? m)%Z) max_lens)
              e (Fin 0) lprobs ;;
  setitem_masked
    (compare_with (fun m => (m <? Z.of_nat step)%Z) max_lens)
    e NegInf lprobs.

Definition LengthConstrainedBeamSearch_step
  (self : LengthConstrainedBeamSearch) (step : nat)
  (lprobs scores : tensor3 lprob) : result triple :=
  lprobs <- length_mask self step lprobs ;;
  BeamSearch_step step lprobs scores.

(** ** DiverseBeamSearch *)

Record DiverseBeamSearch : Type := {
  num_groups : nat;
  (** the negated strength, as stored by [__init__] *)
  diversity_strength : Q
}.

Definition DiverseBeamSearch_init (groups : nat) (strength : Q)
  : DiverseBeamSearch :=
  {| num_groups := groups; diversity_strength := - strength |}.

(** [torch.add(lprobs_g, strength, diversity_buf.unsqueeze(1))] *)
Definition add_penalty (strength : Q) (diversity_buf : tensor2 Q)
  (lprobs_g : tensor3 lprob) : result (tensor3 lprob) :=
  zipM RuntimeError
       (fun (beams : tensor2 lprob) (buf : list Q) =>
          mapM (fun row =>
                  zipM RuntimeError
                       (fun x c => Ok (lp_add x (Fin (strength * c))))
                       row buf)
               beams)
       lprobs_g diversity_buf.

(** [buf[i] += 1] *)
Fixpoint incr_at (i : nat) (buf : list Q) : result (list Q) :=
  match buf, i with
  | [], _ => Raise RuntimeError
  | c :: buf', 0 => Ok ((c + 1)%Q :: buf')
  | c :: buf', S i' => buf'' <- incr_at i' buf' ;; Ok (c :: buf'')
  end.

Fixpoint incr_all (idxs : list nat) (buf : list Q) : result (list Q) :=
  match idxs with
  | [] => Ok buf
  | i :: idxs' => buf' <- incr_at i buf ;; incr_all idxs' buf'
  end.

(** [diversity_buf.scatter_add_(1, indices, ones)] *)
Definition scatter_add_ones (diversity_buf : tensor2 Q) (indices : tensor2 nat)
  : result (tensor2 Q) :=
  zipM RuntimeError (fun buf idxs => incr_all idxs buf) diversity_buf indices.

(** [torch.stack(ts, dim=2)] of rank-2 tensors of one shape. *)
Fixpoint stack_dim2 {A : Type} (shape : tensor2 A) (ts : list (tensor2 A))
  : result (tensor3 A) :=
  match ts with
  | [] => Ok (map (map (fun _ => [])) shape)
  | t :: ts' =>
      rest <- stack_dim2 shape ts' ;;
      zipM RuntimeError
           (zipM RuntimeError (fun x xs => Ok (x :: xs)))
           t rest
  end.

(** [torch.stack(ts, dim=2).view(bsz, -1)] *)
Definition interleave {A : Type} (ts : list (tensor2 A)) : result (tensor2 A) :=
  match ts with
  | [] => Raise RuntimeError
  | t :: _ => st <- stack_dim2 t ts ;; Ok (view_flat st)
  end.

(** The state of the loop over the groups: the diversity buffer and the
    three lists of per-group results. *)
Record group_state : Type := {
  diversity_buf : tensor2 Q;
  scores_G : list (tensor2 lprob);
  indices_G : list (tensor2 nat);
  beams_G : list (tensor2 nat)
}.

(** One iteration of [for g in range(self.num_groups)]. *)
Definition group_body (self : DiverseBeamSearch) (step : nat)
  (lprobs scores : tensor3 lprob) (g : nat) (st : group_state)
  : result group_state :=
  lprobs_g <- slice_dim1 g (num_groups self) lprobs ;;
  scores_g <- (if 0 <? step then slice_dim1 g (num_groups self) scores
               else Ok []) ;;
  lprobs_g <- (if 0 <? g
               then add_penalty (diversity_strength self) (diversity_buf st) lprobs_g
               else Ok lprobs_g) ;;
  '(scores_buf, indices_buf, beams_buf) <- BeamSearch_step step lprobs_g scores_g ;;
  let beams_buf := map (map (fun b => b * num_groups self + g)) beams_buf in
  buf <- scatter_add_ones (diversity_buf st) indices_buf ;;
  Ok {| diversity_buf := buf;
        scores_G := scores_G st ++ [scores_buf];
        indices_G := indices_G st ++ [indices_buf];
        beams_G := beams_G st ++ [beams_buf] |}.

Fixpoint group_loop (self : DiverseBeamSearch) (step : nat)
  (lprobs scores : tensor3 lprob) (gs : list nat) (st : group_state)
  : result group_state :=
  match gs with
  | [] => Ok st
  | g :: gs' =>
      st' <- group_body self step lprobs scores g st ;;
      group_loop self step lprobs scores gs' st'
  end.

Definition DiverseBeamSearch_step (self : DiverseBeamSearch) (step : nat)
  (lprobs scores : tensor3 lprob) : result triple :=
  let '(bsz, beam_size, vocab_size) := size3 lprobs in
  if num_groups self =? 0 then Raise ZeroDivisionError
  else if negb (beam_size mod num_groups self =? 0) then Raise ValueError
  else
    (* torch.zeros(lprobs[:, 0, :].size(), out=self.diversity_buf) *)
    first_beam <- mapM (fun beams : tensor2 lprob => getitem beams 0) lprobs ;;
    let buf0 := map (map (fun _ => 0%Q)) first_beam in
    st <- group_loop self step lprobs scores (seq 0 (num_groups self))
            {| diversity_buf := buf0; scores_G := [];
               indices_G := []; beams_G := [] |} ;;
    scores_buf <- interleave (scores_G st) ;;
    indices_buf <- interleave (indices_G st) ;;
    beams_buf <- interleave (beams_G st) ;;
    Ok (scores_buf, indices_buf, beams_buf).

(** ** DiverseSiblingsSearch *)

Record DiverseSiblingsSearch : Type := {
  diversity_rate : Q
}.

(** [lprobs.new(range(1, k + 1)) * self.diversity_rate] *)
Definition sibling_scores (rate : Q) (k : Z) : list Q :=
  map (fun r => (inject_Z (Z.of_nat r) * rate)%Q) (seq 1 (Z.to_nat k)).

(** [s.sub_(sibling_score)] on one row. *)
Definition sub_row (s : list lprob) (sibling_score : list Q)
  : result (list lprob) :=
  zipM RuntimeError (fun x q => Ok (lp_sub x q)) s sibling_score.

(** [torch.gather] along the last dimension of one row. *)
Definition gather_row {A : Type} (table : list A) (idxs : list nat)
  : result (list A) :=
  mapM (getitem table) idxs.

(** The loop [for i in range(beam_size)] fills [s_list[i]] and [i_list[i]],
    tensors of shape (bsz, k); [torch.stack(.., dim=1)] puts them back in the
    layout (bsz, beam_size, k), which is the layout the nested lists have
    when the loop body is mapped over the beams of every batch element. *)
Definition sibling_tables (k : Z) (vocab_size : nat) (sibling_score : list Q)
  (lprobs : tensor3 lprob) : result (tensor3 lprob * tensor3 nat) :=
  tables <- mapM (mapM (fun row =>
                          top <- topk k row ;;
                          idx <- fmod_long [map snd top] vocab_size ;;
                          s <- sub_row (map fst top) sibling_score ;;
                          Ok (s, concat idx)))
                 lprobs ;;
  Ok (map (map fst) tables, map (map snd) tables).

Definition DiverseSiblingsSearch_step (self : DiverseSiblingsSearch)
  (step : nat) (lprobs scores : tensor3 lprob) : result triple :=
  let '(bsz, beam_size, vocab_size) := size3 lprobs in
  let k := Z.min (Z.of_nat beam_size * 2)
                 (Z.of_nat (size_dim1 (view_flat lprobs)) - 1) in
  let sibling_score := sibling_scores (diversity_rate self) k in
  if step =? 0 then BeamSearch_step step lprobs scores
  else
    lprobs <- add_last_score step lprobs scores ;;
    (* 1/ 2/ 3/ *)
    '(s_list, i_list) <- sibling_tables k vocab_size sibling_score lprobs ;;
    _ <- (if beam_size =? 0 then Raise RuntimeError else Ok tt) ;;
    (* 4/ *)
    let indices := view_flat i_list in
    top <- mapM (topk k) (view_flat s_list) ;;
    let final_scores := map (map fst) top in
    let final_indices := map (map snd) top in
    final_beams <- div_long final_indices (Z.to_nat k) ;;
    final_indices <- zipM IndexError gather_row indices final_indices ;;
    Ok (final_scores, final_indices, final_beams).

(** ** Sampling *)

Definition Qltb (a b : Q) : bool := negb (Qle_bool b a).

Definition q_geb_fst (x y : Q * nat) : bool := Qle_bool (fst y) (fst x).

(** [row.cumsum()] started from [acc]. *)
Fixpoint cumsum (acc : Q) (row : list Q) : list Q :=
  match row with
  | [] => []
  | x :: row' => (acc + x)%Q :: cumsum (acc + x)%Q row'
  end.

(** [mask.cumsum()] of a row of booleans, counted as integers. *)
Fixpoint cumsum_mask (acc : nat) (mask : list bool) : list nat :=
  match mask with
  | [] => []
  | c :: mask' =>
      let acc' := acc + (if c then 1 else 0) in
      acc' :: cumsum_mask acc' mask'
  end.

(** [row[-1:]] *)
Definition last_slice {A : Type} (row : list A) : list A :=
  skipn (length row - 1) row.

(** [x.clamp_(lo, hi)] *)
Definition clamp (lo hi x : nat) : nat := Nat.min (Nat.max x lo) hi.

(** [mask.scatter_(2, idxs, 1)] on one row. *)
Fixpoint scatter_true (mask : list bool) (idxs : list nat) : result (list bool) :=
  match idxs with
  | [] => Ok mask
  | i :: idxs' =>
      mask' <- match setitem i true mask with
               | Ok m => Ok m
               | Raise _ => Raise RuntimeError
               end ;;
      scatter_true mask' idxs'
  end.

(** What [_sample_topp] computes for one row of probabilities before the
    truncation to a common width. *)
Record topp_row_t : Type := {
  sorted_probs : list Q;
  sorted_indices : list nat;
  mask : list bool;
  last_included : list nat
}.

Definition topp_row (p : Q) (probs : list Q) : result topp_row_t :=
  let sorted := sort_desc q_geb_fst (enumerate probs) in
  let sorted_probs := map fst sorted in
  let sorted_indices := map snd sorted in
  let cumsum_probs := cumsum 0 sorted_probs in
  let mask := map (fun c => Qltb c p) cumsum_probs in
  let cumsum_mask := cumsum_mask 0 mask in
  let last_included :=
    map (clamp 0 (length mask - 1)) (last_slice cumsum_mask) in
  mask <- scatter_true mask last_included ;;
  Ok {| sorted_probs := sorted_probs;
        sorted_indices := sorted_indices;
        mask := mask;
        last_included := last_included |}.

(** [t.max()] of an integer tensor given by its elements. *)
Definition max_all (xs : list nat) : result nat :=
  match xs with
  | [] => Raise RuntimeError
  | x :: xs' => Ok (fold_left Nat.max xs' x)
  end.

(** [truncated_probs.masked_fill_(~truncated_mask, 0)] on one row. *)
Definition trim (probs : list Q) (mask : list bool) : list Q :=
  map (fun pm : Q * bool => if snd pm then fst pm else 0%Q) (combine probs mask).

(** [_sample_topp] after [probs = lprobs.exp_()]. *)
Definition sample_topp_probs (p : Q) (probs : tensor3 Q)
  : result (tensor3 Q * tensor3 nat) :=
  rows <- mapM (mapM (topp_row p)) probs ;;
  max_dim <- max_all (concat (map last_included (concat rows))) ;;
  let width := max_dim + 1 in
  let trimed_probs :=
    map (map (fun r => trim (firstn width (sorted_probs r))
                            (firstn width (mask r)))) rows in
  let truncated_indices :=
    map (map (fun r => firstn width (sorted_indices r))) rows in
  Ok (trimed_probs, truncated_indices).

Record Sampling : Type := {
  sampling_topk : Z;
  sampling_topp : Q
}.

(** The defaults of [Sampling.__init__]. *)
Definition Sampling_default : Sampling :=
  {| sampling_topk := -1; sampling_topp := -1 |}.

Definition tmap3 {A B : Type} (f : A -> B) (t : tensor3 A) : tensor3 B :=
  map (map (map f)) t.

Definition sumQ (row : list Q) : Q := fold_right Qplus 0%Q row.

(** [t.expand(bsz, beam_size, -1)]: a dimension of size 1 is repeated, a
    dimension of the requested size is kept. *)
Definition expand_dim1 {A : Type} (beam_size : nat) (t : tensor3 A)
  : result (tensor3 A) :=
  mapM (fun beams : tensor2 A =>
          match beams with
          | [row] => Ok (repeat row beam_size)
          | _ => if length beams =? beam_size then Ok beams
                 else Raise RuntimeError
          end) t.

(** [torch.gather(t, dim=2, index=idx.unsqueeze(-1))] with the last
    dimension squeezed. *)
Definition gather_dim2 {A : Type} (t : tensor3 A) (idx : tensor2 nat)
  : result (tensor2 A) :=
  zipM RuntimeError
       (zipM RuntimeError
             (fun row i =>
                match nth_error row i with
                | Some x => Ok x
                | None => Raise RuntimeError
                end))
       t idx.

Section SamplingStep.
(** The exponential and the logarithm of the float type. *)
Variable exp_ : lprob -> Q.
Variable log_ : Q -> lprob.

(** The state of the random number generator, and the draw of one index
    from a row of weights. *)
Variable rng : Type.
Variable draw : rng -> list Q -> nat * rng.

(** Lines 263-336, the rescoring of the candidates by external scorers
    and the training of their coefficients: from the step, the candidates'
    log-probabilities and their vocabulary ids to the new probabilities. *)
Variable rescoring : nat -> tensor3 lprob -> tensor3 nat -> result (tensor3 Q).

Definition _sample_topp (self : Sampling) (lprobs : tensor3 lprob)
  : result (tensor3 Q * tensor3 nat) :=
  let probs := tmap3 exp_ lprobs in
  sample_topp_probs (sampling_topp self) probs.

Fixpoint draws (n : nat) (row : list Q) (g : rng) : list nat * rng :=
  match n with
  | 0 => ([], g)
  | S n' =>
      let '(i, g') := draw g row in
      let '(ixs, g'') := draws n' row g' in
      (i :: ixs, g'')
  end.

Definition valid_weights (row : list Q) : bool :=
  forallb (fun x => Qle_bool 0 x) row && Qltb 0 (sumQ row).

(** [torch.multinomial(rows, n, replacement=True)] *)
Fixpoint multinomial (rows : tensor2 Q) (n : nat) (g : rng)
  : result (tensor2 nat * rng) :=
  match rows with
  | [] => Ok ([], g)
  | row :: rows' =>
      if valid_weights row then
        let '(ixs, g') := draws n row g in
        '(rest, g'') <- multinomial rows' n g' ;;
        Ok (ixs :: rest, g'')
      else Raise RuntimeError
  end.

(** [torch.multinomial(probs.view(bsz * beam_size, -1), 1).view(bsz, beam_size)] *)
Fixpoint multinomial_each (probs : tensor3 Q) (g : rng)
  : result (tensor2 nat * rng) :=
  match probs with
  | [] => Ok ([], g)
  | beams :: probs' =>
      '(ixs, g') <- multinomial beams 1 g ;;
      '(rest, g'') <- multinomial_each probs' g' ;;
      Ok (concat ixs :: rest, g'')
  end.

(** [rescore] is the truth value of [kwargs.get("rescore", "False")]: the
    default, a non-empty string, is true. *)
Definition Sampling_step (self : Sampling) (rescore : bool) (step : nat)
  (lprobs scores : tensor3 lprob) (g : rng) : result (triple * rng) :=
  let '(bsz, beam_size, vocab_size) := size3 lprobs in
  lprobs <- (if step =? 0 then slice_dim1 0 beam_size lprobs else Ok lprobs) ;;
  '(probs, top_indices, logprob) <-
    (if Qltb 0 (sampling_topp self) then
       '(probs, top_indices) <- _sample_topp self lprobs ;;
       Ok (probs, Some top_indices, None)
     else if (0 <? sampling_topk self)%Z then
       top <- mapM (mapM (topk (sampling_topk self))) lprobs ;;
       let lprobs := map (map (map fst)) top in
       let top_indices := map (map (map snd)) top in
       Ok (tmap3 exp_ lprobs, Some top_indices, Some lprobs)
     else
       Ok (tmap3 exp_ lprobs, None, None)) ;;
  (* lprobs = logprob.clone() *)
  lprobs <- match logprob with
            | Some t => Ok t
            | None => Raise AttributeError
            end ;;
  probs <- (if rescore && (0 <? step) then
              match top_indices with
              | Some ti => rescoring step lprobs ti
              | None => Raise UnboundLocalError
              end
            else Ok probs) ;;
  (* sample *)
  '(indices_buf, g) <-
    (if step =? 0 then multinomial (view_flat probs) beam_size g
     else multinomial_each probs g) ;;
  probs <- (if step =? 0 then expand_dim1 beam_size probs else Ok probs) ;;
  (* gather scores *)
  picked <- gather_dim2 probs indices_buf ;;
  let scores_buf := map (map log_) picked in
  (* remap indices if using top-k or top-P sampling *)
  indices_buf <-
    (if (0 <? sampling_topk self)%Z || Qltb 0 (sampling_topp self) then
       match top_indices with
       | Some ti =>
           ti <- expand_dim1 beam_size ti ;;
           gather_dim2 ti indices_buf
       | None => Raise UnboundLocalError
       end
     else Ok indices_buf) ;;
  if step =? 0 then
    let beams_buf := repeat (repeat 0 beam_size) bsz in
    Ok (scores_buf, indices_buf, beams_buf, g)
  else
    let beams_buf := repeat (seq 0 beam_size) bsz in
    (* make scores cumulative *)
    last <- mapM (mapM (fun hist : list lprob => getitem hist (step - 1))) scores ;;
    prior <- zipM RuntimeError gather_row last beams_buf ;;
    scores_buf <- zipM RuntimeError
                       (zipM RuntimeError (fun x y => Ok (lp_add x y)))
                       scores_buf prior ;;
    Ok (scores_buf, indices_buf, beams_buf, g).
End SamplingStep.

(** ** Definitions used by the statements *)

(** The value of [torch.topk] when it does not raise. *)
Definition top_list (k : Z) (row : list lprob) : list (lprob * nat) :=
  firstn (Z.to_nat k) (sort_desc lp_geb_fst (enumerate row)).

(** The size of the flattened candidate dimension that is ranked: at step 0
    one beam is kept, later all of them. *)
Definition flat_size (step K V : nat) : nat :=
  if step =? 0 then V else K * V.

(** The [k] handed to [torch.topk] by [BeamSearch.step] for an input of
    shape (B, K, V). *)
Definition beam_k (step K V : nat) : Z :=
  Z.min (Z.of_nat K * 2) (Z.of_nat (flat_size step K V) - 1).

(** The output width of [BeamSearch.step]. *)
Definition beam_width (step K V : nat) : nat := Z.to_nat (beam_k step K V).

(** The history tensor has the shape (B, K, T) with [step <= T]; nothing is
    asked of it at step 0. *)
Definition wf_scores (B K step : nat) (scores : tensor3 lprob) : Prop :=
  0 < step -> exists T, wf3 B K T scores /\ step <= T.

(** In every batch element the entry of token [p] of every row is strictly
    below the entry of any other token of any row. *)
Definition pad_dominated (p : nat) (t : tensor3 lprob) : Prop :=
  forall beams r1 r2 x y v,
    In beams t -> In r1 beams -> In r2 beams ->
    nth_error r1 p = Some x -> nth_error r2 v = Some y -> v <> p ->
    lp_ltb x y = true.

(** The same as a check that computes. *)
Definition pad_dominatedb (p : nat) (t : tensor3 lprob) : bool :=
  forallb
    (fun beams : tensor2 lprob =>
       forallb
         (fun r1 =>
            match nth_error r1 p with
            | None => true
            | Some x =>
                forallb
                  (fun r2 =>
                     forallb (fun yv => (snd yv =? p) || lp_ltb x (fst yv))
                             (enumerate r2))
                  beams
            end)
         beams)
    t.

(** The list [l] with position [i] replaced by [v]: what [l[i] = v] leaves
    when it does not raise. *)
Fixpoint upd {A : Type} (i : nat) (v : A) (l : list A) : list A :=
  match l, i with
  | [], _ => []
  | _ :: l', 0 => v :: l'
  | x :: l', S i' => x :: upd i' v l'
  end.

(** The dictionary layout of fairseq: bos 0, pad 1, eos 2, unk 3. *)
Definition example_dict : Dictionary :=
  {| dict_pad := 1; dict_unk := 3; dict_eos := 2; dict_len := 4 |}.

Definition example_lc (lens : long_tensor) (min_b max_b : Z)
  : LengthConstrainedBeamSearch :=
  {| lc_base := set_src_lengths (Search_init example_dict) lens;
     min_len_a := 0; min_len_b := min_b;
     max_len_a := 0; max_len_b := max_b |}.

(** A strategy on which [set_src_lengths] has not been called. *)
Definition example_lc_unset : LengthConstrainedBeamSearch :=
  {| lc_base := Search_init example_dict;
     min_len_a := 1; min_len_b := 0;
     max_len_a := 1; max_len_b := 10 |}.

Definition example_lprobs : tensor3 lprob :=
  [[[lp (-5); lp 0; lp (-3); lp 1];
    [lp (-1); lp (-1); NegInf; lp 1];
    [lp (-5); lp 0; lp (-3); lp 1]]].

(** Stand-ins for the float exponential and logarithm in the examples, a
    positive increasing function and its inverse; the statements below hold
    for whatever functions are supplied. *)
Definition example_exp (x : lprob) : Q :=
  match x with
  | NegInf => 0
  | Fin q => if Qle_bool q 0 then / (1 - q) else 1 + q
  end.

Definition example_log (p : Q) : lprob :=
  if Qle_bool p 0 then NegInf
  else if Qle_bool p 1 then Fin (1 - / p) else Fin (p - 1).

(** A stand-in generator for the examples: a counter, the drawn index being
    the counter modulo the number of weights. *)
Definition example_draw (g : nat) (row : list Q) : nat * nat :=
  (g mod length row, S g).

(** No rescoring in the examples. *)
Definition example_rescoring (step : nat) (lprobs : tensor3 lprob)
  (top_indices : tensor3 nat) : result (tensor3 Q) :=
  Raise ValueError.

Definition all_zero (t : tensor2 nat) : Prop :=
  Forall (Forall (fun x => x = 0)) t.

(** A row of probabilities: nothing negative, total mass 1. *)
Definition distribution (probs : list Q) : Prop :=
  Forall (fun x => 0 <= x)%Q probs /\ (sumQ probs == 1)%Q.

(** The row sorted by descending probability, as [Tensor.sort] leaves it. *)
Definition sorted_row (probs : list Q) : list (Q * nat) :=
  sort_desc q_geb_fst (enumerate probs).

(** Entry (b, j) of a rank-2 tensor. *)
Definition nth2 {A : Type} (t : tensor2 A) (b j : nat) : option A :=
  match nth_error t b with
  | Some row => nth_error row j
  | None => None
  end.


(** The inputs handed to [BeamSearch.step] for group [g]: the slices
    [lprobs[:, g::G, :]] and [scores[:, g::G, :]], the former with the
    diversity penalty added when [g > 0].  Row [j] of the slice is row
    [j * G + g] of the input. *)
Definition group_input (self : DiverseBeamSearch) (step : nat)
  (lprobs scores : tensor3 lprob) (g : nat)
  (lprobs_g scores_g : tensor3 lprob) : Prop :=
  exists base,
    slice_dim1 g (num_groups self) lprobs = Ok base /\
    (forall b j row,
        nth2 base b j = Some row ->
        nth2 lprobs b (j * num_groups self + g) = Some row) /\
    (if 0 <? step then slice_dim1 g (num_groups self) scores = Ok scores_g
     else scores_g = []) /\
    (g = 0 -> lprobs_g = base) /\
    (0 < g ->
     exists buf,
       add_penalty (diversity_strength self) buf base = Ok lprobs_g).

(** The triple [r] is what [BeamSearch.step] returns for group [g], of
    width [w] for each of the [B] batch elements. *)
Definition group_output (self : DiverseBeamSearch) (step : nat)
  (lprobs scores : tensor3 lprob) (B w g : nat) (r : triple) : Prop :=
  exists lprobs_g scores_g,
    group_input self step lprobs scores g lprobs_g scores_g /\
    BeamSearch_step step lprobs_g scores_g = Ok r /\
    wf2 B w (fst (fst r)) /\ wf2 B w (snd (fst r)) /\ wf2 B w (snd r).

(** The [k] of [DiverseSiblingsSearch.step] for an input of shape
    (B, K, V). *)
Definition siblings_k (K V : nat) : Z :=
  Z.min (Z.of_nat K * 2) (Z.of_nat (K * V) - 1).

(** The penalty of the sibling ranked [i], counted from 0. *)
Definition sibling_penalty (rate : Q) (i : nat) : Q :=
  (inject_Z (Z.of_nat (i + 1)) * rate)%Q.

(** The candidate table of one beam slot: the [k] best entries of its row
    of cumulative scores, best first, the one ranked [i] with its penalty
    subtracted, each with its token id. *)
Definition slot_candidates (rate : Q) (k : Z) (row : list lprob)
  : list (lprob * nat) :=
  map (fun ic : nat * (lprob * nat) =>
         (lp_sub (fst (snd ic)) (sibling_penalty rate (fst ic)),
          snd (snd ic)))
      (combine (seq 0 (Z.to_nat k)) (top_list k row)).

(** The pooled candidates of one batch element, slot after slot, and the
    winners among them with their pooled index. *)
Definition pooled_winners (rate : Q) (k : Z) (beams : tensor2 lprob)
  : list (lprob * nat) :=
  top_list k (concat (map (fun row => map fst (slot_candidates rate k row))
                          beams)).

Definition example_history : tensor3 lprob :=
  [[[lp (-1)]; [lp (-2)]; [lp (-3)]]].

(** Three beams over four tokens whose twelve cumulative scores under
    [example_history] are pairwise different, so that the ranking does not
    depend on how ties are ordered. *)
Definition example_lprobs_distinct : tensor3 lprob :=
  [[[lp (-5); lp 0; lp (-3); lp 1];
    [lp (-1); lp (-5); lp (-9); lp 0];
    [lp (-2); lp (-6); lp (-7); lp (-10)]]].

(** Entry (b, i, v) of a rank-3 tensor. *)
Definition nth3 {A : Type} (t : tensor3 A) (b i v : nat) : option A :=
  match nth_error t b with
  | Some beams => nth2 beams i v
  | None => None
  end.

Definition is_finite (x : lprob) : bool :=
  match x with
  | Fin _ => true
  | NegInf => false
  end.

(** The candidates [BeamSearch.step] ranks for one batch element, and what
    [torch.topk] keeps of them: scores with flattened positions. *)
Definition beam_top (step K V : nat) (beams : tensor2 lprob)
  : list (lprob * nat) :=
  top_list (beam_k step K V) (concat beams).

(** The number of candidates of one batch element whose score is not minus
    infinity. *)
Definition count_finite (beams : tensor2 lprob) : nat :=
  length (filter is_finite (concat beams)).

(** What the three assignments of [LengthConstrainedBeamSearch.step] make of
    one row of a batch element whose source length is [src]. *)
Definition masked_row (self : LengthConstrainedBeamSearch) (step : nat)
  (src : Z) (row : list lprob) : list lprob :=
  let e := eos (lc_base self) in
  let min_len := (min_len_a self * src + min_len_b self)%Z in
  let max_len := (max_len_a self * src + max_len_b self)%Z in
  let r1 := if (Z.of_nat step <? min_len)%Z then upd e NegInf row else row in
  let r2 := if (Z.of_nat step =? max_len)%Z then upd e (Fin 0) r1 else r1 in
  if (max_len <? Z.of_nat step)%Z then upd e NegInf r2 else r2.

(** Equality of scores up to the representation of the rational. *)
Definition lp_eq (a b : lprob) : Prop :=
  match a, b with
  | NegInf, NegInf => True
  | Fin x, Fin y => (x == y)%Q
  | _, _ => False
  end.

(** [row[g::G]] of a row returned by [DiverseBeamSearch.step]: the results
    of group [g]. *)
Definition group_slice (G g : nat) (row : list nat) : list nat :=
  every_nth G (length row) (skipn g row).

(** How often [tok] occurs among the results of the groups before [g]. *)
Definition earlier_picks (G g : nat) (row : list nat) (tok : nat) : nat :=
  list_sum (map (fun g' => count_occ Nat.eq_dec (group_slice G g' row) tok)
                (seq 0 g)).

(** How often [tok] occurs in row [b] of the index tensors [ts]. *)
Definition picks (ts : list (tensor2 nat)) (b tok : nat) : nat :=
  list_sum (map (fun t => count_occ Nat.eq_dec (nth b t []) tok) ts).

(** The diversity buffer counts the tokens chosen so far. *)
Definition buf_counts (buf : tensor2 Q) (ts : list (tensor2 nat)) : Prop :=
  forall b v c,
    nth2 buf b v = Some c -> (c == inject_Z (Z.of_nat (picks ts b v)))%Q.

(** A generator that draws a position of the row of weights it is given. *)
Definition draw_in_range {rng : Type} (draw : rng -> list Q -> nat * rng)
  : Prop :=
  forall g row, valid_weights row = true -> fst (draw g row) < length row.

(** The row has an entry that is not minus infinity. *)
Definition has_finite (row : list lprob) : bool := existsb is_finite row.

(** The weights and the vocabulary ids [Sampling.step] keeps of a row in
    top-k mode. *)
Definition topk_weights (exp_ : lprob -> Q) (k : Z) (row : list lprob)
  : list Q :=
  map exp_ (map fst (top_list k row)).

Definition topk_ids (k : Z) (row : list lprob) : list nat :=
  map snd (top_list k row).

(** No two entries of the row compare equal. *)
Definition no_ties (row : list lprob) : bool :=
  forallb (fun x : lprob * nat =>
             forallb (fun y : lprob * nat =>
                        (snd x =? snd y)
                        || negb (lp_leb (fst x) (fst y)
                                 && lp_leb (fst y) (fst x)))
                     (enumerate row))
          (enumerate row).

(** [P] lists the positions of the [k] best entries of [row], best first:
    what [torch.topk] returns as indices. *)
Definition top_positions (row : list lprob) (k : nat) (P : list nat) : Prop :=
  length P = k /\ NoDup P /\ Forall (fun p => p < length row) P /\
  StronglySorted
    (fun p q => lp_leb (nth q row NegInf) (nth p row NegInf) = true) P /\
  forall p q, p < length row -> ~ In p P -> In q P ->
              lp_leb (nth p row NegInf) (nth q row NegInf) = true.

(** The position, in the flattened candidates of a batch element, of the
    candidate that the pooled index [q] of [DiverseSiblingsSearch.step]
    stands for: slot [q / k], and the token ranked [q mod k] in it. *)
Definition pooled_position (V : nat) (k : Z) (beams : tensor2 lprob)
  (q : nat) : nat :=
  (q / Z.to_nat k) * V
  + snd (nth (q mod Z.to_nat k)
             (top_list k (nth (q / Z.to_nat k) beams []))
             (NegInf, 0)).

(** The pooled scores of a batch element, slot after slot. *)
Definition pooled_scores (rate : Q) (k : Z) (beams : tensor2 lprob)
  : list lprob :=
  concat (map (fun row => map fst (slot_candidates rate k row)) beams).

(** * Properties *)

(** ** The error monad *)

Lemma bind_ok (A B : Type) (c : result A) (k : A -> result B) (b : B) :
  bind c k = Ok b -> exists a, c = Ok a /\ k a = Ok b.
Proof.
  destruct c as [a|e]; simpl; intros H; [eauto | discriminate].
Qed.

Ltac inv_bind H :=
  let a := fresh "a" in
  let Ha := fresh "Hc" in
  apply bind_ok in H; destruct H as (a & Ha & H).

Tactic Notation "bind_inv" hyp(H) "as" simple_intropattern(a) ident(Ha) :=
  apply bind_ok in H; destruct H as (a & Ha & H).

Lemma mapM_ok_map (A B : Type) (f : A -> result B) (g : A -> B) (l : list A) :
  (forall x, In x l -> f x = Ok (g x)) -> mapM f l = Ok (map g l).
Proof.
  induction l as [|x l IH]; intros Hf; simpl; [reflexivity|].
  rewrite (Hf x (or_introl eq_refl)); simpl.
  rewrite IH; [reflexivity|]. intros y Hy. apply Hf. now right.
Qed.

Lemma mapM_Forall2 (A B : Type) (f : A -> result B) (l : list A) (l' : list B) :
  mapM f l = Ok l' -> Forall2 (fun x y => f x = Ok y) l l'.
Proof.
  revert l'. induction l as [|x l IH]; simpl; intros l' H.
  - injection H as <-. constructor.
  - inv_bind H. inv_bind H. injection H as <-. constructor; auto.
Qed.

Lemma mapM_total (A B : Type) (f : A -> result B) (l : list A) :
  (forall x, In x l -> exists y, f x = Ok y) -> exists l', mapM f l = Ok l'.
Proof.
  induction l as [|x l IH]; intros Hf; simpl; [eauto|].
  destruct (Hf x (or_introl eq_refl)) as [y ->]; simpl.
  destruct IH as [l' ->]; [intros z Hz; apply Hf; now right|].
  simpl. eauto.
Qed.

Lemma zipM_Forall2 (A B C : Type) e (f : A -> B -> result C) l1 l2 l' :
  zipM e f l1 l2 = Ok l' ->
  length l1 = length l2 /\
  Forall2 (fun xy z => f (fst xy) (snd xy) = Ok z) (combine l1 l2) l'.
Proof.
  revert l2 l'. induction l1 as [|x l1 IH]; intros [|y l2] l' H; simpl in H;
    try discriminate.
  - injection H as <-. split; [reflexivity | constructor].
  - inv_bind H. inv_bind H. injection H as <-.
    destruct (IH _ _ Hc0) as [Hl HF]. simpl. split; [congruence|].
    constructor; auto.
Qed.

Lemma zipM_total (A B C : Type) e (f : A -> B -> result C) l1 l2 :
  length l1 = length l2 ->
  (forall x y, In (x, y) (combine l1 l2) -> exists z, f x y = Ok z) ->
  exists l', zipM e f l1 l2 = Ok l'.
Proof.
  revert l2. induction l1 as [|x l1 IH]; intros [|y l2] Hl Hf; simpl in *;
    try discriminate; [eauto|].
  destruct (Hf x y (or_introl eq_refl)) as [z ->]; simpl.
  destruct (IH l2) as [l' ->]; [lia | intros; apply Hf; now right |].
  simpl. eauto.
Qed.

Lemma Forall2_length_eq (A B : Type) (R : A -> B -> Prop) l l' :
  Forall2 R l l' -> length l = length l'.
Proof. induction 1; simpl; congruence. Qed.

(** ** Sorting *)

Lemma Forall_firstn_same (A : Type) (P : A -> Prop) (n : nat) (l : list A) :
  Forall P l -> Forall P (firstn n l).
Proof.
  intros H. revert n. induction H as [|x l Hx _ IH]; intros [|n]; simpl;
    constructor; auto.
Qed.

Lemma In_firstn (A : Type) (n : nat) (l : list A) (x : A) :
  In x (firstn n l) -> In x l.
Proof.
  revert n. induction l as [|y l IH]; intros [|n]; simpl; try tauto.
  intros [H|H]; [now left | right; eauto].
Qed.

Lemma filter_length_perm (A : Type) (f : A -> bool) (l l' : list A) :
  Permutation l l' -> length (filter f l) = length (filter f l').
Proof.
  induction 1 as [|x l l' _ IH|x y l|l l' l'' _ IH1 _ IH2]; simpl;
    [reflexivity| | |congruence].
  - destruct (f x); simpl; congruence.
  - destruct (f x), (f y); reflexivity.
Qed.

Section SortingFacts.
Variable A : Type.
Variable geb : A -> A -> bool.
Hypothesis geb_total : forall x y, geb x y = true \/ geb y x = true.
Hypothesis geb_trans :
  forall x y z, geb x y = true -> geb y z = true -> geb x z = true.

Lemma insert_desc_perm x l : Permutation (insert_desc geb x l) (x :: l).
Proof.
  induction l as [|y l IH]; simpl; [reflexivity|].
  destruct (geb x y); [reflexivity|].
  rewrite IH. apply perm_swap.
Qed.

Lemma sort_desc_perm l : Permutation (sort_desc geb l) l.
Proof.
  induction l as [|x l IH]; simpl; [reflexivity|].
  rewrite insert_desc_perm. now constructor.
Qed.

Lemma sort_desc_length l : length (sort_desc geb l) = length l.
Proof. apply Permutation_length, sort_desc_perm. Qed.

Lemma insert_desc_sorted x l :
  StronglySorted (fun a b => geb a b = true) l ->
  StronglySorted (fun a b => geb a b = true) (insert_desc geb x l).
Proof.
  induction 1 as [|y l Hs IH Hy]; simpl.
  - constructor; constructor.
  - destruct (geb x y) eqn:E.
    + constructor; [constructor; assumption|].
      constructor; [assumption|].
      eapply Forall_impl; [|exact Hy]. intros z Hz. eauto.
    + constructor; [assumption|].
      assert (Hyx : geb y x = true) by (destruct (geb_total x y); congruence).
      eapply Permutation_Forall; [symmetry; apply insert_desc_perm|].
      constructor; assumption.
Qed.

Lemma sort_desc_sorted l :
  StronglySorted (fun a b => geb a b = true) (sort_desc geb l).
Proof.
  induction l as [|x l IH]; simpl; [constructor|].
  now apply insert_desc_sorted.
Qed.

(** When every [good] element ranks strictly above every other element, a
    sorted list is its good elements followed by the others. *)
Lemma sorted_good_first (good : A -> bool) l :
  StronglySorted (fun a b => geb a b = true) l ->
  (forall x y, In x l -> In y l -> good x = false -> good y = true ->
               geb x y = false) ->
  exists l1 l2, l = l1 ++ l2 /\
                Forall (fun x => good x = true) l1 /\
                Forall (fun x => good x = false) l2.
Proof.
  induction 1 as [|x l Hs IH Hx]; intros Hdom.
  - exists [], []. repeat split; constructor.
  - destruct (good x) eqn:Gx.
    + destruct IH as (l1 & l2 & -> & H1 & H2).
      { intros a b Ha Hb. apply Hdom; now right. }
      exists (x :: l1), l2. repeat split; [constructor|]; assumption.
    + exists [], (x :: l). repeat split; [constructor|].
      constructor; [assumption|].
      rewrite Forall_forall in Hx |- *. intros y Hy.
      destruct (good y) eqn:Gy; [|reflexivity].
      specialize (Hx y Hy).
      rewrite (Hdom x y (or_introl eq_refl) (or_intror Hy) Gx Gy) in Hx.
      discriminate.
Qed.

Lemma top_all_good (good : A -> bool) l k :
  (forall x y, In x l -> In y l -> good x = false -> good y = true ->
               geb x y = false) ->
  k <= length (filter good l) ->
  Forall (fun x => good x = true) (firstn k (sort_desc geb l)).
Proof.
  intros Hdom Hk.
  pose proof (sort_desc_perm l) as HP.
  destruct (@sorted_good_first good (sort_desc geb l) (sort_desc_sorted l))
    as (l1 & l2 & E & H1 & H2).
  { intros x y Hx Hy. apply Hdom; eapply Permutation_in; eauto. }
  assert (Hlen : length (filter good l) = length l1).
  { rewrite <- (filter_length_perm good HP).
    rewrite E, filter_app, length_app.
    assert (F1 : filter good l1 = l1).
    { clear -H1. induction H1 as [|x l1 Hx _ IH]; simpl; [reflexivity|].
      rewrite Hx, IH. reflexivity. }
    assert (F2 : filter good l2 = []).
    { clear -H2. induction H2 as [|x l2 Hx _ IH]; simpl; [reflexivity|].
      rewrite Hx. exact IH. }
    rewrite F1, F2. simpl. lia. }
  rewrite E, firstn_app.
  replace (k - length l1) with 0 by lia. simpl. rewrite app_nil_r.
  apply Forall_firstn_same. exact H1.
Qed.
End SortingFacts.

(** ** The order on log-probabilities *)

Lemma lp_leb_total a b : lp_leb a b = true \/ lp_leb b a = true.
Proof.
  destruct a as [|x], b as [|y]; simpl; auto.
  rewrite !Qle_bool_iff. destruct (Qlt_le_dec x y) as [H|H]; [left|right]; lra.
Qed.

Lemma lp_leb_trans a b c :
  lp_leb a b = true -> lp_leb b c = true -> lp_leb a c = true.
Proof.
  destruct a as [|x], b as [|y], c as [|z]; simpl; auto; try discriminate.
  rewrite !Qle_bool_iff. lra.
Qed.

Lemma lp_geb_fst_total x y : lp_geb_fst x y = true \/ lp_geb_fst y x = true.
Proof. unfold lp_geb_fst. destruct (lp_leb_total (fst x) (fst y)); auto. Qed.

Lemma lp_geb_fst_trans x y z :
  lp_geb_fst x y = true -> lp_geb_fst y z = true -> lp_geb_fst x z = true.
Proof. unfold lp_geb_fst. eauto using lp_leb_trans. Qed.

(** ** Rows with positions *)

Lemma combine_seq_In (A : Type) (row : list A) (s : nat) v i :
  In (v, i) (combine row (seq s (length row))) <->
  s <= i /\ nth_error row (i - s) = Some v.
Proof.
  revert s. induction row as [|x row IH]; intros s; simpl.
  - split; [tauto|]. intros [_ H]. destruct (i - s); discriminate.
  - rewrite IH. split.
    + intros [H|[H1 H2]].
      * injection H as -> ->. rewrite Nat.sub_diag. auto.
      * split; [lia|]. replace (i - s) with (S (i - S s)) by lia. exact H2.
    + intros [H1 H2]. destruct (i - s) as [|n] eqn:E.
      * left. injection H2 as ->. f_equal. lia.
      * right. split; [lia|]. replace (i - S s) with n by lia. exact H2.
Qed.

Lemma enumerate_In (A : Type) (row : list A) v i :
  In (v, i) (enumerate row) <-> nth_error row i = Some v.
Proof.
  unfold enumerate. rewrite combine_seq_In, Nat.sub_0_r.
  split; [tauto | intros; split; [lia | assumption]].
Qed.

Lemma enumerate_length (A : Type) (row : list A) :
  length (enumerate row) = length row.
Proof. unfold enumerate. rewrite length_combine, length_seq. lia. Qed.

Lemma enumerate_snd (A : Type) (row : list A) :
  map snd (enumerate row) = seq 0 (length row).
Proof.
  unfold enumerate. generalize 0.
  induction row as [|x row IH]; intros s; simpl; [reflexivity|].
  now rewrite IH.
Qed.

(** ** [torch.topk] *)

Lemma topk_inv k row l :
  topk k row = Ok l ->
  (0 <= k <= Z.of_nat (length row))%Z /\ l = top_list k row.
Proof.
  unfold topk, top_list.
  destruct ((k <? 0) || (Z.of_nat (length row) <? k))%Z eqn:E;
    [discriminate|].
  apply orb_false_iff in E. destruct E as [E1 E2].
  apply Z.ltb_ge in E1, E2. intros H. injection H as <-. split; [lia|reflexivity].
Qed.

Lemma topk_ok k row :
  (0 <= k <= Z.of_nat (length row))%Z -> topk k row = Ok (top_list k row).
Proof.
  intros [H1 H2]. unfold topk.
  apply Z.ltb_ge in H1, H2. rewrite H1, H2. reflexivity.
Qed.

Lemma top_list_length k row :
  (0 <= k <= Z.of_nat (length row))%Z ->
  length (top_list k row) = Z.to_nat k.
Proof.
  intros H. unfold top_list.
  rewrite length_firstn, sort_desc_length, enumerate_length. lia.
Qed.

Lemma top_list_In k row v i :
  In (v, i) (top_list k row) -> nth_error row i = Some v.
Proof.
  unfold top_list. intros H. apply In_firstn in H.
  apply enumerate_In. eapply Permutation_in; [apply sort_desc_perm|exact H].
Qed.

(** ** Shapes *)

Lemma every_nth_nil (A : Type) (stride fuel : nat) :
  @every_nth A stride fuel [] = [].
Proof. destruct fuel; reflexivity. Qed.

Lemma strided_first (A : Type) (K : nat) (l : list A) :
  length l = K -> 1 <= K -> strided 0 K l = Ok (firstn 1 l).
Proof.
  intros Hl HK. unfold strided.
  destruct (K =? 0) eqn:E; [apply Nat.eqb_eq in E; lia|].
  destruct l as [|x l]; simpl in *; [lia|].
  destruct K as [|K]; [lia|]. simpl.
  rewrite skipn_all2 by lia. now rewrite every_nth_nil.
Qed.

Lemma wf3_cons (A : Type) (B K V : nat) (m : tensor2 A) (t : tensor3 A) :
  wf3 B K V (m :: t) -> wf2 K V m /\ wf3 (B - 1) K V t /\ 1 <= B.
Proof.
  intros [Hl HF]. inversion HF as [|? ? Hm Ht]; subst. simpl.
  split; [exact Hm|]. split; [|lia].
  split; [lia | exact Ht].
Qed.

Lemma size3_wf (A : Type) (B K V : nat) (m : tensor2 A) (t : tensor3 A) :
  wf3 B K V (m :: t) -> 1 <= K -> size3 (m :: t) = (B, K, V).
Proof.
  intros H HK. destruct (wf3_cons H) as ([Hm HF] & _ & _).
  destruct H as [HB _]. unfold size3. simpl in *.
  destruct m as [|r m]; simpl in *; [lia|].
  inversion HF; subst. congruence.
Qed.

Lemma concat_length_wf2 (A : Type) (K V : nat) (m : tensor2 A) :
  wf2 K V m -> length (concat m) = K * V.
Proof.
  intros [Hl HF]. subst K.
  induction HF as [|r m Hr _ IH]; simpl; [reflexivity|].
  rewrite length_app, IH, Hr. reflexivity.
Qed.

Lemma Forall2_of_Forall (A B : Type) (P : A -> Prop) (Q : B -> Prop) l1 l2 :
  length l1 = length l2 -> Forall P l1 -> Forall Q l2 ->
  Forall2 (fun x y => P x /\ Q y) l1 l2.
Proof.
  intros Hl H1. revert l2 Hl.
  induction H1 as [|x l1 Hx _ IH]; intros [|y l2] Hl H2; simpl in Hl;
    try discriminate; constructor.
  - inversion H2; auto.
  - apply IH; [lia | now inversion H2].
Qed.

Lemma zipM_Forall2_total (A B C : Type) e (f : A -> B -> result C)
  (R : A -> B -> Prop) (P : C -> Prop) l1 l2 :
  Forall2 R l1 l2 ->
  (forall x y, R x y -> exists z, f x y = Ok z /\ P z) ->
  exists l', zipM e f l1 l2 = Ok l' /\ length l' = length l1 /\ Forall P l'.
Proof.
  intros HF Hf. induction HF as [|x y l1 l2 Hxy _ IH]; simpl.
  - exists []. repeat split. constructor.
  - destruct (Hf x y Hxy) as (z & -> & Hz).
    destruct IH as (l' & -> & Hl & HP). simpl.
    exists (z :: l'). repeat split; [simpl; congruence | now constructor].
Qed.

(** ** BeamSearch.step *)

Lemma ranked_0 (B K V : nat) (lprobs scores : tensor3 lprob) :
  wf3 B K V lprobs -> 1 <= K ->
  ranked 0 lprobs scores = Ok (map (firstn 1) lprobs).
Proof.
  intros H HK. unfold ranked, size3. simpl. unfold slice_dim1.
  destruct lprobs as [|m t]; [reflexivity|].
  pose proof (wf3_cons H) as ([Hm _] & _ & _). simpl hd. rewrite Hm.
  apply mapM_ok_map. intros x Hx. apply strided_first; [|assumption].
  destruct H as [_ HF]. rewrite Forall_forall in HF. now apply HF.
Qed.

Lemma add_last_score_wf (B K V T step : nat) (lprobs scores : tensor3 lprob) :
  wf3 B K V lprobs -> wf3 B K T scores -> 0 < step <= T ->
  exists cum, add_last_score step lprobs scores = Ok cum /\ wf3 B K V cum.
Proof.
  intros [HB HL] [HB' HS] Hstep. unfold add_last_score.
  destruct (@zipM_Forall2_total _ _ _ RuntimeError
              (zipM RuntimeError
                 (fun row hist =>
                    s <- getitem hist (step - 1) ;;
                    Ok (map (fun x => lp_add x s) row)))
              (fun m h => wf2 K V m /\ wf2 K T h) (wf2 K V) lprobs scores)
    as (cum & E & Hl & HP).
  - apply Forall2_of_Forall; [congruence | assumption | assumption].
  - intros m h [[Hm HFm] [Hh HFh]].
    destruct (@zipM_Forall2_total _ _ _ RuntimeError
                (fun row hist =>
                   s <- getitem hist (step - 1) ;;
                   Ok (map (fun x => lp_add x s) row))
                (fun (r hst : list lprob) => length r = V /\ length hst = T)
                (fun r : list lprob => length r = V) m h)
      as (m' & E & Hl & HP).
    + apply Forall2_of_Forall; [congruence | assumption | assumption].
    + intros r hst [Hr Hh']. unfold getitem.
      destruct (nth_error hst (step - 1)) as [s|] eqn:En.
      * simpl. eexists. split; [reflexivity|]. now rewrite length_map.
      * apply nth_error_None in En. lia.
    + exists m'. split; [exact E|]. split; [congruence | assumption].
  - exists cum. split; [exact E|]. split; [congruence | assumption].
Qed.

Lemma ranked_wf (B K V step : nat) (lprobs scores : tensor3 lprob) :
  wf3 B K V lprobs -> 1 <= K -> wf_scores B K step scores ->
  exists cum, ranked step lprobs scores = Ok cum /\
              wf3 B (if step =? 0 then 1 else K) V cum.
Proof.
  intros H HK Hs. destruct step as [|step].
  - rewrite (ranked_0 scores H HK). eexists. split; [reflexivity|].
    destruct H as [HB HF]. split; [now rewrite length_map|].
    simpl. apply Forall_map. eapply Forall_impl; [|exact HF].
    intros m [Hm HFm]. destruct m as [|r m]; simpl in *; [lia|].
    split; [reflexivity|]. constructor; [now inversion HFm | constructor].
  - destruct (Hs ltac:(lia)) as (T & HT & Hle).
    destruct (@add_last_score_wf B K V T (S step) lprobs scores H HT ltac:(lia))
      as (cum & E & Hc).
    exists cum. split; [|exact Hc].
    unfold ranked, size3. simpl. exact E.
Qed.

(** What [BeamSearch.step] returns, from the ranked tensor. *)
Lemma BeamSearch_step_inv step lprobs scores s i b :
  BeamSearch_step step lprobs scores = Ok (s, i, b) ->
  let K := length (hd [] lprobs) in
  let V := length (hd [] (hd [] lprobs)) in
  exists cum top,
    ranked step lprobs scores = Ok cum /\
    mapM (topk (Z.min (Z.of_nat K * 2)
                      (Z.of_nat (size_dim1 (view_flat cum)) - 1)))
         (view_flat cum) = Ok top /\
    s = map (map fst) top /\
    i = map (map (fun x => snd x mod V)) top /\
    b = map (map (fun x => snd x / V)) top.
Proof.
  unfold BeamSearch_step, ranked, size3. intros H.
  inv_bind H. inv_bind H. inv_bind H. inv_bind H.
  injection H as <- <- <-.
  exists a, a0. split; [exact Hc|]. split; [exact Hc0|].
  unfold div_long in Hc1. unfold fmod_long in Hc2.
  destruct (_ && _) in Hc1; [discriminate|].
  destruct (_ && _) in Hc2; [discriminate|].
  injection Hc1 as <-. injection Hc2 as <-.
  rewrite !map_map.
  repeat split; apply map_ext; intros r; rewrite map_map; reflexivity.
Qed.

Lemma BeamSearch_step_total (B K V step : nat) (lprobs scores : tensor3 lprob) :
  wf3 B K V lprobs -> 1 <= K -> 1 <= V -> wf_scores B K step scores ->
  exists s i b, BeamSearch_step step lprobs scores = Ok (s, i, b).
Proof.
  intros H HK HV Hs.
  destruct (BeamSearch_step step lprobs scores) as [[[s i] b]|e] eqn:EB;
    [eauto | exfalso].
  destruct (ranked_wf H HK Hs) as (cum & E & Hc).
  destruct lprobs as [|m t].
  { destruct Hc as [Hc _]. destruct H as [HB _]. simpl in HB. subst B.
    destruct cum; [|discriminate].
    unfold BeamSearch_step, ranked, size3 in *. simpl in *.
    rewrite E in EB. discriminate. }
  unfold BeamSearch_step in EB. unfold ranked in E.
  pose proof (size3_wf H HK) as Hsz3. rewrite Hsz3 in E, EB.
  rewrite E in EB. simpl in EB.
  set (K' := if step =? 0 then 1 else K) in *.
  assert (HK' : 1 <= K') by (subst K'; destruct (step =? 0); lia).
  assert (Hflat : Forall (fun r => length r = K' * V) (view_flat cum)).
  { unfold view_flat. apply Forall_map. destruct Hc as [_ Hc].
    eapply Forall_impl; [|exact Hc]. intros x. apply concat_length_wf2. }
  assert (Hsz : size_dim1 (view_flat cum) = K' * V).
  { destruct Hc as [HB Hc]. destruct H as [HB' _]. simpl in HB'.
    destruct cum as [|c cum]; [simpl in HB; lia|].
    inversion Hflat; subst. assumption. }
  rewrite Hsz in EB.
  destruct (@mapM_total _ _
              (topk (Z.min (Z.of_nat K * 2) (Z.of_nat (K' * V) - 1)))
              (view_flat cum)) as (top & Etop).
  { intros r Hr. rewrite Forall_forall in Hflat. specialize (Hflat r Hr).
    eexists. apply topk_ok. rewrite Hflat. nia. }
  rewrite Etop in EB. simpl in EB. unfold div_long, fmod_long in EB.
  destruct (V =? 0) eqn:EV; [apply Nat.eqb_eq in EV; lia|].
  simpl in EB. discriminate.
Qed.

Lemma mapM_closed (A B : Type) (f : A -> result B) (g : A -> B) l l' :
  mapM f l = Ok l' -> (forall x y, In x l -> f x = Ok y -> y = g x) ->
  l' = map g l.
Proof.
  intros H Hg. apply mapM_Forall2 in H.
  induction H as [|x y l l' Hxy _ IH]; simpl; [reflexivity|].
  f_equal; [apply Hg; [now left | assumption]|].
  apply IH. intros z w Hz. apply Hg. now right.
Qed.

Lemma beam_k_bounds (step K V : nat) :
  1 <= K -> 1 <= V ->
  (0 <= beam_k step K V <= Z.of_nat (flat_size step K V) - 1)%Z.
Proof.
  intros HK HV. unfold beam_k, flat_size. destruct (step =? 0); nia.
Qed.

(** The closed form of [BeamSearch.step] on well-shaped inputs. *)
Lemma BeamSearch_step_closed (B K V step : nat) (lprobs scores : tensor3 lprob) :
  wf3 B K V lprobs -> 1 <= K -> 1 <= V -> wf_scores B K step scores ->
  exists cum,
    ranked step lprobs scores = Ok cum /\
    wf3 B (if step =? 0 then 1 else K) V cum /\
    let top := map (top_list (beam_k step K V)) (view_flat cum) in
    BeamSearch_step step lprobs scores =
    Ok (map (map fst) top,
        map (map (fun x => snd x mod V)) top,
        map (map (fun x => snd x / V)) top).
Proof.
  intros H HK HV Hs.
  destruct (ranked_wf H HK Hs) as (cum & E & Hc).
  exists cum. split; [exact E|]. split; [exact Hc|].
  destruct (BeamSearch_step_total H HK HV Hs) as (s & i & b & EB).
  rewrite EB.
  destruct (BeamSearch_step_inv _ _ _ EB)
    as (cum' & top & E' & Et & -> & -> & ->).
  rewrite E in E'. injection E' as <-.
  destruct lprobs as [|m t].
  { destruct Hc as [Hc _]. destruct H as [HB _]. simpl in HB. subst B.
    destruct cum; [|discriminate]. simpl in Et. injection Et as <-.
    reflexivity. }
  pose proof (size3_wf H HK) as Hsz3. unfold size3 in Hsz3.
  injection Hsz3 as _ HKe HVe. simpl hd in *. rewrite HKe in Et.
  rewrite HVe. clear EB.
  assert (Hsz : size_dim1 (view_flat cum) = flat_size step K V).
  { destruct Hc as [HB Hc]. destruct H as [HB' _]. simpl in HB'.
    destruct cum as [|c cum]; [simpl in HB; lia|].
    inversion Hc as [|? ? Hw _]; subst. unfold size_dim1. simpl.
    rewrite (concat_length_wf2 Hw). unfold flat_size.
    destruct (step =? 0); lia. }
  rewrite Hsz in Et. fold (beam_k step K V) in Et.
  rewrite (@mapM_closed _ _ _ (top_list (beam_k step K V)) _ _ Et);
    [reflexivity|].
  intros x y _ Hxy. now apply topk_inv in Hxy.
Qed.

Lemma ranked_flat_length (B K V step : nat) (cum : tensor3 lprob) :
  wf3 B (if step =? 0 then 1 else K) V cum ->
  Forall (fun r => length r = flat_size step K V) (view_flat cum).
Proof.
  intros [_ Hc]. unfold view_flat. apply Forall_map.
  eapply Forall_impl; [|exact Hc]. intros m Hm.
  rewrite (concat_length_wf2 Hm). unfold flat_size.
  destruct (step =? 0); lia.
Qed.

Lemma wf2_map_rows (A B : Type) (n w : nat) (f : list A -> list B)
  (t : tensor2 A) :
  length t = n -> Forall (fun r => length (f r) = w) t -> wf2 n w (map f t).
Proof.
  intros Hn HF. split; [now rewrite length_map|].
  apply Forall_map. exact HF.
Qed.

(** The shape of what [BeamSearch.step] returns, and the range of the
    returned token ids. *)
Lemma BeamSearch_step_shape (B K V step : nat) (lprobs scores : tensor3 lprob) :
  wf3 B K V lprobs -> 1 <= K -> 1 <= V -> wf_scores B K step scores ->
  exists s i b,
    BeamSearch_step step lprobs scores = Ok (s, i, b) /\
    wf2 B (beam_width step K V) s /\
    wf2 B (beam_width step K V) i /\
    wf2 B (beam_width step K V) b /\
    beam_width step K V < flat_size step K V /\
    beam_width step K V =
      (if step =? 0 then Nat.min (2 * K) (V - 1)
       else Nat.min (2 * K) (K * V - 1)) /\
    Forall (Forall (fun x => x < V)) i.
Proof.
  intros H HK HV Hs.
  destruct (BeamSearch_step_closed H HK HV Hs) as (cum & E & Hc & EB).
  cbv zeta in EB. do 3 eexists. split; [exact EB|].
  pose proof (beam_k_bounds step HK HV) as Hk.
  pose proof (ranked_flat_length _ _ Hc) as Hflat.
  assert (Hrow : Forall (fun r => length (top_list (beam_k step K V) r)
                                  = beam_width step K V) (view_flat cum)).
  { eapply Forall_impl; [|exact Hflat]. intros r Hr.
    apply top_list_length. rewrite Hr. lia. }
  assert (Hlen : length (map (top_list (beam_k step K V)) (view_flat cum)) = B).
  { unfold view_flat. rewrite !length_map. apply Hc. }
  assert (Hw : wf2 B (beam_width step K V)
                   (map (top_list (beam_k step K V)) (view_flat cum))).
  { split; [exact Hlen|]. apply Forall_map. exact Hrow. }
  repeat split.
  - now rewrite length_map.
  - apply Forall_map. eapply Forall_impl; [|apply Hw].
    intros r Hr. now rewrite length_map.
  - now rewrite length_map.
  - apply Forall_map. eapply Forall_impl; [|apply Hw].
    intros r Hr. now rewrite length_map.
  - now rewrite length_map.
  - apply Forall_map. eapply Forall_impl; [|apply Hw].
    intros r Hr. now rewrite length_map.
  - unfold beam_width. lia.
  - unfold beam_width, beam_k, flat_size. destruct (step =? 0); lia.
  - rewrite !Forall_map. apply Forall_forall. intros r _.
    rewrite Forall_map. apply Forall_forall. intros x _.
    apply Nat.mod_upper_bound. lia.
Qed.

(** C2 (amended): for lprobs of shape (B, K, V) with at least one batch
    element [BeamSearch.step] returns three arrays of B rows whose common
    width is min(2K, V-1) at step 0 and min(2K, K*V-1) at every later step;
    in both cases the width is smaller than the number of flattened
    candidates, so at least one candidate is left out. *)
Theorem BeamSearch_step_width (B K V step : nat) (lprobs scores : tensor3 lprob) :
  wf3 B K V lprobs -> 1 <= B -> 1 <= K -> 1 <= V ->
  wf_scores B K step scores ->
  exists s i b,
    BeamSearch_step step lprobs scores = Ok (s, i, b) /\
    wf2 B (beam_width step K V) s /\
    wf2 B (beam_width step K V) i /\
    wf2 B (beam_width step K V) b /\
    beam_width step K V < flat_size step K V /\
    beam_width step K V =
      (if step =? 0 then Nat.min (2 * K) (V - 1)
       else Nat.min (2 * K) (K * V - 1)).
Proof.
  intros H _ HK HV Hs.
  destruct (BeamSearch_step_shape H HK HV Hs)
    as (s & i & b & E & Ws & Wi & Wb & Hlt & Hw & _).
  exists s, i, b. repeat split; solve [assumption | apply Ws | apply Wi | apply Wb].
Qed.

Lemma BeamSearch_step_width_witness :
  exists s i b,
    BeamSearch_step 1
      [[[lp (-5); lp 0; lp (-3)]; [lp (-1); lp (-5); NegInf]]]
      [[[lp (-1)]; [lp (-2)]]] = Ok (s, i, b) /\
    wf2 1 (beam_width 1 2 3) s /\
    wf2 1 (beam_width 1 2 3) i /\
    wf2 1 (beam_width 1 2 3) b /\
    beam_width 1 2 3 < flat_size 1 2 3 /\
    beam_width 1 2 3 = Nat.min (2 * 2) (2 * 3 - 1).
Proof.
  apply (@BeamSearch_step_width 1 2 3 1).
  - split; [reflexivity|]. repeat constructor.
  - lia.
  - lia.
  - lia.
  - intros _. exists 1. split; [|lia].
    split; [reflexivity|]. repeat constructor.
Defined.

(** C2 as stated fails: with K = 2 and V = 3 the width at step 1 is 4, not
    min(2K, V-1) = 2. *)
Lemma BeamSearch_step_width_not_uniform :
  ~ (forall (B K V step : nat) (lprobs scores : tensor3 lprob) s i b,
        wf3 B K V lprobs ->
        BeamSearch_step step lprobs scores = Ok (s, i, b) ->
        wf2 B (Nat.min (2 * K) (V - 1)) s).
Proof.
  intros H.
  specialize (H 1 2 3 1
                [[[lp (-5); lp 0; lp (-3)]; [lp (-1); lp (-5); NegInf]]]
                [[[lp (-1)]; [lp (-2)]]]
                [[lp (-1); lp (-3); lp (-4); lp (-6)]]
                [[1; 0; 2; 0]] [[0; 1; 0; 0]]).
  destruct H as [_ H].
  - split; [reflexivity|]. repeat constructor.
  - vm_compute. reflexivity.
  - inversion H as [|? ? Hr _]. simpl in Hr. discriminate.
Qed.

(** ** Counting the candidates of one token *)

Lemma nth_error_concat (A : Type) (K V : nat) (m : tensor2 A) i v :
  wf2 K V m -> 1 <= V -> nth_error (concat m) i = Some v ->
  exists r, nth_error m (i / V) = Some r /\ nth_error r (i mod V) = Some v.
Proof.
  intros [_ HF] HV. clear K. revert i.
  induction HF as [|r m Hr _ IH]; intros i Hi; simpl in Hi.
  - destruct i; discriminate.
  - destruct (Nat.lt_ge_cases i V) as [Hlt|Hge].
    + rewrite nth_error_app1 in Hi by lia.
      rewrite Nat.div_small, Nat.mod_small by lia. simpl. eauto.
    + rewrite nth_error_app2 in Hi by lia. rewrite Hr in Hi.
      destruct (IH _ Hi) as (r' & H1 & H2).
      assert (Ei : i = (i - V) + 1 * V) by lia.
      exists r'. split.
      * rewrite Ei, Nat.div_add by lia.
        replace ((i - V) / V + 1) with (S ((i - V) / V)) by lia. exact H1.
      * rewrite Ei, Nat.Div0.mod_add. exact H2.
Qed.

Lemma filter_map_length (A B : Type) (f : B -> bool) (g : A -> B) (l : list A) :
  length (filter (fun x => f (g x)) l) = length (filter f (map g l)).
Proof.
  induction l as [|x l IH]; simpl; [reflexivity|].
  destruct (f (g x)); simpl; congruence.
Qed.

Lemma count_neq_seq (p s n : nat) :
  s <= p < s + n ->
  length (filter (fun j => negb (j =? p)) (seq s n)) = n - 1.
Proof.
  revert s. induction n as [|n IH]; intros s Hp; [lia|]. simpl.
  destruct (s =? p) eqn:E; simpl.
  - apply Nat.eqb_eq in E. subst s.
    rewrite Nat.sub_0_r.
    assert (F : forall m k, p < k ->
                length (filter (fun j => negb (j =? p)) (seq k m)) = m).
    { induction m as [|m IHm]; intros k Hk; simpl; [reflexivity|].
      destruct (k =? p) eqn:E'; [apply Nat.eqb_eq in E'; lia|].
      simpl. rewrite IHm by lia. reflexivity. }
    apply F. lia.
  - apply Nat.eqb_neq in E. rewrite IH by lia. lia.
Qed.

Lemma seq_map_add (s t n : nat) :
  seq (s + t) n = map (fun j => s + j) (seq t n).
Proof.
  revert t. induction n as [|n IH]; intros t; simpl; [reflexivity|].
  f_equal. rewrite <- IH. f_equal. lia.
Qed.

Lemma filter_length_ext_in (A : Type) (f g : A -> bool) (l : list A) :
  (forall x, In x l -> f x = g x) ->
  length (filter f l) = length (filter g l).
Proof.
  intros H. rewrite (filter_ext_in f g l H). reflexivity.
Qed.

Lemma count_other_tokens (p V n : nat) :
  p < V ->
  length (filter (fun i => negb (i mod V =? p)) (seq 0 (n * V))) = n * (V - 1).
Proof.
  intros Hp. induction n as [|n IH]; [reflexivity|].
  replace (S n * V) with (n * V + V) by lia.
  rewrite seq_app, filter_app, length_app, IH.
  rewrite (Nat.add_comm 0 (n * V)), seq_map_add.
  rewrite <- (filter_map_length (fun i => negb (i mod V =? p))
                                (fun j => n * V + j) (seq 0 V)).
  rewrite (@filter_length_ext_in _ _ (fun j => negb (j =? p))).
  - rewrite count_neq_seq by lia. lia.
  - intros j Hj. apply in_seq in Hj.
    rewrite Nat.add_comm, Nat.Div0.mod_add, Nat.mod_small by lia.
    reflexivity.
Qed.

Lemma pad_dominatedb_sound (p : nat) (t : tensor3 lprob) :
  pad_dominatedb p t = true -> pad_dominated p t.
Proof.
  unfold pad_dominatedb, pad_dominated.
  intros H beams r1 r2 x y v Hb H1 H2 Hx Hy Hv.
  rewrite forallb_forall in H. specialize (H _ Hb).
  rewrite forallb_forall in H. specialize (H _ H1). rewrite Hx in H.
  rewrite forallb_forall in H. specialize (H _ H2).
  rewrite forallb_forall in H. specialize (H (y, v)).
  simpl in H. apply enumerate_In in Hy. specialize (H Hy).
  apply orb_true_iff in H. destruct H as [H|H]; [|exact H].
  apply Nat.eqb_eq in H. contradiction.
Qed.

(** The entries that [torch.topk] keeps of the flattened candidates of one
    batch element are never those of a dominated token. *)
Lemma top_list_skips_dominated (K V p : nat) (m : tensor2 lprob) (k : Z) x :
  wf2 K V m -> p < V ->
  (forall r1 r2 a b v,
      In r1 m -> In r2 m -> nth_error r1 p = Some a ->
      nth_error r2 v = Some b -> v <> p -> lp_ltb a b = true) ->
  (0 <= k <= Z.of_nat (K * (V - 1)))%Z ->
  In x (top_list k (concat m)) -> snd x mod V <> p.
Proof.
  intros Hm Hp Hdom Hk Hx.
  set (good := fun y : lprob * nat => negb (snd y mod V =? p)).
  assert (HF : Forall (fun y => good y = true) (top_list k (concat m))).
  { unfold top_list.
    apply (@top_all_good _ lp_geb_fst lp_geb_fst_total lp_geb_fst_trans).
    - intros [a ia] [b ib] Ha Hb Ga Gb. unfold good in Ga, Gb. simpl in *.
      apply negb_false_iff, Nat.eqb_eq in Ga.
      apply negb_true_iff, Nat.eqb_neq in Gb.
      apply enumerate_In in Ha, Hb.
      destruct (nth_error_concat _ Hm ltac:(lia) Ha) as (r1 & R1 & N1).
      destruct (nth_error_concat _ Hm ltac:(lia) Hb) as (r2 & R2 & N2).
      rewrite Ga in N1.
      pose proof (Hdom r1 r2 a b (ib mod V) (nth_error_In _ _ R1)
                       (nth_error_In _ _ R2) N1 N2 Gb) as Hlt.
      unfold lp_ltb in Hlt. apply negb_true_iff in Hlt.
      unfold lp_geb_fst. exact Hlt.
    - unfold good.
      rewrite (filter_map_length (fun i => negb (i mod V =? p)) snd).
      rewrite enumerate_snd, (concat_length_wf2 Hm).
      rewrite count_other_tokens by assumption. lia. }
  rewrite Forall_forall in HF. specialize (HF x Hx). unfold good in HF.
  apply negb_true_iff, Nat.eqb_neq in HF. exact HF.
Qed.

(** C4 (amended): on a well-shaped input with at least one batch element,
    when in every batch element the pad entries of the ranked tensor lie
    strictly below all other entries (as when the caller sets the pad
    log-probability to minus infinity and the others are finite), and
    V >= 3 or a single beam is ranked, [BeamSearch.step] returns and the
    indices it returns never contain the pad token id. *)
Theorem BeamSearch_step_never_pad (B K V step p : nat)
  (lprobs scores cum : tensor3 lprob) :
  wf3 B K V lprobs -> 1 <= B -> 1 <= K -> p < V ->
  wf_scores B K step scores ->
  step = 0 \/ K = 1 \/ 3 <= V ->
  ranked step lprobs scores = Ok cum -> pad_dominated p cum ->
  exists s i b,
    BeamSearch_step step lprobs scores = Ok (s, i, b) /\
    Forall (fun row => ~ In p row) i.
Proof.
  intros H _ HK Hp Hs Hcase E Hdom.
  destruct (BeamSearch_step_closed H HK ltac:(lia) Hs) as (cum' & E' & Hc & EB).
  rewrite E in E'. injection E' as <-.
  cbv zeta in EB. do 3 eexists. split; [exact EB|].
  unfold view_flat. rewrite !Forall_map.
  apply Forall_forall. intros m Hm Hin.
  apply in_map_iff in Hin. destruct Hin as (x & Hx & Hin).
  destruct Hc as [_ Hc]. rewrite Forall_forall in Hc.
  refine (@top_list_skips_dominated _ _ _ _ _ x (Hc m Hm) Hp _ _ Hin Hx).
  - intros r1 r2 a b v. apply Hdom. exact Hm.
  - unfold beam_k, flat_size.
    destruct (step =? 0) eqn:Es.
    + lia.
    + apply Nat.eqb_neq in Es. destruct Hcase as [?|[->|HV]]; [lia|lia|nia].
Qed.

Lemma BeamSearch_step_never_pad_witness :
  exists s i b,
    BeamSearch_step 0 [[[lp (-5); NegInf; lp (-3); lp (-4)]]] [] = Ok (s, i, b) /\
    Forall (fun row => ~ In 1 row) i.
Proof.
  apply (@BeamSearch_step_never_pad 1 1 4 0 1
           [[[lp (-5); NegInf; lp (-3); lp (-4)]]] []
           [[[lp (-5); NegInf; lp (-3); lp (-4)]]]).
  - split; [reflexivity|]. repeat constructor.
  - lia.
  - lia.
  - lia.
  - intros Hlt. inversion Hlt.
  - left. reflexivity.
  - reflexivity.
  - apply pad_dominatedb_sound. vm_compute. reflexivity.
Defined.

(** C4 as stated fails: nothing keeps a pad entry that is among the best
    out of the selection.  With pad = 1 and the row [-5, 0, -3, -4] at step 0
    the returned indices are [1, 2]. *)
Lemma BeamSearch_step_selects_pad :
  ~ (forall (p step : nat) (lprobs scores : tensor3 lprob) s i b,
        BeamSearch_step step lprobs scores = Ok (s, i, b) ->
        Forall (fun row => ~ In p row) i).
Proof.
  intros H.
  specialize (H 1 0 [[[lp (-5); lp 0; lp (-3); lp (-4)]]] []
                [[lp 0; lp (-3)]] [[1; 2]] [[0; 0]] eq_refl).
  inversion H as [|? ? Hrow _]. apply Hrow. simpl. auto.
Qed.

(** ** LengthConstrainedBeamSearch.step *)

Lemma setitem_upd (A : Type) (i : nat) (v : A) (l : list A) :
  i < length l -> setitem i v l = Ok (upd i v l).
Proof.
  revert i. induction l as [|x l IH]; intros [|i] Hi; simpl in *;
    try lia; [reflexivity|].
  rewrite IH by lia. reflexivity.
Qed.

Lemma upd_length (A : Type) (i : nat) (v : A) (l : list A) :
  length (upd i v l) = length l.
Proof.
  revert i. induction l as [|x l IH]; intros [|i]; simpl; auto.
Qed.

Lemma upd_same (A : Type) (i : nat) (v : A) (l : list A) :
  i < length l -> nth_error (upd i v l) i = Some v.
Proof.
  revert i. induction l as [|x l IH]; intros [|i] Hi; simpl in *;
    try lia; [reflexivity|].
  apply IH. lia.
Qed.

Lemma upd_other (A : Type) (i j : nat) (v : A) (l : list A) :
  j <> i -> nth_error (upd i v l) j = nth_error l j.
Proof.
  revert i j. induction l as [|x l IH]; intros [|i] [|j] Hij; simpl;
    try reflexivity; try lia.
  apply IH. lia.
Qed.

Lemma wf2_map_upd (A : Type) (K V e : nat) (v : A) (beams : tensor2 A) :
  wf2 K V beams -> wf2 K V (map (upd e v) beams).
Proof.
  intros [Hl HF]. split; [now rewrite length_map|].
  apply Forall_map. eapply Forall_impl; [|exact HF].
  intros r Hr. now rewrite upd_length.
Qed.

(** One masked assignment with a mask of one entry per batch element. *)
Lemma setitem_masked_vector (B K V e : nat) (v : lprob) (test : Z -> bool)
  (lens : list Z) (lprobs : tensor3 lprob) :
  length lens = B -> wf3 B K V lprobs -> e < V ->
  exists t,
    setitem_masked (compare_with test (Vector1 lens)) e v lprobs = Ok t /\
    wf3 B K V t /\
    forall n src beams,
      nth_error lens n = Some src -> nth_error lprobs n = Some beams ->
      nth_error t n = Some (if test src then map (upd e v) beams else beams).
Proof.
  intros Hl [HB HF] He. simpl. rewrite <- Hl in *. clear Hl B.
  revert lens HB. induction HF as [|beams lprobs Hb _ IH]; intros lens Hl.
  - destruct lens; [|discriminate]. exists []. simpl.
    repeat split; [constructor|]. intros [|n]; discriminate.
  - destruct lens as [|src lens]; [discriminate|]. simpl in Hl.
    destruct (IH lens ltac:(lia)) as (t & Et & [Htl Htf] & Hn).
    simpl. rewrite (@mapM_ok_map _ _ (setitem e v) (upd e v)).
    2:{ intros r Hr. apply setitem_upd. destruct Hb as [_ Hb].
        rewrite Forall_forall in Hb. rewrite (Hb r Hr). exact He. }
    simpl. rewrite Et. simpl. eexists. split; [reflexivity|]. split.
    + split; [simpl; congruence|]. constructor; [|exact Htf].
      destruct (test src); [now apply wf2_map_upd | exact Hb].
    + intros [|n] s b; simpl; intros H1 H2.
      * injection H1 as ->. injection H2 as ->. reflexivity.
      * now apply Hn.
Qed.

(** One masked assignment with a mask of no dimension. *)
Lemma setitem_masked_scalar (B K V e : nat) (v : lprob) (c : bool)
  (lprobs : tensor3 lprob) :
  wf3 B K V lprobs -> e < K ->
  exists t,
    setitem_masked (BScalar0 c) e v lprobs = Ok t /\
    wf3 B K V t /\ (c = false -> t = lprobs).
Proof.
  intros [HB HF] He. unfold setitem_masked. subst B.
  induction HF as [|beams lprobs Hb _ IH].
  - exists []. repeat split. constructor.
  - destruct IH as (t & Et & [Htl Htf] & Hc). cbn [mapM].
    destruct Hb as [Hbl Hbf]. unfold getitem at 1.
    destruct (nth_error beams e) as [row|] eqn:En.
    2:{ apply nth_error_None in En. lia. }
    cbn [bind]. rewrite setitem_upd by lia. cbn [bind]. rewrite Et.
    cbn [bind].
    eexists. split; [reflexivity|]. split; [split|].
    + simpl. congruence.
    + constructor; [|exact Htf]. destruct c; [|now split].
      split; [now rewrite upd_length|].
      assert (Hrow : length row = V).
      { rewrite Forall_forall in Hbf. apply Hbf.
        eapply nth_error_In; eauto. }
      clear -Hbf Hrow. revert e.
      induction Hbf as [|r beams Hr Hrest IH]; intros [|e]; simpl;
        constructor; auto.
      now rewrite length_map.
    + intros ->. f_equal. now apply Hc.
Qed.

(** C7 (amended): with per-example source lengths, before delegating to
    [BeamSearch.step] the end-of-sequence entry of every row of a batch
    element is minus infinity when step > max_len, 0 when step = max_len,
    minus infinity when step < min_len and step <> max_len, and unchanged
    otherwise (the last assignment that applies wins); every other
    vocabulary entry is left unchanged. *)
Theorem length_mask_eos (self : LengthConstrainedBeamSearch)
  (B K V step : nat) (lens : list Z) (lprobs scores : tensor3 lprob) :
  src_lengths (lc_base self) = Vector1 lens -> length lens = B ->
  wf3 B K V lprobs -> eos (lc_base self) < V ->
  exists masked,
    length_mask self step lprobs = Ok masked /\
    wf3 B K V masked /\
    LengthConstrainedBeamSearch_step self step lprobs scores =
      BeamSearch_step step masked scores /\
    forall n src beams i row,
      nth_error lens n = Some src ->
      nth_error lprobs n = Some beams ->
      nth_error beams i = Some row ->
      exists beams' row',
        nth_error masked n = Some beams' /\
        nth_error beams' i = Some row' /\
        let e := eos (lc_base self) in
        let min_len := (min_len_a self * src + min_len_b self)%Z in
        let max_len := (max_len_a self * src + max_len_b self)%Z in
        (forall v, v <> e -> nth_error row' v = nth_error row v) /\
        ((Z.of_nat step < min_len)%Z -> Z.of_nat step <> max_len ->
         nth_error row' e = Some NegInf) /\
        (Z.of_nat step = max_len -> nth_error row' e = Some (Fin 0)) /\
        ((max_len < Z.of_nat step)%Z -> nth_error row' e = Some NegInf) /\
        ((min_len <= Z.of_nat step < max_len)%Z ->
         nth_error row' e = nth_error row e).
Proof.
  intros Hsrc Hl Hwf He.
  unfold LengthConstrainedBeamSearch_step, length_mask. rewrite Hsrc.
  set (fmin := fun z => (min_len_a self * z + min_len_b self)%Z).
  set (fmax := fun z => (max_len_a self * z + max_len_b self)%Z).
  set (e := eos (lc_base self)) in *.
  change (affine (min_len_a self) (min_len_b self) (Vector1 lens))
    with (Vector1 (map fmin lens)).
  change (affine (max_len_a self) (max_len_b self) (Vector1 lens))
    with (Vector1 (map fmax lens)).
  assert (Hlmin : length (map fmin lens) = B) by now rewrite length_map.
  assert (Hlmax : length (map fmax lens) = B) by now rewrite length_map.
  destruct (@setitem_masked_vector B K V e NegInf
              (fun m => (Z.of_nat step <? m)%Z) _ _ Hlmin Hwf He)
    as (t1 & E1 & W1 & N1).
  destruct (@setitem_masked_vector B K V e (Fin 0)
              (fun m => (Z.of_nat step =? m)%Z) _ _ Hlmax W1 He)
    as (t2 & E2 & W2 & N2).
  destruct (@setitem_masked_vector B K V e NegInf
              (fun m => (m <? Z.of_nat step)%Z) _ _ Hlmax W2 He)
    as (t3 & E3 & W3 & N3).
  rewrite E1. cbn [bind]. rewrite E2. cbn [bind]. rewrite E3. cbn [bind].
  exists t3. split; [reflexivity|]. split; [exact W3|]. split; [reflexivity|].
  intros n src beams i row Hn Hb Hi.
  pose proof (map_nth_error fmin _ _ Hn) as Hmin.
  pose proof (map_nth_error fmax _ _ Hn) as Hmax.
  specialize (N1 _ _ _ Hmin Hb). specialize (N2 _ _ _ Hmax N1).
  specialize (N3 _ _ _ Hmax N2).
  assert (Hrow : e < length row).
  { destruct Hwf as [_ HF]. rewrite Forall_forall in HF.
    destruct (HF beams (nth_error_In _ _ Hb)) as [_ HR].
    rewrite Forall_forall in HR. rewrite (HR row (nth_error_In _ _ Hi)).
    exact He. }
  unfold fmin, fmax in N3 |- *. clear N1 N2.
  destruct (Z.ltb_spec (Z.of_nat step)
                       (min_len_a self * src + min_len_b self)) as [C1|C1];
  destruct (Z.eqb_spec (Z.of_nat step)
                       (max_len_a self * src + max_len_b self)) as [C2|C2];
  destruct (Z.ltb_spec (max_len_a self * src + max_len_b self)
                       (Z.of_nat step)) as [C3|C3];
    try lia;
    (eexists; eexists; split; [exact N3|]);
    (split; [repeat (apply map_nth_error); exact Hi|]);
    cbv zeta; repeat split; intros;
    repeat first [ lia
                 | reflexivity
                 | rewrite upd_same by (rewrite ?upd_length; lia)
                 | rewrite upd_other by assumption ].
Qed.

Lemma length_mask_eos_witness :
  exists masked,
    length_mask (example_lc (Vector1 [7%Z]) 3 5) 5
      [[[lp (-1); lp (-2); lp (-3); lp (-4)]]] = Ok masked /\
    wf3 1 1 4 masked /\
    LengthConstrainedBeamSearch_step (example_lc (Vector1 [7%Z]) 3 5) 5
      [[[lp (-1); lp (-2); lp (-3); lp (-4)]]] [] =
      BeamSearch_step 5 masked [] /\
    forall n src beams i row,
      nth_error [7%Z] n = Some src ->
      nth_error [[[lp (-1); lp (-2); lp (-3); lp (-4)]]] n = Some beams ->
      nth_error beams i = Some row ->
      exists beams' row',
        nth_error masked n = Some beams' /\
        nth_error beams' i = Some row' /\
        let e := 2 in
        let min_len := (0 * src + 3)%Z in
        let max_len := (0 * src + 5)%Z in
        (forall v, v <> e -> nth_error row' v = nth_error row v) /\
        ((Z.of_nat 5 < min_len)%Z -> Z.of_nat 5 <> max_len ->
         nth_error row' e = Some NegInf) /\
        (Z.of_nat 5 = max_len -> nth_error row' e = Some (Fin 0)) /\
        ((max_len < Z.of_nat 5)%Z -> nth_error row' e = Some NegInf) /\
        ((min_len <= Z.of_nat 5 < max_len)%Z ->
         nth_error row' e = nth_error row e).
Proof.
  apply (@length_mask_eos (example_lc (Vector1 [7%Z]) 3 5) 1 1 4 5 [7%Z]).
  - reflexivity.
  - reflexivity.
  - split; [reflexivity|]. repeat constructor.
  - simpl. lia.
Defined.

(** C7 as stated fails when max_len < min_len: at step = max_len the entry
    is first set to minus infinity and then to 0. *)
Lemma length_mask_max_overrides_min :
  ~ (forall (self : LengthConstrainedBeamSearch) (step : nat) lens
            (lprobs masked : tensor3 lprob) n src beams' i row',
        src_lengths (lc_base self) = Vector1 lens ->
        length_mask self step lprobs = Ok masked ->
        nth_error lens n = Some src ->
        nth_error masked n = Some beams' ->
        nth_error beams' i = Some row' ->
        (Z.of_nat step < min_len_a self * src + min_len_b self)%Z ->
        nth_error row' (eos (lc_base self)) = Some NegInf).
Proof.
  intros H.
  specialize (H (example_lc (Vector1 [7%Z]) 5 3) 3 [7%Z]
                [[[lp (-1); lp (-2); lp (-3); lp (-4)]]]
                [[[lp (-1); lp (-2); Fin 0; lp (-4)]]]
                0 7%Z [[lp (-1); lp (-2); Fin 0; lp (-4)]]
                0 [lp (-1); lp (-2); Fin 0; lp (-4)]
                eq_refl eq_refl eq_refl eq_refl eq_refl).
  simpl in H. specialize (H ltac:(lia)). discriminate.
Qed.

(** ** A step before [set_src_lengths] *)

(** C3 (amended): when [step] is called before [set_src_lengths], nothing
    validates the source lengths: the bounds are computed from the sentinel
    -1 (min_len = min_len_b - min_len_a, max_len = max_len_b - max_len_a),
    and for a well-shaped input with at least one batch element whose beam
    width exceeds the eos id the call returns a selection; when
    min_len <= step < max_len it is the selection of [BeamSearch.step] on
    the unmodified log-probabilities. *)
Theorem step_before_set_src_lengths (self : LengthConstrainedBeamSearch)
  (tgt_dict : Dictionary) (B K V step : nat) (lprobs scores : tensor3 lprob) :
  lc_base self = Search_init tgt_dict ->
  wf3 B K V lprobs -> 1 <= B -> dict_eos tgt_dict < K -> 1 <= V ->
  wf_scores B K step scores ->
  affine (min_len_a self) (min_len_b self) (src_lengths (lc_base self))
    = Scalar0 (min_len_b self - min_len_a self) /\
  affine (max_len_a self) (max_len_b self) (src_lengths (lc_base self))
    = Scalar0 (max_len_b self - max_len_a self) /\
  exists masked s i b,
    length_mask self step lprobs = Ok masked /\
    LengthConstrainedBeamSearch_step self step lprobs scores = Ok (s, i, b) /\
    BeamSearch_step step masked scores = Ok (s, i, b) /\
    ((min_len_b self - min_len_a self <= Z.of_nat step
      < max_len_b self - max_len_a self)%Z -> masked = lprobs).
Proof.
  intros Hbase Hwf _ He HV Hs.
  unfold LengthConstrainedBeamSearch_step, length_mask.
  rewrite Hbase. cbn [src_lengths eos Search_init affine compare_with].
  split; [f_equal; lia|]. split; [f_equal; lia|].
  destruct (@setitem_masked_scalar B K V (dict_eos tgt_dict) NegInf
              (Z.of_nat step <? min_len_a self * -1 + min_len_b self)%Z
              lprobs Hwf He) as (t1 & E1 & W1 & C1).
  destruct (@setitem_masked_scalar B K V (dict_eos tgt_dict) (Fin 0)
              (Z.of_nat step =? max_len_a self * -1 + max_len_b self)%Z
              t1 W1 He) as (t2 & E2 & W2 & C2).
  destruct (@setitem_masked_scalar B K V (dict_eos tgt_dict) NegInf
              (max_len_a self * -1 + max_len_b self <? Z.of_nat step)%Z
              t2 W2 He) as (t3 & E3 & W3 & C3).
  rewrite E1. cbn [bind]. rewrite E2. cbn [bind]. rewrite E3. cbn [bind].
  destruct (@BeamSearch_step_total B K V step t3 scores W3 ltac:(lia) HV Hs)
    as (s & i & b & EB).
  exists t3, s, i, b. repeat split; try assumption.
  intros Hrange.
  rewrite C3, C2, C1; [reflexivity | | |].
  - apply Z.ltb_ge. lia.
  - apply Z.eqb_neq. lia.
  - apply Z.ltb_ge. lia.
Qed.

Lemma step_before_set_src_lengths_witness :
  affine 1 0 (src_lengths (lc_base example_lc_unset)) = Scalar0 (0 - 1) /\
  affine 1 10 (src_lengths (lc_base example_lc_unset)) = Scalar0 (10 - 1) /\
  exists masked s i b,
    length_mask example_lc_unset 0 example_lprobs = Ok masked /\
    LengthConstrainedBeamSearch_step example_lc_unset 0 example_lprobs []
      = Ok (s, i, b) /\
    BeamSearch_step 0 masked [] = Ok (s, i, b) /\
    ((0 - 1 <= Z.of_nat 0 < 10 - 1)%Z -> masked = example_lprobs).
Proof.
  apply (@step_before_set_src_lengths example_lc_unset example_dict 1 3 4 0).
  - reflexivity.
  - split; [reflexivity|]. repeat constructor.
  - lia.
  - simpl. lia.
  - lia.
  - intros Hlt. inversion Hlt.
Defined.

(** C3 as stated fails: a step taken before [set_src_lengths] is not
    rejected; with the sentinel -1 the bounds are -1 and 9 and the call
    returns a selection. *)
Lemma step_before_set_src_lengths_not_rejected :
  ~ (forall (self : LengthConstrainedBeamSearch) (tgt_dict : Dictionary)
            (step : nat) (lprobs scores : tensor3 lprob),
        lc_base self = Search_init tgt_dict ->
        exists e,
          LengthConstrainedBeamSearch_step self step lprobs scores = Raise e).
Proof.
  intros H.
  destruct (H example_lc_unset example_dict 0 example_lprobs [] eq_refl)
    as [e He].
  vm_compute in He. discriminate.
Qed.

(** ** Sampling.step *)

Section SamplingFacts.
Variable exp_ : lprob -> Q.
Variable log_ : Q -> lprob.
Variable rng : Type.
Variable draw : rng -> list Q -> nat * rng.
Variable rescoring : nat -> tensor3 lprob -> tensor3 nat -> result (tensor3 Q).

Lemma Sampling_step_needs_topk (self : Sampling) (rescore : bool)
  (step : nat) (lprobs scores : tensor3 lprob) (g : rng) r :
  Sampling_step exp_ log_ draw rescoring self rescore step lprobs scores g
    = Ok r ->
  Qltb 0 (sampling_topp self) = false /\
  (0 <? sampling_topk self)%Z = true.
Proof.
  unfold Sampling_step. destruct (size3 lprobs) as [[bsz beam_size] V].
  intros H. bind_inv H as lprobs0 E0.
  bind_inv H as [[probs ti] logprob] E1.
  destruct (Qltb 0 (sampling_topp self)).
  { bind_inv E1 as [probs' ti'] E1'. injection E1 as <- <- <-.
    simpl in H. discriminate. }
  destruct (0 <? sampling_topk self)%Z; [split; reflexivity|].
  injection E1 as <- <- <-. simpl in H. discriminate.
Qed.

Lemma Sampling_step_0_beams (self : Sampling) (rescore : bool)
  (lprobs scores : tensor3 lprob) (g g' : rng) s i b :
  Sampling_step exp_ log_ draw rescoring self rescore 0 lprobs scores g
    = Ok (s, i, b, g') ->
  b = repeat (repeat 0 (length (hd [] lprobs))) (length lprobs).
Proof.
  unfold Sampling_step, size3. cbn [Nat.eqb].
  intros H. bind_inv H as lprobs0 E0.
  bind_inv H as [[probs ti] logprob] E1.
  bind_inv H as lprobs1 E2. bind_inv H as probs1 E3.
  bind_inv H as [idx g1] E4. bind_inv H as probs2 E5.
  bind_inv H as picked E6. bind_inv H as idx1 E7.
  injection H as _ _ <- _. reflexivity.
Qed.
End SamplingFacts.

(** C1: with neither truncation mode configured [Sampling.step] does not
    complete.  [logprob] is assigned in the top-k branch only, so that
    [lprobs = logprob.clone()] is evaluated on [None]: the step never returns
    a triple, and on a well-shaped input it raises AttributeError. *)
Theorem Sampling_step_full_vocabulary_raises
  (exp_ : lprob -> Q) (log_ : Q -> lprob) (rng : Type)
  (draw : rng -> list Q -> nat * rng)
  (rescoring : nat -> tensor3 lprob -> tensor3 nat -> result (tensor3 Q))
  (self : Sampling) (rescore : bool) (step : nat)
  (lprobs scores : tensor3 lprob) (g : rng) :
  (sampling_topk self <= 0)%Z -> (sampling_topp self <= 0)%Q ->
  (exists e,
      Sampling_step exp_ log_ draw rescoring self rescore step lprobs scores g
      = Raise e) /\
  (forall B K V,
      wf3 B K V lprobs -> 1 <= K ->
      Sampling_step exp_ log_ draw rescoring self rescore step lprobs scores g
      = Raise AttributeError).
Proof.
  intros Hk Hp.
  assert (Ep : Qltb 0 (sampling_topp self) = false).
  { unfold Qltb. apply negb_false_iff. now apply Qle_bool_iff. }
  assert (Ek : (0 <? sampling_topk self)%Z = false) by (apply Z.ltb_ge; lia).
  split.
  - destruct (Sampling_step exp_ log_ draw rescoring self rescore step
                            lprobs scores g) as [r|e] eqn:E; [|eauto].
    apply Sampling_step_needs_topk in E. destruct E as [_ E]. congruence.
  - intros B K V Hwf HK.
    pose proof (ranked_0 scores Hwf HK) as R.
    unfold ranked, size3 in R. cbn [Nat.eqb] in R.
    unfold Sampling_step, size3. rewrite Ep, Ek.
    destruct (step =? 0); [rewrite R|]; reflexivity.
Qed.

Lemma Sampling_step_full_vocabulary_raises_witness :
  (exists e,
      Sampling_step example_exp example_log example_draw example_rescoring
                    Sampling_default true 0 example_lprobs [] 0
      = Raise e) /\
  (forall B K V,
      wf3 B K V example_lprobs -> 1 <= K ->
      Sampling_step example_exp example_log example_draw example_rescoring
                    Sampling_default true 0 example_lprobs [] 0
      = Raise AttributeError).
Proof.
  apply Sampling_step_full_vocabulary_raises.
  - simpl. lia.
  - simpl. unfold Qle. simpl. lia.
Defined.

(** ** The first step *)

Lemma DiverseSiblingsSearch_step_0 (self : DiverseSiblingsSearch)
  (lprobs scores : tensor3 lprob) :
  DiverseSiblingsSearch_step self 0 lprobs scores
  = BeamSearch_step 0 lprobs scores.
Proof.
  unfold DiverseSiblingsSearch_step.
  destruct (size3 lprobs) as [[bsz beam_size] V]. reflexivity.
Qed.

Lemma BeamSearch_step_0_beams (B K V : nat) (lprobs scores : tensor3 lprob) :
  wf3 B K V lprobs -> 1 <= K -> 1 <= V ->
  exists s i b,
    BeamSearch_step 0 lprobs scores = Ok (s, i, b) /\
    wf2 B (beam_width 0 K V) b /\ all_zero b.
Proof.
  intros H HK HV.
  assert (Hs : wf_scores B K 0 scores) by (intros Hlt; inversion Hlt).
  destruct (BeamSearch_step_shape H HK HV Hs)
    as (s & i & b & E & _ & _ & Wb & _).
  exists s, i, b. split; [exact E|]. split; [exact Wb|].
  destruct (BeamSearch_step_closed H HK HV Hs) as (cum & _ & Hc & EB).
  cbv zeta in EB. rewrite EB in E. injection E as _ _ <-.
  pose proof (@ranked_flat_length B K V 0 cum Hc) as Hflat.
  unfold all_zero. rewrite !Forall_map.
  eapply Forall_impl; [|exact Hflat]. intros row Hrow. cbv beta.
  rewrite Forall_map. apply Forall_forall. intros [v ix] Hx. simpl.
  apply top_list_In in Hx.
  assert (ix < length row) by (apply nth_error_Some; congruence).
  apply Nat.div_small. unfold flat_size in Hrow. simpl in Hrow. lia.
Qed.

(** C10: at step 0 the beam-origin array returned by [BeamSearch.step], by
    [DiverseSiblingsSearch.step] and by [Sampling.step] is identically zero.
    The two beam searches return on every well-shaped input with at least
    one batch element; whatever [Sampling.step] returns at step 0 has an
    all-zero beam array of shape (bsz, beam_size). *)
Theorem step_0_beams_zero (B K V : nat) (lprobs scores : tensor3 lprob) :
  wf3 B K V lprobs -> 1 <= B -> 1 <= K -> 1 <= V ->
  (exists s i b,
      BeamSearch_step 0 lprobs scores = Ok (s, i, b) /\
      wf2 B (beam_width 0 K V) b /\ all_zero b) /\
  (forall self : DiverseSiblingsSearch,
      exists s i b,
        DiverseSiblingsSearch_step self 0 lprobs scores = Ok (s, i, b) /\
        wf2 B (beam_width 0 K V) b /\ all_zero b) /\
  (forall (exp_ : lprob -> Q) (log_ : Q -> lprob) (rng : Type)
          (draw : rng -> list Q -> nat * rng)
          (rescoring : nat -> tensor3 lprob -> tensor3 nat
                       -> result (tensor3 Q))
          (self : Sampling) (rescore : bool) (g g' : rng) s i b,
      Sampling_step exp_ log_ draw rescoring self rescore 0 lprobs scores g
      = Ok (s, i, b, g') ->
      wf2 B K b /\ all_zero b).
Proof.
  intros H HB1 HK HV. split; [|split].
  - now apply BeamSearch_step_0_beams.
  - intros self. rewrite DiverseSiblingsSearch_step_0.
    now apply BeamSearch_step_0_beams.
  - intros exp_ log_ rng draw rescoring self rescore g g' s i b E.
    apply Sampling_step_0_beams in E. subst b.
    destruct lprobs as [|m t].
    { destruct H as [H _]. simpl in H. lia. }
    pose proof (size3_wf H HK) as Hsz. unfold size3 in Hsz.
    injection Hsz as HB HKe _. cbn [hd]. subst B K.
    split; [split|].
    + apply repeat_length.
    + apply Forall_forall. intros r Hr. apply repeat_spec in Hr. subst r.
      apply repeat_length.
    + apply Forall_forall. intros r Hr. apply repeat_spec in Hr. subst r.
      apply Forall_forall. intros x Hx. now apply repeat_spec in Hx.
Qed.

Lemma step_0_beams_zero_witness :
  (exists s i b,
      BeamSearch_step 0 example_lprobs [] = Ok (s, i, b) /\
      wf2 1 (beam_width 0 3 4) b /\ all_zero b) /\
  (exists s i b,
      DiverseSiblingsSearch_step {| diversity_rate := 1 # 2 |} 0
                                 example_lprobs [] = Ok (s, i, b) /\
      wf2 1 (beam_width 0 3 4) b /\ all_zero b) /\
  (exists s i b g',
      Sampling_step example_exp example_log example_draw example_rescoring
                    {| sampling_topk := 2; sampling_topp := -1 |}
                    true 0 example_lprobs [] 0 = Ok (s, i, b, g') /\
      wf2 1 3 b /\ all_zero b).
Proof.
  assert (Hwf : wf3 1 3 4 example_lprobs)
    by (split; [reflexivity | repeat constructor]).
  destruct (@step_0_beams_zero 1 3 4 example_lprobs [] Hwf
              ltac:(lia) ltac:(lia) ltac:(lia))
    as (H1 & H2 & H3).
  split; [exact H1|]. split; [apply H2|].
  destruct (Sampling_step example_exp example_log example_draw
              example_rescoring {| sampling_topk := 2; sampling_topp := -1 |}
              true 0 example_lprobs [] 0) as [[[[s i] b] g']|e] eqn:E.
  - exists s, i, b, g'. split; [reflexivity|]. eapply H3. exact E.
  - vm_compute in E. discriminate.
Defined.

(** ** Sampling._sample_topp *)

Lemma Qltb_true (a b : Q) : Qltb a b = true <-> (a < b)%Q.
Proof.
  unfold Qltb. rewrite negb_true_iff. split.
  - intros H. apply Qnot_le_lt. intros Hle.
    apply Qle_bool_iff in Hle. congruence.
  - intros H. destruct (Qle_bool b a) eqn:E; [|reflexivity].
    apply Qle_bool_iff in E. lra.
Qed.

Lemma Qltb_false (a b : Q) : Qltb a b = false <-> (b <= a)%Q.
Proof.
  unfold Qltb. rewrite negb_false_iff. apply Qle_bool_iff.
Qed.

Lemma sumQ_perm (l l' : list Q) : Permutation l l' -> (sumQ l == sumQ l')%Q.
Proof.
  induction 1 as [|x l l' _ IH|x y l|l l' l'' _ IH1 _ IH2]; simpl.
  - reflexivity.
  - rewrite IH. reflexivity.
  - ring.
  - rewrite IH1. exact IH2.
Qed.

Lemma enumerate_fst (A : Type) (row : list A) : map fst (enumerate row) = row.
Proof.
  unfold enumerate. generalize 0.
  induction row as [|x row IH]; intros s; simpl; [reflexivity|].
  now rewrite IH.
Qed.

Lemma sumQ_nonneg (l : list Q) :
  Forall (fun x => 0 <= x)%Q l -> (0 <= sumQ l)%Q.
Proof.
  induction 1 as [|x l Hx _ IH]; simpl; lra.
Qed.

Lemma sumQ_firstn_le (l : list Q) (n : nat) :
  Forall (fun x => 0 <= x)%Q l -> (sumQ (firstn n l) <= sumQ l)%Q.
Proof.
  intros H. revert n. induction H as [|x l Hx Hl IH]; intros [|n]; simpl;
    try lra.
  - pose proof (sumQ_nonneg Hl). lra.
  - specialize (IH n). lra.
Qed.

(** The mask [cumsum_probs.lt(p)] of a row without negative entries is a
    run of [true] followed by a run of [false]. *)
Lemma lt_mask_prefix (p acc : Q) (l : list Q) :
  Forall (fun x => 0 <= x)%Q l ->
  exists c,
    c <= length l /\
    map (fun x => Qltb x p) (cumsum acc l)
      = repeat true c ++ repeat false (length l - c) /\
    (forall j, j < c -> (acc + sumQ (firstn (S j) l) < p)%Q) /\
    (c < length l -> (p <= acc + sumQ (firstn (S c) l))%Q).
Proof.
  intros H. revert acc. induction H as [|x l Hx Hl IH]; intros acc.
  - exists 0. simpl. repeat split; intros; lia.
  - destruct (Qltb (acc + x) p) eqn:E.
    + destruct (IH (acc + x)%Q) as (c & Hc & Hm & Hlt & Hge).
      exists (S c). simpl. rewrite E, Hm. split; [lia|]. split; [reflexivity|].
      split.
      * intros [|j] Hj.
        -- apply Qltb_true in E. simpl. lra.
        -- specialize (Hlt j ltac:(lia)). simpl in *. lra.
      * intros Hc'. specialize (Hge ltac:(lia)). simpl in *. lra.
    + exists 0. simpl. rewrite E. split; [lia|]. split.
      * f_equal. apply Qltb_false in E.
        assert (G : forall a, (p <= a)%Q ->
                      map (fun y => Qltb y p) (cumsum a l)
                      = repeat false (length l)).
        { clear -Hl. induction Hl as [|y l Hy _ IHl]; intros a Ha; simpl;
            [reflexivity|].
          assert (Ha' : (p <= a + y)%Q) by lra.
          rewrite (proj2 (Qltb_false _ _) Ha'), (IHl _ Ha'). reflexivity. }
        apply G. exact E.
      * split; [intros j Hj; lia|].
        intros _. apply Qltb_false in E. lra.
Qed.

Lemma last_slice_cons (A : Type) (x : A) (l : list A) :
  l <> [] -> last_slice (x :: l) = last_slice l.
Proof.
  intros Hl. unfold last_slice. destruct l as [|y l]; [congruence|].
  simpl length. replace (S (S (length l)) - 1) with (S (S (length l) - 1)) by lia.
  reflexivity.
Qed.

Lemma cumsum_mask_total (acc : nat) (m : list bool) :
  m <> [] ->
  last_slice (cumsum_mask acc m) = [acc + length (filter (fun b => b) m)].
Proof.
  revert acc. induction m as [|b m IH]; intros acc Hm; [congruence|].
  destruct m as [|b' m].
  - simpl. unfold last_slice. simpl. destruct b; simpl; f_equal; lia.
  - assert (Hcons : cumsum_mask acc (b :: b' :: m)
                     = (acc + (if b then 1 else 0))
                         :: cumsum_mask (acc + (if b then 1 else 0)) (b' :: m))
      by reflexivity.
    rewrite Hcons, last_slice_cons by (simpl; discriminate).
    rewrite (IH (acc + (if b then 1 else 0))) by discriminate.
    f_equal. cbn [filter]. destruct b; simpl; lia.
Qed.

Lemma count_true_runs (c d : nat) :
  length (filter (fun b : bool => b) (repeat true c ++ repeat false d)) = c.
Proof.
  induction c as [|c IH]; simpl.
  - induction d as [|d IHd]; simpl; auto.
  - now rewrite IH.
Qed.

Lemma upd_runs (c d : nat) :
  upd c true (repeat true c ++ repeat false (S d))
  = repeat true (S c) ++ repeat false d.
Proof.
  induction c as [|c IH]; simpl in *; [reflexivity|]. f_equal. exact IH.
Qed.

Lemma sorted_row_fst_perm (probs : list Q) :
  Permutation (map fst (sorted_row probs)) probs.
Proof.
  unfold sorted_row.
  rewrite <- (enumerate_fst probs) at 2.
  apply Permutation_map, sort_desc_perm.
Qed.

(** What [_sample_topp] computes for one row whose mass reaches [p]. *)
Lemma topp_row_spec (p : Q) (probs : list Q) :
  (0 < p)%Q -> Forall (fun x => 0 <= x)%Q probs -> (p <= sumQ probs)%Q ->
  exists n,
    1 <= n <= length probs /\
    topp_row p probs
    = Ok {| sorted_probs := map fst (sorted_row probs);
            sorted_indices := map snd (sorted_row probs);
            mask := repeat true n ++ repeat false (length probs - n);
            last_included := [n - 1] |} /\
    (p <= sumQ (firstn n (map fst (sorted_row probs))))%Q /\
    (forall m, m < n -> (sumQ (firstn m (map fst (sorted_row probs))) < p)%Q).
Proof.
  intros Hp Hnn Hsum.
  pose proof (sorted_row_fst_perm probs) as HP.
  set (sp := map fst (sorted_row probs)) in *.
  assert (Hsp : Forall (fun x => 0 <= x)%Q sp)
    by (eapply Permutation_Forall; [symmetry; exact HP | exact Hnn]).
  assert (Hlen : length sp = length probs) by (apply Permutation_length, HP).
  assert (Hs : (sumQ sp == sumQ probs)%Q) by (apply sumQ_perm, HP).
  assert (Hne : 1 <= length probs).
  { destruct probs; simpl in *; [lra | lia]. }
  destruct (@lt_mask_prefix p 0 sp Hsp) as (c & Hc & Hm & Hlt & Hge).
  assert (Hc' : c < length sp).
  { destruct (Nat.eq_dec c (length sp)) as [->|]; [|lia].
    specialize (Hlt (length sp - 1) ltac:(lia)).
    replace (S (length sp - 1)) with (length sp) in Hlt by lia.
    rewrite firstn_all in Hlt. lra. }
  exists (S c). split; [lia|].
  unfold topp_row. fold (sorted_row probs). fold sp.
  rewrite Hm. rewrite cumsum_mask_total.
  2:{ destruct c; simpl; [|discriminate].
      destruct (length sp - 0) eqn:E; [lia|]. simpl. discriminate. }
  rewrite count_true_runs. cbn [map].
  rewrite length_app, !repeat_length.
  assert (Hclamp : clamp 0 (c + (length sp - c) - 1) (0 + c) = c)
    by (unfold clamp; lia).
  rewrite Hclamp. cbn [scatter_true].
  rewrite setitem_upd by (rewrite length_app, !repeat_length; lia).
  cbn [bind].
  replace (length sp - c) with (S (length sp - S c)) by lia.
  rewrite upd_runs.
  split; [|split].
  - do 2 f_equal; [now rewrite Hlen | f_equal; lia].
  - specialize (Hge Hc'). lra.
  - intros [|j] Hj.
    + simpl. exact Hp.
    + specialize (Hlt j ltac:(lia)). lra.
Qed.

Lemma Forall2_nth_error_l (A B : Type) (R : A -> B -> Prop) l l' n x :
  Forall2 R l l' -> nth_error l n = Some x ->
  exists y, nth_error l' n = Some y /\ R x y.
Proof.
  intros H. revert n. induction H as [|a b l l' Hab _ IH]; intros [|n] Hn;
    simpl in *; try discriminate.
  - injection Hn as <-. eauto.
  - eauto.
Qed.

Lemma max_all_spec (xs : list nat) (m : nat) :
  max_all xs = Ok m -> In m xs /\ forall x, In x xs -> x <= m.
Proof.
  destruct xs as [|x xs]; simpl; [discriminate|]. intros H. injection H as <-.
  revert x. induction xs as [|y xs IH]; intros x; simpl.
  - split; [auto|]. intros z [<-|[]]. lia.
  - destruct (IH (Nat.max x y)) as [Hin Hle]. split.
    + destruct Hin as [Hin|Hin]; [|tauto].
      rewrite <- Hin.
      destruct (Nat.max_spec x y) as [[_ E]|[_ E]]; rewrite E; auto.
    + intros z [<-|[<-|Hz]].
      * specialize (Hle _ (or_introl eq_refl)). lia.
      * specialize (Hle _ (or_introl eq_refl)). lia.
      * apply Hle. now right.
Qed.

Lemma trim_runs (sp : list Q) (n : nat) :
  n <= length sp ->
  trim sp (repeat true n ++ repeat false (length sp - n))
  = firstn n sp ++ repeat 0%Q (length sp - n).
Proof.
  unfold trim. revert n. induction sp as [|x sp IH]; intros n Hn; simpl in *.
  - destruct n; [reflexivity | lia].
  - destruct n as [|n]; simpl.
    + f_equal. specialize (IH 0 ltac:(lia)). simpl in IH.
      rewrite Nat.sub_0_r in IH. exact IH.
    + f_equal. apply IH. lia.
Qed.

Lemma trim_firstn (w : nat) (sp : list Q) (m : list bool) :
  trim (firstn w sp) (firstn w m) = firstn w (trim sp m).
Proof.
  unfold trim. rewrite <- combine_firstn, firstn_map. reflexivity.
Qed.

Lemma firstn_runs (sp : list Q) (n w : nat) :
  n <= w <= length sp ->
  firstn w (firstn n sp ++ repeat 0%Q (length sp - n))
  = firstn n sp ++ repeat 0%Q (w - n).
Proof.
  intros H. rewrite firstn_app, firstn_firstn, length_firstn.
  replace (Nat.min w n) with n by lia.
  replace (Nat.min n (length sp)) with n by lia.
  f_equal.
  assert (F : forall a b, a <= b -> firstn a (repeat 0%Q b) = repeat 0%Q a).
  { induction a as [|a IHa]; intros [|b] Hab; simpl; try reflexivity; try lia.
    f_equal. apply IHa. lia. }
  apply F. lia.
Qed.

Lemma q_geb_fst_total x y : q_geb_fst x y = true \/ q_geb_fst y x = true.
Proof.
  unfold q_geb_fst. rewrite !Qle_bool_iff.
  destruct (Qlt_le_dec (fst x) (fst y)); [right|left]; lra.
Qed.

Lemma q_geb_fst_trans x y z :
  q_geb_fst x y = true -> q_geb_fst y z = true -> q_geb_fst x z = true.
Proof. unfold q_geb_fst. rewrite !Qle_bool_iff. lra. Qed.

(** [Tensor.sort(descending=True)]: a rearrangement of the row, best first. *)
Lemma sorted_row_descending (probs : list Q) :
  Permutation (sorted_row probs) (enumerate probs) /\
  StronglySorted (fun a b => (fst b <= fst a)%Q) (sorted_row probs).
Proof.
  split; [apply sort_desc_perm|].
  pose proof (@sort_desc_sorted _ q_geb_fst q_geb_fst_total q_geb_fst_trans
                                (enumerate probs)) as H.
  fold (sorted_row probs) in H.
  induction H as [|x l _ IH Hx]; constructor; [exact IH|].
  eapply Forall_impl; [|exact Hx]. intros y Hy.
  unfold q_geb_fst in Hy. now apply Qle_bool_iff in Hy.
Qed.

(** The rows computed by [_sample_topp] on a batch of distributions. *)
Lemma topp_rows_spec (p : Q) (B K V : nat) (probs : tensor3 Q) :
  (0 < p <= 1)%Q -> wf3 B K V probs ->
  Forall (Forall distribution) probs ->
  exists rows,
    mapM (mapM (topp_row p)) probs = Ok rows /\
    Forall2 (Forall2 (fun row r =>
      exists n,
        1 <= n <= V /\ length row = V /\
        r = {| sorted_probs := map fst (sorted_row row);
               sorted_indices := map snd (sorted_row row);
               mask := repeat true n ++ repeat false (V - n);
               last_included := [n - 1] |} /\
        (p <= sumQ (firstn n (map fst (sorted_row row))))%Q /\
        (forall m, m < n ->
                   (sumQ (firstn m (map fst (sorted_row row))) < p)%Q)))
      probs rows.
Proof.
  intros Hp [_ Hwf] Hd. clear B.
  induction probs as [|beams probs IH]; simpl.
  - exists []. split; [reflexivity | constructor].
  - inversion Hwf as [|? ? [_ Hb] Hwf']; subst.
    inversion Hd as [|? ? Hdb Hd']; subst.
    destruct (IH Hwf' Hd') as (rows & -> & HF).
    assert (Hrow : exists rb,
               mapM (topp_row p) beams = Ok rb /\
               Forall2 (fun row r =>
                 exists n,
                   1 <= n <= V /\ length row = V /\
                   r = {| sorted_probs := map fst (sorted_row row);
                          sorted_indices := map snd (sorted_row row);
                          mask := repeat true n ++ repeat false (V - n);
                          last_included := [n - 1] |} /\
                   (p <= sumQ (firstn n (map fst (sorted_row row))))%Q /\
                   (forall m, m < n ->
                      (sumQ (firstn m (map fst (sorted_row row))) < p)%Q))
                 beams rb).
    { clear -Hp Hb Hdb. induction beams as [|row beams IHb]; simpl.
      - exists []. split; [reflexivity | constructor].
      - inversion Hb as [|? ? Hlen Hb']; subst.
        inversion Hdb as [|? ? [Hnn Hsum] Hdb']; subst.
        destruct (IHb Hb' Hdb') as (rb & -> & HFb).
        destruct (@topp_row_spec p row ltac:(lra) Hnn ltac:(lra))
          as (n & Hn & -> & Hge & Hlt).
        simpl. eexists. split; [reflexivity|].
        constructor; [|exact HFb].
        exists n. repeat split; try assumption; lia. }
    destruct Hrow as (rb & -> & HFb). simpl.
    eexists. split; [reflexivity|]. constructor; assumption.
Qed.

Lemma Forall2_Forall_r (A B : Type) (R : A -> B -> Prop) (P : B -> Prop) l l' :
  Forall2 R l l' -> (forall x y, R x y -> P y) -> Forall P l'.
Proof. induction 1; intros HP; constructor; eauto. Qed.

Lemma Forall_concat_in (A : Type) (P : A -> Prop) (t : list (list A)) x :
  Forall (Forall P) t -> In x (concat t) -> P x.
Proof.
  intros H Hx. apply in_concat in Hx. destruct Hx as (l & Hl & Hx).
  rewrite Forall_forall in H. specialize (H l Hl).
  rewrite Forall_forall in H. now apply H.
Qed.

Lemma sample_topp_probs_spec (p : Q) (B K V : nat) (probs : tensor3 Q) :
  (0 < p <= 1)%Q -> wf3 B K V probs -> 1 <= B -> 1 <= K ->
  Forall (Forall distribution) probs ->
  exists trimed_probs truncated_indices width,
    sample_topp_probs p probs = Ok (trimed_probs, truncated_indices) /\
    forall b i beams row,
      nth_error probs b = Some beams -> nth_error beams i = Some row ->
      exists n beams_p beams_i,
        nth_error trimed_probs b = Some beams_p /\
        nth_error beams_p i
        = Some (firstn n (map fst (sorted_row row))
                  ++ repeat 0%Q (width - n)) /\
        nth_error truncated_indices b = Some beams_i /\
        nth_error beams_i i = Some (firstn width (map snd (sorted_row row))) /\
        1 <= n <= width /\
        (p <= sumQ (firstn n (map fst (sorted_row row))))%Q /\
        (forall m, m < n ->
                   (sumQ (firstn m (map fst (sorted_row row))) < p)%Q).
Proof.
  intros Hp Hwf HB HK Hd.
  destruct (topp_rows_spec Hp Hwf Hd) as (rows & Erows & HF).
  unfold sample_topp_probs. rewrite Erows. cbn [bind].
  set (xs := concat (map last_included (concat rows))).
  assert (Hall : Forall (Forall (fun r =>
                   exists n, 1 <= n <= V /\ last_included r = [n - 1]))
                   rows).
  { eapply Forall2_Forall_r; [exact HF|]. intros beams rb Hb. cbv beta in Hb.
    eapply Forall2_Forall_r; [exact Hb|].
    intros row r (n & Hn & _ & -> & _). exists n. split; [exact Hn|reflexivity]. }
  assert (Hxs : forall x, In x xs -> x + 1 <= V).
  { intros x Hx. unfold xs in Hx. apply in_concat in Hx.
    destruct Hx as (l & Hl & Hx). apply in_map_iff in Hl.
    destruct Hl as (r & <- & Hr).
    destruct (@Forall_concat_in _ _ _ _ Hall Hr) as (n & Hn & E).
    rewrite E in Hx. destruct Hx as [<-|[]]. lia. }
  assert (Hne : xs <> []).
  { destruct Hwf as [Hlen Hwf]. destruct probs as [|beams probs];
      [simpl in Hlen; lia|].
    inversion Hwf as [|? ? [Hk _] _]; subst.
    destruct beams as [|row beams]; [simpl in *; lia|].
    inversion HF as [|? rb ? rows' Hb _]; subst.
    inversion Hb as [|? r ? rb' (n & _ & _ & -> & _) _]; subst.
    unfold xs. simpl. discriminate. }
  destruct (max_all xs) as [m|e] eqn:Em.
  2:{ destruct xs; [congruence | discriminate]. }
  destruct (@max_all_spec _ _ Em) as [Hin Hmax].
  pose proof (Hxs m Hin) as HmV.
  cbn [bind]. do 3 eexists. split; [reflexivity|].
  intros b i beams row Hb Hi.
  destruct (@Forall2_nth_error_l _ _ _ _ _ _ _ HF Hb) as (rb & Hrb & HFb).
  destruct (@Forall2_nth_error_l _ _ _ _ _ _ _ HFb Hi)
    as (r & Hr & n & Hn & Hlen & -> & Hge & Hlt).
  assert (Hnm : n - 1 <= m).
  { apply Hmax. unfold xs. apply in_concat.
    exists [n - 1]. split; [|now left].
    apply in_map_iff. eexists. split; [|apply in_concat; exists rb; split;
      [eapply nth_error_In; eauto | eapply nth_error_In; eauto]].
    reflexivity. }
  assert (Hsp : length (map fst (sorted_row row)) = V).
  { rewrite <- Hlen. apply Permutation_length, sorted_row_fst_perm. }
  exists n. eexists. eexists.
  split; [apply map_nth_error; exact Hrb|].
  split.
  { erewrite map_nth_error by exact Hr. f_equal. cbn [sorted_probs mask].
    rewrite trim_firstn. rewrite <- Hsp at 1. rewrite trim_runs by lia.
    rewrite firstn_runs by lia. reflexivity. }
  split; [apply map_nth_error; exact Hrb|].
  split; [erewrite map_nth_error by exact Hr; reflexivity|].
  split; [lia|]. split; assumption.
Qed.

Lemma wf3_tmap3 (A C : Type) (f : A -> C) (B K V : nat) (t : tensor3 A) :
  wf3 B K V t -> wf3 B K V (tmap3 f t).
Proof.
  intros [Hl HF]. unfold tmap3. split; [now rewrite length_map|].
  apply Forall_map. eapply Forall_impl; [|exact HF].
  intros m [Hm HFm]. split; [now rewrite length_map|].
  apply Forall_map. eapply Forall_impl; [|exact HFm].
  intros r Hr. now rewrite length_map.
Qed.

(** C5 (amended): on a batch of probability distributions and for
    0 < p <= 1, [_sample_topp] keeps of every row, sorted by descending
    probability, exactly the smallest prefix whose cumulative mass is at
    least p (the entries whose cumulative mass is strictly below p and one
    more): the first n sorted probabilities are returned unchanged with
    their vocabulary ids, the entries after them up to the common width are
    set to 0, and n >= 1. *)
Theorem _sample_topp_smallest_prefix (exp_ : lprob -> Q) (self : Sampling)
  (B K V : nat) (lprobs : tensor3 lprob) :
  (0 < sampling_topp self <= 1)%Q ->
  wf3 B K V lprobs -> 1 <= B -> 1 <= K ->
  Forall (Forall distribution) (tmap3 exp_ lprobs) ->
  exists trimed_probs truncated_indices width,
    _sample_topp exp_ self lprobs = Ok (trimed_probs, truncated_indices) /\
    forall b i beams lrow,
      nth_error lprobs b = Some beams -> nth_error beams i = Some lrow ->
      let sorted := sorted_row (map exp_ lrow) in
      Permutation sorted (enumerate (map exp_ lrow)) /\
      StronglySorted (fun x y => (fst y <= fst x)%Q) sorted /\
      exists n beams_p beams_i,
        nth_error trimed_probs b = Some beams_p /\
        nth_error beams_p i
        = Some (firstn n (map fst sorted) ++ repeat 0%Q (width - n)) /\
        nth_error truncated_indices b = Some beams_i /\
        nth_error beams_i i = Some (firstn width (map snd sorted)) /\
        1 <= n <= width /\
        (sampling_topp self <= sumQ (firstn n (map fst sorted)))%Q /\
        (forall m, m < n ->
                   (sumQ (firstn m (map fst sorted)) < sampling_topp self)%Q).
Proof.
  intros Hp Hwf HB HK Hd. unfold _sample_topp.
  destruct (sample_topp_probs_spec Hp (wf3_tmap3 exp_ Hwf) HB HK Hd)
    as (tp & ti & w & E & Hrows).
  exists tp, ti, w. split; [exact E|].
  intros b i beams lrow Hb Hi. cbv zeta.
  destruct (sorted_row_descending (map exp_ lrow)) as [HP HS].
  split; [exact HP|]. split; [exact HS|].
  apply (Hrows b i (map (map exp_) beams)).
  - unfold tmap3. now apply map_nth_error.
  - now apply map_nth_error.
Qed.

Lemma _sample_topp_smallest_prefix_witness :
  exists trimed_probs truncated_indices width,
    _sample_topp example_exp {| sampling_topk := -1; sampling_topp := 7 # 10 |}
                 [[[lp (-3); lp (-1); lp (-3)]]]
    = Ok (trimed_probs, truncated_indices) /\
    forall b i beams lrow,
      nth_error [[[lp (-3); lp (-1); lp (-3)]]] b = Some beams ->
      nth_error beams i = Some lrow ->
      let sorted := sorted_row (map example_exp lrow) in
      Permutation sorted (enumerate (map example_exp lrow)) /\
      StronglySorted (fun x y => (fst y <= fst x)%Q) sorted /\
      exists n beams_p beams_i,
        nth_error trimed_probs b = Some beams_p /\
        nth_error beams_p i
        = Some (firstn n (map fst sorted) ++ repeat 0%Q (width - n)) /\
        nth_error truncated_indices b = Some beams_i /\
        nth_error beams_i i = Some (firstn width (map snd sorted)) /\
        1 <= n <= width /\
        (7 # 10 <= sumQ (firstn n (map fst sorted)))%Q /\
        (forall m, m < n -> (sumQ (firstn m (map fst sorted)) < 7 # 10)%Q).
Proof.
  apply (@_sample_topp_smallest_prefix example_exp
           {| sampling_topk := -1; sampling_topp := 7 # 10 |} 1 1 3).
  - simpl. split; [reflexivity | intro Hc; discriminate Hc].
  - split; [reflexivity|]. repeat constructor.
  - lia.
  - lia.
  - repeat constructor; try (intro Hc; discriminate Hc).
Defined.

(** C5 as stated fails when a prefix has mass exactly p: of the row
    [1/2, 1/2] with p = 1/2 one entry is kept, whose mass 1/2 does not
    exceed p. *)
Lemma _sample_topp_mass_not_above_p :
  ~ (forall (exp_ : lprob -> Q) (self : Sampling) (lprobs : tensor3 lprob)
            trimed_probs truncated_indices,
        (0 < sampling_topp self <= 1)%Q ->
        Forall (Forall distribution) (tmap3 exp_ lprobs) ->
        _sample_topp exp_ self lprobs = Ok (trimed_probs, truncated_indices) ->
        Forall (Forall (fun row => (sampling_topp self < sumQ row)%Q))
               trimed_probs).
Proof.
  intros H.
  specialize (H example_exp {| sampling_topk := -1; sampling_topp := 1 # 2 |}
                [[[lp (-1); lp (-1)]]] [[[1 # 2]]] [[[0]]]).
  assert (Hsel : Forall (Forall (fun row => (1 # 2 < sumQ row)%Q)) [[[1 # 2]]]).
  { apply H.
    - simpl. split; [reflexivity | intro Hc; discriminate Hc].
    - repeat constructor; try (intro Hc; discriminate Hc).
    - vm_compute. reflexivity. }
  inversion Hsel as [|? ? Hb _]. inversion Hb as [|? ? Hrow _].
  vm_compute in Hrow. discriminate.
Qed.

(** ** DiverseBeamSearch.step *)

Lemma nth_error_concat_at (A : Type) (K V : nat) (m : tensor2 A) j g r x :
  wf2 K V m -> nth_error m j = Some r -> nth_error r g = Some x ->
  nth_error (concat m) (j * V + g) = Some x.
Proof.
  intros [_ HF]. clear K. revert j.
  induction HF as [|r0 m Hr _ IH]; intros [|j] Hj Hg; simpl in *;
    try discriminate.
  - injection Hj as ->. rewrite nth_error_app1; [exact Hg|].
    apply nth_error_Some. congruence.
  - rewrite nth_error_app2 by lia.
    replace (V + j * V + g - length r0) with (j * V + g) by lia.
    now apply IH.
Qed.

(** [torch.stack(ts, dim=2)]: cell (b, j) of the result lists entry (b, j)
    of every stacked tensor, in the order of the list. *)
Lemma stack_dim2_spec (A : Type) (B w : nat) (shape : tensor2 A)
  (ts : list (tensor2 A)) :
  wf2 B w shape -> Forall (wf2 B w) ts ->
  exists st,
    stack_dim2 shape ts = Ok st /\
    wf3 B w (length ts) st /\
    forall g b j t row x,
      nth_error ts g = Some t -> nth_error t b = Some row ->
      nth_error row j = Some x ->
      exists cells cell,
        nth_error st b = Some cells /\ nth_error cells j = Some cell /\
        nth_error cell g = Some x.
Proof.
  intros Hshape HF. induction HF as [|t ts Ht _ IH]; simpl.
  - eexists. split; [reflexivity|]. split.
    + destruct Hshape as [Hl Hr]. split; [now rewrite length_map|].
      apply Forall_map. eapply Forall_impl; [|exact Hr].
      intros r Hlen. split; [now rewrite length_map|].
      apply Forall_map. apply Forall_forall. reflexivity.
    + intros [|g]; discriminate.
  - destruct IH as (st & -> & [Hl Hst] & Hcell). cbn [bind].
    assert (Hz : exists st',
               zipM RuntimeError
                    (zipM RuntimeError (fun (x : A) xs => Ok (x :: xs)))
                    t st = Ok st' /\
               wf3 B w (S (length ts)) st' /\
               forall b row cells,
                 nth_error t b = Some row -> nth_error st b = Some cells ->
                 exists cells',
                   nth_error st' b = Some cells' /\
                   forall j x cell,
                     nth_error row j = Some x ->
                     nth_error cells j = Some cell ->
                     nth_error cells' j = Some (x :: cell)).
    { destruct Ht as [Htl Htr]. subst B.
      clear Hcell Hshape. revert st Hl Hst.
      induction Htr as [|row t Hrow _ IHt]; intros [|cells st] Hl Hst;
        simpl in Hl; try discriminate.
      - exists []. simpl. split; [reflexivity|]. split.
        + split; [reflexivity | constructor].
        + intros [|b]; discriminate.
      - inversion Hst as [|? ? [Hcl Hcr] Hst']; subst.
        destruct (IHt st ltac:(lia) Hst') as (st' & Est & [Hl' Hst''] & Hn).
        assert (Hrowz : exists cells',
                   zipM RuntimeError (fun (x : A) xs => Ok (x :: xs)) row cells
                   = Ok cells' /\
                   wf2 (length row) (S (length ts)) cells' /\
                   forall j x cell,
                     nth_error row j = Some x ->
                     nth_error cells j = Some cell ->
                     nth_error cells' j = Some (x :: cell)).
        { clear -Hcl Hcr. revert cells Hcl Hcr.
          induction row as [|x row IHr]; intros [|cell cells] Hcl Hcr;
            simpl in Hcl; try discriminate.
          - exists []. simpl. split; [reflexivity|]. split.
            + split; [reflexivity | constructor].
            + intros [|j]; discriminate.
          - inversion Hcr as [|? ? Hc Hcr']; subst.
            destruct (IHr cells ltac:(lia) Hcr') as (c' & Ec & [Hlc Hrc] & Hn).
            simpl. rewrite Ec. simpl. eexists. split; [reflexivity|]. split.
            + split; [simpl; congruence|].
              constructor; [simpl; congruence | exact Hrc].
            + intros [|j] y cell' Hy Hc'; simpl in *.
              * injection Hy as ->. injection Hc' as ->. reflexivity.
              * eauto. }
        destruct Hrowz as (cells' & Ec & Hwc & Hnc).
        simpl. rewrite Ec. cbn [bind]. rewrite Est. cbn [bind].
        eexists. split; [reflexivity|]. split.
        + split; [simpl; congruence|]. constructor; [|exact Hst''].
          exact Hwc.
        + intros [|b] r c Hr Hc; simpl in *.
          * injection Hr as ->. injection Hc as ->. eauto.
          * eauto. }
    destruct Hz as (st' & -> & Hw' & Hn').
    eexists. split; [reflexivity|]. split; [exact Hw'|].
    intros [|g] b j t' row x Hg Hb Hj; simpl in Hg.
    + injection Hg as ->.
      assert (Hcells : exists cells, nth_error st b = Some cells).
      { destruct (nth_error st b) eqn:E; [eauto|].
        apply nth_error_None in E.
        assert (b < length t') by (apply nth_error_Some; congruence).
        destruct Ht as [Htl _]. lia. }
      destruct Hcells as [cells Hc].
      destruct (Hn' _ _ _ Hb Hc) as (cells' & Hc' & Hcell').
      assert (Hcl : exists cell, nth_error cells j = Some cell).
      { destruct (nth_error cells j) eqn:E; [eauto|].
        apply nth_error_None in E.
        assert (j < length row) by (apply nth_error_Some; congruence).
        rewrite Forall_forall in Hst.
        destruct (Hst cells (nth_error_In _ _ Hc)) as [Hcw _].
        destruct Ht as [_ Htr]. rewrite Forall_forall in Htr.
        specialize (Htr row (nth_error_In _ _ Hb)). lia. }
      destruct Hcl as [cell Hce].
      exists cells', (x :: cell). split; [exact Hc'|].
      split; [eapply Hcell'; eauto | reflexivity].
    + destruct (Hcell g b j t' row x Hg Hb Hj) as (cells & cell & Hc & Hce & Hx).
      assert (Hrow' : exists row', nth_error t b = Some row').
      { destruct (nth_error t b) eqn:E; [eauto|].
        apply nth_error_None in E.
        assert (b < length st) by (apply nth_error_Some; congruence).
        destruct Ht as [Htl _]. lia. }
      destruct Hrow' as [row' Hr'].
      destruct (Hn' _ _ _ Hr' Hc) as (cells' & Hc' & Hcell').
      assert (Hx' : exists x', nth_error row' j = Some x').
      { destruct (nth_error row' j) eqn:E; [eauto|].
        apply nth_error_None in E.
        assert (j < length cells) by (apply nth_error_Some; congruence).
        rewrite Forall_forall in Hst.
        destruct (Hst cells (nth_error_In _ _ Hc)) as [Hcw _].
        destruct Ht as [_ Htr]. rewrite Forall_forall in Htr.
        specialize (Htr row' (nth_error_In _ _ Hr')). lia. }
      destruct Hx' as [x' Hx'].
      exists cells', (x' :: cell). split; [exact Hc'|].
      split; [eapply Hcell'; eauto | exact Hx].
Qed.

Lemma interleave_spec (A : Type) (B w : nat) (ts : list (tensor2 A)) :
  ts <> [] -> Forall (wf2 B w) ts ->
  exists out,
    interleave ts = Ok out /\
    wf2 B (w * length ts) out /\
    forall g b j t row x,
      nth_error ts g = Some t -> nth_error t b = Some row ->
      nth_error row j = Some x ->
      exists orow,
        nth_error out b = Some orow /\
        nth_error orow (j * length ts + g) = Some x.
Proof.
  intros Hne HF. unfold interleave. destruct ts as [|t ts']; [congruence|].
  assert (Ht : wf2 B w t) by now inversion HF.
  destruct (stack_dim2_spec Ht HF) as (st & -> & [Hl Hst] & Hcell).
  cbn [bind]. eexists. split; [reflexivity|]. split.
  - split; [unfold view_flat; now rewrite length_map|].
    unfold view_flat. apply Forall_map.
    eapply Forall_impl; [|exact Hst]. intros cells Hc.
    apply (concat_length_wf2 Hc).
  - intros g b j t0 row x Hg Hb Hj.
    destruct (Hcell g b j t0 row x Hg Hb Hj) as (cells & cell & Hc & Hce & Hx).
    exists (concat cells). split.
    + unfold view_flat. now apply map_nth_error.
    + rewrite Forall_forall in Hst.
      apply (nth_error_concat_at _ _ (Hst cells (nth_error_In _ _ Hc)) Hce Hx).
Qed.

(** [l[g::G]] of a list of [n * G] entries has [n] entries, the entries
    [g], [G + g], [2 * G + g], ... of [l]. *)
Lemma every_nth_spec (A : Type) (G g : nat) (l : list A) (n fuel : nat) :
  1 <= G -> g < G -> length l = n * G -> length l <= fuel ->
  length (every_nth G fuel (skipn g l)) = n /\
  forall j, j < n ->
            nth_error (every_nth G fuel (skipn g l)) j
            = nth_error l (j * G + g).
Proof.
  intros HG Hg. revert l fuel.
  induction n as [|n IH]; intros l fuel Hl Hf.
  - destruct l; [|discriminate]. rewrite skipn_nil, every_nth_nil.
    split; [reflexivity | intros j Hj; lia].
  - destruct fuel as [|fuel]; [simpl in Hl; lia|].
    destruct (skipn g l) as [|x rest] eqn:E.
    { apply (f_equal (@length A)) in E. rewrite length_skipn in E.
      simpl in *. lia. }
    cbn [every_nth]. rewrite <- E, skipn_skipn.
    replace (G + g) with (g + G) by lia. rewrite <- skipn_skipn.
    destruct (IH (skipn G l) fuel) as [IHl IHn].
    { rewrite length_skipn. simpl in Hl. lia. }
    { rewrite length_skipn. lia. }
    split; [simpl; now rewrite IHl|].
    intros [|j] Hj.
    + simpl. rewrite <- (firstn_skipn g l) at 1.
      rewrite nth_error_app2 by (rewrite length_firstn; lia).
      rewrite length_firstn, E.
      replace (g - Nat.min g (length l)) with 0 by lia. reflexivity.
    + simpl. rewrite IHn by lia.
      rewrite <- (firstn_skipn G l) at 2.
      rewrite nth_error_app2 by (rewrite length_firstn; simpl in Hl; lia).
      rewrite length_firstn. f_equal. simpl in Hl. lia.
Qed.

Lemma slice_dim1_spec (A : Type) (B n V G g : nat) (t : tensor3 A) :
  1 <= G -> g < G -> wf3 B (n * G) V t ->
  exists t_g,
    slice_dim1 g G t = Ok t_g /\
    wf3 B n V t_g /\
    forall b beams,
      nth_error t b = Some beams ->
      exists beams_g,
        nth_error t_g b = Some beams_g /\
        forall j, j < n -> nth_error beams_g j = nth_error beams (j * G + g).
Proof.
  intros HG Hg [Hl HF]. unfold slice_dim1.
  rewrite (@mapM_ok_map _ _ (strided g G)
             (fun beams => every_nth G (length beams) (skipn g beams))).
  2:{ intros beams _. unfold strided.
      destruct (G =? 0) eqn:E; [apply Nat.eqb_eq in E; lia | reflexivity]. }
  eexists. split; [reflexivity|]. split; [split|].
  - now rewrite length_map.
  - apply Forall_map. eapply Forall_impl; [|exact HF].
    intros beams [Hb Hr].
    destruct (@every_nth_spec _ G g beams n (length beams) HG Hg Hb (le_n _))
      as [Hlen Hnth].
    split; [exact Hlen|]. apply Forall_forall. intros r Hin.
    apply In_nth_error in Hin. destruct Hin as [j Hj].
    assert (j < n) by (rewrite <- Hlen; apply nth_error_Some; congruence).
    rewrite Hnth in Hj by assumption.
    rewrite Forall_forall in Hr. apply Hr. eapply nth_error_In; eauto.
  - intros b beams Hb. eexists. split; [apply map_nth_error; exact Hb|].
    rewrite Forall_forall in HF.
    destruct (HF beams (nth_error_In _ _ Hb)) as [Hbl _].
    apply (@every_nth_spec _ G g beams n (length beams) HG Hg Hbl (le_n _)).
Qed.

Lemma mapM_Forall_total (A C : Type) (f : A -> result C)
  (P : A -> Prop) (Q : C -> Prop) (l : list A) :
  Forall P l -> (forall x, P x -> exists y, f x = Ok y /\ Q y) ->
  exists l', mapM f l = Ok l' /\ length l' = length l /\ Forall Q l'.
Proof.
  intros HF Hf. induction HF as [|x l Hx _ IH]; simpl.
  - exists []. repeat split. constructor.
  - destruct (Hf x Hx) as (y & -> & Hy).
    destruct IH as (l' & -> & Hl & HQ). simpl.
    exists (y :: l'). repeat split; [simpl; congruence | now constructor].
Qed.

Lemma add_penalty_spec (B n V : nat) (strength : Q) (buf : tensor2 Q)
  (lprobs_g : tensor3 lprob) :
  wf3 B n V lprobs_g -> wf2 B V buf ->
  exists t, add_penalty strength buf lprobs_g = Ok t /\ wf3 B n V t.
Proof.
  intros [Hl HF] [Hbl HbF]. unfold add_penalty.
  destruct (@zipM_Forall2_total _ _ _ RuntimeError
              (fun (beams : tensor2 lprob) (row_buf : list Q) =>
                 mapM (fun row =>
                         zipM RuntimeError
                              (fun x c => Ok (lp_add x (Fin (strength * c))))
                              row row_buf)
                      beams)
              (fun m c => wf2 n V m /\ length c = V) (wf2 n V) lprobs_g buf)
    as (t & E & Hlen & HP).
  - apply Forall2_of_Forall; [congruence | assumption | assumption].
  - intros m c [[Hm HFm] Hc].
    destruct (@mapM_Forall_total _ _
                (fun row =>
                   zipM RuntimeError
                        (fun x c0 => Ok (lp_add x (Fin (strength * c0))))
                        row c)
                (fun row => length row = V) (fun row => length row = V)
                m HFm) as (m' & Em & Hl' & HQ).
    { intros row Hrow.
      destruct (@zipM_total _ _ _ RuntimeError
                  (fun x c0 => Ok (lp_add x (Fin (strength * c0)))) row c)
        as (row' & Er); [congruence | eauto |].
      exists row'. split; [exact Er|].
      apply zipM_Forall2 in Er. destruct Er as [Hlr HFr].
      rewrite <- (Forall2_length_eq HFr), length_combine. lia. }
    exists m'. split; [exact Em|]. split; [congruence | exact HQ].
  - exists t. split; [exact E|]. split; [congruence | exact HP].
Qed.

Lemma incr_all_spec (V : nat) (idxs : list nat) (buf : list Q) :
  length buf = V -> Forall (fun x => x < V) idxs ->
  exists buf', incr_all idxs buf = Ok buf' /\ length buf' = V.
Proof.
  intros Hb HF. revert buf Hb.
  induction HF as [|i idxs Hi _ IH]; intros buf Hb; simpl; [eauto|].
  assert (Hone : exists buf1, incr_at i buf = Ok buf1 /\ length buf1 = V).
  { subst V. clear -Hi. revert i Hi.
    induction buf as [|c buf IHb]; intros [|i] Hi; simpl in *; try lia.
    - eexists. split; [reflexivity|]. reflexivity.
    - destruct (IHb i ltac:(lia)) as (b1 & -> & Hl). simpl.
      eexists. split; [reflexivity|]. simpl. congruence. }
  destruct Hone as (buf1 & -> & Hl). simpl. now apply IH.
Qed.

Lemma scatter_add_ones_spec (B V w : nat) (buf : tensor2 Q)
  (indices : tensor2 nat) :
  wf2 B V buf -> wf2 B w indices -> Forall (Forall (fun x => x < V)) indices ->
  exists buf', scatter_add_ones buf indices = Ok buf' /\ wf2 B V buf'.
Proof.
  intros [Hl HF] [Hil _] Hr. unfold scatter_add_ones.
  destruct (@zipM_Forall2_total _ _ _ RuntimeError
              (fun row idxs => incr_all idxs row)
              (fun row idxs => length row = V /\ Forall (fun x => x < V) idxs)
              (fun row => length row = V) buf indices)
    as (buf' & E & Hlen & HP).
  - apply Forall2_of_Forall; [congruence | assumption | assumption].
  - intros row idxs [Hrow Hidx]. now apply incr_all_spec.
  - exists buf'. split; [exact E|]. split; [congruence | exact HP].
Qed.

Lemma wf_scores_slice (B n G g step : nat) (scores : tensor3 lprob) :
  1 <= G -> g < G -> wf_scores B (n * G) step scores ->
  exists scores_g,
    (if 0 <? step then slice_dim1 g G scores = Ok scores_g
     else scores_g = []) /\
    wf_scores B n step scores_g.
Proof.
  intros HG Hg Hs. destruct (0 <? step) eqn:E.
  - apply Nat.ltb_lt in E. destruct (Hs E) as (T & HT & Hle).
    destruct (@slice_dim1_spec _ B n T G g scores HG Hg HT)
      as (sg & Esg & Hw & _).
    exists sg. split; [exact Esg|]. intros _. exists T. split; assumption.
  - apply Nat.ltb_ge in E. exists []. split; [reflexivity|].
    intros Hlt. lia.
Qed.

(** One iteration of the loop over the groups. *)
Lemma group_body_spec (self : DiverseBeamSearch) (B n V step g : nat)
  (lprobs scores : tensor3 lprob) (st : group_state) :
  1 <= num_groups self -> g < num_groups self -> 1 <= n -> 1 <= V ->
  wf3 B (n * num_groups self) V lprobs ->
  wf_scores B (n * num_groups self) step scores ->
  wf2 B V (diversity_buf st) ->
  exists st' lprobs_g scores_g s i b,
    group_body self step lprobs scores g st = Ok st' /\
    group_input self step lprobs scores g lprobs_g scores_g /\
    BeamSearch_step step lprobs_g scores_g = Ok (s, i, b) /\
    wf2 B (beam_width step n V) s /\
    wf2 B (beam_width step n V) i /\
    wf2 B (beam_width step n V) b /\
    wf2 B V (diversity_buf st') /\
    scores_G st' = scores_G st ++ [s] /\
    indices_G st' = indices_G st ++ [i] /\
    beams_G st'
    = beams_G st ++ [map (map (fun x => x * num_groups self + g)) b].
Proof.
  intros HG Hg Hn HV Hwf Hs Hbuf. unfold group_body.
  destruct (@slice_dim1_spec _ B n V (num_groups self) g lprobs HG Hg Hwf)
    as (base & Ebase & Wbase & Hrows).
  assert (Hglobal : forall b j row,
             nth2 base b j = Some row ->
             nth2 lprobs b (j * num_groups self + g) = Some row).
  { intros b j row Hj. unfold nth2 in *.
    destruct (nth_error base b) as [beams_g|] eqn:Eb; [|discriminate].
    destruct (nth_error lprobs b) as [beams|] eqn:El.
    - destruct (Hrows b beams El) as (beams_g' & Eg & Hnth).
      rewrite Eb in Eg. injection Eg as <-.
      rewrite <- Hnth; [exact Hj|].
      destruct Wbase as [_ Wb]. rewrite Forall_forall in Wb.
      destruct (Wb beams_g (nth_error_In _ _ Eb)) as [Hlen _].
      rewrite <- Hlen. apply nth_error_Some. congruence.
    - apply nth_error_None in El.
      assert (b < length base) by (apply nth_error_Some; congruence).
      destruct Wbase as [Hlb _]. destruct Hwf as [Hll _]. lia. }
  destruct (@wf_scores_slice B n (num_groups self) g step scores HG Hg Hs)
    as (scores_g & Esc & Wsc).
  rewrite Ebase. cbn [bind].
  assert (Esc' : (if 0 <? step then slice_dim1 g (num_groups self) scores
                  else Ok []) = Ok scores_g).
  { destruct (0 <? step); [exact Esc | now subst]. }
  rewrite Esc'. cbn [bind].
  assert (Hin : exists lprobs_g,
             (if 0 <? g
              then add_penalty (diversity_strength self) (diversity_buf st) base
              else Ok base) = Ok lprobs_g /\
             wf3 B n V lprobs_g /\
             (g = 0 -> lprobs_g = base) /\
             (0 < g -> exists buf,
                 add_penalty (diversity_strength self) buf base = Ok lprobs_g)).
  { destruct (0 <? g) eqn:E.
    - apply Nat.ltb_lt in E.
      destruct (@add_penalty_spec B n V (diversity_strength self)
                  (diversity_buf st) base Wbase Hbuf) as (t & Et & Wt).
      exists t. split; [exact Et|]. split; [exact Wt|].
      split; [intros; lia | intros _; eauto].
    - apply Nat.ltb_ge in E. exists base.
      split; [reflexivity|]. split; [exact Wbase|].
      split; [reflexivity | intros; lia]. }
  destruct Hin as (lprobs_g & -> & Wg & Hg0 & HgS). cbn [bind].
  destruct (@BeamSearch_step_shape B n V step lprobs_g scores_g Wg Hn HV Wsc)
    as (s & i & b & EB & Ws & Wi & Wb & _ & _ & Hrange).
  rewrite EB. cbn [bind].
  destruct (@scatter_add_ones_spec B V _ (diversity_buf st) i Hbuf Wi Hrange)
    as (buf' & -> & Wbuf').
  cbn [bind]. eexists. exists lprobs_g, scores_g, s, i, b.
  split; [reflexivity|].
  split; [exists base; split; [exact Ebase|]; split; [exact Hglobal|];
          split; [exact Esc|]; split; assumption|].
  split; [exact EB|]. cbn [diversity_buf scores_G indices_G beams_G].
  repeat split; solve [assumption | apply Ws | apply Wi | apply Wb | apply Wbuf'].
Qed.

(** The loop over the groups: every group is ranked by [BeamSearch.step]
    and its result, with the beams renumbered, is appended. *)
Lemma group_loop_spec (self : DiverseBeamSearch) (B n V step : nat)
  (lprobs scores : tensor3 lprob) (gs : list nat) (st : group_state) :
  1 <= num_groups self -> 1 <= n -> 1 <= V ->
  wf3 B (n * num_groups self) V lprobs ->
  wf_scores B (n * num_groups self) step scores ->
  Forall (fun g => g < num_groups self) gs ->
  wf2 B V (diversity_buf st) ->
  exists st' (rs : list (nat * triple)),
    group_loop self step lprobs scores gs st = Ok st' /\
    map fst rs = gs /\
    Forall (fun gr => group_output self step lprobs scores B
                                   (beam_width step n V) (fst gr) (snd gr)) rs /\
    scores_G st' = scores_G st ++ map (fun gr => fst (fst (snd gr))) rs /\
    indices_G st' = indices_G st ++ map (fun gr => snd (fst (snd gr))) rs /\
    beams_G st'
    = beams_G st
      ++ map (fun gr => map (map (fun x => x * num_groups self + fst gr))
                            (snd (snd gr))) rs.
Proof.
  intros HG Hn HV Hwf Hs Hgs. revert st.
  induction Hgs as [|g gs Hg _ IH]; intros st Hbuf; simpl.
  - exists st, []. simpl. rewrite !app_nil_r. repeat split. constructor.
  - destruct (@group_body_spec self B n V step g lprobs scores st
                HG Hg Hn HV Hwf Hs Hbuf)
      as (st1 & lg & sg & s & i & b & -> & Hin & EB & Ws & Wi & Wb & Wbuf
          & Es & Ei & Eb).
    cbn [bind].
    destruct (IH st1 Wbuf) as (st' & rs & -> & Hfst & HF & Es' & Ei' & Eb').
    exists st', ((g, (s, i, b)) :: rs). split; [reflexivity|].
    split; [simpl; now rewrite Hfst|]. split.
    + constructor; [|exact HF]. exists lg, sg. simpl. repeat split;
        solve [assumption | apply Ws | apply Wi | apply Wb].
    + rewrite Es', Ei', Eb', Es, Ei, Eb. simpl.
      rewrite <- !app_assoc. simpl. repeat split.
Qed.

Lemma nth2_map (A C : Type) (f : A -> C) (t : tensor2 A) (b j : nat) x :
  nth2 t b j = Some x -> nth2 (map (map f) t) b j = Some (f x).
Proof.
  unfold nth2. destruct (nth_error t b) as [row|] eqn:E; [|discriminate].
  intros H. rewrite (map_nth_error (map f) _ _ E). now apply map_nth_error.
Qed.

Lemma nth_error_seq_0 (n g g' : nat) :
  nth_error (seq 0 n) g = Some g' -> g' = g.
Proof.
  intros H.
  assert (Hlt : g < n).
  { rewrite <- (length_seq n 0). apply nth_error_Some. congruence. }
  apply (nth_error_nth _ _ 0) in H. rewrite seq_nth in H by assumption. lia.
Qed.

Lemma interleave_nth2 (A : Type) (B w : nat) (ts : list (tensor2 A)) :
  ts <> [] -> Forall (wf2 B w) ts ->
  exists out,
    interleave ts = Ok out /\
    wf2 B (w * length ts) out /\
    forall g b j t x,
      nth_error ts g = Some t -> nth2 t b j = Some x ->
      nth2 out b (j * length ts + g) = Some x.
Proof.
  intros Hne HF.
  destruct (interleave_spec Hne HF) as (out & E & Hw & Hcell).
  exists out. split; [exact E|]. split; [exact Hw|].
  intros g b j t x Hg Hx. unfold nth2 in Hx.
  destruct (nth_error t b) as [row|] eqn:Eb; [|discriminate].
  destruct (Hcell g b j t row x Hg Eb Hx) as (orow & Ho & Hj).
  unfold nth2. now rewrite Ho.
Qed.

(** C8: when beam_size is divisible by num_groups, on a well-shaped input
    with at least one batch element [DiverseBeamSearch.step] returns; each
    group g is ranked by [BeamSearch.step] on its slice
    [lprobs[:, g::G, :]], whose row b is row b * num_groups + g of the
    input; the beam ids b of its result are renumbered to
    b * num_groups + g, and the outputs interleave the groups' results in
    group order: entry j of group g is entry j * num_groups + g of the
    output, whose width is num_groups times the width of a group. *)
Theorem DiverseBeamSearch_step_interleaves (self : DiverseBeamSearch)
  (B K V step : nat) (lprobs scores : tensor3 lprob) :
  1 <= num_groups self -> K mod num_groups self = 0 ->
  1 <= B -> 1 <= K -> 1 <= V ->
  wf3 B K V lprobs -> wf_scores B K step scores ->
  exists scores_buf indices_buf beams_buf (groups : list triple),
    DiverseBeamSearch_step self step lprobs scores
    = Ok (scores_buf, indices_buf, beams_buf) /\
    length groups = num_groups self /\
    let w := beam_width step (K / num_groups self) V in
    wf2 B (w * num_groups self) scores_buf /\
    wf2 B (w * num_groups self) indices_buf /\
    wf2 B (w * num_groups self) beams_buf /\
    forall g s_g i_g b_g,
      nth_error groups g = Some (s_g, i_g, b_g) ->
      group_output self step lprobs scores B w g (s_g, i_g, b_g) /\
      forall b j,
        (forall x, nth2 s_g b j = Some x ->
                   nth2 scores_buf b (j * num_groups self + g) = Some x) /\
        (forall x, nth2 i_g b j = Some x ->
                   nth2 indices_buf b (j * num_groups self + g) = Some x) /\
        (forall x, nth2 b_g b j = Some x ->
                   nth2 beams_buf b (j * num_groups self + g)
                   = Some (x * num_groups self + g)).
Proof.
  intros HG Hmod _ HK HV Hwf Hs.
  set (G := num_groups self) in *. set (n := K / G).
  assert (HKn : K = n * G).
  { unfold n. rewrite Nat.mul_comm. apply Nat.Div0.div_exact. exact Hmod. }
  assert (Hn : 1 <= n) by (destruct n; simpl in HKn; lia).
  assert (Hwf' : wf3 B (n * G) V lprobs) by (now rewrite <- HKn).
  assert (Hs' : wf_scores B (n * G) step scores) by (now rewrite <- HKn).
  (* the header of the method *)
  assert (Hhead : exists buf0,
             wf2 B V buf0 /\
             DiverseBeamSearch_step self step lprobs scores
             = (st <- group_loop self step lprobs scores (seq 0 G)
                        {| diversity_buf := buf0; scores_G := [];
                           indices_G := []; beams_G := [] |} ;;
                scores_buf <- interleave (scores_G st) ;;
                indices_buf <- interleave (indices_G st) ;;
                beams_buf <- interleave (beams_G st) ;;
                Ok (scores_buf, indices_buf, beams_buf))).
  { destruct (@mapM_Forall_total _ _
                (fun beams : tensor2 lprob => getitem beams 0)
                (wf2 K V) (fun row => length row = V) lprobs
                (proj2 Hwf)) as (fb & Efb & Hlfb & HFfb).
    { intros beams [Hb Hr]. unfold getitem.
      destruct beams as [|row beams]; [simpl in Hb; lia|].
      simpl. exists row. split; [reflexivity | now inversion Hr]. }
    exists (map (map (fun _ => 0%Q)) fb). split.
    - split; [rewrite length_map; destruct Hwf; congruence|].
      apply Forall_map. eapply Forall_impl; [|exact HFfb].
      intros row Hrow. now rewrite length_map.
    - unfold DiverseBeamSearch_step. fold G.
      assert (EG : (G =? 0) = false) by (apply Nat.eqb_neq; lia).
      destruct lprobs as [|m t].
      + unfold size3. simpl length. rewrite EG.
        rewrite Nat.Div0.mod_0_l. simpl negb. cbv iota.
        rewrite Efb. reflexivity.
      + rewrite (size3_wf Hwf HK). rewrite EG, Hmod. simpl negb. cbv iota.
        rewrite Efb. reflexivity. }
  destruct Hhead as (buf0 & Wbuf0 & ->).
  assert (Hgs : Forall (fun g => g < G) (seq 0 G)).
  { apply Forall_forall. intros g Hg. apply in_seq in Hg. lia. }
  destruct (@group_loop_spec self B n V step lprobs scores (seq 0 G)
              {| diversity_buf := buf0; scores_G := [];
                 indices_G := []; beams_G := [] |}
              HG Hn HV Hwf' Hs' Hgs Wbuf0)
    as (st & rs & -> & Hfst & HF & Es & Ei & Eb).
  cbn [bind scores_G indices_G beams_G app] in *.
  assert (Hlen : length rs = G).
  { rewrite <- (length_map fst rs), Hfst. apply length_seq. }
  assert (Hne : rs <> []) by (destruct rs; simpl in Hlen; [lia | discriminate]).
  rewrite Forall_forall in HF.
  destruct (@interleave_nth2 _ B (beam_width step n V) (scores_G st))
    as (S & -> & WS & HS).
  { rewrite Es. destruct rs; [congruence | discriminate]. }
  { rewrite Es. apply Forall_map, Forall_forall. intros gr Hgr.
    destruct (HF gr Hgr) as (_ & _ & _ & _ & W & _). exact W. }
  destruct (@interleave_nth2 _ B (beam_width step n V) (indices_G st))
    as (I & -> & WI & HI).
  { rewrite Ei. destruct rs; [congruence | discriminate]. }
  { rewrite Ei. apply Forall_map, Forall_forall. intros gr Hgr.
    destruct (HF gr Hgr) as (_ & _ & _ & _ & _ & W & _). exact W. }
  destruct (@interleave_nth2 _ B (beam_width step n V) (beams_G st))
    as (Bm & -> & WB & HBm).
  { rewrite Eb. destruct rs; [congruence | discriminate]. }
  { rewrite Eb. apply Forall_map, Forall_forall. intros gr Hgr.
    destruct (HF gr Hgr) as (_ & _ & _ & _ & _ & _ & [Wl Wr]).
    split; [now rewrite length_map|].
    apply Forall_map. eapply Forall_impl; [|exact Wr].
    intros r Hr. now rewrite length_map. }
  cbn [bind]. exists S, I, Bm, (map snd rs).
  split; [reflexivity|]. split; [now rewrite length_map|].
  assert (Els : length (scores_G st) = G)
    by (rewrite Es, length_map; exact Hlen).
  assert (Eli : length (indices_G st) = G)
    by (rewrite Ei, length_map; exact Hlen).
  assert (Elb : length (beams_G st) = G)
    by (rewrite Eb, length_map; exact Hlen).
  rewrite Els in WS, HS. rewrite Eli in WI, HI. rewrite Elb in WB, HBm.
  cbv zeta. fold n.
  split; [exact WS|]. split; [exact WI|]. split; [exact WB|].
  intros g s_g i_g b_g Hg.
  rewrite nth_error_map in Hg.
  destruct (nth_error rs g) as [[g' r]|] eqn:Er; [|discriminate].
  simpl in Hg. injection Hg as ->.
  assert (g' = g).
  { apply (nth_error_seq_0 G). rewrite <- Hfst.
    apply (map_nth_error fst _ _ Er). }
  subst g'. split.
  - apply (HF _ (nth_error_In _ _ Er)).
  - intros b j. split; [|split]; intros x Hx.
    + apply (HS g b j s_g x); [|exact Hx]. rewrite Es.
      apply (map_nth_error (fun gr : nat * triple => fst (fst (snd gr))) _ _ Er).
    + apply (HI g b j i_g x); [|exact Hx]. rewrite Ei.
      apply (map_nth_error (fun gr : nat * triple => snd (fst (snd gr))) _ _ Er).
    + apply (HBm g b j (map (map (fun y => y * G + g)) b_g)).
      * rewrite Eb.
        apply (map_nth_error
                 (fun gr : nat * triple =>
                    map (map (fun y => y * G + fst gr)) (snd (snd gr)))
                 _ _ Er).
      * apply (@nth2_map _ _ (fun y => y * G + g) b_g b j x Hx).
Qed.

Lemma DiverseBeamSearch_step_interleaves_witness :
  exists scores_buf indices_buf beams_buf (groups : list triple),
    DiverseBeamSearch_step (DiverseBeamSearch_init 2 1) 1
      [[[lp (-5); lp 0; lp (-3)]; [lp (-1); lp (-6); lp (-10)];
        [lp (-7); lp (-2); lp (-9)]; [lp (-4); lp (-8); lp (-11)]]]
      [[[lp (-1)]; [lp (-2)]; [lp (-1)]; [lp (-2)]]]
    = Ok (scores_buf, indices_buf, beams_buf) /\
    length groups = 2 /\
    let w := beam_width 1 (4 / 2) 3 in
    wf2 1 (w * 2) scores_buf /\
    wf2 1 (w * 2) indices_buf /\
    wf2 1 (w * 2) beams_buf /\
    forall g s_g i_g b_g,
      nth_error groups g = Some (s_g, i_g, b_g) ->
      group_output (DiverseBeamSearch_init 2 1) 1
        [[[lp (-5); lp 0; lp (-3)]; [lp (-1); lp (-6); lp (-10)];
          [lp (-7); lp (-2); lp (-9)]; [lp (-4); lp (-8); lp (-11)]]]
        [[[lp (-1)]; [lp (-2)]; [lp (-1)]; [lp (-2)]]]
        1 w g (s_g, i_g, b_g) /\
      forall b j,
        (forall x, nth2 s_g b j = Some x ->
                   nth2 scores_buf b (j * 2 + g) = Some x) /\
        (forall x, nth2 i_g b j = Some x ->
                   nth2 indices_buf b (j * 2 + g) = Some x) /\
        (forall x, nth2 b_g b j = Some x ->
                   nth2 beams_buf b (j * 2 + g) = Some (x * 2 + g)).
Proof.
  apply (@DiverseBeamSearch_step_interleaves (DiverseBeamSearch_init 2 1)
           1 4 3 1).
  - simpl. lia.
  - reflexivity.
  - lia.
  - lia.
  - lia.
  - split; [reflexivity|]. repeat constructor.
  - intros _. exists 1. split; [|lia].
    split; [reflexivity|]. repeat constructor.
Defined.

(** ** DiverseSiblingsSearch.step *)

Lemma zipM_ok_combine (A C D : Type) e (f : A -> C -> D) (l1 : list A)
  (l2 : list C) :
  length l1 = length l2 ->
  zipM e (fun x y => Ok (f x y)) l1 l2
  = Ok (map (fun xy => f (fst xy) (snd xy)) (combine l1 l2)).
Proof.
  revert l2. induction l1 as [|x l1 IH]; intros [|y l2] Hl; simpl in *;
    try discriminate; [reflexivity|].
  rewrite IH by lia. reflexivity.
Qed.

Lemma sibling_scores_length (rate : Q) (k : Z) :
  length (sibling_scores rate k) = Z.to_nat k.
Proof. unfold sibling_scores. now rewrite length_map, length_seq. Qed.

(** Subtracting the vector of penalties from the ranked scores gives every
    rank its own penalty. *)
Lemma sub_siblings (rate : Q) (top : list (lprob * nat)) (s n : nat) :
  map (fun xy : lprob * Q => lp_sub (fst xy) (snd xy))
      (combine (map fst top)
               (map (fun r => (inject_Z (Z.of_nat r) * rate)%Q) (seq (S s) n)))
  = map fst
      (map (fun ic : nat * (lprob * nat) =>
              (lp_sub (fst (snd ic)) (sibling_penalty rate (fst ic)),
               snd (snd ic)))
           (combine (seq s n) top)).
Proof.
  revert s top. induction n as [|n IH]; intros s top.
  - simpl. destruct (map fst top); reflexivity.
  - destruct top as [|[v t] top]; [reflexivity|].
    cbn [seq map combine fst snd]. f_equal; [|apply IH].
    unfold sibling_penalty. do 3 f_equal. lia.
Qed.

Lemma map_snd_combine_eq (A C : Type) (l1 : list A) (l2 : list C) :
  length l1 = length l2 -> map snd (combine l1 l2) = l2.
Proof.
  revert l2. induction l1 as [|x l1 IH]; intros [|y l2] Hl; simpl in *;
    try discriminate; [reflexivity|].
  rewrite IH by lia. reflexivity.
Qed.

Lemma slot_candidates_snd (rate : Q) (k : Z) (row : list lprob) :
  (0 <= k <= Z.of_nat (length row))%Z ->
  map snd (slot_candidates rate k row) = map snd (top_list k row).
Proof.
  intros Hk. unfold slot_candidates. rewrite map_map. cbn [snd].
  rewrite <- (map_map snd snd), map_snd_combine_eq; [reflexivity|].
  now rewrite length_seq, top_list_length.
Qed.

Lemma slot_candidates_length (rate : Q) (k : Z) (row : list lprob) :
  (0 <= k <= Z.of_nat (length row))%Z ->
  length (slot_candidates rate k row) = Z.to_nat k.
Proof.
  intros Hk. unfold slot_candidates.
  rewrite length_map, length_combine, length_seq, top_list_length by assumption.
  lia.
Qed.

Lemma top_list_snd_range (k : Z) (row : list lprob) :
  Forall (fun i => i < length row) (map snd (top_list k row)).
Proof.
  rewrite Forall_map. apply Forall_forall. intros [v i] Hin. simpl.
  apply top_list_In in Hin. apply nth_error_Some. congruence.
Qed.

(** Steps 1/ to 3/ of [DiverseSiblingsSearch.step]: one candidate table per
    beam slot. *)
Lemma sibling_tables_closed (B K V : nat) (rate : Q) (k : Z)
  (cum : tensor3 lprob) :
  wf3 B K V cum -> 1 <= V -> (0 <= k <= Z.of_nat V)%Z ->
  sibling_tables k V (sibling_scores rate k) cum
  = Ok (map (map (fun row => map fst (slot_candidates rate k row))) cum,
        map (map (fun row => map snd (slot_candidates rate k row))) cum).
Proof.
  intros [_ Hwf] HV Hk. unfold sibling_tables.
  rewrite (@mapM_ok_map _ _ _
             (map (fun row => (map fst (slot_candidates rate k row),
                               map snd (slot_candidates rate k row))))).
  - cbn [bind]. rewrite !map_map. f_equal. f_equal.
    + apply map_ext. intros beams. rewrite map_map. reflexivity.
    + apply map_ext. intros beams. rewrite map_map. reflexivity.
  - intros beams Hb. rewrite Forall_forall in Hwf.
    destruct (Hwf beams Hb) as [_ Hrows]. rewrite Forall_forall in Hrows.
    apply mapM_ok_map. intros row Hrow.
    assert (Hk' : (0 <= k <= Z.of_nat (length row))%Z)
      by (rewrite (Hrows row Hrow); exact Hk).
    rewrite (topk_ok _ Hk'). cbn [bind].
    unfold fmod_long.
    destruct (V =? 0) eqn:EV; [apply Nat.eqb_eq in EV; lia|].
    cbn [andb bind map]. unfold sub_row.
    rewrite zipM_ok_combine
      by (rewrite length_map, top_list_length, sibling_scores_length;
          [reflexivity | exact Hk']).
    cbn [bind concat]. rewrite app_nil_r.
    unfold sibling_scores. rewrite sub_siblings.
    fold (slot_candidates rate k row). f_equal. f_equal.
    rewrite slot_candidates_snd by exact Hk'.
    pose proof (top_list_snd_range k row) as Hr.
    rewrite (Hrows row Hrow) in Hr.
    induction Hr as [|i l Hi _ IH]; simpl; [reflexivity|].
    rewrite Nat.mod_small by exact Hi. now rewrite IH.
Qed.

Lemma div_long_ok (t : tensor2 nat) (d : nat) :
  1 <= d \/ Forall (fun r => length r = 0) t ->
  div_long t d = Ok (map (map (fun i => i / d)) t).
Proof.
  intros H. unfold div_long.
  destruct ((d =? 0) && negb (forallb (fun r => length r =? 0) t)) eqn:E;
    [|reflexivity].
  apply andb_true_iff in E. destruct E as [E1 E2].
  apply Nat.eqb_eq in E1. apply negb_true_iff in E2.
  destruct H as [H|H]; [lia|].
  assert (forallb (fun r : list nat => length r =? 0) t = true).
  { apply forallb_forall. intros r Hr. rewrite Forall_forall in H.
    apply Nat.eqb_eq. now apply H. }
  congruence.
Qed.

Lemma zipM_map_same (A C D E : Type) e (h : C -> D -> result E)
  (f : A -> C) (g : A -> D) (l : list A) :
  zipM e h (map f l) (map g l) = mapM (fun x => h (f x) (g x)) l.
Proof.
  induction l as [|x l IH]; simpl; [reflexivity|]. now rewrite IH.
Qed.

Lemma pool_wf (K V : nat) (rate : Q) (k : Z) (beams : tensor2 lprob) :
  wf2 K V beams -> (0 <= k <= Z.of_nat V)%Z ->
  wf2 K (Z.to_nat k) (map (slot_candidates rate k) beams).
Proof.
  intros [Hl HF] Hk. split; [now rewrite length_map|].
  apply Forall_map. eapply Forall_impl; [|exact HF].
  intros row Hrow. apply slot_candidates_length. now rewrite Hrow.
Qed.

Lemma pooled_winners_range (K V : nat) (rate : Q) (k : Z)
  (beams : tensor2 lprob) :
  wf2 K V beams -> (0 <= k <= Z.of_nat V)%Z ->
  Forall (fun w => snd w < K * Z.to_nat k) (pooled_winners rate k beams).
Proof.
  intros Hw Hk. unfold pooled_winners.
  pose proof (top_list_snd_range k
                (concat (map (fun row => map fst (slot_candidates rate k row))
                             beams))) as Hr.
  rewrite Forall_map in Hr. eapply Forall_impl; [|exact Hr].
  intros w Hlt. cbv beta in Hlt.
  rewrite (@concat_length_wf2 _ K (Z.to_nat k)) in Hlt; [exact Hlt|].
  destruct (pool_wf rate Hw Hk) as [Hl HF].
  split; [now rewrite length_map in *|].
  rewrite Forall_map in HF |- *. eapply Forall_impl; [|exact HF].
  intros row Hrow. now rewrite length_map.
Qed.

(** Step 4/ for one batch element: the token ids of the winners, fetched
    from the flattened candidate tables at the pooled index. *)
Lemma gather_winner_tokens (K V : nat) (rate : Q) (k : Z)
  (beams : tensor2 lprob) :
  wf2 K V beams -> (0 <= k <= Z.of_nat V)%Z ->
  exists toks,
    gather_row (concat (map (fun row => map snd (slot_candidates rate k row))
                            beams))
               (map snd (pooled_winners rate k beams)) = Ok toks /\
    length toks = length (pooled_winners rate k beams) /\
    forall j w,
      nth_error (pooled_winners rate k beams) j = Some w ->
      exists c,
        nth2 (map (slot_candidates rate k) beams)
             (snd w / Z.to_nat k) (snd w mod Z.to_nat k) = Some c /\
        fst c = fst w /\
        nth_error toks j = Some (snd c).
Proof.
  intros Hw Hk.
  set (table := map (slot_candidates rate k) beams).
  set (itable := map (fun row => map snd (slot_candidates rate k row)) beams).
  set (stable := map (fun row => map fst (slot_candidates rate k row)) beams).
  set (winners := pooled_winners rate k beams).
  assert (Wt : wf2 K (Z.to_nat k) table) by (apply (pool_wf rate Hw Hk)).
  assert (Wi : wf2 K (Z.to_nat k) itable).
  { destruct Wt as [Hl HF]. unfold table, itable in *.
    split; [now rewrite length_map in *|].
    rewrite Forall_map in HF |- *. eapply Forall_impl; [|exact HF].
    intros row Hrow. now rewrite length_map. }
  assert (Ws : wf2 K (Z.to_nat k) stable).
  { destruct Wt as [Hl HF]. unfold table, stable in *.
    split; [now rewrite length_map in *|].
    rewrite Forall_map in HF |- *. eapply Forall_impl; [|exact HF].
    intros row Hrow. now rewrite length_map. }
  pose proof (pooled_winners_range rate Hw Hk) as Hrange. fold winners in Hrange.
  unfold gather_row.
  destruct (@mapM_Forall_total _ _ (getitem (concat itable))
              (fun i => i < K * Z.to_nat k)
              (fun _ => True) (map snd winners)) as (toks & Et & Hlen & _).
  { rewrite Forall_map. exact Hrange. }
  { intros i Hi. unfold getitem.
    destruct (nth_error (concat itable) i) eqn:E; [eauto|].
    apply nth_error_None in E. rewrite (concat_length_wf2 Wi) in E. lia. }
  exists toks. split; [exact Et|].
  split; [now rewrite Hlen, length_map|].
  intros j w Hj.
  pose proof (mapM_Forall2 _ _ Et) as HF2.
  destruct (@Forall2_nth_error_l _ _ _ _ _ j (snd w) HF2
              (map_nth_error snd _ _ Hj)) as (tok & Htok & Hget).
  unfold getitem in Hget.
  destruct (nth_error (concat itable) (snd w)) as [tok'|] eqn:Ei;
    [|discriminate].
  injection Hget as ->.
  assert (Hkpos : 1 <= Z.to_nat k).
  { rewrite Forall_forall in Hrange.
    specialize (Hrange w (nth_error_In _ _ Hj)). nia. }
  destruct (nth_error_concat _ Wi Hkpos Ei) as (irow & Hir & Hit).
  assert (Hs : nth_error (concat stable) (snd w) = Some (fst w)).
  { apply nth_error_In in Hj. destruct w as [v i]. unfold winners in Hj.
    unfold pooled_winners in Hj. apply top_list_In in Hj. exact Hj. }
  destruct (nth_error_concat _ Ws Hkpos Hs) as (srow & Hsr & Hst).
  unfold itable in Hir. unfold stable in Hsr.
  rewrite nth_error_map in Hir, Hsr.
  destruct (nth_error beams (snd w / Z.to_nat k)) as [row|] eqn:Er;
    [|discriminate].
  simpl in Hir, Hsr. injection Hir as <-. injection Hsr as <-.
  rewrite nth_error_map in Hit, Hst.
  destruct (nth_error (slot_candidates rate k row) (snd w mod Z.to_nat k))
    as [c|] eqn:Ec; [|discriminate].
  simpl in Hit, Hst. injection Hit as <-. injection Hst as Hfst.
  exists c. split; [|split; [exact Hfst | exact Htok]].
  unfold nth2, table.
  rewrite (map_nth_error (slot_candidates rate k) _ _ Er). exact Ec.
Qed.

Lemma mapM_map (A C D : Type) (f : C -> result D) (h : A -> C) (l : list A) :
  mapM f (map h l) = mapM (fun x => f (h x)) l.
Proof.
  induction l as [|x l IH]; simpl; [reflexivity|]. now rewrite IH.
Qed.

(** X28: for every step > 0 and every well-shaped input whose
    k = min(2 * beam_size, beam_size * vocab_size - 1) does not exceed
    vocab_size, [DiverseSiblingsSearch.step] returns three arrays of width
    k.  For a batch element in which no two cumulative scores of a slot and
    no two pooled scores are equal (so that both rankings are determined):
    after the history scores are added, the k best entries of every beam
    slot form its candidate table, the one ranked i (from 0) with
    (i + 1) * diversity_rate subtracted; the beam_size * k candidates are
    pooled slot after slot and the k best of the pool are returned: the beam
    origin of a winner is its pooled index divided by k, and its score and
    token id are those of position (pooled index mod k) of that slot's
    table. *)
Theorem DiverseSiblingsSearch_step_pools (self : DiverseSiblingsSearch)
  (B K V step : nat) (lprobs scores : tensor3 lprob) :
  wf3 B K V lprobs -> 1 <= B -> 1 <= K -> 1 <= V -> 0 < step ->
  wf_scores B K step scores ->
  (siblings_k K V <= Z.of_nat V)%Z ->
  let k := siblings_k K V in
  let rate := diversity_rate self in
  exists cum final_scores final_indices final_beams,
    add_last_score step lprobs scores = Ok cum /\
    DiverseSiblingsSearch_step self step lprobs scores
    = Ok (final_scores, final_indices, final_beams) /\
    wf2 B (Z.to_nat k) final_scores /\
    wf2 B (Z.to_nat k) final_indices /\
    wf2 B (Z.to_nat k) final_beams /\
    forall b beams,
      nth_error cum b = Some beams ->
      Forall (fun row => no_ties row = true) beams ->
      no_ties (pooled_scores rate k beams) = true ->
      let table := map (slot_candidates rate k) beams in
      let winners := pooled_winners rate k beams in
      nth_error final_scores b = Some (map fst winners) /\
      nth_error final_beams b
      = Some (map (fun w => snd w / Z.to_nat k) winners) /\
      exists toks,
        nth_error final_indices b = Some toks /\
        forall j w,
          nth_error winners j = Some w ->
          exists c,
            nth2 table (snd w / Z.to_nat k) (snd w mod Z.to_nat k) = Some c /\
            fst c = fst w /\
            nth_error toks j = Some (snd c).
Proof.
  intros Hwf HB HK HV Hstep Hs Hle. cbv zeta.
  set (k := siblings_k K V) in *. set (rate := diversity_rate self).
  assert (Hk : (0 <= k <= Z.of_nat V)%Z).
  { split; [|exact Hle]. unfold k, siblings_k. nia. }
  destruct (Hs Hstep) as (T & HT & HleT).
  destruct (@add_last_score_wf B K V T step lprobs scores Hwf HT
              (conj Hstep HleT)) as (cum & Ecum & Wcum).
  exists cum.
  assert (Hwlen : forall beams, wf2 K V beams ->
                    length (pooled_winners rate k beams) = Z.to_nat k).
  { intros beams Hb. unfold pooled_winners. apply top_list_length.
    pose proof (pool_wf rate Hb Hk) as [Hl HF].
    rewrite (@concat_length_wf2 _ K (Z.to_nat k)); [nia|].
    split; [now rewrite length_map in *|].
    rewrite Forall_map in HF |- *. eapply Forall_impl; [|exact HF].
    intros row Hrow. now rewrite length_map. }
  assert (Wc : forall beams, In beams cum -> wf2 K V beams).
  { destruct Wcum as [_ Wc]. now rewrite Forall_forall in Wc. }
  (* the outputs, batch element by batch element *)
  destruct (@mapM_Forall_total _ _
              (fun beams : tensor2 lprob =>
                 gather_row (concat (map (fun row =>
                                            map snd (slot_candidates rate k row))
                                         beams))
                            (map snd (pooled_winners rate k beams)))
              (wf2 K V)
              (fun t => length t = Z.to_nat k) cum (proj2 Wcum))
    as (toks & Etoks & Hltoks & HFtoks).
  { intros beams Hb.
    destruct (@gather_winner_tokens K V rate k beams Hb Hk)
      as (t & Et & Hlt & _).
    exists t. split; [exact Et|]. now rewrite Hlt, Hwlen. }
  exists (map (fun beams => map fst (pooled_winners rate k beams)) cum), toks,
         (map (fun beams => map (fun w => snd w / Z.to_nat k)
                                (pooled_winners rate k beams)) cum).
  split; [exact Ecum|]. split.
  { unfold DiverseSiblingsSearch_step.
    destruct lprobs as [|m t]; [destruct Hwf as [Hl _]; simpl in Hl; lia|].
    rewrite (size3_wf Hwf HK).
    assert (Hsz : size_dim1 (view_flat (m :: t)) = K * V).
    { unfold size_dim1. simpl.
      apply (@concat_length_wf2 _ K V). now inversion Hwf as [_ HF];
        inversion HF. }
    rewrite Hsz. fold (siblings_k K V). fold k.
    destruct (step =? 0) eqn:E0; [apply Nat.eqb_eq in E0; lia|].
    rewrite Ecum. cbn [bind]. fold rate.
    rewrite (sibling_tables_closed rate Wcum HV Hk). cbn [bind].
    destruct (K =? 0) eqn:EK; [apply Nat.eqb_eq in EK; lia|]. cbn [bind].
    unfold view_flat. rewrite !map_map, mapM_map.
    rewrite (@mapM_ok_map _ _ _ (pooled_winners rate k) cum).
    2:{ intros beams Hb. apply topk_ok.
        pose proof (pool_wf rate (Wc beams Hb) Hk) as [Hl HF].
        rewrite (@concat_length_wf2 _ K (Z.to_nat k)); [nia|].
        split; [now rewrite length_map in *|].
        rewrite Forall_map in HF |- *. eapply Forall_impl; [|exact HF].
        intros row Hrow. now rewrite length_map. }
    cbn [bind]. rewrite div_long_ok.
    2:{ destruct (Z.to_nat k) eqn:Ek; [right | left; lia].
        rewrite !Forall_map. apply Forall_forall. intros beams Hb.
        rewrite length_map, Hwlen by (apply Wc; exact Hb). reflexivity. }
    cbn [bind]. rewrite (map_map (pooled_winners rate k) (map snd)).
    rewrite zipM_map_same, Etoks. cbn [bind].
    rewrite !map_map. do 2 f_equal.
    apply map_ext. intros beams. now rewrite map_map. }
  split; [|split; [|split]].
  - split; [rewrite length_map; apply Wcum|].
    rewrite Forall_map. apply Forall_forall. intros beams Hb.
    rewrite length_map. apply Hwlen, Wc, Hb.
  - split; [rewrite Hltoks; apply Wcum | exact HFtoks].
  - split; [rewrite length_map; apply Wcum|].
    rewrite Forall_map. apply Forall_forall. intros beams Hb.
    rewrite length_map. apply Hwlen, Wc, Hb.
  - intros b beams Hb _ _. cbv zeta.
    split; [apply (map_nth_error
                     (fun x => map fst (pooled_winners rate k x)) _ _ Hb)|].
    split; [apply (map_nth_error
                     (fun x => map (fun w => snd w / Z.to_nat k)
                                   (pooled_winners rate k x)) _ _ Hb)|].
    apply mapM_Forall2 in Etoks.
    destruct (@Forall2_nth_error_l _ _ _ _ _ b beams Etoks Hb)
      as (t & Ht & Hg).
    exists t. split; [exact Ht|].
    destruct (@gather_winner_tokens K V rate k beams
                (Wc beams (nth_error_In _ _ Hb)) Hk) as (t' & Et' & _ & Hspec).
    cbv beta in Hg. rewrite Hg in Et'. injection Et' as <-. exact Hspec.
Qed.

Lemma DiverseSiblingsSearch_step_pools_witness :
  exists final_scores final_indices final_beams,
    DiverseSiblingsSearch_step {| diversity_rate := 1 # 2 |} 1
      [[[lp (-5); lp 0; lp (-3); lp 1]; [lp (-1); lp (-3); lp (-6); lp (-8)]]]
      [[[lp (-1)]; [lp (-2)]]]
    = Ok (final_scores, final_indices, final_beams) /\
    nth_error final_scores 0
    = Some (map fst
              (pooled_winners (1 # 2) (siblings_k 2 4)
                 [[lp (-6); lp (-1); lp (-4); lp 0];
                  [lp (-3); lp (-5); lp (-8); lp (-10)]])) /\
    nth_error final_beams 0 = Some [0; 0; 1; 0] /\
    nth_error final_indices 0 = Some [3; 1; 0; 2].
Proof.
  destruct (@DiverseSiblingsSearch_step_pools {| diversity_rate := 1 # 2 |}
              1 2 4 1
              [[[lp (-5); lp 0; lp (-3); lp 1];
                [lp (-1); lp (-3); lp (-6); lp (-8)]]]
              [[[lp (-1)]; [lp (-2)]]])
    as (cum & fs & fi & fb & Ecum & E & _ & _ & _ & H).
  - split; [reflexivity|]. repeat constructor.
  - lia.
  - lia.
  - lia.
  - lia.
  - intros _. exists 1. split; [|lia].
    split; [reflexivity|]. repeat constructor.
  - vm_compute. intros Hc. discriminate Hc.
  - vm_compute in Ecum. injection Ecum as <-.
    destruct (H 0 [[lp (-6); lp (-1); lp (-4); lp 0];
                   [lp (-3); lp (-5); lp (-8); lp (-10)]])
      as (Hs & Hb & toks & Ht & _).
    + reflexivity.
    + repeat constructor.
    + vm_compute. reflexivity.
    + exists fs, fi, fb. split; [exact E|]. split; [exact Hs|].
      split; [exact Hb|]. vm_compute in E. injection E as _ <- _.
      reflexivity.
Defined.

(** C9: where k = min(2 * beam_size, beam_size * vocab_size - 1) exceeds
    vocab_size the step does none of what the class describes.  With 3
    beams over 4 tokens at step 1, k is 6, no beam slot has 6 candidates,
    the [torch.topk] of every slot raises, and so does
    [DiverseSiblingsSearch.step], whatever the diversity rate. *)
Theorem DiverseSiblingsSearch_step_raises :
  siblings_k 3 4 = 6%Z /\
  (exists cum,
      add_last_score 1 example_lprobs_distinct example_history = Ok cum /\
      Forall (Forall (fun row => length row = 4 /\
                                 topk 6 row = Raise RuntimeError)) cum) /\
  forall self : DiverseSiblingsSearch,
    DiverseSiblingsSearch_step self 1 example_lprobs_distinct example_history
    = Raise RuntimeError.
Proof.
  split; [reflexivity|]. split.
  - eexists. split; [vm_compute; reflexivity|].
    repeat constructor.
  - intros self. vm_compute. reflexivity.
Qed.

(** C6: the docstring of [DiverseSiblingsSearch] promises the output of
    [BeamSearch] when diversity_rate is 0.  With 3 beams over 4 tokens at
    step 1, on an input whose cumulative scores are pairwise different,
    [BeamSearch.step] returns its 6 best candidates while
    [DiverseSiblingsSearch.step] raises: its k = 6 is taken from the
    flattened size and handed to the [torch.topk] of a single row of 4. *)
Theorem DiverseSiblingsSearch_rate_0_raises :
  (exists cum,
      ranked 1 example_lprobs_distinct example_history = Ok [cum] /\
      no_ties (concat cum) = true) /\
  BeamSearch_step 1 example_lprobs_distinct example_history
  = Ok ([[lp 0; lp (-1); lp (-2); lp (-3); lp (-4); lp (-5)]],
        [[3; 1; 3; 0; 2; 0]],
        [[0; 0; 1; 1; 0; 2]]) /\
  DiverseSiblingsSearch_step {| diversity_rate := 0 |} 1
                             example_lprobs_distinct example_history
  = Raise RuntimeError.
Proof.
  split; [|split; vm_compute; reflexivity].
  eexists. split; vm_compute; reflexivity.
Qed.

(** * Further properties of the strategies *)

(** ** Lists *)

Lemma nth2_map_rows (A C D : Type) (T : A -> list C) (g : C -> D)
  (l : list A) (b j : nat) (y : D) :
  nth2 (map (fun a => map g (T a)) l) b j = Some y ->
  exists a x, nth_error l b = Some a /\ nth_error (T a) j = Some x /\ y = g x.
Proof.
  unfold nth2. rewrite nth_error_map.
  destruct (nth_error l b) as [a|]; [|discriminate]. simpl.
  rewrite nth_error_map.
  destruct (nth_error (T a) j) as [x|] eqn:E; [|discriminate]. simpl.
  intros H. injection H as <-. eauto.
Qed.

Lemma zipM_nth (A C D : Type) e (f : A -> C -> result D) l1 l2 l' n z :
  zipM e f l1 l2 = Ok l' -> nth_error l' n = Some z ->
  exists x y,
    nth_error l1 n = Some x /\ nth_error l2 n = Some y /\ f x y = Ok z.
Proof.
  revert l2 l' n. induction l1 as [|x l1 IH]; intros [|y l2] l' n H Hn;
    simpl in H; try discriminate.
  - injection H as <-. destruct n; discriminate.
  - bind_inv H as z0 E0. bind_inv H as zs E1. injection H as <-.
    destruct n as [|n]; simpl in *.
    + injection Hn as <-. eauto.
    + eauto.
Qed.

Lemma mapM_nth (A C : Type) (f : A -> result C) l l' n z :
  mapM f l = Ok l' -> nth_error l' n = Some z ->
  exists x, nth_error l n = Some x /\ f x = Ok z.
Proof.
  revert l' n. induction l as [|x l IH]; intros l' n H Hn; simpl in H.
  - injection H as <-. destruct n; discriminate.
  - bind_inv H as z0 E0. bind_inv H as zs E1. injection H as <-.
    destruct n as [|n]; simpl in *.
    + injection Hn as <-. eauto.
    + eauto.
Qed.

Lemma sorted_firstn (A : Type) (R : A -> A -> Prop) (n : nat) (l : list A) :
  StronglySorted R l -> StronglySorted R (firstn n l).
Proof.
  intros H. revert n. induction H as [|x l Hs IH Hx]; intros [|n]; simpl;
    constructor; auto.
  now apply Forall_firstn_same.
Qed.

Lemma sorted_app_le (A : Type) (R : A -> A -> Prop) (l1 l2 : list A) x y :
  StronglySorted R (l1 ++ l2) -> In x l1 -> In y l2 -> R x y.
Proof.
  induction l1 as [|a l1 IH]; simpl; intros H Hx Hy; [tauto|].
  inversion H as [|? ? Hs Ha]; subst. destruct Hx as [<-|Hx]; [|auto].
  rewrite Forall_forall in Ha. apply Ha, in_or_app. now right.
Qed.

Lemma NoDup_firstn (A : Type) (n : nat) (l : list A) :
  NoDup l -> NoDup (firstn n l).
Proof.
  intros H. revert n. induction H as [|x l Hx _ IH]; intros [|n]; simpl;
    constructor; auto.
  intros Hin. apply Hx. eapply In_firstn; eauto.
Qed.

(** The flattened positions kept by [torch.topk] are distinct. *)
Lemma top_list_NoDup (k : Z) (row : list lprob) :
  NoDup (map snd (top_list k row)).
Proof.
  unfold top_list. rewrite <- firstn_map. apply NoDup_firstn.
  eapply Permutation_NoDup.
  - symmetry. apply Permutation_map, sort_desc_perm.
  - rewrite enumerate_snd. apply seq_NoDup.
Qed.

Lemma top_list_sorted (k : Z) (row : list lprob) :
  StronglySorted (fun x y => lp_leb (fst y) (fst x) = true) (top_list k row).
Proof.
  unfold top_list. apply sorted_firstn.
  apply (@sort_desc_sorted _ lp_geb_fst lp_geb_fst_total lp_geb_fst_trans).
Qed.

(** Whatever [torch.topk] leaves out ranks no higher than what it keeps. *)
Lemma top_list_best (k : Z) (row : list lprob) (p : nat) v x :
  nth_error row p = Some v -> ~ In p (map snd (top_list k row)) ->
  In x (top_list k row) -> lp_leb v (fst x) = true.
Proof.
  intros Hp Hout Hx. unfold top_list in *.
  set (sorted := sort_desc lp_geb_fst (enumerate row)) in *.
  assert (Hin : In (v, p) sorted).
  { eapply Permutation_in; [symmetry; apply sort_desc_perm|].
    now apply enumerate_In. }
  rewrite <- (firstn_skipn (Z.to_nat k) sorted) in Hin.
  apply in_app_or in Hin. destruct Hin as [Hin|Hin].
  - exfalso. apply Hout. apply in_map_iff. exists (v, p). auto.
  - pose proof (@sort_desc_sorted _ lp_geb_fst lp_geb_fst_total
                                  lp_geb_fst_trans (enumerate row)) as Hs.
    fold sorted in Hs. rewrite <- (firstn_skipn (Z.to_nat k) sorted) in Hs.
    apply (@sorted_app_le _ _ _ _ x (v, p) Hs Hx Hin).
Qed.

(** ** BeamSearch.step: what is selected *)

(** The three outputs of [BeamSearch.step], row by row from the ranked
    tensor. *)
Lemma BeamSearch_step_rows (B K V step : nat) (lprobs scores : tensor3 lprob)
  s i bm :
  wf3 B K V lprobs -> 1 <= K -> 1 <= V -> wf_scores B K step scores ->
  BeamSearch_step step lprobs scores = Ok (s, i, bm) ->
  exists cum,
    ranked step lprobs scores = Ok cum /\
    wf3 B (if step =? 0 then 1 else K) V cum /\
    s = map (fun beams => map fst (beam_top step K V beams)) cum /\
    i = map (fun beams => map (fun x => snd x mod V) (beam_top step K V beams))
            cum /\
    bm = map (fun beams => map (fun x => snd x / V) (beam_top step K V beams))
             cum.
Proof.
  intros H HK HV Hs E.
  destruct (BeamSearch_step_closed H HK HV Hs) as (cum & Ec & Hc & EB).
  cbv zeta in EB. rewrite EB in E. injection E as <- <- <-.
  exists cum. split; [exact Ec|]. split; [exact Hc|].
  unfold view_flat, beam_top. rewrite !map_map. repeat split.
Qed.

(** The entries of the ranked tensor in terms of the inputs. *)
Lemma ranked_entries (B K V step : nat) (lprobs scores cum : tensor3 lprob)
  b beam tok sc :
  wf3 B K V lprobs -> 1 <= K ->
  ranked step lprobs scores = Ok cum ->
  nth3 cum b beam tok = Some sc ->
  if step =? 0 then beam = 0 /\ nth3 lprobs b 0 tok = Some sc
  else exists x h,
      nth3 lprobs b beam tok = Some x /\
      nth3 scores b beam (step - 1) = Some h /\
      sc = lp_add x h.
Proof.
  intros H HK E Hn. destruct step as [|step]; cbn [Nat.eqb].
  - rewrite (ranked_0 scores H HK) in E. injection E as <-.
    unfold nth3, nth2 in *. rewrite nth_error_map in Hn.
    destruct (nth_error lprobs b) as [beams|]; [|discriminate].
    simpl in Hn. destruct beams as [|row beams]; simpl in Hn.
    + destruct beam; discriminate.
    + destruct beam as [|beam]; simpl in *; [auto|].
      destruct beam; discriminate.
  - unfold ranked, size3 in E. cbn [Nat.eqb] in E. unfold add_last_score in E.
    unfold nth3, nth2 in *.
    destruct (nth_error cum b) as [cbeams|] eqn:Eb; [|discriminate].
    destruct (@zipM_nth _ _ _ _ _ _ _ _ _ _ E Eb) as (beams & hist & E1 & E2 & Ez).
    destruct (nth_error cbeams beam) as [crow|] eqn:Ebeam; [|discriminate].
    destruct (@zipM_nth _ _ _ _ _ _ _ _ _ _ Ez Ebeam) as (row & h & R1 & R2 & Er).
    bind_inv Er as hs Eh. injection Er as <-.
    rewrite nth_error_map in Hn.
    destruct (nth_error row tok) as [x|] eqn:Ex; [|discriminate].
    simpl in Hn. injection Hn as <-.
    unfold getitem in Eh.
    destruct (nth_error h (S step - 1)) as [hv|] eqn:Ehv; [|discriminate].
    injection Eh as <-.
    exists x, hv. rewrite E1, E2, R1, R2. auto.
Qed.

Lemma beam_top_position (K' V step K : nat) (beams : tensor2 lprob) x :
  wf2 K' V beams -> 1 <= V -> In x (beam_top step K V beams) ->
  snd x < K' * V /\
  nth2 beams (snd x / V) (snd x mod V) = Some (fst x).
Proof.
  intros Hw HV Hx. destruct x as [v p]. unfold beam_top in Hx.
  apply top_list_In in Hx. simpl. split.
  - rewrite <- (concat_length_wf2 Hw). apply nth_error_Some. congruence.
  - destruct (nth_error_concat _ Hw HV Hx) as (r & Hr & Hv).
    unfold nth2. now rewrite Hr.
Qed.

(** X1: the token ids returned by [BeamSearch.step] are vocabulary ids and
    the beam ids are ids of input hypotheses (docstring of [Search.step]:
    "in the range [0, input_beam_size)"). *)
Theorem BeamSearch_step_ranges (B K V step : nat)
  (lprobs scores : tensor3 lprob) s i bm :
  wf3 B K V lprobs -> 1 <= K -> 1 <= V -> wf_scores B K step scores ->
  BeamSearch_step step lprobs scores = Ok (s, i, bm) ->
  Forall (Forall (fun tok => tok < V)) i /\
  Forall (Forall (fun beam => beam < K)) bm.
Proof.
  intros H HK HV Hs E.
  destruct (BeamSearch_step_rows H HK HV Hs E)
    as (cum & Ec & [_ Hc] & -> & -> & ->).
  rewrite Forall_forall in Hc. split.
  - rewrite Forall_map. apply Forall_forall. intros beams Hb.
    rewrite Forall_map. apply Forall_forall. intros x _.
    apply Nat.mod_upper_bound. lia.
  - rewrite Forall_map. apply Forall_forall. intros beams Hb.
    rewrite Forall_map. apply Forall_forall. intros x Hx.
    destruct (@beam_top_position _ V step K beams x (Hc beams Hb) HV Hx)
      as [Hlt _].
    apply Nat.Div0.div_lt_upper_bound.
    destruct (step =? 0); nia.
Qed.

Lemma BeamSearch_step_ranges_witness :
  Forall (Forall (fun tok => tok < 3)) [[1; 0; 1; 2]] /\
  Forall (Forall (fun beam => beam < 2)) [[0; 1; 1; 0]].
Proof.
  apply (@BeamSearch_step_ranges 1 2 3 1
           [[[lp (-5); lp 0; lp (-3)]; [lp (-1); lp (-1); NegInf]]]
           [[[lp (-1)]; [lp (-2)]]]
           [[lp (-1); lp (-3); lp (-3); lp (-4)]]).
  - split; [reflexivity|]. repeat constructor.
  - lia.
  - lia.
  - intros _. exists 1. split; [|lia].
    split; [reflexivity|]. repeat constructor.
  - vm_compute. reflexivity.
Defined.

(** The entry of the input behind a returned candidate. *)
Lemma BeamSearch_step_entry (B K V step : nat)
  (lprobs scores : tensor3 lprob) s i bm b j sc tok beam :
  wf3 B K V lprobs -> 1 <= K -> 1 <= V -> wf_scores B K step scores ->
  BeamSearch_step step lprobs scores = Ok (s, i, bm) ->
  nth2 s b j = Some sc -> nth2 i b j = Some tok -> nth2 bm b j = Some beam ->
  if step =? 0 then beam = 0 /\ nth3 lprobs b 0 tok = Some sc
  else exists x h,
      nth3 lprobs b beam tok = Some x /\
      nth3 scores b beam (step - 1) = Some h /\
      sc = lp_add x h.
Proof.
  intros H HK HV Hs E Hsc Htok Hbeam.
  destruct (BeamSearch_step_rows H HK HV Hs E)
    as (cum & Ec & [_ Hc] & -> & -> & ->).
  destruct (@nth2_map_rows _ _ _ _ _ _ _ _ _ Hsc) as (beams & x & Eb & Ex & ->).
  destruct (@nth2_map_rows _ _ _ _ _ _ _ _ _ Htok) as (beams' & x' & Eb' & Ex' & ->).
  destruct (@nth2_map_rows _ _ _ _ _ _ _ _ _ Hbeam) as (beams'' & x'' & Eb'' & Ex'' & ->).
  rewrite Eb in Eb', Eb''. injection Eb' as <-. injection Eb'' as <-.
  rewrite Ex in Ex', Ex''. injection Ex' as <-. injection Ex'' as <-.
  rewrite Forall_forall in Hc.
  destruct (@beam_top_position _ V step K beams x
              (Hc beams (nth_error_In _ _ Eb)) HV (nth_error_In _ _ Ex))
    as [_ Hpos].
  apply (@ranked_entries B K V step lprobs scores cum b
                         (snd x / V) (snd x mod V) (fst x) H HK Ec).
  unfold nth3. rewrite Eb. exact Hpos.
Qed.

(** X2: every selected candidate is a candidate of the input, and its score
    is that candidate's: at step 0 the log-probability of the token in the
    first beam, later the log-probability of the token in the returned beam
    plus that beam's last history score. *)
Theorem BeamSearch_step_scores (B K V step : nat)
  (lprobs scores : tensor3 lprob) s i bm b j sc tok beam :
  wf3 B K V lprobs -> 1 <= K -> 1 <= V -> wf_scores B K step scores ->
  BeamSearch_step step lprobs scores = Ok (s, i, bm) ->
  nth2 s b j = Some sc -> nth2 i b j = Some tok -> nth2 bm b j = Some beam ->
  if step =? 0 then beam = 0 /\ nth3 lprobs b 0 tok = Some sc
  else exists x h,
      nth3 lprobs b beam tok = Some x /\
      nth3 scores b beam (step - 1) = Some h /\
      sc = lp_add x h.
Proof.
  intros H HK HV Hs E Hsc Htok Hbeam.
  eapply BeamSearch_step_entry; eassumption.
Qed.

Lemma BeamSearch_step_scores_witness :
  exists x h,
    nth3 [[[lp (-5); lp 0; lp (-3)]; [lp (-1); lp (-1); NegInf]]] 0 1 0
    = Some x /\
    nth3 [[[lp (-1)]; [lp (-2)]]] 0 1 (1 - 1) = Some h /\
    lp (-3) = lp_add x h.
Proof.
  apply (@BeamSearch_step_scores 1 2 3 1
           [[[lp (-5); lp 0; lp (-3)]; [lp (-1); lp (-1); NegInf]]]
           [[[lp (-1)]; [lp (-2)]]]
           [[lp (-1); lp (-3); lp (-3); lp (-4)]]
           [[1; 0; 1; 2]] [[0; 1; 1; 0]] 0 1 (lp (-3)) 0 1).
  - split; [reflexivity|]. repeat constructor.
  - lia.
  - lia.
  - intros _. exists 1. split; [|lia].
    split; [reflexivity|]. repeat constructor.
  - vm_compute. reflexivity.
  - reflexivity.
  - reflexivity.
  - reflexivity.
Defined.

Lemma sorted_map_fst (l : list (lprob * nat)) :
  StronglySorted (fun x y => lp_leb (fst y) (fst x) = true) l ->
  StronglySorted (fun a b => lp_leb b a = true) (map fst l).
Proof.
  induction 1 as [|x l _ IH Hx]; simpl; constructor; [exact IH|].
  rewrite Forall_map. exact Hx.
Qed.

(** X3: the scores returned by [BeamSearch.step] for a batch element are in
    descending order, best candidate first. *)
Theorem BeamSearch_step_descending (B K V step : nat)
  (lprobs scores : tensor3 lprob) s i bm :
  wf3 B K V lprobs -> 1 <= K -> 1 <= V -> wf_scores B K step scores ->
  BeamSearch_step step lprobs scores = Ok (s, i, bm) ->
  Forall (StronglySorted (fun a b => lp_leb b a = true)) s.
Proof.
  intros H HK HV Hs E.
  destruct (BeamSearch_step_rows H HK HV Hs E) as (cum & _ & _ & -> & _).
  rewrite Forall_map. apply Forall_forall. intros beams _.
  apply sorted_map_fst, top_list_sorted.
Qed.

Lemma BeamSearch_step_descending_witness :
  Forall (StronglySorted (fun a b => lp_leb b a = true))
         [[lp (-1); lp (-3); lp (-3); lp (-4)]].
Proof.
  apply (@BeamSearch_step_descending 1 2 3 1
           [[[lp (-5); lp 0; lp (-3)]; [lp (-1); lp (-1); NegInf]]]
           [[[lp (-1)]; [lp (-2)]]]
           [[lp (-1); lp (-3); lp (-3); lp (-4)]]
           [[1; 0; 1; 2]] [[0; 1; 1; 0]]).
  - split; [reflexivity|]. repeat constructor.
  - lia.
  - lia.
  - intros _. exists 1. split; [|lia].
    split; [reflexivity|]. repeat constructor.
  - vm_compute. reflexivity.
Defined.

Lemma NoDup_map_injective (A C : Type) (f : A -> C) (l : list A) :
  (forall x y, In x l -> In y l -> f x = f y -> x = y) ->
  NoDup l -> NoDup (map f l).
Proof.
  intros Hinj H. induction H as [|x l Hx _ IH]; simpl; constructor.
  - intros Hin. apply in_map_iff in Hin. destruct Hin as (y & Hy & Hin).
    assert (y = x) by (apply Hinj; [now right | now left | exact Hy]).
    subst y. contradiction.
  - apply IH. intros a b Ha Hb. apply Hinj; now right.
Qed.

Lemma combine_map_same (A C D : Type) (f : A -> C) (g : A -> D) (l : list A) :
  combine (map f l) (map g l) = map (fun x => (f x, g x)) l.
Proof. induction l as [|x l IH]; simpl; [reflexivity|]. now rewrite IH. Qed.

(** X4: [BeamSearch.step] never returns the same (beam, token) candidate
    twice for a batch element. *)
Theorem BeamSearch_step_distinct (B K V step : nat)
  (lprobs scores : tensor3 lprob) s i bm b beams_row tokens_row :
  wf3 B K V lprobs -> 1 <= K -> 1 <= V -> wf_scores B K step scores ->
  BeamSearch_step step lprobs scores = Ok (s, i, bm) ->
  nth_error bm b = Some beams_row -> nth_error i b = Some tokens_row ->
  NoDup (combine beams_row tokens_row).
Proof.
  intros H HK HV Hs E Hb Hi.
  destruct (BeamSearch_step_rows H HK HV Hs E) as (cum & _ & _ & _ & -> & ->).
  rewrite nth_error_map in Hb, Hi.
  destruct (nth_error cum b) as [beams|]; [|discriminate].
  simpl in Hb, Hi. injection Hb as <-. injection Hi as <-.
  rewrite combine_map_same.
  rewrite <- (map_map snd (fun p => (p / V, p mod V))).
  apply NoDup_map_injective; [|apply top_list_NoDup].
  intros p q _ _ Hpq. injection Hpq as Hd Hm.
  rewrite (Nat.div_mod_eq p V), (Nat.div_mod_eq q V). congruence.
Qed.

Lemma BeamSearch_step_distinct_witness :
  NoDup (combine [0; 1; 1; 0] [1; 0; 1; 2]).
Proof.
  apply (@BeamSearch_step_distinct 1 2 3 1
           [[[lp (-5); lp 0; lp (-3)]; [lp (-1); lp (-1); NegInf]]]
           [[[lp (-1)]; [lp (-2)]]]
           [[lp (-1); lp (-3); lp (-3); lp (-4)]]
           [[1; 0; 1; 2]] [[0; 1; 1; 0]] 0).
  - split; [reflexivity|]. repeat constructor.
  - lia.
  - lia.
  - intros _. exists 1. split; [|lia].
    split; [reflexivity|]. repeat constructor.
  - vm_compute. reflexivity.
  - reflexivity.
  - reflexivity.
Defined.

(** X5: [BeamSearch.step] keeps the best candidates: a candidate of the
    ranked tensor that is not returned scores no higher than any returned
    candidate of its batch element. *)
Theorem BeamSearch_step_best (B K V step : nat)
  (lprobs scores cum : tensor3 lprob) s i bm b beam tok v :
  wf3 B K V lprobs -> 1 <= K -> 1 <= V -> wf_scores B K step scores ->
  BeamSearch_step step lprobs scores = Ok (s, i, bm) ->
  ranked step lprobs scores = Ok cum ->
  nth3 cum b beam tok = Some v ->
  (forall j, ~ (nth2 bm b j = Some beam /\ nth2 i b j = Some tok)) ->
  forall j sc, nth2 s b j = Some sc -> lp_leb v sc = true.
Proof.
  intros H HK HV Hs E Ec Hv Hout j sc Hsc.
  destruct (BeamSearch_step_rows H HK HV Hs E)
    as (cum' & Ec' & [_ Hc] & -> & -> & ->).
  rewrite Ec in Ec'. injection Ec' as <-.
  destruct (@nth2_map_rows _ _ _ _ _ _ _ _ _ Hsc) as (beams & x & Eb & Ex & ->).
  unfold nth3 in Hv. rewrite Eb in Hv. unfold nth2 in Hv.
  destruct (nth_error beams beam) as [row|] eqn:Er; [|discriminate].
  rewrite Forall_forall in Hc.
  pose proof (Hc beams (nth_error_In _ _ Eb)) as Hw.
  assert (Htok : tok < V).
  { destruct Hw as [_ Hrows]. rewrite Forall_forall in Hrows.
    rewrite <- (Hrows row (nth_error_In _ _ Er)).
    apply nth_error_Some. congruence. }
  pose proof (nth_error_concat_at _ _ Hw Er Hv) as Hp.
  apply (@top_list_best (beam_k step K V) (concat beams) (beam * V + tok) v x
           Hp); [|exact (nth_error_In _ _ Ex)].
  intros Hin. apply in_map_iff in Hin. destruct Hin as (y & Hy & Hin).
  apply In_nth_error in Hin. destruct Hin as [j' Hj'].
  apply (Hout j'). unfold nth2. rewrite !nth_error_map, Eb. simpl.
  rewrite !nth_error_map. fold (beam_top step K V beams). unfold beam_top.
  rewrite Hj'. simpl. rewrite Hy. split; f_equal.
  - rewrite Nat.div_add_l by lia. rewrite Nat.div_small by lia. lia.
  - rewrite Nat.add_comm, Nat.Div0.mod_add. now apply Nat.mod_small.
Qed.

Lemma BeamSearch_step_best_witness :
  lp_leb (lp (-6)) (lp (-4)) = true.
Proof.
  refine (@BeamSearch_step_best 1 2 3 1
            [[[lp (-5); lp 0; lp (-3)]; [lp (-1); lp (-1); NegInf]]]
            [[[lp (-1)]; [lp (-2)]]]
            [[[lp (-6); lp (-1); lp (-4)]; [lp (-3); lp (-3); NegInf]]]
            [[lp (-1); lp (-3); lp (-3); lp (-4)]]
            [[1; 0; 1; 2]] [[0; 1; 1; 0]] 0 0 0 (lp (-6))
            _ _ _ _ _ _ _ _ 3 (lp (-4)) _); [| | | | | | | |reflexivity].
  - split; [reflexivity|]. repeat constructor.
  - lia.
  - lia.
  - intros _. exists 1. split; [|lia].
    split; [reflexivity|]. repeat constructor.
  - vm_compute. reflexivity.
  - vm_compute. reflexivity.
  - reflexivity.
  - intros [|[|[|[|[|j]]]]] [Hb Ht]; vm_compute in Hb, Ht;
      first [discriminate Hb | discriminate Ht].
Defined.

(** X6: at step 0 [BeamSearch.step] reads only the first beam of every batch
    element: two inputs of the same shape that agree there give the same
    result, whatever the other beams and the score histories hold. *)
Theorem BeamSearch_step_0_first_beam (B K V : nat)
  (lprobs lprobs' scores scores' : tensor3 lprob) :
  wf3 B K V lprobs -> wf3 B K V lprobs' -> 1 <= K ->
  map (firstn 1) lprobs = map (firstn 1) lprobs' ->
  BeamSearch_step 0 lprobs scores = BeamSearch_step 0 lprobs' scores'.
Proof.
  intros H H' HK E.
  pose proof (ranked_0 scores H HK) as R.
  pose proof (ranked_0 scores' H' HK) as R'.
  destruct lprobs as [|m t], lprobs' as [|m' t']; try discriminate E.
  - reflexivity.
  - unfold ranked in R, R'. unfold BeamSearch_step.
    rewrite (size3_wf H HK) in *. rewrite (size3_wf H' HK) in *.
    change (0 =? 0) with true in *. cbv iota in *.
    rewrite R, R', E. reflexivity.
Qed.

Lemma BeamSearch_step_0_first_beam_witness :
  BeamSearch_step 0 [[[lp (-1); lp (-2); lp (-3)]; [lp 0; lp 0; lp 0]]] []
  = BeamSearch_step 0 [[[lp (-1); lp (-2); lp (-3)]; [lp (-7); NegInf; lp (-9)]]]
                    [[[lp (-4)]; [lp (-5)]]].
Proof.
  apply (@BeamSearch_step_0_first_beam 1 2 3).
  - split; [reflexivity|]. repeat constructor.
  - split; [reflexivity|]. repeat constructor.
  - lia.
  - reflexivity.
Defined.

(** X7: after step 0 [BeamSearch.step] reads column [step - 1] of the score
    history; on a history with fewer than [step] columns it raises
    IndexError. *)
Theorem BeamSearch_step_short_history (B K V T step : nat)
  (lprobs scores : tensor3 lprob) :
  wf3 B K V lprobs -> wf3 B K T scores -> 1 <= B -> 1 <= K ->
  1 <= step -> T < step ->
  BeamSearch_step step lprobs scores = Raise IndexError.
Proof.
  intros H Hs HB HK Hstep HT.
  destruct lprobs as [|m t]; [destruct H as [H _]; simpl in H; lia|].
  destruct scores as [|sm st]; [destruct Hs as [Hs _]; simpl in Hs; lia|].
  unfold BeamSearch_step. rewrite (size3_wf H HK).
  destruct (step =? 0) eqn:E0; [apply Nat.eqb_eq in E0; lia|].
  destruct H as [_ H]. apply Forall_inv in H. destruct H as [Hm _].
  destruct Hs as [_ Hs]. apply Forall_inv in Hs. destruct Hs as [Hsm Hh].
  destruct m as [|row rows]; [simpl in Hm; lia|].
  destruct sm as [|hist hs]; [simpl in Hsm; lia|].
  apply Forall_inv in Hh.
  unfold add_last_score. simpl. unfold getitem.
  assert (En : nth_error hist (step - 1) = None)
    by (apply nth_error_None; lia).
  rewrite En. reflexivity.
Qed.

Lemma BeamSearch_step_short_history_witness :
  BeamSearch_step 2 [[[lp (-1); lp (-2); lp (-3)]; [lp 0; lp 0; lp 0]]]
                  [[[lp (-4)]; [lp (-5)]]]
  = Raise IndexError.
Proof.
  apply (@BeamSearch_step_short_history 1 2 3 1 2).
  - split; [reflexivity|]. repeat constructor.
  - split; [reflexivity|]. repeat constructor.
  - lia.
  - lia.
  - lia.
  - lia.
Defined.

Lemma filter_fst_combine_length (A C : Type) (f : A -> bool) (l : list A)
  (l' : list C) :
  length l <= length l' ->
  length (filter (fun x => f (fst x)) (combine l l')) = length (filter f l).
Proof.
  revert l'. induction l as [|a l IH]; intros [|c l'] Hl; simpl in *;
    try reflexivity; try lia.
  destruct (f a); simpl; rewrite IH by lia; reflexivity.
Qed.

(** X8: a candidate whose score is minus infinity is returned by
    [BeamSearch.step] only when a batch element has fewer finite candidates
    than the number of results asked for. *)
Theorem BeamSearch_step_finite (B K V step : nat)
  (lprobs scores cum : tensor3 lprob) s i bm b beams j sc :
  wf3 B K V lprobs -> 1 <= K -> 1 <= V -> wf_scores B K step scores ->
  BeamSearch_step step lprobs scores = Ok (s, i, bm) ->
  ranked step lprobs scores = Ok cum ->
  nth_error cum b = Some beams ->
  beam_width step K V <= count_finite beams ->
  nth2 s b j = Some sc -> is_finite sc = true.
Proof.
  intros H HK HV Hs E Ec Eb Hcount Hsc.
  destruct (BeamSearch_step_rows H HK HV Hs E)
    as (cum' & Ec' & _ & -> & _ & _).
  rewrite Ec in Ec'. injection Ec' as <-.
  destruct (@nth2_map_rows _ _ _ _ _ _ _ _ _ Hsc) as (beams' & x & Eb' & Ex & ->).
  rewrite Eb in Eb'. injection Eb' as <-.
  apply nth_error_In in Ex. unfold beam_top, top_list in Ex.
  pose proof (@top_all_good _ lp_geb_fst lp_geb_fst_total lp_geb_fst_trans
                (fun y => is_finite (fst y))
                (enumerate (concat beams)) (Z.to_nat (beam_k step K V))) as Hg.
  rewrite Forall_forall in Hg. apply Hg; [| |exact Ex].
  - intros y z _ _ Hy Hz. unfold lp_geb_fst.
    destruct (fst y); [|discriminate]. destruct (fst z); [discriminate|].
    reflexivity.
  - unfold enumerate. rewrite filter_fst_combine_length
      by (rewrite length_seq; lia).
    exact Hcount.
Qed.

Lemma BeamSearch_step_finite_witness :
  is_finite (lp (-4)) = true.
Proof.
  refine (@BeamSearch_step_finite 1 2 3 1
            [[[lp (-5); lp 0; lp (-3)]; [lp (-1); lp (-1); NegInf]]]
            [[[lp (-1)]; [lp (-2)]]]
            [[[lp (-6); lp (-1); lp (-4)]; [lp (-3); lp (-3); NegInf]]]
            [[lp (-1); lp (-3); lp (-3); lp (-4)]]
            [[1; 0; 1; 2]] [[0; 1; 1; 0]] 0
            [[lp (-6); lp (-1); lp (-4)]; [lp (-3); lp (-3); NegInf]]
            3 (lp (-4)) _ _ _ _ _ _ _ _ _); [| | | | | | | |reflexivity].
  - split; [reflexivity|]. repeat constructor.
  - lia.
  - lia.
  - intros _. exists 1. split; [|lia].
    split; [reflexivity|]. repeat constructor.
  - vm_compute. reflexivity.
  - vm_compute. reflexivity.
  - reflexivity.
  - vm_compute. lia.
Defined.

(** ** LengthConstrainedBeamSearch.step: when the constraint applies *)

Lemma length_mask_rows (self : LengthConstrainedBeamSearch)
  (B K V step : nat) (lens : list Z) (lprobs : tensor3 lprob) :
  src_lengths (lc_base self) = Vector1 lens -> length lens = B ->
  wf3 B K V lprobs -> eos (lc_base self) < V ->
  exists masked,
    length_mask self step lprobs = Ok masked /\
    wf3 B K V masked /\
    forall n src beams,
      nth_error lens n = Some src -> nth_error lprobs n = Some beams ->
      nth_error masked n = Some (map (masked_row self step src) beams).
Proof.
  intros Hsrc Hl Hwf He.
  unfold length_mask. rewrite Hsrc.
  set (fmin := fun z => (min_len_a self * z + min_len_b self)%Z).
  set (fmax := fun z => (max_len_a self * z + max_len_b self)%Z).
  change (affine (min_len_a self) (min_len_b self) (Vector1 lens))
    with (Vector1 (map fmin lens)).
  change (affine (max_len_a self) (max_len_b self) (Vector1 lens))
    with (Vector1 (map fmax lens)).
  assert (Hlmin : length (map fmin lens) = B) by now rewrite length_map.
  assert (Hlmax : length (map fmax lens) = B) by now rewrite length_map.
  destruct (@setitem_masked_vector B K V (eos (lc_base self)) NegInf
              (fun m => (Z.of_nat step <? m)%Z) _ _ Hlmin Hwf He)
    as (t1 & E1 & W1 & N1).
  destruct (@setitem_masked_vector B K V (eos (lc_base self)) (Fin 0)
              (fun m => (Z.of_nat step =? m)%Z) _ _ Hlmax W1 He)
    as (t2 & E2 & W2 & N2).
  destruct (@setitem_masked_vector B K V (eos (lc_base self)) NegInf
              (fun m => (m <? Z.of_nat step)%Z) _ _ Hlmax W2 He)
    as (t3 & E3 & W3 & N3).
  rewrite E1. cbn [bind]. rewrite E2. cbn [bind]. rewrite E3.
  exists t3. split; [reflexivity|]. split; [exact W3|].
  intros n src beams Hn Hb.
  pose proof (map_nth_error fmin _ _ Hn) as Hmin.
  pose proof (map_nth_error fmax _ _ Hn) as Hmax.
  specialize (N1 _ _ _ Hmin Hb). specialize (N2 _ _ _ Hmax N1).
  specialize (N3 _ _ _ Hmax N2). rewrite N3. f_equal.
  unfold masked_row, fmin, fmax.
  destruct (Z.of_nat step <? min_len_a self * src + min_len_b self)%Z,
           (Z.of_nat step =? max_len_a self * src + max_len_b self)%Z,
           (max_len_a self * src + max_len_b self <? Z.of_nat step)%Z;
    rewrite ?map_map; try reflexivity; symmetry; apply map_id.
Qed.

Lemma masked_row_inactive (self : LengthConstrainedBeamSearch) (step : nat)
  (src : Z) (row : list lprob) :
  (min_len_a self * src + min_len_b self <= Z.of_nat step
   < max_len_a self * src + max_len_b self)%Z ->
  masked_row self step src row = row.
Proof.
  intros Hr. unfold masked_row.
  destruct (Z.ltb_spec (Z.of_nat step)
                       (min_len_a self * src + min_len_b self)); [lia|].
  destruct (Z.eqb_spec (Z.of_nat step)
                       (max_len_a self * src + max_len_b self)); [lia|].
  destruct (Z.ltb_spec (max_len_a self * src + max_len_b self)
                       (Z.of_nat step)); [lia|].
  reflexivity.
Qed.

Lemma masked_row_too_short (self : LengthConstrainedBeamSearch) (step : nat)
  (src : Z) (row : list lprob) :
  (Z.of_nat step < min_len_a self * src + min_len_b self)%Z ->
  Z.of_nat step <> (max_len_a self * src + max_len_b self)%Z ->
  eos (lc_base self) < length row ->
  nth_error (masked_row self step src row) (eos (lc_base self)) = Some NegInf /\
  forall v, v <> eos (lc_base self) ->
            nth_error (masked_row self step src row) v = nth_error row v.
Proof.
  intros Hmin Hmax He. unfold masked_row.
  destruct (Z.ltb_spec (Z.of_nat step)
                       (min_len_a self * src + min_len_b self)); [|lia].
  destruct (Z.eqb_spec (Z.of_nat step)
                       (max_len_a self * src + max_len_b self)); [lia|].
  destruct (Z.ltb_spec (max_len_a self * src + max_len_b self)
                       (Z.of_nat step));
    (split; [|intros v Hv]);
    repeat first [ reflexivity
                 | rewrite upd_same by (rewrite ?upd_length; lia)
                 | rewrite upd_other by assumption ].
Qed.

(** X9: when the step lies between the minimum and the maximum length of
    every example (minimum included, maximum excluded), the length
    constraint changes nothing: [LengthConstrainedBeamSearch.step] returns
    what [BeamSearch.step] returns on the same input. *)
Theorem LengthConstrainedBeamSearch_step_inactive
  (self : LengthConstrainedBeamSearch) (B K V step : nat) (lens : list Z)
  (lprobs scores : tensor3 lprob) :
  src_lengths (lc_base self) = Vector1 lens -> length lens = B ->
  wf3 B K V lprobs -> eos (lc_base self) < V ->
  Forall (fun src => (min_len_a self * src + min_len_b self <= Z.of_nat step
                      < max_len_a self * src + max_len_b self)%Z) lens ->
  LengthConstrainedBeamSearch_step self step lprobs scores
  = BeamSearch_step step lprobs scores.
Proof.
  intros Hsrc Hl Hwf He Hin.
  destruct (@length_mask_rows self B K V step lens lprobs Hsrc Hl Hwf He)
    as (masked & E & [Wl _] & N).
  unfold LengthConstrainedBeamSearch_step. rewrite E. cbn [bind].
  replace masked with lprobs; [reflexivity|].
  apply nth_error_ext. intros n.
  destruct (nth_error lprobs n) as [beams|] eqn:Eb.
  - assert (Hn : n < length lens).
    { destruct Hwf as [Hwf _]. rewrite Hl, <- Hwf.
      apply nth_error_Some. congruence. }
    destruct (nth_error lens n) as [src|] eqn:En;
      [|apply nth_error_None in En; lia].
    rewrite (N _ _ _ En Eb). f_equal. symmetry.
    rewrite Forall_forall in Hin.
    pose proof (Hin src (nth_error_In _ _ En)) as Hsrc'.
    rewrite <- (map_id beams) at 2. apply map_ext.
    intros row. now apply masked_row_inactive.
  - symmetry. apply nth_error_None. apply nth_error_None in Eb.
    destruct Hwf as [Hwf _]. lia.
Qed.

Lemma LengthConstrainedBeamSearch_step_inactive_witness :
  LengthConstrainedBeamSearch_step
    {| lc_base := set_src_lengths (Search_init example_dict) (Vector1 [4%Z]);
       min_len_a := 0; min_len_b := 2; max_len_a := 1; max_len_b := 1 |}
    3 [[[lp (-5); lp 0; lp (-3); lp (-2)]; [lp (-1); lp (-1); NegInf; lp (-4)]]]
    [[[lp 0; lp 0; lp (-1)]; [lp 0; lp 0; lp (-2)]]]
  = BeamSearch_step
    3 [[[lp (-5); lp 0; lp (-3); lp (-2)]; [lp (-1); lp (-1); NegInf; lp (-4)]]]
    [[[lp 0; lp 0; lp (-1)]; [lp 0; lp 0; lp (-2)]]].
Proof.
  apply (@LengthConstrainedBeamSearch_step_inactive _ 1 2 4 3 [4%Z]).
  - reflexivity.
  - reflexivity.
  - split; [reflexivity|]. repeat constructor.
  - vm_compute. lia.
  - constructor; [simpl; lia|constructor].
Defined.

(** X10: while the step is below the minimum length of an example (and is
    not its maximum length), [LengthConstrainedBeamSearch.step] never
    returns the end-of-sequence token for that example, provided its other
    candidates have finite scores and at least as many of them exist as
    results are asked for (step 0, one beam, or three tokens or more). *)
Theorem LengthConstrainedBeamSearch_step_no_eos
  (self : LengthConstrainedBeamSearch) (B K V step : nat) (lens : list Z)
  (lprobs scores : tensor3 lprob) s i bm n src :
  src_lengths (lc_base self) = Vector1 lens -> length lens = B ->
  wf3 B K V lprobs -> 1 <= K -> eos (lc_base self) < V ->
  wf_scores B K step scores ->
  step = 0 \/ K = 1 \/ 3 <= V ->
  nth_error lens n = Some src ->
  (Z.of_nat step < min_len_a self * src + min_len_b self)%Z ->
  Z.of_nat step <> (max_len_a self * src + max_len_b self)%Z ->
  (forall beam v x, v <> eos (lc_base self) ->
                    nth3 lprobs n beam v = Some x -> is_finite x = true) ->
  (forall beam h, nth3 scores n beam (step - 1) = Some h ->
                  is_finite h = true) ->
  LengthConstrainedBeamSearch_step self step lprobs scores = Ok (s, i, bm) ->
  forall j, nth2 i n j <> Some (eos (lc_base self)).
Proof.
  intros Hsrc Hl Hwf HK He Hs Hcase Hn Hmin Hmax Hfin Hhist E j Hj.
  destruct (@length_mask_rows self B K V step lens lprobs Hsrc Hl Hwf He)
    as (masked & Em & Wm & N).
  unfold LengthConstrainedBeamSearch_step in E. rewrite Em in E.
  cbn [bind] in E.
  destruct (BeamSearch_step_rows Wm HK ltac:(lia) Hs E)
    as (cum & Ec & Wc & _ & -> & _).
  destruct (@nth2_map_rows _ _ _ _ _ _ _ _ _ Hj) as (cb & x & Eb & Ex & Hx).
  apply nth_error_In in Ex.
  assert (Hcb : wf2 (if step =? 0 then 1 else K) V cb).
  { destruct Wc as [_ Wc]. rewrite Forall_forall in Wc.
    exact (Wc cb (nth_error_In _ _ Eb)). }
  assert (Hmasked : forall beam v y,
             nth3 masked n beam v = Some y ->
             if v =? eos (lc_base self) then y = NegInf
             else is_finite y = true).
  { intros beam v y Hy. unfold nth3 in Hy.
    destruct (nth_error lprobs n) as [beams|] eqn:Ebs.
    - rewrite (N _ _ _ Hn Ebs) in Hy. unfold nth2 in Hy.
      rewrite nth_error_map in Hy.
      destruct (nth_error beams beam) as [row|] eqn:Er; [|discriminate].
      simpl in Hy.
      assert (Hrow : eos (lc_base self) < length row).
      { destruct Hwf as [_ HF]. rewrite Forall_forall in HF.
        destruct (HF beams (nth_error_In _ _ Ebs)) as [_ HR].
        rewrite Forall_forall in HR. rewrite (HR row (nth_error_In _ _ Er)).
        exact He. }
      destruct (masked_row_too_short self step src row Hmin Hmax Hrow)
        as [Heos Hother].
      destruct (Nat.eqb_spec v (eos (lc_base self))) as [->|Hv].
      + congruence.
      + rewrite (Hother v Hv) in Hy. apply (Hfin beam v y Hv).
        unfold nth3, nth2. now rewrite Ebs, Er.
    - destruct Wm as [Wm _]. destruct Hwf as [Hwf _].
      apply nth_error_None in Ebs.
      assert (nth_error masked n = None) by (apply nth_error_None; lia).
      rewrite H in Hy. discriminate. }
  assert (Hcum : forall beam v y,
             nth3 cum n beam v = Some y ->
             if v =? eos (lc_base self) then y = NegInf
             else is_finite y = true).
  { intros beam v y Hy.
    pose proof (@ranked_entries _ _ _ _ _ _ _ _ _ _ _ Wm HK Ec Hy) as Hr.
    destruct (step =? 0).
    - destruct Hr as [_ Hr]. exact (Hmasked _ _ _ Hr).
    - destruct Hr as (a & h & Ha & Hh & ->).
      pose proof (Hmasked _ _ _ Ha) as Ha'. pose proof (Hhist _ _ Hh) as Hh'.
      destruct (v =? eos (lc_base self)).
      + now subst a.
      + destruct a; [discriminate|]. destruct h; [discriminate|].
        reflexivity. }
  refine (@top_list_skips_dominated _ _ _ _ _ x Hcb He _ _ Ex _).
  - intros r1 r2 a c v H1 H2 Ha Hc Hv.
    apply In_nth_error in H1. destruct H1 as [b1 H1].
    apply In_nth_error in H2. destruct H2 as [b2 H2].
    assert (Ha' : nth3 cum n b1 (eos (lc_base self)) = Some a)
      by (unfold nth3, nth2; now rewrite Eb, H1).
    assert (Hc' : nth3 cum n b2 v = Some c)
      by (unfold nth3, nth2; now rewrite Eb, H2).
    apply Hcum in Ha'. apply Hcum in Hc'.
    rewrite Nat.eqb_refl in Ha'.
    destruct (Nat.eqb_spec v (eos (lc_base self))); [contradiction|].
    subst a. destruct c; [discriminate|]. reflexivity.
  - unfold beam_k, flat_size.
    destruct (step =? 0) eqn:Es.
    + lia.
    + apply Nat.eqb_neq in Es. destruct Hcase as [?|[->|HV]]; [lia|lia|nia].
  - congruence.
Qed.

Lemma LengthConstrainedBeamSearch_step_no_eos_witness :
  nth2 [[1; 3; 0; 3]] 0 2 <> Some 2.
Proof.
  refine ((_ : forall j, nth2 [[1; 3; 0; 3]] 0 j <> Some 2) 2).
  apply (@LengthConstrainedBeamSearch_step_no_eos
           {| lc_base := set_src_lengths (Search_init example_dict)
                                         (Vector1 [4%Z]);
              min_len_a := 0; min_len_b := 5;
              max_len_a := 1; max_len_b := 6 |}
           1 2 4 3 [4%Z]
           [[[lp (-5); lp 0; lp 0; lp (-2)]; [lp (-6); lp (-8); lp 0; lp (-4)]]]
           [[[lp 0; lp 0; lp (-1)]; [lp 0; lp 0; lp (-2)]]]
           [[lp (-1); lp (-3); lp (-6); lp (-6)]]
           [[1; 3; 0; 3]] [[0; 0; 0; 1]] 0 4%Z).
  - reflexivity.
  - reflexivity.
  - split; [reflexivity|]. repeat constructor.
  - lia.
  - vm_compute. lia.
  - intros _. exists 3. split; [|lia].
    split; [reflexivity|]. repeat constructor.
  - right. right. lia.
  - reflexivity.
  - simpl. lia.
  - simpl. lia.
  - intros [|[|[|beam]]] [|[|[|[|[|v]]]]] x Hv Hx; vm_compute in Hx;
      try discriminate Hx; try (exfalso; apply Hv; reflexivity);
      injection Hx as <-; reflexivity.
  - intros [|[|[|beam]]] h Hh; vm_compute in Hh; try discriminate Hh;
      injection Hh as <-; reflexivity.
  - vm_compute. reflexivity.
Defined.

Lemma setitem_raises (A : Type) (i : nat) (v : A) (l : list A) e :
  setitem i v l = Raise e -> e = IndexError.
Proof.
  revert i. induction l as [|x l IH]; intros [|i]; simpl; intros H;
    try congruence.
  destruct (setitem i v l) eqn:E; simpl in H; [discriminate|].
  injection H as <-. now apply (IH i).
Qed.

Lemma setitem_out_of_range (A : Type) (i : nat) (v : A) (l : list A) :
  length l <= i -> setitem i v l = Raise IndexError.
Proof.
  revert i. induction l as [|x l IH]; intros [|i] Hi; simpl in *;
    try reflexivity; try lia.
  rewrite IH by lia. reflexivity.
Qed.

Lemma mapM_raises (A C : Type) (f : A -> result C) (l : list A) e0 e :
  (forall x e', f x = Raise e' -> e' = e0) ->
  mapM f l = Raise e -> e = e0.
Proof.
  intros Hf. induction l as [|x l IH]; simpl; intros H; [discriminate|].
  destruct (f x) eqn:Ex; simpl in H.
  - destruct (mapM f l); simpl in H; [discriminate|].
    injection H as <-. now apply IH.
  - injection H as <-. now apply (Hf x).
Qed.

Lemma zipM_mismatch (A C D : Type) e0 (f : A -> C -> result D) l1 l2 :
  (forall x y e', f x y = Raise e' -> e' = e0) ->
  length l1 <> length l2 -> zipM e0 f l1 l2 = Raise e0.
Proof.
  intros Hf. revert l2. induction l1 as [|x l1 IH]; intros [|y l2] Hl;
    simpl in *; try reflexivity; try congruence.
  destruct (f x y) eqn:Exy; simpl.
  - rewrite IH by congruence. reflexivity.
  - f_equal. now apply (Hf x y).
Qed.

Lemma mask_row_raises (e : nat) (v : lprob) (c : bool) (beams : tensor2 lprob)
  e' :
  (beams' <- mapM (setitem e v) beams ;; Ok (if c then beams' else beams))
  = Raise e' -> e' = IndexError.
Proof.
  destruct (mapM (setitem e v) beams) eqn:E; simpl; intros H;
    [discriminate|].
  injection H as <-. eapply mapM_raises; [|exact E].
  intros x e1. apply setitem_raises.
Qed.

(** X11: [LengthConstrainedBeamSearch.step] raises IndexError when the
    stored source lengths do not have one entry per batch element. *)
Theorem LengthConstrainedBeamSearch_step_lengths_mismatch
  (self : LengthConstrainedBeamSearch) (step : nat) (lens : list Z)
  (lprobs scores : tensor3 lprob) :
  src_lengths (lc_base self) = Vector1 lens ->
  length lens <> length lprobs ->
  LengthConstrainedBeamSearch_step self step lprobs scores = Raise IndexError.
Proof.
  intros Hsrc Hl.
  unfold LengthConstrainedBeamSearch_step, length_mask. rewrite Hsrc.
  simpl affine. simpl compare_with. unfold setitem_masked at 1.
  rewrite zipM_mismatch; [reflexivity| |now rewrite !length_map].
  intros c beams e'. apply mask_row_raises.
Qed.

Lemma LengthConstrainedBeamSearch_step_lengths_mismatch_witness :
  LengthConstrainedBeamSearch_step
    (example_lc (Vector1 [4%Z; 5%Z]) 1 9) 0
    [[[lp (-1); lp (-2); lp (-3); lp (-4)]]] []
  = Raise IndexError.
Proof.
  apply (@LengthConstrainedBeamSearch_step_lengths_mismatch _ 0 [4%Z; 5%Z]).
  - reflexivity.
  - simpl. lia.
Defined.

(** X12: [LengthConstrainedBeamSearch.step] raises IndexError on a
    non-empty input whose vocabulary dimension does not reach the
    end-of-sequence index. *)
Theorem LengthConstrainedBeamSearch_step_eos_out_of_range
  (self : LengthConstrainedBeamSearch) (B K V step : nat) (lens : list Z)
  (lprobs scores : tensor3 lprob) :
  src_lengths (lc_base self) = Vector1 lens ->
  wf3 B K V lprobs -> 1 <= B -> 1 <= K -> V <= eos (lc_base self) ->
  LengthConstrainedBeamSearch_step self step lprobs scores = Raise IndexError.
Proof.
  intros Hsrc Hwf HB HK He.
  unfold LengthConstrainedBeamSearch_step, length_mask. rewrite Hsrc.
  simpl affine. simpl compare_with. unfold setitem_masked at 1.
  destruct lprobs as [|beams t]; [destruct Hwf as [Hwf _]; simpl in Hwf; lia|].
  destruct Hwf as [_ Hwf]. apply Forall_inv in Hwf. destruct Hwf as [Hb Hr].
  destruct beams as [|row rows]; [simpl in Hb; lia|].
  apply Forall_inv in Hr.
  destruct lens as [|src lens]; [reflexivity|].
  simpl. rewrite setitem_out_of_range by lia. reflexivity.
Qed.

Lemma LengthConstrainedBeamSearch_step_eos_out_of_range_witness :
  LengthConstrainedBeamSearch_step
    (example_lc (Vector1 [4%Z]) 1 9) 0 [[[lp (-1); lp (-2)]]] []
  = Raise IndexError.
Proof.
  apply (@LengthConstrainedBeamSearch_step_eos_out_of_range _ 1 1 2 0 [4%Z]).
  - reflexivity.
  - split; [reflexivity|]. repeat constructor.
  - lia.
  - lia.
  - simpl. lia.
Defined.

(** ** DiverseBeamSearch.step: group sizes *)

(** X13: with at least one group, [DiverseBeamSearch.step] raises
    ValueError when the beam size of a non-empty input is not a multiple of
    the number of groups. *)
Theorem DiverseBeamSearch_step_not_divisible (self : DiverseBeamSearch)
  (B K V step : nat) (lprobs scores : tensor3 lprob) :
  wf3 B K V lprobs -> 1 <= B -> 1 <= K ->
  1 <= num_groups self -> K mod num_groups self <> 0 ->
  DiverseBeamSearch_step self step lprobs scores = Raise ValueError.
Proof.
  intros Hwf HB HK HG Hmod.
  destruct lprobs as [|m t]; [destruct Hwf as [Hwf _]; simpl in Hwf; lia|].
  unfold DiverseBeamSearch_step. rewrite (size3_wf Hwf HK).
  destruct (num_groups self =? 0) eqn:EG.
  - apply Nat.eqb_eq in EG. lia.
  - apply Nat.eqb_neq in Hmod. rewrite Hmod. reflexivity.
Qed.

Lemma DiverseBeamSearch_step_not_divisible_witness :
  DiverseBeamSearch_step (DiverseBeamSearch_init 2 1) 0
    [[[lp (-5); lp 0]; [lp (-1); lp (-1)]; [lp (-2); lp (-3)]]] []
  = Raise ValueError.
Proof.
  apply (@DiverseBeamSearch_step_not_divisible _ 1 3 2).
  - split; [reflexivity|]. repeat constructor.
  - lia.
  - lia.
  - simpl. lia.
  - simpl. lia.
Defined.

(** X14: with zero groups the divisibility test of
    [DiverseBeamSearch.step] divides by zero: the step raises
    ZeroDivisionError, whatever the input. *)
Theorem DiverseBeamSearch_step_no_groups (self : DiverseBeamSearch)
  (step : nat) (lprobs scores : tensor3 lprob) :
  num_groups self = 0 ->
  DiverseBeamSearch_step self step lprobs scores = Raise ZeroDivisionError.
Proof.
  intros HG. unfold DiverseBeamSearch_step, size3. rewrite HG. reflexivity.
Qed.

Lemma DiverseBeamSearch_step_no_groups_witness :
  DiverseBeamSearch_step (DiverseBeamSearch_init 0 1) 0
    [[[lp (-5); lp 0]; [lp (-1); lp (-1)]]] []
  = Raise ZeroDivisionError.
Proof.
  apply DiverseBeamSearch_step_no_groups. reflexivity.
Defined.

Lemma every_nth_1 (A : Type) (fuel : nat) (l : list A) :
  length l <= fuel -> every_nth 1 fuel l = l.
Proof.
  revert l. induction fuel as [|fuel IH]; intros [|x l] Hl; simpl in *;
    try reflexivity; try lia.
  rewrite IH by lia. reflexivity.
Qed.

Lemma slice_dim1_all (A : Type) (t : tensor3 A) : slice_dim1 0 1 t = Ok t.
Proof.
  unfold slice_dim1. rewrite (@mapM_ok_map _ _ _ (fun x => x)).
  - now rewrite map_id.
  - intros beams _. unfold strided. simpl. now rewrite every_nth_1.
Qed.

Lemma interleave_single (A : Type) (t : tensor2 A) : interleave [t] = Ok t.
Proof.
  unfold interleave. simpl.
  assert (Hrow : forall row : list A,
             zipM RuntimeError (fun x xs => Ok (x :: xs)) row
                  (map (fun _ => []) row)
             = Ok (map (fun x => [x]) row)).
  { induction row as [|x row IH]; simpl; [reflexivity|]. now rewrite IH. }
  assert (Hall : zipM RuntimeError
                      (zipM RuntimeError (fun x xs => Ok (x :: xs)))
                      t (map (map (fun _ => [])) t)
                 = Ok (map (map (fun x => [x])) t)).
  { induction t as [|row t IH]; simpl; [reflexivity|].
    rewrite Hrow. simpl. now rewrite IH. }
  rewrite Hall. simpl. f_equal. unfold view_flat. rewrite map_map.
  rewrite <- (map_id t) at 2. apply map_ext. intros row.
  induction row as [|x row IH]; simpl; [reflexivity|]. now rewrite IH.
Qed.

(** X15: with a single group [DiverseBeamSearch.step] is
    [BeamSearch.step]: no penalty is applied and the beam ids are left as
    they are. *)
Theorem DiverseBeamSearch_step_one_group (self : DiverseBeamSearch)
  (B K V step : nat) (lprobs scores : tensor3 lprob) :
  num_groups self = 1 -> wf3 B K V lprobs -> 1 <= K -> 1 <= V ->
  wf_scores B K step scores ->
  DiverseBeamSearch_step self step lprobs scores
  = BeamSearch_step step lprobs scores.
Proof.
  intros HG Hwf HK HV Hs.
  destruct (BeamSearch_step_shape Hwf HK HV Hs)
    as (s & i & b & EB & _ & Wi & _ & _ & _ & Hrange).
  unfold DiverseBeamSearch_step, size3. rewrite HG.
  change (1 =? 0) with false. cbv iota. rewrite Nat.mod_1_r.
  change (negb (0 =? 0)) with false. cbv iota.
  destruct (@mapM_Forall_total _ _
              (fun beams : tensor2 lprob => getitem beams 0)
              (wf2 K V) (fun row => length row = V) lprobs)
    as (first_beam & -> & Hlen & Hrows).
  { apply Hwf. }
  { intros beams [Hk Hr]. destruct beams as [|row rows]; [simpl in Hk; lia|].
    exists row. split; [reflexivity|]. now apply Forall_inv in Hr. }
  cbn [bind]. cbn [seq group_loop]. unfold group_body. rewrite HG.
  rewrite slice_dim1_all. cbn [bind].
  assert (Esc : (if 0 <? step then slice_dim1 0 1 scores else Ok []) = Ok
                   (if 0 <? step then scores else [])).
  { destruct (0 <? step); [apply slice_dim1_all | reflexivity]. }
  rewrite Esc. cbn [bind]. change (0 <? 0) with false. cbv iota. cbn [bind].
  assert (EB' : BeamSearch_step step lprobs (if 0 <? step then scores else [])
                = Ok (s, i, b)).
  { destruct step; [exact EB | exact EB]. }
  rewrite EB'. cbn [bind].
  destruct (@scatter_add_ones_spec B V (beam_width step K V)
              (map (map (fun _ => 0%Q)) first_beam) i) as (buf' & Ebuf & _).
  { split; [rewrite length_map; destruct Hwf; lia|].
    rewrite Forall_map. eapply Forall_impl; [|exact Hrows].
    intros row Hr. now rewrite length_map. }
  { exact Wi. }
  { exact Hrange. }
  cbn [diversity_buf]. rewrite Ebuf.
  cbn [bind scores_G indices_G beams_G app].
  rewrite !interleave_single. cbn [bind].
  replace (map (map (fun x => x * 1 + 0)) b) with b;
    [symmetry; exact EB|].
  symmetry. etransitivity; [|apply map_id]. apply map_ext. intros row.
  etransitivity; [|apply map_id]. apply map_ext. intros x. lia.
Qed.

Lemma DiverseBeamSearch_step_one_group_witness :
  DiverseBeamSearch_step (DiverseBeamSearch_init 1 (1 # 2)) 1
    [[[lp (-5); lp 0; lp (-3)]; [lp (-1); lp (-1); NegInf]]]
    [[[lp (-1)]; [lp (-2)]]]
  = BeamSearch_step 1
    [[[lp (-5); lp 0; lp (-3)]; [lp (-1); lp (-1); NegInf]]]
    [[[lp (-1)]; [lp (-2)]]].
Proof.
  apply (@DiverseBeamSearch_step_one_group _ 1 2 3 1).
  - reflexivity.
  - split; [reflexivity|]. repeat constructor.
  - lia.
  - lia.
  - intros _. exists 1. split; [|lia].
    split; [reflexivity|]. repeat constructor.
Defined.

(** ** Sampling.step: the truncation modes *)

(** X16: with top-p truncation configured [Sampling.step] does not complete
    either: [logprob] stays [None] in that branch, so the step never
    returns a triple, and after step 0 it raises AttributeError as soon as
    [_sample_topp] has returned. *)
Theorem Sampling_step_topp_raises
  (exp_ : lprob -> Q) (log_ : Q -> lprob) (rng : Type)
  (draw : rng -> list Q -> nat * rng)
  (rescoring : nat -> tensor3 lprob -> tensor3 nat -> result (tensor3 Q))
  (self : Sampling) (rescore : bool) (step : nat)
  (lprobs scores : tensor3 lprob) (g : rng) :
  (0 < sampling_topp self)%Q ->
  (exists e,
      Sampling_step exp_ log_ draw rescoring self rescore step lprobs scores g
      = Raise e) /\
  (forall r,
      0 < step -> _sample_topp exp_ self lprobs = Ok r ->
      Sampling_step exp_ log_ draw rescoring self rescore step lprobs scores g
      = Raise AttributeError).
Proof.
  intros Hp. apply Qltb_true in Hp. split.
  - destruct (Sampling_step exp_ log_ draw rescoring self rescore step
                            lprobs scores g) as [r|e] eqn:E; [|eauto].
    apply Sampling_step_needs_topk in E. destruct E as [E _]. congruence.
  - intros [probs ti] Hstep E. unfold Sampling_step, size3.
    destruct (step =? 0) eqn:E0; [apply Nat.eqb_eq in E0; lia|].
    cbn [bind]. rewrite Hp, E. reflexivity.
Qed.

Lemma Sampling_step_topp_raises_witness :
  (exists e,
      Sampling_step example_exp example_log example_draw example_rescoring
                    {| sampling_topk := -1; sampling_topp := 7 # 10 |}
                    false 1 [[[lp (-3); lp (-1); lp (-3)]]] [[[lp 0]]] 0
      = Raise e) /\
  (forall r,
      0 < 1 ->
      _sample_topp example_exp
                   {| sampling_topk := -1; sampling_topp := 7 # 10 |}
                   [[[lp (-3); lp (-1); lp (-3)]]] = Ok r ->
      Sampling_step example_exp example_log example_draw example_rescoring
                    {| sampling_topk := -1; sampling_topp := 7 # 10 |}
                    false 1 [[[lp (-3); lp (-1); lp (-3)]]] [[[lp 0]]] 0
      = Raise AttributeError).
Proof.
  apply Sampling_step_topp_raises. reflexivity.
Defined.

(** X17: after step 0 [Sampling.step] samples one continuation for every
    beam: whatever it returns, entry j of every row of the beam-origin
    array is j. *)
Theorem Sampling_step_keeps_beams
  (exp_ : lprob -> Q) (log_ : Q -> lprob) (rng : Type)
  (draw : rng -> list Q -> nat * rng)
  (rescoring : nat -> tensor3 lprob -> tensor3 nat -> result (tensor3 Q))
  (self : Sampling) (rescore : bool) (B K V step : nat)
  (lprobs scores : tensor3 lprob) (g g' : rng) s i b :
  wf3 B K V lprobs -> 1 <= K -> 0 < step ->
  Sampling_step exp_ log_ draw rescoring self rescore step lprobs scores g
  = Ok (s, i, b, g') ->
  b = repeat (seq 0 K) B.
Proof.
  intros Hwf HK Hstep H.
  assert (Hb : b = repeat (seq 0 (length (hd [] lprobs))) (length lprobs)).
  { unfold Sampling_step, size3 in H.
    destruct (step =? 0) eqn:E0; [apply Nat.eqb_eq in E0; lia|].
    bind_inv H as lprobs0 E1.
    bind_inv H as [[probs ti] logprob] E2.
    bind_inv H as lprobs1 E3. bind_inv H as probs1 E4.
    bind_inv H as [idx g1] E5. bind_inv H as probs2 E6.
    bind_inv H as picked E7. bind_inv H as idx1 E8.
    bind_inv H as last E9. bind_inv H as prior E10.
    bind_inv H as sc E11.
    injection H as _ _ <- _. reflexivity. }
  rewrite Hb. destruct lprobs as [|m t].
  - destruct Hwf as [<- _]. reflexivity.
  - pose proof (size3_wf Hwf HK) as Hsz. unfold size3 in Hsz.
    injection Hsz as H1 H2 _.
    change (hd [] (m :: t)) with m. rewrite H2.
    change (length (m :: t)) with (S (length t)). rewrite H1. reflexivity.
Qed.

Lemma Sampling_step_keeps_beams_witness :
  [[0; 1; 2]] = repeat (seq 0 3) 1.
Proof.
  apply (@Sampling_step_keeps_beams
           example_exp example_log nat example_draw example_rescoring
           {| sampling_topk := 2; sampling_topp := -1 |} false 1 3 4 1
           example_lprobs example_history 0 3
           [[lp 0; lp (-3); lp (-2)]] [[3; 0; 3]] [[0; 1; 2]]).
  - split; [reflexivity|]. repeat constructor.
  - lia.
  - lia.
  - vm_compute. reflexivity.
Defined.

Lemma expand_dim1_rows (A : Type) (K : nat) (t t' : tensor3 A) b beams' :
  expand_dim1 K t = Ok t' -> nth_error t' b = Some beams' ->
  exists beams,
    nth_error t b = Some beams /\
    ((exists row, beams = [row] /\ beams' = repeat row K) \/ beams' = beams).
Proof.
  intros E Hb. unfold expand_dim1 in E.
  destruct (@mapM_nth _ _ _ _ _ _ _ E Hb) as (beams & Hn & Hf).
  exists beams. split; [exact Hn|].
  destruct beams as [|row [|r2 rest]].
  - right. destruct (length [] =? K); [congruence|discriminate].
  - left. exists row. split; [reflexivity|congruence].
  - right. destruct (length (row :: r2 :: rest) =? K);
      [congruence|discriminate].
Qed.


Lemma mapM_length (A C : Type) (f : A -> result C) l l' :
  mapM f l = Ok l' -> length l' = length l.
Proof.
  intros E. apply mapM_Forall2 in E. symmetry.
  eapply Forall2_length; eauto.
Qed.



(** X19: in top-k mode [Sampling.step] raises RuntimeError on a non-empty
    input when [sampling_topk] exceeds the vocabulary size. *)
Theorem Sampling_step_topk_too_large
  (exp_ : lprob -> Q) (log_ : Q -> lprob) (rng : Type)
  (draw : rng -> list Q -> nat * rng)
  (rescoring : nat -> tensor3 lprob -> tensor3 nat -> result (tensor3 Q))
  (self : Sampling) (rescore : bool) (B K V step : nat)
  (lprobs scores : tensor3 lprob) (g : rng) :
  wf3 B K V lprobs -> 1 <= B -> 1 <= K ->
  (sampling_topp self <= 0)%Q -> (Z.of_nat V < sampling_topk self)%Z ->
  Sampling_step exp_ log_ draw rescoring self rescore step lprobs scores g
  = Raise RuntimeError.
Proof.
  intros Hwf HB HK Hp Hk.
  assert (Ep : Qltb 0 (sampling_topp self) = false) by now apply Qltb_false.
  assert (Ek : (0 <? sampling_topk self)%Z = true) by (apply Z.ltb_lt; lia).
  pose proof (ranked_0 scores Hwf HK) as R.
  unfold ranked, size3 in R. cbn [Nat.eqb] in R.
  unfold Sampling_step, size3.
  destruct lprobs as [|m t]; [destruct Hwf as [Hwf _]; simpl in Hwf; lia|].
  destruct (wf3_cons Hwf) as ([Hm Hrows] & _ & _).
  destruct m as [|row rows]; [simpl in Hm; lia|].
  apply Forall_inv in Hrows.
  assert (Etop : topk (sampling_topk self) row = Raise RuntimeError).
  { unfold topk. rewrite Hrows.
    destruct (Z.ltb_spec (Z.of_nat V) (sampling_topk self)); [|lia].
    now rewrite orb_true_r. }
  destruct (step =? 0).
  - rewrite R. cbn [bind]. rewrite Ep, Ek. simpl. rewrite Etop. reflexivity.
  - cbn [bind]. rewrite Ep, Ek. simpl. rewrite Etop. reflexivity.
Qed.

Lemma Sampling_step_topk_too_large_witness :
  Sampling_step example_exp example_log example_draw example_rescoring
                {| sampling_topk := 5; sampling_topp := -1 |}
                false 0 example_lprobs [] 0
  = Raise RuntimeError.
Proof.
  apply (@Sampling_step_topk_too_large _ _ _ _ _ _ _ 1 3 4).
  - split; [reflexivity|]. repeat constructor.
  - lia.
  - lia.
  - simpl. discriminate.
  - simpl. lia.
Defined.

(** ** DiverseSiblingsSearch.step: what the pooled ranking returns *)

(** X20: after step 0 [DiverseSiblingsSearch.step] raises RuntimeError on
    every well-shaped non-empty input whose k =
    min(2 * beam_size, beam_size * vocab_size - 1) exceeds the vocabulary
    size: the per-slot [torch.topk] is asked for more entries than a row
    has. *)
Theorem DiverseSiblingsSearch_step_too_wide (self : DiverseSiblingsSearch)
  (B K V step : nat) (lprobs scores : tensor3 lprob) :
  wf3 B K V lprobs -> 1 <= B -> 1 <= K -> 0 < step ->
  wf_scores B K step scores ->
  (Z.of_nat V < siblings_k K V)%Z ->
  DiverseSiblingsSearch_step self step lprobs scores = Raise RuntimeError.
Proof.
  intros Hwf HB HK Hstep Hs Hk.
  destruct (Hs Hstep) as (T & HT & HleT).
  destruct (@add_last_score_wf B K V T step lprobs scores Hwf HT
              (conj Hstep HleT)) as (cum & Ecum & Wcum).
  unfold DiverseSiblingsSearch_step.
  destruct lprobs as [|m t]; [destruct Hwf as [Hl _]; simpl in Hl; lia|].
  rewrite (size3_wf Hwf HK).
  assert (Hsz : size_dim1 (view_flat (m :: t)) = K * V).
  { unfold size_dim1. simpl.
    apply (@concat_length_wf2 _ K V). now inversion Hwf as [_ HF];
      inversion HF. }
  rewrite Hsz. fold (siblings_k K V).
  destruct (step =? 0) eqn:E0; [apply Nat.eqb_eq in E0; lia|].
  rewrite Ecum. cbn [bind].
  destruct cum as [|cm ct]; [destruct Wcum as [Hl _]; simpl in Hl; lia|].
  destruct (wf3_cons Wcum) as ([Hcm Hrows] & _ & _).
  destruct cm as [|row rows]; [simpl in Hcm; lia|].
  apply Forall_inv in Hrows.
  unfold sibling_tables. simpl. unfold topk. rewrite Hrows.
  destruct (Z.ltb_spec (Z.of_nat V) (siblings_k K V)); [|lia].
  rewrite orb_true_r. reflexivity.
Qed.

Lemma DiverseSiblingsSearch_step_too_wide_witness :
  DiverseSiblingsSearch_step {| diversity_rate := 1 # 2 |} 1
                             example_lprobs example_history
  = Raise RuntimeError.
Proof.
  apply (@DiverseSiblingsSearch_step_too_wide _ 1 3 4).
  - split; [reflexivity|]. repeat constructor.
  - lia.
  - lia.
  - lia.
  - intros _. exists 1. split; [|lia].
    split; [reflexivity|]. repeat constructor.
  - vm_compute. reflexivity.
Defined.

Lemma pool_scores_wf (K V : nat) (rate : Q) (k : Z) (beams : tensor2 lprob) :
  wf2 K V beams -> (0 <= k <= Z.of_nat V)%Z ->
  wf2 K (Z.to_nat k)
      (map (fun row => map fst (slot_candidates rate k row)) beams).
Proof.
  intros Hw Hk. destruct (pool_wf rate Hw Hk) as [Hl HF].
  split; [now rewrite length_map in *|].
  rewrite Forall_map in HF |- *. eapply Forall_impl; [|exact HF].
  intros row Hrow. now rewrite length_map.
Qed.

(** The result of [DiverseSiblingsSearch.step] after step 0, batch element
    by batch element. *)
Lemma DiverseSiblingsSearch_step_closed (self : DiverseSiblingsSearch)
  (B K V step : nat) (lprobs scores : tensor3 lprob) :
  wf3 B K V lprobs -> 1 <= B -> 1 <= K -> 1 <= V -> 0 < step ->
  wf_scores B K step scores ->
  (siblings_k K V <= Z.of_nat V)%Z ->
  exists cum toks,
    add_last_score step lprobs scores = Ok cum /\
    wf3 B K V cum /\
    mapM (fun beams : tensor2 lprob =>
            gather_row
              (concat (map (fun row =>
                              map snd (slot_candidates (diversity_rate self)
                                                       (siblings_k K V) row))
                           beams))
              (map snd (pooled_winners (diversity_rate self)
                                       (siblings_k K V) beams)))
         cum = Ok toks /\
    DiverseSiblingsSearch_step self step lprobs scores
    = Ok (map (fun beams =>
                 map fst (pooled_winners (diversity_rate self)
                                         (siblings_k K V) beams)) cum,
          toks,
          map (fun beams =>
                 map (fun w => snd w / Z.to_nat (siblings_k K V))
                     (pooled_winners (diversity_rate self)
                                     (siblings_k K V) beams)) cum).
Proof.
  intros Hwf HB HK HV Hstep Hs Hle.
  set (k := siblings_k K V) in *. set (rate := diversity_rate self).
  assert (Hk : (0 <= k <= Z.of_nat V)%Z).
  { split; [|exact Hle]. unfold k, siblings_k. nia. }
  destruct (Hs Hstep) as (T & HT & HleT).
  destruct (@add_last_score_wf B K V T step lprobs scores Hwf HT
              (conj Hstep HleT)) as (cum & Ecum & Wcum).
  assert (Hwlen : forall beams, wf2 K V beams ->
                    length (pooled_winners rate k beams) = Z.to_nat k).
  { intros beams Hb. unfold pooled_winners. apply top_list_length.
    rewrite (concat_length_wf2 (pool_scores_wf rate Hb Hk)). nia. }
  assert (Wc : forall beams, In beams cum -> wf2 K V beams).
  { destruct Wcum as [_ Wc]. now rewrite Forall_forall in Wc. }
  destruct (@mapM_Forall_total _ _
              (fun beams : tensor2 lprob =>
                 gather_row (concat (map (fun row =>
                                            map snd (slot_candidates rate k row))
                                         beams))
                            (map snd (pooled_winners rate k beams)))
              (wf2 K V)
              (fun t => length t = Z.to_nat k) cum (proj2 Wcum))
    as (toks & Etoks & Hltoks & HFtoks).
  { intros beams Hb.
    destruct (@gather_winner_tokens K V rate k beams Hb Hk)
      as (t & Et & Hlt & _).
    exists t. split; [exact Et|]. now rewrite Hlt, Hwlen. }
  exists cum, toks. split; [exact Ecum|]. split; [exact Wcum|].
  split; [exact Etoks|].
  unfold DiverseSiblingsSearch_step.
  destruct lprobs as [|m t]; [destruct Hwf as [Hl _]; simpl in Hl; lia|].
  rewrite (size3_wf Hwf HK).
  assert (Hsz : size_dim1 (view_flat (m :: t)) = K * V).
  { unfold size_dim1. simpl.
    apply (@concat_length_wf2 _ K V). now inversion Hwf as [_ HF];
      inversion HF. }
  rewrite Hsz. fold (siblings_k K V). fold k.
  destruct (step =? 0) eqn:E0; [apply Nat.eqb_eq in E0; lia|].
  rewrite Ecum. cbn [bind]. fold rate.
  rewrite (sibling_tables_closed rate Wcum HV Hk). cbn [bind].
  destruct (K =? 0) eqn:EK; [apply Nat.eqb_eq in EK; lia|]. cbn [bind].
  unfold view_flat. rewrite !map_map, mapM_map.
  rewrite (@mapM_ok_map _ _ _ (pooled_winners rate k) cum).
  2:{ intros beams Hb. apply topk_ok.
      rewrite (concat_length_wf2 (pool_scores_wf rate (Wc beams Hb) Hk)).
      nia. }
  cbn [bind]. rewrite div_long_ok.
  2:{ destruct (Z.to_nat k) eqn:Ek; [right | left; lia].
      rewrite !Forall_map. apply Forall_forall. intros beams Hb.
      rewrite length_map, Hwlen by (apply Wc; exact Hb). reflexivity. }
  cbn [bind]. rewrite (map_map (pooled_winners rate k) (map snd)).
  rewrite zipM_map_same, Etoks. cbn [bind].
  rewrite !map_map. do 2 f_equal.
  apply map_ext. intros beams. now rewrite map_map.
Qed.

(** X21: where [DiverseSiblingsSearch.step] returns after step 0 (k within
    the vocabulary size), the scores of every batch element are in
    descending order, every token id is below vocab_size and every beam id
    is below beam_size. *)
Theorem DiverseSiblingsSearch_step_ranges (self : DiverseSiblingsSearch)
  (B K V step : nat) (lprobs scores : tensor3 lprob) s i bm :
  wf3 B K V lprobs -> 1 <= B -> 1 <= K -> 1 <= V -> 0 < step ->
  wf_scores B K step scores ->
  (siblings_k K V <= Z.of_nat V)%Z ->
  DiverseSiblingsSearch_step self step lprobs scores = Ok (s, i, bm) ->
  Forall (StronglySorted (fun a b => lp_leb b a = true)) s /\
  Forall (Forall (fun tok => tok < V)) i /\
  Forall (Forall (fun beam => beam < K)) bm.
Proof.
  intros Hwf HB HK HV Hstep Hs Hle E.
  destruct (DiverseSiblingsSearch_step_closed self Hwf HB HK HV Hstep Hs Hle)
    as (cum & toks & Ecum & Wcum & Etoks & E').
  rewrite E' in E. injection E as <- <- <-.
  set (k := siblings_k K V) in *. set (rate := diversity_rate self) in *.
  assert (Hk : (0 <= k <= Z.of_nat V)%Z).
  { split; [|exact Hle]. unfold k, siblings_k. nia. }
  assert (Wc : forall beams, In beams cum -> wf2 K V beams).
  { destruct Wcum as [_ Wc]. now rewrite Forall_forall in Wc. }
  split; [|split].
  - rewrite Forall_map. apply Forall_forall. intros beams _.
    apply sorted_map_fst. unfold pooled_winners. apply top_list_sorted.
  - apply Forall_forall. intros row Hrow.
    apply In_nth_error in Hrow. destruct Hrow as [b Hb].
    destruct (@mapM_nth _ _ _ _ _ _ _ Etoks Hb) as (beams & Hbeams & Eg).
    pose proof (Wc beams (nth_error_In _ _ Hbeams)) as Wb.
    destruct (@gather_winner_tokens K V rate k beams Wb Hk)
      as (t & Et & Hlt & Hspec).
    rewrite Eg in Et. injection Et as <-.
    apply Forall_forall. intros tok Htok.
    apply In_nth_error in Htok. destruct Htok as [j Hj].
    assert (Hjl : j < length (pooled_winners rate k beams)).
    { rewrite <- Hlt. apply nth_error_Some. congruence. }
    destruct (nth_error (pooled_winners rate k beams) j) as [w|] eqn:Ew;
      [|apply nth_error_None in Ew; lia].
    destruct (Hspec j w Ew) as (c & Hc & _ & Hc').
    rewrite Hj in Hc'. injection Hc' as ->.
    unfold nth2 in Hc. rewrite nth_error_map in Hc.
    destruct (nth_error beams (snd w / Z.to_nat k)) as [lrow|] eqn:El;
      [|discriminate].
    simpl in Hc. apply nth_error_In in Hc.
    assert (Hlen : length lrow = V).
    { destruct Wb as [_ HF]. rewrite Forall_forall in HF.
      apply HF. eapply nth_error_In; eauto. }
    assert (Hin : In (snd c) (map snd (top_list k lrow))).
    { rewrite <- slot_candidates_snd with (rate := rate) by (rewrite Hlen; lia).
      now apply in_map. }
    pose proof (top_list_snd_range k lrow) as Hr.
    rewrite Forall_forall in Hr. rewrite <- Hlen. now apply Hr.
  - rewrite Forall_map. apply Forall_forall. intros beams Hb.
    rewrite Forall_map.
    pose proof (pooled_winners_range rate (Wc beams Hb) Hk) as Hr.
    eapply Forall_impl; [|exact Hr]. intros w Hw. cbv beta in Hw.
    apply Nat.Div0.div_lt_upper_bound. lia.
Qed.

Lemma DiverseSiblingsSearch_step_ranges_witness :
  Forall (StronglySorted (fun a b => lp_leb b a = true))
         [[lp (-1); lp (-3); lp (-3); lp (-5)]] /\
  Forall (Forall (fun tok => tok < 4)) [[3; 1; 3; 0]] /\
  Forall (Forall (fun beam => beam < 2)) [[0; 0; 1; 1]].
Proof.
  apply (@DiverseSiblingsSearch_step_ranges {| diversity_rate := 1 |}
           1 2 4 1
           [[[lp (-5); lp 0; lp (-3); lp 1];
             [lp (-1); lp (-1); NegInf; lp 0]]]
           [[[lp (-1)]; [lp (-2)]]]).
  - split; [reflexivity|]. repeat constructor.
  - lia.
  - lia.
  - lia.
  - lia.
  - intros _. exists 1. split; [|lia].
    split; [reflexivity|]. repeat constructor.
  - vm_compute. intros Hc. discriminate Hc.
  - vm_compute. reflexivity.
Defined.

(** ** Sampling._sample_topp: the clamp of the last included position *)

Lemma upd_repeat_true (i n : nat) : upd i true (repeat true n) = repeat true n.
Proof.
  revert i. induction n as [|n IH]; intros [|i]; simpl; try reflexivity.
  now rewrite IH.
Qed.

Lemma trim_all (sp : list Q) : trim sp (repeat true (length sp)) = sp.
Proof.
  unfold trim. induction sp as [|x sp IH]; simpl; [reflexivity|].
  now rewrite IH.
Qed.

(** A row whose total mass stays below [p]: the mask is true everywhere and
    the last included position is clamped to the last position. *)
Lemma topp_row_all (p : Q) (probs : list Q) :
  Forall (fun x => 0 <= x)%Q probs -> 1 <= length probs ->
  (sumQ probs < p)%Q ->
  topp_row p probs
  = Ok {| sorted_probs := map fst (sorted_row probs);
          sorted_indices := map snd (sorted_row probs);
          mask := repeat true (length probs);
          last_included := [length probs - 1] |}.
Proof.
  intros Hnn Hne Hsum.
  pose proof (sorted_row_fst_perm probs) as HP.
  set (sp := map fst (sorted_row probs)) in *.
  assert (Hsp : Forall (fun x => 0 <= x)%Q sp)
    by (eapply Permutation_Forall; [symmetry; exact HP | exact Hnn]).
  assert (Hlen : length sp = length probs) by (apply Permutation_length, HP).
  assert (Hs : (sumQ sp == sumQ probs)%Q) by (apply sumQ_perm, HP).
  destruct (@lt_mask_prefix p 0 sp Hsp) as (c & Hc & Hm & _ & Hge).
  assert (Hc' : c = length sp).
  { destruct (Nat.eq_dec c (length sp)) as [->|Hne']; [reflexivity|].
    specialize (Hge ltac:(lia)).
    pose proof (sumQ_firstn_le (S c) Hsp) as Hle. lra. }
  subst c. rewrite Nat.sub_diag in Hm. simpl in Hm. rewrite app_nil_r in Hm.
  unfold topp_row. fold (sorted_row probs). fold sp.
  rewrite Hm. rewrite cumsum_mask_total.
  2:{ destruct (length sp) eqn:E; [lia|]. simpl. discriminate. }
  assert (Hcount : length (filter (fun b : bool => b)
                                  (repeat true (length sp))) = length sp).
  { pose proof (count_true_runs (length sp) 0) as Hcr.
    simpl in Hcr. rewrite app_nil_r in Hcr. exact Hcr. }
  rewrite Hcount. cbn [map]. rewrite repeat_length.
  assert (Hclamp : clamp 0 (length sp - 1) (0 + length sp) = length sp - 1)
    by (unfold clamp; lia).
  rewrite Hclamp. cbn [scatter_true].
  rewrite setitem_upd by (rewrite repeat_length; lia).
  cbn [bind]. rewrite upd_repeat_true, Hlen. reflexivity.
Qed.

Lemma sample_topp_probs_all (p : Q) (B K V : nat) (probs : tensor3 Q) :
  wf3 B K V probs -> 1 <= B -> 1 <= K -> 1 <= V ->
  Forall (Forall (fun row => Forall (fun x => 0 <= x)%Q row /\
                             (sumQ row < p)%Q)) probs ->
  sample_topp_probs p probs
  = Ok (map (map (fun row => map fst (sorted_row row))) probs,
        map (map (fun row => map snd (sorted_row row))) probs).
Proof.
  intros Hwf HB HK HV Hlow.
  set (rec := fun row : list Q =>
                {| sorted_probs := map fst (sorted_row row);
                   sorted_indices := map snd (sorted_row row);
                   mask := repeat true V;
                   last_included := [V - 1] |}).
  assert (Hrowlen : forall beams row,
             In beams probs -> In row beams -> length row = V).
  { intros beams row Hb Hr. destruct Hwf as [_ HF].
    rewrite Forall_forall in HF. destruct (HF beams Hb) as [_ HR].
    rewrite Forall_forall in HR. now apply HR. }
  assert (Erows : mapM (mapM (topp_row p)) probs = Ok (map (map rec) probs)).
  { apply mapM_ok_map. intros beams Hb. apply mapM_ok_map. intros row Hr.
    rewrite Forall_forall in Hlow. pose proof (Hlow beams Hb) as Hlb.
    rewrite Forall_forall in Hlb. destruct (Hlb row Hr) as [Hnn Hsum].
    pose proof (Hrowlen beams row Hb Hr) as Hl.
    rewrite topp_row_all by (try assumption; lia).
    unfold rec. now rewrite Hl. }
  unfold sample_topp_probs. rewrite Erows. cbn [bind].
  set (xs := concat (map last_included (concat (map (map rec) probs)))).
  assert (Hxs : forall x, In x xs -> x = V - 1).
  { intros x Hx. unfold xs in Hx. apply in_concat in Hx.
    destruct Hx as (l & Hl & Hx). apply in_map_iff in Hl.
    destruct Hl as (r & <- & Hr). apply in_concat in Hr.
    destruct Hr as (rb & Hrb & Hr). apply in_map_iff in Hrb.
    destruct Hrb as (beams & <- & Hb). apply in_map_iff in Hr.
    destruct Hr as (row & <- & Hrow). simpl in Hx.
    destruct Hx as [<-|[]]. reflexivity. }
  destruct (max_all xs) as [m|e] eqn:Em.
  2:{ exfalso. destruct Hwf as [Hlen Hwf].
      destruct probs as [|beams probs']; [simpl in Hlen; lia|].
      apply Forall_inv in Hwf. destruct Hwf as [Hk _].
      destruct beams as [|row beams]; [simpl in Hk; lia|].
      unfold xs in Em. simpl in Em. discriminate. }
  destruct (@max_all_spec _ _ Em) as [Hin _].
  apply Hxs in Hin. subst m. cbn [bind].
  replace (V - 1 + 1) with V by lia.
  f_equal. f_equal.
  - rewrite map_map. apply map_ext_in. intros beams Hb.
    rewrite map_map. apply map_ext_in. intros row Hr.
    cbn [rec sorted_probs mask].
    assert (Hsp : length (map fst (sorted_row row)) = V).
    { rewrite <- (Hrowlen beams row Hb Hr).
      apply Permutation_length, sorted_row_fst_perm. }
    rewrite <- Hsp at 1. rewrite firstn_all.
    rewrite <- (repeat_length true V) at 1. rewrite firstn_all.
    rewrite <- Hsp. apply trim_all.
  - rewrite map_map. apply map_ext_in. intros beams Hb.
    rewrite map_map. apply map_ext_in. intros row Hr.
    cbn [rec sorted_indices].
    assert (Hsi : length (map snd (sorted_row row)) = V).
    { rewrite <- (Hrowlen beams row Hb Hr).
      rewrite length_map. unfold sorted_row.
      rewrite sort_desc_length. unfold enumerate.
      rewrite length_combine, length_seq. lia. }
    rewrite <- Hsi. apply firstn_all.
Qed.

(** X22: when [sampling_topp] exceeds the total mass of every row,
    [_sample_topp] trims nothing: the position of the last included entry
    is clamped to the last position, and every row is returned in full,
    sorted by descending probability, with its vocabulary ids. *)
Theorem _sample_topp_keeps_all (exp_ : lprob -> Q) (self : Sampling)
  (B K V : nat) (lprobs : tensor3 lprob) :
  wf3 B K V lprobs -> 1 <= B -> 1 <= K -> 1 <= V ->
  Forall (Forall (fun row => Forall (fun x => 0 <= x)%Q row /\
                             (sumQ row < sampling_topp self)%Q))
         (tmap3 exp_ lprobs) ->
  _sample_topp exp_ self lprobs
  = Ok (map (map (fun row => map fst (sorted_row row))) (tmap3 exp_ lprobs),
        map (map (fun row => map snd (sorted_row row))) (tmap3 exp_ lprobs)).
Proof.
  intros Hwf HB HK HV Hlow. unfold _sample_topp.
  apply (sample_topp_probs_all (wf3_tmap3 exp_ Hwf) HB HK HV Hlow).
Qed.

Lemma _sample_topp_keeps_all_witness :
  _sample_topp example_exp {| sampling_topk := -1; sampling_topp := 3 # 2 |}
               [[[lp (-3); lp (-1); lp (-3)]]]
  = Ok ([[[1 # 2; 1 # 4; 1 # 4]]], [[[1; 0; 2]]]).
Proof.
  apply (@_sample_topp_keeps_all example_exp
           {| sampling_topk := -1; sampling_topp := 3 # 2 |} 1 1 3
           [[[lp (-3); lp (-1); lp (-3)]]]).
  - split; [reflexivity|]. repeat constructor.
  - lia.
  - lia.
  - lia.
  - repeat constructor; vm_compute; intros Hc; discriminate Hc.
Defined.

(** ** DiverseBeamSearch.step: the Hamming diversity penalty *)

Lemma incr_at_nth (i : nat) (buf buf' : list Q) (v : nat) :
  incr_at i buf = Ok buf' ->
  nth_error buf' v
  = option_map (fun c => if v =? i then (c + 1)%Q else c) (nth_error buf v).
Proof.
  revert i buf' v. induction buf as [|c buf IH]; intros [|i] buf' v H;
    simpl in H; try discriminate.
  - injection H as <-. destruct v; simpl; [reflexivity|].
    now destruct (nth_error buf v).
  - bind_inv H as buf1 E1. injection H as <-.
    destruct v as [|v]; [reflexivity|]. simpl. apply (IH _ _ v E1).
Qed.

Lemma inject_succ (n : nat) :
  (inject_Z (Z.of_nat (S n)) == inject_Z (Z.of_nat n) + 1)%Q.
Proof.
  rewrite Nat2Z.inj_succ. unfold Z.succ. rewrite inject_Z_plus. reflexivity.
Qed.

Lemma incr_all_counts (idxs : list nat) (buf buf' : list Q) (v : nat) c' :
  incr_all idxs buf = Ok buf' -> nth_error buf' v = Some c' ->
  exists c,
    nth_error buf v = Some c /\
    (c' == c + inject_Z (Z.of_nat (count_occ Nat.eq_dec idxs v)))%Q.
Proof.
  revert buf. induction idxs as [|i idxs IH]; intros buf H Hv; simpl in H.
  - injection H as <-. exists c'. split; [exact Hv|]. simpl.
    change (inject_Z 0) with 0%Q. lra.
  - bind_inv H as buf1 E1.
    destruct (IH _ H Hv) as (c1 & Hc1 & Hq).
    rewrite (@incr_at_nth _ _ _ v E1) in Hc1.
    destruct (nth_error buf v) as [c|]; [|discriminate].
    simpl in Hc1. injection Hc1 as <-.
    exists c. split; [reflexivity|]. simpl.
    destruct (Nat.eq_dec i v) as [->|Hne].
    + rewrite Nat.eqb_refl in Hq. rewrite inject_succ. lra.
    + destruct (Nat.eqb_spec v i); [congruence|]. exact Hq.
Qed.

Lemma scatter_add_ones_counts (buf buf' : tensor2 Q) (indices : tensor2 nat)
  b v c' :
  scatter_add_ones buf indices = Ok buf' -> nth2 buf' b v = Some c' ->
  exists c row,
    nth2 buf b v = Some c /\ nth_error indices b = Some row /\
    (c' == c + inject_Z (Z.of_nat (count_occ Nat.eq_dec row v)))%Q.
Proof.
  intros E Hv. unfold nth2 in *. unfold scatter_add_ones in E.
  destruct (nth_error buf' b) as [brow'|] eqn:Eb'; [|discriminate].
  destruct (@zipM_nth _ _ _ _ _ _ _ _ _ _ E Eb') as (brow & row & Hb & Hr & Hf).
  destruct (@incr_all_counts _ _ _ _ _ Hf Hv) as (c & Hc & Hq).
  exists c, row. rewrite Hb. repeat split; assumption.
Qed.

Lemma picks_app (ts : list (tensor2 nat)) (t : tensor2 nat) (b v : nat) :
  picks (ts ++ [t]) b v = picks ts b v + count_occ Nat.eq_dec (nth b t []) v.
Proof.
  unfold picks. rewrite map_app, list_sum_app. simpl. lia.
Qed.

Lemma buf_counts_step (buf buf' : tensor2 Q) (ts : list (tensor2 nat))
  (indices : tensor2 nat) :
  buf_counts buf ts -> scatter_add_ones buf indices = Ok buf' ->
  buf_counts buf' (ts ++ [indices]).
Proof.
  intros Hinv E b v c' Hv.
  destruct (@scatter_add_ones_counts _ _ _ _ _ _ E Hv)
    as (c & row & Hc & Hr & Hq).
  rewrite picks_app, (nth_error_nth _ _ [] Hr).
  rewrite Nat2Z.inj_add, inject_Z_plus. rewrite <- (Hinv b v c Hc). exact Hq.
Qed.

Lemma add_penalty_entries (strength : Q) (buf : tensor2 Q)
  (base t : tensor3 lprob) b j v y :
  add_penalty strength buf base = Ok t -> nth3 t b j v = Some y ->
  exists x c,
    nth3 base b j v = Some x /\ nth2 buf b v = Some c /\
    y = lp_add x (Fin (strength * c)).
Proof.
  intros E Hy. unfold nth3, nth2 in *. unfold add_penalty in E.
  destruct (nth_error t b) as [beams'|] eqn:Eb; [|discriminate].
  destruct (nth_error beams' j) as [row'|] eqn:Ej; [|discriminate].
  destruct (@zipM_nth _ _ _ _ _ _ _ _ _ _ E Eb)
    as (beams & brow & Hb & Hbr & Hf).
  destruct (@mapM_nth _ _ _ _ _ _ _ Hf Ej) as (row & Hr & Hz).
  destruct (@zipM_nth _ _ _ _ _ _ _ _ _ _ Hz Hy) as (x & c & Hx & Hc & Hxy).
  injection Hxy as <-.
  exists x, c. rewrite Hb, Hr, Hbr. repeat split; assumption.
Qed.

Lemma group_body_inv (self : DiverseBeamSearch) (step g : nat)
  (lprobs scores : tensor3 lprob) (st st' : group_state) :
  group_body self step lprobs scores g st = Ok st' ->
  exists base scores_g lprobs_g s i b,
    slice_dim1 g (num_groups self) lprobs = Ok base /\
    (if 0 <? step then slice_dim1 g (num_groups self) scores else Ok [])
    = Ok scores_g /\
    (if 0 <? g
     then add_penalty (diversity_strength self) (diversity_buf st) base
     else Ok base) = Ok lprobs_g /\
    BeamSearch_step step lprobs_g scores_g = Ok (s, i, b) /\
    scatter_add_ones (diversity_buf st) i = Ok (diversity_buf st') /\
    scores_G st' = scores_G st ++ [s] /\
    indices_G st' = indices_G st ++ [i] /\
    beams_G st'
    = beams_G st ++ [map (map (fun x => x * num_groups self + g)) b].
Proof.
  unfold group_body. intros H.
  bind_inv H as base E1. bind_inv H as scores_g E2.
  bind_inv H as lprobs_g E3. bind_inv H as [[s i] b] E4.
  bind_inv H as buf E5. injection H as <-.
  exists base, scores_g, lprobs_g, s, i, b. cbn.
  repeat split; assumption.
Qed.

Lemma zipM_length (A C D : Type) e (f : A -> C -> result D) l1 l2 l' :
  zipM e f l1 l2 = Ok l' -> length l' = length l1.
Proof.
  intros E. apply zipM_Forall2 in E. destruct E as [Hl HF].
  apply Forall2_length in HF. rewrite length_combine in HF. lia.
Qed.

Lemma add_penalty_wf (B n V : nat) (strength : Q) (buf : tensor2 Q)
  (base t : tensor3 lprob) :
  add_penalty strength buf base = Ok t -> wf3 B n V base -> wf3 B n V t.
Proof.
  intros E [Hl HF]. unfold add_penalty in E. split.
  - now rewrite (zipM_length _ _ _ _ E).
  - apply Forall_forall. intros beams' Hin.
    apply In_nth_error in Hin. destruct Hin as [b Hb].
    destruct (@zipM_nth _ _ _ _ _ _ _ _ _ _ E Hb)
      as (beams & brow & Hbeams & _ & Hf).
    rewrite Forall_forall in HF.
    destruct (HF beams (nth_error_In _ _ Hbeams)) as [Hk Hrows].
    split; [now rewrite (mapM_length _ _ Hf)|].
    apply Forall_forall. intros row' Hin'.
    apply In_nth_error in Hin'. destruct Hin' as [j Hj].
    destruct (@mapM_nth _ _ _ _ _ _ _ Hf Hj) as (row & Hrow & Hz).
    rewrite (zipM_length _ _ _ _ Hz).
    rewrite Forall_forall in Hrows. apply Hrows.
    eapply nth_error_In; eauto.
Qed.

Lemma slice_dim1_nth2 (A : Type) (B n V G g : nat) (t t_g : tensor3 A)
  b j row :
  1 <= G -> g < G -> wf3 B (n * G) V t -> slice_dim1 g G t = Ok t_g ->
  nth2 t_g b j = Some row -> nth2 t b (j * G + g) = Some row.
Proof.
  intros HG Hg Hwf E Hj.
  destruct (@slice_dim1_spec _ B n V G g t HG Hg Hwf)
    as (base & Ebase & Wbase & Hrows).
  rewrite E in Ebase. injection Ebase as <-.
  unfold nth2 in *.
  destruct (nth_error t_g b) as [beams_g|] eqn:Eb; [|discriminate].
  destruct (nth_error t b) as [beams|] eqn:El.
  - destruct (Hrows b beams El) as (beams_g' & Eg & Hnth).
    rewrite Eb in Eg. injection Eg as <-.
    rewrite <- Hnth; [exact Hj|].
    destruct Wbase as [_ Wb]. rewrite Forall_forall in Wb.
    destruct (Wb beams_g (nth_error_In _ _ Eb)) as [Hlen _].
    rewrite <- Hlen. apply nth_error_Some. congruence.
  - apply nth_error_None in El.
    assert (b < length t_g) by (apply nth_error_Some; congruence).
    destruct Wbase as [Hlb _]. destruct Hwf as [Hll _]. lia.
Qed.

(** The loop over the groups, group by group: what is ranked for group [g]
    is its slice of the input, penalised with a buffer that counts the
    tokens chosen by the groups before it. *)
Lemma group_loop_trace (self : DiverseBeamSearch) (B n V step : nat)
  (lprobs scores : tensor3 lprob) (m : nat) :
  1 <= num_groups self -> 1 <= n -> 1 <= V ->
  wf3 B (n * num_groups self) V lprobs ->
  wf_scores B (n * num_groups self) step scores ->
  forall n0 st st',
    n0 + m <= num_groups self ->
    group_loop self step lprobs scores (seq n0 m) st = Ok st' ->
    length (scores_G st) = n0 -> length (indices_G st) = n0 ->
    length (beams_G st) = n0 ->
    buf_counts (diversity_buf st) (indices_G st) ->
    (length (scores_G st') = n0 + m /\
     length (indices_G st') = n0 + m /\
     length (beams_G st') = n0 + m) /\
    (exists rs ri rb,
        scores_G st' = scores_G st ++ rs /\
        indices_G st' = indices_G st ++ ri /\
        beams_G st' = beams_G st ++ rb) /\
    forall g, n0 <= g < n0 + m ->
      exists base scores_g lprobs_g buf s i b,
        slice_dim1 g (num_groups self) lprobs = Ok base /\
        (if 0 <? step then slice_dim1 g (num_groups self) scores else Ok [])
        = Ok scores_g /\
        (if 0 <? g then add_penalty (diversity_strength self) buf base
         else Ok base) = Ok lprobs_g /\
        buf_counts buf (firstn g (indices_G st')) /\
        BeamSearch_step step lprobs_g scores_g = Ok (s, i, b) /\
        wf3 B n V lprobs_g /\ wf_scores B n step scores_g /\
        wf2 B (beam_width step n V) s /\
        wf2 B (beam_width step n V) i /\
        wf2 B (beam_width step n V) b /\
        nth_error (scores_G st') g = Some s /\
        nth_error (indices_G st') g = Some i /\
        nth_error (beams_G st') g
        = Some (map (map (fun x => x * num_groups self + g)) b).
Proof.
  intros HG Hn HV Hwf Hs.
  induction m as [|m IH]; intros n0 st st' Hle H Ls Li Lb Hinv.
  - simpl in H. injection H as <-. split; [lia|]. split.
    + exists [], [], []. now rewrite !app_nil_r.
    + intros g Hg. lia.
  - cbn [seq group_loop] in H. bind_inv H as st1 E1.
    destruct (group_body_inv _ _ _ _ _ _ E1)
      as (base & scores_g & lprobs_g & s & i & b & Eb & Esc & Ep & EB & Esa
          & Es & Ei & Ebm).
    destruct (IH (S n0) st1 st' ltac:(lia) H)
      as [Hlens [(rs & ri & rb & Es' & Ei' & Eb') Hall]].
    { rewrite Es, length_app. simpl. lia. }
    { rewrite Ei, length_app. simpl. lia. }
    { rewrite Ebm, length_app. simpl. lia. }
    { rewrite Ei. eapply buf_counts_step; eauto. }
    rewrite Es in Es'. rewrite Ei in Ei'. rewrite Ebm in Eb'.
    rewrite <- app_assoc in Es', Ei', Eb'. simpl in Es', Ei', Eb'.
    split; [lia|]. split; [eauto 10|].
    intros g Hg. destruct (Nat.eq_dec g n0) as [->|Hne].
    2:{ apply Hall. lia. }
    assert (Wbase : wf3 B n V base).
    { destruct (@slice_dim1_spec _ B n V (num_groups self) n0 lprobs HG
                  ltac:(lia) Hwf) as (t & Et & Wt & _).
      rewrite Eb in Et. now injection Et as <-. }
    assert (Wsc : wf_scores B n step scores_g).
    { destruct (@wf_scores_slice B n (num_groups self) n0 step scores HG
                  ltac:(lia) Hs) as (sg & Esg & Wsg).
      destruct (0 <? step).
      - rewrite Esc in Esg. now injection Esg as <-.
      - injection Esc as <-. now subst sg. }
    assert (Wg : wf3 B n V lprobs_g).
    { destruct (0 <? n0).
      - eapply add_penalty_wf; eauto.
      - now injection Ep as <-. }
    destruct (@BeamSearch_step_shape B n V step lprobs_g scores_g Wg Hn HV Wsc)
      as (s' & i' & b' & EB' & Ws & Wi & Wb & _).
    rewrite EB in EB'. injection EB' as <- <- <-.
    exists base, scores_g, lprobs_g, (diversity_buf st), s, i, b.
    split; [exact Eb|]. split; [exact Esc|]. split; [exact Ep|].
    split.
    { rewrite Ei', firstn_app, Li, Nat.sub_diag. simpl.
      rewrite app_nil_r. rewrite <- Li. rewrite firstn_all. exact Hinv. }
    split; [exact EB|]. split; [exact Wg|]. split; [exact Wsc|].
    split; [exact Ws|]. split; [exact Wi|]. split; [exact Wb|].
    rewrite Es', Ei', Eb'.
    rewrite !nth_error_app2 by lia. rewrite Ls, Li, Lb, Nat.sub_diag.
    repeat split.
Qed.

Lemma nth3_nth2 (A : Type) (t : tensor3 A) (b j v : nat) :
  nth3 t b j v
  = match nth2 t b j with
    | Some row => nth_error row v
    | None => None
    end.
Proof.
  unfold nth3, nth2. destruct (nth_error t b); reflexivity.
Qed.

Lemma slice_dim1_nth3 (A : Type) (B n V G g : nat) (t t_g : tensor3 A)
  b j v x :
  1 <= G -> g < G -> wf3 B (n * G) V t -> slice_dim1 g G t = Ok t_g ->
  nth3 t_g b j v = Some x -> nth3 t b (j * G + g) v = Some x.
Proof.
  intros HG Hg Hwf E Hx. rewrite nth3_nth2 in *.
  destruct (nth2 t_g b j) as [row|] eqn:Er; [|discriminate].
  now rewrite (@slice_dim1_nth2 _ _ _ _ _ _ _ _ _ _ _ HG Hg Hwf E Er).
Qed.

Lemma wf2_nth2 (A : Type) (R C : nat) (t : tensor2 A) (b j : nat) :
  wf2 R C t -> b < R -> j < C -> exists x, nth2 t b j = Some x.
Proof.
  intros [Hl HF] Hb Hj. unfold nth2.
  destruct (nth_error t b) as [row|] eqn:Eb;
    [|apply nth_error_None in Eb; lia].
  rewrite Forall_forall in HF.
  pose proof (HF row (nth_error_In _ _ Eb)) as Hr.
  destruct (nth_error row j) as [x|] eqn:Ej; [eauto|].
  apply nth_error_None in Ej. lia.
Qed.

Lemma nth2_bounds (A : Type) (R C : nat) (t : tensor2 A) (b j : nat) x :
  wf2 R C t -> nth2 t b j = Some x -> b < R /\ j < C.
Proof.
  intros [Hl HF] H. unfold nth2 in H.
  destruct (nth_error t b) as [row|] eqn:Eb; [|discriminate].
  rewrite Forall_forall in HF.
  pose proof (HF row (nth_error_In _ _ Eb)) as Hr. split.
  - rewrite <- Hl. apply nth_error_Some. congruence.
  - rewrite <- Hr. apply nth_error_Some. congruence.
Qed.

Lemma firstn_map_nth (A : Type) (d : A) (l : list A) (g : nat) :
  g <= length l -> firstn g l = map (fun g' => nth g' l d) (seq 0 g).
Proof.
  revert g. induction l as [|x l IH]; intros [|g] Hg; simpl in *;
    try reflexivity; try lia.
  f_equal. rewrite <- seq_shift, map_map. apply IH. lia.
Qed.

(** Row [b] of the interleaved output, read with stride [G] from position
    [g], is row [b] of the result of group [g]. *)
Lemma interleave_group_slice (B w : nat) (ts : list (tensor2 nat))
  (out : tensor2 nat) b orow g t row :
  Forall (wf2 B w) ts -> interleave ts = Ok out ->
  nth_error out b = Some orow -> nth_error ts g = Some t ->
  nth_error t b = Some row ->
  group_slice (length ts) g orow = row.
Proof.
  intros HF E Ho Ht Hr.
  assert (Hne : ts <> []) by (destruct ts; [destruct g|]; discriminate).
  destruct (@interleave_spec _ B w ts Hne HF) as (out' & E' & Wout & Hcell).
  rewrite E in E'. injection E' as <-.
  assert (Hg : g < length ts) by (apply nth_error_Some; congruence).
  assert (Hlo : length orow = w * length ts).
  { destruct Wout as [_ Wo]. rewrite Forall_forall in Wo.
    apply (Wo orow (nth_error_In _ _ Ho)). }
  assert (Hlr : length row = w).
  { rewrite Forall_forall in HF.
    destruct (HF t (nth_error_In _ _ Ht)) as [_ Wt].
    rewrite Forall_forall in Wt. apply (Wt row (nth_error_In _ _ Hr)). }
  unfold group_slice.
  destruct (@every_nth_spec _ (length ts) g orow w (length orow)
              ltac:(lia) Hg Hlo (Nat.le_refl _)) as [Hlen Hnth].
  apply nth_error_ext. intros j.
  destruct (Nat.lt_ge_cases j w) as [Hj|Hj].
  - rewrite (Hnth j Hj).
    destruct (nth_error row j) as [x|] eqn:Ex;
      [|apply nth_error_None in Ex; lia].
    destruct (Hcell g b j t row x Ht Hr Ex) as (orow' & Ho' & Hx).
    rewrite Ho in Ho'. injection Ho' as <-. exact Hx.
  - assert (H1 : nth_error row j = None) by (apply nth_error_None; lia).
    rewrite H1. apply nth_error_None. lia.
Qed.

Lemma lp_eq_refl (a : lprob) : lp_eq a a.
Proof. destruct a; simpl; [exact I | reflexivity]. Qed.

Lemma lp_add_eq_l (a a' h : lprob) :
  lp_eq a a' -> lp_eq (lp_add a h) (lp_add a' h).
Proof.
  destruct a, a', h; simpl; intros H; try exact I; try contradiction.
  now rewrite H.
Qed.

(** What is ranked for a group, entry by entry. *)
Lemma penalised_entry (strength : Q) (g : nat) (buf : tensor2 Q)
  (ts : list (tensor2 nat)) (base lprobs_g : tensor3 lprob) b j v y :
  (if 0 <? g then add_penalty strength buf base else Ok base) = Ok lprobs_g ->
  buf_counts buf (firstn g ts) ->
  nth3 lprobs_g b j v = Some y ->
  exists x,
    nth3 base b j v = Some x /\
    lp_eq y (lp_add x (Fin (strength
                            * inject_Z (Z.of_nat (picks (firstn g ts) b v))))).
Proof.
  intros E Hinv Hy. destruct g as [|g].
  - simpl in E. injection E as <-. exists y. split; [exact Hy|].
    simpl. unfold picks. simpl. destruct y; simpl; [exact I|].
    change (inject_Z 0) with 0%Q. lra.
  - change (0 <? S g) with true in E. cbv iota in E.
    destruct (@add_penalty_entries _ _ _ _ _ _ _ _ E Hy)
      as (x & c & Hx & Hc & ->).
    exists x. split; [exact Hx|].
    pose proof (Hinv b v c Hc) as Hq.
    destruct x; simpl; [exact I|]. now rewrite Hq.
Qed.

Lemma DiverseBeamSearch_step_head (self : DiverseBeamSearch)
  (B K V step : nat) (lprobs scores : tensor3 lprob) :
  1 <= num_groups self -> K mod num_groups self = 0 -> 1 <= K ->
  wf3 B K V lprobs ->
  exists fb : tensor2 lprob,
    DiverseBeamSearch_step self step lprobs scores
    = (st <- group_loop self step lprobs scores (seq 0 (num_groups self))
               {| diversity_buf := map (map (fun _ => 0%Q)) fb;
                  scores_G := []; indices_G := []; beams_G := [] |} ;;
       scores_buf <- interleave (scores_G st) ;;
       indices_buf <- interleave (indices_G st) ;;
       beams_buf <- interleave (beams_G st) ;;
       Ok (scores_buf, indices_buf, beams_buf)).
Proof.
  intros HG Hmod HK Hwf.
  destruct (@mapM_Forall_total _ _
              (fun beams : tensor2 lprob => getitem beams 0)
              (wf2 K V) (fun row => length row = V) lprobs
              (proj2 Hwf)) as (fb & Efb & _ & _).
  { intros beams [Hb Hr]. unfold getitem.
    destruct beams as [|row beams]; [simpl in Hb; lia|].
    simpl. exists row. split; [reflexivity | now inversion Hr]. }
  exists fb. unfold DiverseBeamSearch_step.
  assert (EG : (num_groups self =? 0) = false) by (apply Nat.eqb_neq; lia).
  destruct lprobs as [|m t].
  - unfold size3. simpl length. rewrite EG.
    rewrite Nat.Div0.mod_0_l. simpl negb. cbv iota.
    rewrite Efb. reflexivity.
  - rewrite (size3_wf Hwf HK). rewrite EG, Hmod. simpl negb. cbv iota.
    rewrite Efb. reflexivity.
Qed.

(** X23: the Hamming diversity penalty of [DiverseBeamSearch.step].  The
    result at position p of a batch element belongs to group p mod
    num_groups; its score is the log-probability of the returned
    (beam, token) pair, plus the stored (negated) diversity strength times
    the number of results of the earlier groups of this call that chose the
    same token, plus, after step 0, the beam's last history score.  The
    counts are read off the returned indices: group g' occupies the
    positions g', g' + num_groups, ... of a row. *)
Theorem DiverseBeamSearch_step_penalty (self : DiverseBeamSearch)
  (B K V step : nat) (lprobs scores : tensor3 lprob) s i bm
  b p sc tok beam irow :
  1 <= num_groups self -> K mod num_groups self = 0 ->
  1 <= K -> 1 <= V ->
  wf3 B K V lprobs -> wf_scores B K step scores ->
  DiverseBeamSearch_step self step lprobs scores = Ok (s, i, bm) ->
  nth2 s b p = Some sc -> nth2 i b p = Some tok -> nth2 bm b p = Some beam ->
  nth_error i b = Some irow ->
  exists x,
    nth3 lprobs b beam tok = Some x /\
    let G := num_groups self in
    let pen :=
      Fin (diversity_strength self
           * inject_Z (Z.of_nat (earlier_picks G (p mod G) irow tok))) in
    if step =? 0 then beam = p mod G /\ lp_eq sc (lp_add x pen)
    else exists h,
        nth3 scores b beam (step - 1) = Some h /\
        lp_eq sc (lp_add (lp_add x pen) h).
Proof.
  intros HG Hmod HK HV Hwf Hs E Hsc Htok Hbeam Hirow. cbv zeta.
  set (G := num_groups self) in *. set (n := K / G).
  assert (HKn : K = n * G).
  { unfold n. rewrite Nat.mul_comm. apply Nat.Div0.div_exact. exact Hmod. }
  assert (Hn : 1 <= n) by (destruct n; simpl in HKn; lia).
  assert (Hwf' : wf3 B (n * G) V lprobs) by (now rewrite <- HKn).
  assert (Hs' : wf_scores B (n * G) step scores) by (now rewrite <- HKn).
  destruct (@DiverseBeamSearch_step_head self B K V step lprobs scores
              HG Hmod HK Hwf) as (fb & Ehead).
  rewrite Ehead in E. fold G in E.
  bind_inv E as st Eloop. bind_inv E as S ES. bind_inv E as I EI.
  bind_inv E as Bm EBm. injection E as <- <- <-.
  set (w := beam_width step n V).
  destruct (@group_loop_trace self B n V step lprobs scores G HG Hn HV
              Hwf' Hs' 0 _ st (Nat.le_refl _) Eloop eq_refl eq_refl eq_refl)
    as [(Ls & Li & Lb) [_ Hall]].
  { intros b0 v0 c0 Hc0. cbn [diversity_buf indices_G] in *.
    unfold nth2 in Hc0. rewrite nth_error_map in Hc0.
    destruct (nth_error fb b0) as [r0|]; [|discriminate].
    simpl in Hc0. rewrite nth_error_map in Hc0.
    destruct (nth_error r0 v0); [|discriminate].
    injection Hc0 as <-. reflexivity. }
  simpl in Ls, Li, Lb. fold w in Hall.
  assert (WS : Forall (wf2 B w) (scores_G st)).
  { apply Forall_forall. intros t Ht. apply In_nth_error in Ht.
    destruct Ht as [g Hg].
    assert (g < G) by (rewrite <- Ls; apply nth_error_Some; congruence).
    destruct (Hall g ltac:(lia))
      as (base & sg & lg & buf & s' & i' & b' & _ & _ & _ & _ & _ & _ & _
          & W & _ & _ & N & _).
    rewrite Hg in N. now injection N as ->. }
  assert (WI : Forall (wf2 B w) (indices_G st)).
  { apply Forall_forall. intros t Ht. apply In_nth_error in Ht.
    destruct Ht as [g Hg].
    assert (g < G) by (rewrite <- Li; apply nth_error_Some; congruence).
    destruct (Hall g ltac:(lia))
      as (base & sg & lg & buf & s' & i' & b' & _ & _ & _ & _ & _ & _ & _
          & _ & W & _ & _ & N & _).
    rewrite Hg in N. now injection N as ->. }
  assert (WB : Forall (wf2 B w) (beams_G st)).
  { apply Forall_forall. intros t Ht. apply In_nth_error in Ht.
    destruct Ht as [g Hg].
    assert (g < G) by (rewrite <- Lb; apply nth_error_Some; congruence).
    destruct (Hall g ltac:(lia))
      as (base & sg & lg & buf & s' & i' & b' & _ & _ & _ & _ & _ & _ & _
          & _ & _ & [Wl Wr] & _ & _ & N).
    rewrite Hg in N. injection N as ->.
    split; [now rewrite length_map|].
    apply Forall_map. eapply Forall_impl; [|exact Wr].
    intros r Hr. now rewrite length_map. }
  assert (HneS : scores_G st <> [])
    by (intros Hc; rewrite Hc in Ls; simpl in Ls; lia).
  assert (HneI : indices_G st <> [])
    by (intros Hc; rewrite Hc in Li; simpl in Li; lia).
  assert (HneB : beams_G st <> [])
    by (intros Hc; rewrite Hc in Lb; simpl in Lb; lia).
  destruct (@interleave_nth2 _ B w (scores_G st) HneS WS)
    as (S' & ES' & WSo & HS).
  rewrite ES in ES'. injection ES' as <-. rewrite Ls in WSo, HS.
  destruct (@interleave_nth2 _ B w (indices_G st) HneI WI)
    as (I' & EI' & WIo & HI).
  rewrite EI in EI'. injection EI' as <-. rewrite Li in WIo, HI.
  destruct (@interleave_nth2 _ B w (beams_G st) HneB WB)
    as (Bm' & EBm' & WBo & HBm).
  rewrite EBm in EBm'. injection EBm' as <-. rewrite Lb in WBo, HBm.
  destruct (@nth2_bounds _ _ _ _ _ _ _ WSo Hsc) as [Hb Hp].
  set (g := p mod G). set (j := p / G).
  assert (Hg : g < G) by (apply Nat.mod_upper_bound; lia).
  assert (Hj : j < w) by (apply Nat.Div0.div_lt_upper_bound; lia).
  assert (Hpj : p = j * G + g).
  { unfold j, g. rewrite (Nat.div_mod_eq p G) at 1. lia. }
  destruct (Hall g ltac:(lia))
    as (base & sg & lg & buf & s_g & i_g & b_g & Eb & Esc & Ep & Hcnt & EB
        & Wg & Wsc & Ws & Wi & Wb & N1 & N2 & N3).
  destruct (@wf2_nth2 _ _ _ _ b j Ws Hb Hj) as (sc' & Hsc').
  destruct (@wf2_nth2 _ _ _ _ b j Wi Hb Hj) as (tok' & Htok').
  destruct (@wf2_nth2 _ _ _ _ b j Wb Hb Hj) as (beam' & Hbeam').
  pose proof (HS g b j s_g sc' N1 Hsc') as H1.
  rewrite <- Hpj, Hsc in H1. injection H1 as <-.
  pose proof (HI g b j i_g tok' N2 Htok') as H2.
  rewrite <- Hpj, Htok in H2. injection H2 as <-.
  pose proof (HBm g b j _ _ N3
                (@nth2_map _ _ (fun y => y * G + g) b_g b j beam' Hbeam'))
    as H3.
  rewrite <- Hpj, Hbeam in H3. injection H3 as ->.
  assert (Hpicks : picks (firstn g (indices_G st)) b tok
                   = earlier_picks G g irow tok).
  { unfold picks, earlier_picks.
    rewrite (@firstn_map_nth _ [] (indices_G st) g) by lia. rewrite map_map.
    f_equal. apply map_ext_in. intros g' Hg'. apply in_seq in Hg'.
    destruct (nth_error (indices_G st) g') as [t|] eqn:Et;
      [|apply nth_error_None in Et; lia].
    rewrite (nth_error_nth _ _ [] Et).
    assert (Wt : wf2 B w t).
    { rewrite Forall_forall in WI. apply WI. eapply nth_error_In; eauto. }
    destruct (nth_error t b) as [row|] eqn:Er;
      [|apply nth_error_None in Er; destruct Wt; lia].
    rewrite (nth_error_nth _ _ [] Er).
    rewrite <- (@interleave_group_slice B w (indices_G st) I b irow g' t row
                  WI EI Hirow Et Er).
    now rewrite Li. }
  assert (Hentry :
            if step =? 0 then beam' = 0 /\ nth3 lg b 0 tok = Some sc
            else exists x h,
                nth3 lg b beam' tok = Some x /\
                nth3 sg b beam' (step - 1) = Some h /\
                sc = lp_add x h).
  { eapply BeamSearch_step_entry; eassumption. }
  revert Hentry. destruct (step =? 0) eqn:E0; intros Hentry.
  - destruct Hentry as [-> Hy].
    destruct (@penalised_entry _ _ _ _ _ _ _ _ _ _ Ep Hcnt Hy)
      as (x & Hx & Hq).
    exists x. split.
    + apply (@slice_dim1_nth3 _ B n V G g lprobs base b 0 tok x
               HG Hg Hwf' Eb Hx).
    + split; [reflexivity|]. rewrite <- Hpicks. exact Hq.
  - destruct Hentry as (x' & h & Hx' & Hh & ->).
    destruct (@penalised_entry _ _ _ _ _ _ _ _ _ _ Ep Hcnt Hx')
      as (x & Hx & Hq).
    exists x. split.
    + apply (@slice_dim1_nth3 _ B n V G g lprobs base b beam' tok x
               HG Hg Hwf' Eb Hx).
    + exists h. split.
      * apply Nat.eqb_neq in E0.
        destruct (Hs' ltac:(lia)) as (T & HT & _).
        destruct (0 <? step) eqn:E1; [|apply Nat.ltb_ge in E1; lia].
        apply (@slice_dim1_nth3 _ B n T G g scores sg b beam' (step - 1) h
                 HG Hg HT Esc Hh).
      * rewrite <- Hpicks. apply lp_add_eq_l. exact Hq.
Qed.

Lemma DiverseBeamSearch_step_penalty_witness :
  exists x,
    nth3 [[[lp (-5); lp 0; lp (-3)]; [lp (-1); lp (-1); NegInf];
           [lp (-5); lp 0; lp (-3)]; [lp (-1); lp (-1); NegInf]]] 0 1 1
    = Some x /\
    exists h,
      nth3 [[[lp (-1)]; [lp (-2)]; [lp (-1)]; [lp (-2)]]] 0 1 (1 - 1)
      = Some h /\
      lp_eq (lp (-5))
            (lp_add
               (lp_add x
                  (Fin (- (1)
                        * inject_Z
                            (Z.of_nat
                               (earlier_picks 2 (5 mod 2)
                                              [1; 0; 1; 0; 2; 1; 2; 1] 1)))))
               h).
Proof.
  apply (@DiverseBeamSearch_step_penalty (DiverseBeamSearch_init 2 1)
           1 4 3 1
           [[[lp (-5); lp 0; lp (-3)]; [lp (-1); lp (-1); NegInf];
             [lp (-5); lp 0; lp (-3)]; [lp (-1); lp (-1); NegInf]]]
           [[[lp (-1)]; [lp (-2)]; [lp (-1)]; [lp (-2)]]]
           [[lp (-1); lp (-3); lp (-1); lp (-3);
             lp (-4); lp (-5); lp (-4); lp (-5)]]
           [[1; 0; 1; 0; 2; 1; 2; 1]] [[0; 1; 2; 3; 0; 1; 2; 3]]
           0 5 (lp (-5)) 1 1 [1; 0; 1; 0; 2; 1; 2; 1]).
  - simpl. lia.
  - reflexivity.
  - lia.
  - lia.
  - split; [reflexivity|]. repeat constructor.
  - intros _. exists 1. split; [|lia].
    split; [reflexivity|]. repeat constructor.
  - vm_compute. reflexivity.
  - reflexivity.
  - reflexivity.
  - reflexivity.
  - reflexivity.
Defined.

(** ** Sampling.step: the score of a sample *)

Lemma gather_dim2_nth (A : Type) (t : tensor3 A) (idx : tensor2 nat)
  (out : tensor2 A) b j x :
  gather_dim2 t idx = Ok out -> nth2 out b j = Some x ->
  exists row d,
    nth2 t b j = Some row /\ nth2 idx b j = Some d /\
    nth_error row d = Some x.
Proof.
  intros E Hx. unfold nth2 in *. unfold gather_dim2 in E.
  destruct (nth_error out b) as [orow|] eqn:Eo; [|discriminate].
  destruct (@zipM_nth _ _ _ _ _ _ _ _ _ _ E Eo)
    as (beams & irow & Hb & Hi & Hz).
  destruct (@zipM_nth _ _ _ _ _ _ _ _ _ _ Hz Hx) as (row & d & Hr & Hd & Hf).
  rewrite Hb, Hi. exists row, d. split; [exact Hr|]. split; [exact Hd|].
  destruct (nth_error row d) as [y|] eqn:Ey; [|discriminate].
  now injection Hf as <-.
Qed.

Lemma nth2_map_inv (A C : Type) (f : A -> C) (t : tensor2 A) (b j : nat) y :
  nth2 (map (map f) t) b j = Some y ->
  exists x, nth2 t b j = Some x /\ y = f x.
Proof.
  unfold nth2. rewrite nth_error_map.
  destruct (nth_error t b) as [row|]; [|discriminate]. simpl.
  rewrite nth_error_map. destruct (nth_error row j) as [x|]; [|discriminate].
  simpl. intros H. injection H as <-. eauto.
Qed.

(** [expand] either repeats the single row of a batch element or keeps its
    rows. *)
Lemma expand_dim1_nth2 (A : Type) (K L : nat) (t t' : tensor3 A) b j r :
  expand_dim1 K t = Ok t' -> nth2 t' b j = Some r ->
  (forall beams, nth_error t b = Some beams -> length beams = L) ->
  exists jj,
    nth2 t b jj = Some r /\ (L = 1 -> jj = 0) /\ (L = K -> jj = j).
Proof.
  intros E Hr HL. unfold nth2 in *.
  destruct (nth_error t' b) as [beams'|] eqn:Eb'; [|discriminate].
  destruct (@expand_dim1_rows _ _ _ _ _ _ E Eb') as (beams & Hb & Hcase).
  pose proof (HL beams Hb) as Hlen. rewrite Hb.
  destruct Hcase as [(row & -> & ->)| ->].
  - assert (r = row)
      by (apply nth_error_In in Hr; now apply repeat_spec in Hr).
    subst r.
    assert (Hj : j < K).
    { rewrite <- (repeat_length row K). apply nth_error_Some. congruence. }
    exists 0. split; [reflexivity|]. split; [reflexivity|].
    simpl in Hlen. lia.
  - exists j. split; [exact Hr|]. split; [|reflexivity].
    intros ->.
    assert (j < length beams) by (apply nth_error_Some; congruence). lia.
Qed.

(** X24: the score of a sample.  In top-k mode, at step 0 or when the
    rescoring is switched off, the score [Sampling.step] returns with a
    token is the logarithm of the exponential of that token's
    log-probability in the row it was sampled from, plus, after step 0, the
    last history score of the same beam. *)
Theorem Sampling_step_topk_scores
  (exp_ : lprob -> Q) (log_ : Q -> lprob) (rng : Type)
  (draw : rng -> list Q -> nat * rng)
  (rescoring : nat -> tensor3 lprob -> tensor3 nat -> result (tensor3 Q))
  (self : Sampling) (rescore : bool) (B K V step : nat)
  (lprobs scores : tensor3 lprob) (g g' : rng) s i bm b j sc tok :
  wf3 B K V lprobs -> 1 <= K -> rescore = false \/ step = 0 ->
  Sampling_step exp_ log_ draw rescoring self rescore step lprobs scores g
  = Ok (s, i, bm, g') ->
  nth2 s b j = Some sc -> nth2 i b j = Some tok ->
  exists row x,
    nth2 lprobs b (if step =? 0 then 0 else j) = Some row /\
    nth_error row tok = Some x /\
    if step =? 0 then sc = log_ (exp_ x)
    else exists h,
        nth3 scores b j (step - 1) = Some h /\
        sc = lp_add (log_ (exp_ x)) h.
Proof.
  intros Hwf HK Hmode H Hsc Hij.
  destruct (Sampling_step_needs_topk _ _ _ _ _ _ _ _ _ _ H) as [Ep Ek].
  pose proof (ranked_0 scores Hwf HK) as R.
  unfold ranked, size3 in R. cbn [Nat.eqb] in R.
  unfold Sampling_step, size3 in H.
  bind_inv H as lprobs0 E1.
  bind_inv H as [[probs ti] logprob] E2.
  rewrite Ep, Ek in E2. bind_inv E2 as top Etop. injection E2 as <- <- <-.
  bind_inv H as lprobs1 E3. bind_inv H as probs1 E4.
  bind_inv H as [idx g1] E5. bind_inv H as probs2 E6.
  bind_inv H as picked E7. bind_inv H as idx1 E8.
  rewrite Ek in E8. cbn [orb] in E8. bind_inv E8 as ti' E8a.
  assert (E4' : probs1 = tmap3 exp_ (map (map (map fst)) top)).
  { destruct Hmode as [-> | ->].
    - simpl in E4. now injection E4 as <-.
    - rewrite andb_false_r in E4. now injection E4 as <-. }
  subst probs1. clear E4 E3 E5.
  (* the entries of the output *)
  assert (Hout : i = idx1 /\
                 exists s0,
                   nth2 picked b j = Some s0 /\
                   if step =? 0 then sc = log_ s0
                   else exists h,
                       nth3 scores b j (step - 1) = Some h /\
                       sc = lp_add (log_ s0) h).
  { destruct (step =? 0).
    - injection H as <- <- _ _. split; [reflexivity|].
      destruct (@nth2_map_inv _ _ _ _ _ _ _ Hsc) as (s0 & Hs0 & ->). eauto.
    - bind_inv H as last E9. bind_inv H as prior E10. bind_inv H as sc1 E11.
      injection H as <- <- _ _. split; [reflexivity|].
      unfold nth2 in Hsc.
      destruct (nth_error sc1 b) as [srow|] eqn:Esr; [|discriminate].
      destruct (@zipM_nth _ _ _ _ _ _ _ _ _ _ E11 Esr)
        as (lrow & prow & Hl & Hp & Hz).
      destruct (@zipM_nth _ _ _ _ _ _ _ _ _ _ Hz Hsc)
        as (l0 & h & Hl0 & Hh & Hadd).
      injection Hadd as <-.
      assert (Hl0' : nth2 (map (map log_) picked) b j = Some l0)
        by (unfold nth2; now rewrite Hl).
      destruct (@nth2_map_inv _ _ _ _ _ _ _ Hl0') as (s0 & Hs0 & ->).
      exists s0. split; [exact Hs0|]. exists h. split; [|reflexivity].
      destruct (@zipM_nth _ _ _ _ _ _ _ _ _ _ E10 Hp)
        as (lastrow & brow & Hlast & Hbrow & Hg).
      apply nth_error_In in Hbrow. apply repeat_spec in Hbrow. subst brow.
      unfold gather_row in Hg.
      destruct (@mapM_nth _ _ _ _ _ _ _ Hg Hh) as (j0 & Hj0 & Hget).
      apply nth_error_seq_0 in Hj0. subst j0.
      unfold getitem in Hget.
      destruct (nth_error lastrow j) as [h'|] eqn:Eh; [|discriminate].
      injection Hget as ->.
      destruct (@mapM_nth _ _ _ _ _ _ _ E9 Hlast) as (hists & Hhists & Hm).
      destruct (@mapM_nth _ _ _ _ _ _ _ Hm Eh) as (hist & Hhist & Hget).
      unfold getitem in Hget.
      destruct (nth_error hist (step - 1)) as [h'|] eqn:Eh'; [|discriminate].
      injection Hget as ->.
      unfold nth3, nth2. now rewrite Hhists, Hhist. }
  destruct Hout as [<- (s0 & Hs0 & Hscore)]. clear H.
  destruct (@gather_dim2_nth _ _ _ _ _ _ _ E7 Hs0)
    as (prow & d & Hprow & Hd & Hpd).
  destruct (@gather_dim2_nth _ _ _ _ _ _ _ E8 Hij)
    as (trow & d' & Htrow & Hd' & Htd).
  rewrite Hd in Hd'. injection Hd' as <-.
  (* the shape of the candidate tables *)
  assert (Hb : b < length lprobs).
  { unfold nth2 in Htrow.
    destruct (nth_error ti' b) as [x|] eqn:Ex; [|discriminate].
    destruct (@expand_dim1_rows _ _ _ _ _ _ E8a Ex) as (beams & Hbeams & _).
    rewrite !nth_error_map in Hbeams.
    destruct (nth_error top b) as [tb|] eqn:Etb; [|discriminate].
    destruct (@mapM_nth _ _ _ _ _ _ _ Etop Etb) as (lb0 & Hlb0 & _).
    assert (Hb0 : b < length lprobs0)
      by (apply nth_error_Some; congruence).
    destruct (step =? 0).
    - rewrite R in E1. injection E1 as <-. now rewrite length_map in Hb0.
    - now injection E1 as <-. }
  assert (Hhd : length (hd [] lprobs) = K).
  { destruct lprobs as [|m t]; [simpl in Hb; lia|].
    pose proof (size3_wf Hwf HK) as Hsz. unfold size3 in Hsz.
    injection Hsz as _ H2 _. exact H2. }
  rewrite Hhd in *.
  set (L := if step =? 0 then 1 else K).
  assert (Htop : forall tb, nth_error top b = Some tb -> length tb = L).
  { intros tb Htb.
    destruct (@mapM_nth _ _ _ _ _ _ _ Etop Htb) as (lb0 & Hlb0 & Elb0).
    rewrite (mapM_length _ _ Elb0). unfold L.
    destruct (step =? 0).
    - rewrite R in E1. injection E1 as <-.
      rewrite nth_error_map in Hlb0.
      destruct (nth_error lprobs b) as [lb|] eqn:El; [|discriminate].
      simpl in Hlb0. injection Hlb0 as <-.
      assert (Hlb : length lb = K).
      { destruct Hwf as [_ HF]. rewrite Forall_forall in HF.
        apply (HF lb (nth_error_In _ _ El)). }
      destruct lb; [simpl in Hlb; lia | reflexivity].
    - injection E1 as <-. destruct Hwf as [_ HF].
      rewrite Forall_forall in HF. apply (HF lb0 (nth_error_In _ _ Hlb0)). }
  (* the row of the token ids *)
  destruct (@expand_dim1_nth2 _ K L _ _ b j trow E8a Htrow)
    as (jt & Hjt & Ht1 & HtK).
  { intros beams Hbeams. rewrite !nth_error_map in Hbeams.
    destruct (nth_error top b) as [tb|] eqn:Etb; [|discriminate].
    simpl in Hbeams. injection Hbeams as <-.
    rewrite length_map. now apply Htop. }
  (* the row of the probabilities *)
  assert (Hprobs : exists jp,
             nth2 (tmap3 exp_ (map (map (map fst)) top)) b jp = Some prow /\
             (L = 1 -> jp = 0) /\ (L = K -> jp = j)).
  { destruct (step =? 0) eqn:E0.
    - apply (@expand_dim1_nth2 _ K L _ _ b j prow E6 Hprow).
      intros beams Hbeams. unfold tmap3 in Hbeams.
      rewrite !nth_error_map in Hbeams.
      destruct (nth_error top b) as [tb|] eqn:Etb; [|discriminate].
      simpl in Hbeams. injection Hbeams as <-.
      rewrite !length_map. now apply Htop.
    - injection E6 as <-. exists j. split; [exact Hprow|].
      split; [|reflexivity]. unfold L. rewrite ?E0. intros ->.
      unfold nth2 in Hprow. unfold tmap3 in Hprow.
      rewrite !nth_error_map in Hprow.
      destruct (nth_error top b) as [tb|] eqn:Etb; [|discriminate].
      simpl in Hprow. pose proof (Htop tb eq_refl) as Hl.
      unfold L in Hl. rewrite ?E0 in Hl.
      assert (j < length (map (map exp_) (map (map fst) tb)))
        by (apply nth_error_Some; congruence).
      rewrite !length_map in H. lia. }
  destruct Hprobs as (jp & Hjp & Hp1 & HpK).
  assert (Hjj : jt = (if step =? 0 then 0 else j) /\
                jp = (if step =? 0 then 0 else j)).
  { unfold L in *. destruct (step =? 0); split; auto. }
  destruct Hjj as [-> ->].
  unfold tmap3 in Hjp.
  destruct (@nth2_map_inv _ _ _ _ _ _ _ Hjp) as (r1 & Hr1 & ->).
  destruct (@nth2_map_inv _ _ _ _ _ _ _ Hr1) as (tj & Htj & ->).
  destruct (@nth2_map_inv _ _ _ _ _ _ _ Hjt) as (tj' & Htj' & ->).
  rewrite Htj in Htj'. injection Htj' as <-.
  rewrite !nth_error_map in Hpd. rewrite nth_error_map in Htd.
  destruct (nth_error tj d) as [e|] eqn:Ee; [|discriminate].
  simpl in Hpd, Htd. injection Hpd as <-. injection Htd as <-.
  (* the candidate table is the top-k of a row of the input *)
  unfold nth2 in Htj.
  destruct (nth_error top b) as [tb|] eqn:Etb; [|discriminate].
  destruct (@mapM_nth _ _ _ _ _ _ _ Etop Etb) as (lb0 & Hlb0 & Elb0).
  destruct (@mapM_nth _ _ _ _ _ _ _ Elb0 Htj) as (row & Hrow & Etopk).
  apply topk_inv in Etopk. destruct Etopk as [_ ->].
  exists row, (fst e). split; [|split].
  - destruct (step =? 0).
    + rewrite R in E1. injection E1 as <-.
      rewrite nth_error_map in Hlb0. unfold nth2.
      destruct (nth_error lprobs b) as [lb|] eqn:El; [|discriminate].
      simpl in Hlb0. injection Hlb0 as <-.
      destruct lb; [discriminate|]. exact Hrow.
    + injection E1 as <-. unfold nth2. now rewrite Hlb0.
  - apply nth_error_In in Ee. destruct e as [v t0].
    apply top_list_In in Ee. exact Ee.
  - exact Hscore.
Qed.

Lemma Sampling_step_topk_scores_witness :
  exists row x,
    nth2 example_lprobs 0 1 = Some row /\
    nth_error row 0 = Some x /\
    exists h,
      nth3 example_history 0 1 (1 - 1) = Some h /\
      lp (-3) = lp_add (example_log (example_exp x)) h.
Proof.
  refine (@Sampling_step_topk_scores
            example_exp example_log nat example_draw example_rescoring
            {| sampling_topk := 2; sampling_topp := -1 |} false 1 3 4 1
            example_lprobs example_history 0 3
            [[lp 0; lp (-3); lp (-2)]] [[3; 0; 3]] [[0; 1; 2]]
            0 1 (lp (-3)) 0 _ _ _ _ _ _).
  - split; [reflexivity|]. repeat constructor.
  - lia.
  - left. reflexivity.
  - vm_compute. reflexivity.
  - reflexivity.
  - reflexivity.
Defined.

(** ** Sampling.step: top-k sampling returns *)

Lemma draws_spec (rng : Type) (draw : rng -> list Q -> nat * rng)
  (row : list Q) :
  draw_in_range draw -> valid_weights row = true ->
  forall n g,
    length (fst (draws draw n row g)) = n /\
    Forall (fun i => i < length row) (fst (draws draw n row g)).
Proof.
  intros Hd Hv. induction n as [|n IH]; intros g; simpl.
  - split; [reflexivity | constructor].
  - pose proof (Hd g row Hv) as Hi.
    destruct (draw g row) as [i g1]. simpl in Hi.
    specialize (IH g1). destruct (draws draw n row g1) as [ixs g2].
    simpl in *. destruct IH as [Hl HF]. split; [now rewrite Hl|].
    constructor; assumption.
Qed.

Lemma multinomial_total (rng : Type) (draw : rng -> list Q -> nat * rng)
  (w n : nat) (rows : tensor2 Q) :
  draw_in_range draw ->
  Forall (fun row => valid_weights row = true /\ length row = w) rows ->
  forall g,
  exists out g',
    multinomial draw rows n g = Ok (out, g') /\
    length out = length rows /\
    Forall (fun ixs => length ixs = n /\ Forall (fun i => i < w) ixs) out.
Proof.
  intros Hd HF. induction HF as [|row rows [Hv Hl] _ IH]; intros g; simpl.
  - exists [], g. repeat split. constructor.
  - rewrite Hv. destruct (@draws_spec _ _ _ Hd Hv n g) as [Hn Hr].
    destruct (draws draw n row g) as [ixs g1]. simpl in Hn, Hr.
    destruct (IH g1) as (out & g2 & -> & Hlo & HFo). cbn [bind].
    exists (ixs :: out), g2. split; [reflexivity|].
    split; [simpl; now rewrite Hlo|].
    constructor; [|exact HFo]. split; [exact Hn|]. now rewrite <- Hl.
Qed.

Lemma concat_singletons (P : nat -> Prop) (ixs : tensor2 nat) :
  Forall (fun l => length l = 1 /\ Forall P l) ixs ->
  length (concat ixs) = length ixs /\ Forall P (concat ixs).
Proof.
  induction 1 as [|l ixs [Hl HP] _ [IHl IHP]]; simpl.
  - split; [reflexivity | constructor].
  - rewrite length_app, Hl, IHl. split; [reflexivity|].
    apply Forall_app. split; assumption.
Qed.

Lemma multinomial_each_total (rng : Type)
  (draw : rng -> list Q -> nat * rng) (w K : nat) (probs : tensor3 Q) :
  draw_in_range draw ->
  Forall (fun beams =>
            length beams = K /\
            Forall (fun row => valid_weights row = true /\ length row = w)
                   beams) probs ->
  forall g,
  exists out g',
    multinomial_each draw probs g = Ok (out, g') /\
    length out = length probs /\
    Forall (fun ixs => length ixs = K /\ Forall (fun i => i < w) ixs) out.
Proof.
  intros Hd HF. induction HF as [|beams probs [Hk Hb] _ IH]; intros g; simpl.
  - exists [], g. repeat split. constructor.
  - destruct (@multinomial_total _ _ _ 1 _ Hd Hb g)
      as (ixs & g1 & -> & Hli & HFi).
    cbn [bind].
    destruct (IH g1) as (out & g2 & -> & Hlo & HFo). cbn [bind].
    destruct (@concat_singletons _ _ HFi) as [Hc1 Hc2].
    exists (concat ixs :: out), g2. split; [reflexivity|].
    split; [simpl; now rewrite Hlo|].
    constructor; [|exact HFo]. split; [congruence | exact Hc2].
Qed.

Lemma Forall2_from_nth (A C : Type) (R : A -> C -> Prop) (l : list A)
  (l' : list C) :
  length l = length l' ->
  (forall n x y, nth_error l n = Some x -> nth_error l' n = Some y -> R x y) ->
  Forall2 R l l'.
Proof.
  revert l'. induction l as [|x l IH]; intros [|y l'] Hl H; simpl in Hl;
    try discriminate; constructor.
  - apply (H 0); reflexivity.
  - apply IH; [lia|]. intros n a c Ha Hc. apply (H (S n)); assumption.
Qed.

Lemma gather_dim2_total (A : Type) (B K w : nat) (t : tensor3 A)
  (idx : tensor2 nat) :
  wf3 B K w t -> wf2 B K idx -> Forall (Forall (fun i => i < w)) idx ->
  exists out, gather_dim2 t idx = Ok out /\ wf2 B K out.
Proof.
  intros [Hlt HFt] [Hli HFi] Hr. unfold gather_dim2.
  rewrite Forall_forall in HFt, HFi, Hr.
  destruct (@zipM_Forall2_total _ _ _ RuntimeError
              (zipM RuntimeError
                    (fun (row : list A) i =>
                       match nth_error row i with
                       | Some x => Ok x
                       | None => Raise RuntimeError
                       end))
              (fun (beams : tensor2 A) (irow : list nat) =>
                 wf2 K w beams /\ length irow = K /\
                 Forall (fun i => i < w) irow)
              (fun orow => length orow = K) t idx)
    as (out & E & Hlo & HFo).
  - apply Forall2_from_nth; [lia|]. intros n beams irow Hb Hi.
    apply nth_error_In in Hb, Hi. auto.
  - intros beams irow ([Hk Hrows] & Hik & Hir).
    rewrite Forall_forall in Hrows, Hir.
    destruct (@zipM_Forall2_total _ _ _ RuntimeError
                (fun (row : list A) i =>
                   match nth_error row i with
                   | Some x => Ok x
                   | None => Raise RuntimeError
                   end)
                (fun (row : list A) i => i < length row)
                (fun _ => True) beams irow) as (orow & Eo & Hlo & _).
    + apply Forall2_from_nth; [lia|]. intros n row i0 Hrow Hi0.
      apply nth_error_In in Hrow, Hi0.
      rewrite (Hrows row Hrow). now apply Hir.
    + intros row i0 Hi0.
      destruct (nth_error row i0) as [x|] eqn:Ex; [eauto|].
      apply nth_error_None in Ex. lia.
    + exists orow. split; [exact Eo | lia].
  - exists out. split; [exact E|]. split; [lia | exact HFo].
Qed.

Lemma expand_dim1_total (A : Type) (B K L w : nat) (t : tensor3 A) :
  wf3 B L w t -> L = 1 \/ L = K -> 1 <= K ->
  exists t', expand_dim1 K t = Ok t' /\ wf3 B K w t'.
Proof.
  intros [Hl HF] HL HK. unfold expand_dim1.
  destruct (@mapM_Forall_total _ _
              (fun beams : tensor2 A =>
                 match beams with
                 | [row] => Ok (repeat row K)
                 | _ => if length beams =? K then Ok beams
                        else Raise RuntimeError
                 end)
              (wf2 L w) (wf2 K w) t HF) as (t' & E & Hl' & HF').
  - intros beams [Hb Hr]. destruct beams as [|row [|r2 rest]].
    + simpl in Hb. lia.
    + exists (repeat row K). split; [reflexivity|].
      split; [apply repeat_length|].
      apply Forall_forall. intros x Hx. apply repeat_spec in Hx. subst x.
      now apply Forall_inv in Hr.
    + assert (HLK : L = K) by (simpl in Hb; lia). rewrite HLK in Hb.
      rewrite Hb, Nat.eqb_refl. eexists. split; [reflexivity|].
      split; assumption.
  - exists t'. split; [exact E|]. split; [lia | exact HF'].
Qed.

Lemma sumQ_pos (l : list Q) (x : Q) :
  Forall (fun y => 0 <= y)%Q l -> In x l -> (0 < x)%Q -> (0 < sumQ l)%Q.
Proof.
  induction 1 as [|y l Hy HF IH]; intros Hin Hx; [contradiction|].
  simpl. pose proof (sumQ_nonneg HF) as Hs.
  destruct Hin as [->|Hin]; [lra|]. specialize (IH Hin Hx). lra.
Qed.

Lemma topk_weights_valid (exp_ : lprob -> Q) (k : Z) (row : list lprob) :
  (forall x, 0 <= exp_ x)%Q -> (forall q, 0 < exp_ (Fin q))%Q ->
  (1 <= k <= Z.of_nat (length row))%Z -> has_finite row = true ->
  valid_weights (topk_weights exp_ k row) = true.
Proof.
  intros Hnn Hpos Hk Hfin. unfold valid_weights, topk_weights.
  assert (HF : Forall (fun y => 0 <= y)%Q
                      (map exp_ (map fst (top_list k row)))).
  { rewrite !Forall_map. apply Forall_forall. intros x _. apply Hnn. }
  apply andb_true_iff. split.
  - apply forallb_forall. intros y Hy. apply Qle_bool_iff.
    rewrite Forall_forall in HF. now apply HF.
  - apply Qltb_true.
    unfold has_finite in Hfin. apply existsb_exists in Hfin.
    destruct Hfin as (v & Hv & Hvf).
    apply In_nth_error in Hv. destruct Hv as [p Hp].
    assert (Hex : exists x, In x (top_list k row) /\ is_finite (fst x) = true).
    { destruct (in_dec Nat.eq_dec p (map snd (top_list k row))) as [Hin|Hout].
      - apply in_map_iff in Hin. destruct Hin as ([v' p'] & Hp' & Hin).
        simpl in Hp'. subst p'. exists (v', p). split; [exact Hin|].
        apply top_list_In in Hin. rewrite Hp in Hin. injection Hin as <-.
        exact Hvf.
      - assert (Hlen : length (top_list k row) = Z.to_nat k)
          by (apply top_list_length; lia).
        destruct (top_list k row) as [|x rest] eqn:Et;
          [simpl in Hlen; lia|].
        exists x. split; [now left|].
        assert (Hle : lp_leb v (fst x) = true).
        { apply (@top_list_best k row p v x Hp).
          - now rewrite Et.
          - rewrite Et. now left. }
        destruct v; [discriminate|]. destruct (fst x); [discriminate|].
        reflexivity. }
    destruct Hex as (x & Hin & Hx).
    apply (@sumQ_pos _ (exp_ (fst x)) HF).
    + apply in_map, in_map, Hin.
    + destruct (fst x); [discriminate | apply Hpos].
Qed.

Lemma topk_tables (exp_ : lprob -> Q) (k : Z) (B K0 V : nat)
  (lprobs0 : tensor3 lprob) :
  wf3 B K0 V lprobs0 -> (1 <= k <= Z.of_nat V)%Z ->
  (forall x, 0 <= exp_ x)%Q -> (forall q, 0 < exp_ (Fin q))%Q ->
  Forall (Forall (fun row => has_finite row = true)) lprobs0 ->
  mapM (mapM (topk k)) lprobs0 = Ok (map (map (top_list k)) lprobs0) /\
  tmap3 exp_ (map (map (map fst)) (map (map (top_list k)) lprobs0))
  = map (map (topk_weights exp_ k)) lprobs0 /\
  map (map (map snd)) (map (map (top_list k)) lprobs0)
  = map (map (topk_ids k)) lprobs0 /\
  wf3 B K0 (Z.to_nat k) (map (map (topk_weights exp_ k)) lprobs0) /\
  wf3 B K0 (Z.to_nat k) (map (map (topk_ids k)) lprobs0) /\
  Forall (fun beams =>
            length beams = K0 /\
            Forall (fun row => valid_weights row = true /\
                               length row = Z.to_nat k) beams)
         (map (map (topk_weights exp_ k)) lprobs0).
Proof.
  intros [Hl HF] Hk Hnn Hpos Hfin.
  rewrite Forall_forall in HF, Hfin.
  assert (Hrow : forall beams row, In beams lprobs0 -> In row beams ->
                                   length row = V).
  { intros beams row Hb Hr. destruct (HF beams Hb) as [_ HR].
    rewrite Forall_forall in HR. now apply HR. }
  split; [|split; [|split; [|split; [|split]]]].
  - apply mapM_ok_map. intros beams Hb. apply mapM_ok_map. intros row Hr.
    apply topk_ok. rewrite (Hrow beams row Hb Hr). lia.
  - unfold tmap3, topk_weights. rewrite !map_map.
    apply map_ext. intros beams. rewrite !map_map. reflexivity.
  - unfold topk_ids. rewrite !map_map.
    apply map_ext. intros beams. rewrite !map_map. reflexivity.
  - split; [now rewrite length_map|].
    rewrite Forall_map. apply Forall_forall. intros beams Hb.
    split; [rewrite length_map; apply (HF beams Hb)|].
    rewrite Forall_map. apply Forall_forall. intros row Hr.
    unfold topk_weights. rewrite !length_map. apply top_list_length.
    rewrite (Hrow beams row Hb Hr). lia.
  - split; [now rewrite length_map|].
    rewrite Forall_map. apply Forall_forall. intros beams Hb.
    split; [rewrite length_map; apply (HF beams Hb)|].
    rewrite Forall_map. apply Forall_forall. intros row Hr.
    unfold topk_ids. rewrite length_map. apply top_list_length.
    rewrite (Hrow beams row Hb Hr). lia.
  - rewrite Forall_map. apply Forall_forall. intros beams Hb.
    split; [rewrite length_map; apply (HF beams Hb)|].
    rewrite Forall_map. apply Forall_forall. intros row Hr. split.
    + apply topk_weights_valid; try assumption.
      * rewrite (Hrow beams row Hb Hr). lia.
      * pose proof (Hfin beams Hb) as Hf. rewrite Forall_forall in Hf.
        now apply Hf.
    + unfold topk_weights. rewrite !length_map. apply top_list_length.
      rewrite (Hrow beams row Hb Hr). lia.
Qed.

Lemma history_total (B K T step : nat) (scores : tensor3 lprob)
  (s0 : tensor2 lprob) :
  wf3 B K T scores -> 0 < step <= T -> wf2 B K s0 ->
  exists last prior s,
    mapM (mapM (fun hist : list lprob => getitem hist (step - 1))) scores
    = Ok last /\
    zipM RuntimeError gather_row last (repeat (seq 0 K) B) = Ok prior /\
    zipM RuntimeError (zipM RuntimeError (fun x y => Ok (lp_add x y)))
         s0 prior = Ok s /\
    wf2 B K s.
Proof.
  intros [Hl HF] Hstep [Hl0 HF0].
  destruct (@mapM_Forall_total _ _
              (mapM (fun hist : list lprob => getitem hist (step - 1)))
              (wf2 K T) (fun r => length r = K) scores HF)
    as (last & El & Hll & HFl).
  { intros beams [Hk Hr].
    destruct (@mapM_Forall_total _ _
                (fun hist : list lprob => getitem hist (step - 1))
                (fun r => length r = T) (fun _ => True) beams Hr)
      as (r & Er & Hlr & _).
    - intros hist Hh. unfold getitem.
      destruct (nth_error hist (step - 1)) eqn:E; [eauto|].
      apply nth_error_None in E. lia.
    - exists r. split; [exact Er | lia]. }
  destruct (@zipM_Forall2_total _ _ _ RuntimeError (@gather_row lprob)
              (fun (lastrow : list lprob) (brow : list nat) =>
                 length lastrow = K /\ brow = seq 0 K)
              (fun r => length r = K) last (repeat (seq 0 K) B))
    as (prior & Ep & Hlp & HFp).
  { apply Forall2_from_nth; [rewrite repeat_length; lia|].
    intros n x y Hx Hy. rewrite Forall_forall in HFl. split.
    - apply HFl. eapply nth_error_In; eauto.
    - apply nth_error_In in Hy. now apply repeat_spec in Hy. }
  { intros lastrow brow [Hlr ->]. unfold gather_row.
    destruct (@mapM_Forall_total _ _ (getitem lastrow)
                (fun i => i < K) (fun _ => True) (seq 0 K))
      as (r & Er & Hlr' & _).
    - apply Forall_forall. intros i Hi. apply in_seq in Hi. lia.
    - intros i Hi. unfold getitem.
      destruct (nth_error lastrow i) eqn:E; [eauto|].
      apply nth_error_None in E. lia.
    - exists r. split; [exact Er|]. now rewrite Hlr', length_seq. }
  destruct (@zipM_Forall2_total _ _ _ RuntimeError
              (zipM RuntimeError (fun x y : lprob => Ok (lp_add x y)))
              (fun (a c : list lprob) => length a = K /\ length c = K)
              (fun r => length r = K) s0 prior)
    as (s & Es & Hls & HFs).
  { apply Forall2_from_nth; [lia|].
    intros n x y Hx Hy. rewrite Forall_forall in HF0, HFp. split.
    - apply HF0. eapply nth_error_In; eauto.
    - apply HFp. eapply nth_error_In; eauto. }
  { intros a c [Ha Hc].
    destruct (@zipM_Forall2_total _ _ _ RuntimeError
                (fun x y : lprob => Ok (lp_add x y))
                (fun _ _ => True) (fun _ => True) a c)
      as (r & Er & Hlr & _).
    - apply Forall2_from_nth; [lia | auto].
    - intros x y _. eauto.
    - exists r. split; [exact Er | lia]. }
  exists last, prior, s. repeat split; try assumption. lia.
Qed.

Lemma wf2_map_log (A C : Type) (f : A -> C) (R K : nat) (t : tensor2 A) :
  wf2 R K t -> wf2 R K (map (map f) t).
Proof.
  intros [Hl HF]. split; [now rewrite length_map|].
  rewrite Forall_map. eapply Forall_impl; [|exact HF].
  intros r Hr. now rewrite length_map.
Qed.

Lemma wf2_idx (B K w : nat) (out : tensor2 nat) :
  length out = B ->
  Forall (fun ixs => length ixs = K /\ Forall (fun i => i < w) ixs) out ->
  wf2 B K out /\ Forall (Forall (fun i => i < w)) out.
Proof.
  intros Hl HF. split; [split; [exact Hl|]|];
    (eapply Forall_impl; [|exact HF]); intros r [H1 H2]; assumption.
Qed.

(** X25: top-k sampling returns.  In top-k mode with
    1 <= sampling_topk <= vocab_size, at step 0 or with the rescoring
    switched off, on a well-shaped input every row of which has a finite
    entry, with a non-negative exponential that is positive on finite
    values and a generator that draws a position of the weights it is
    given, [Sampling.step] returns scores, token ids and beam ids of shape
    (bsz, beam_size). *)
Theorem Sampling_step_topk_returns
  (exp_ : lprob -> Q) (log_ : Q -> lprob) (rng : Type)
  (draw : rng -> list Q -> nat * rng)
  (rescoring : nat -> tensor3 lprob -> tensor3 nat -> result (tensor3 Q))
  (self : Sampling) (rescore : bool) (B K V step : nat)
  (lprobs scores : tensor3 lprob) (g : rng) :
  wf3 B K V lprobs -> 1 <= B -> 1 <= K ->
  (sampling_topp self <= 0)%Q ->
  (1 <= sampling_topk self <= Z.of_nat V)%Z ->
  rescore = false \/ step = 0 ->
  wf_scores B K step scores ->
  (forall x, 0 <= exp_ x)%Q -> (forall q, 0 < exp_ (Fin q))%Q ->
  draw_in_range draw ->
  Forall (Forall (fun row => has_finite row = true)) lprobs ->
  exists s i bm g',
    Sampling_step exp_ log_ draw rescoring self rescore step lprobs scores g
    = Ok (s, i, bm, g') /\
    wf2 B K s /\ wf2 B K i /\ wf2 B K bm.
Proof.
  intros Hwf HB HK Hp Hk Hmode Hs Hnn Hpos Hd Hfin.
  set (k := sampling_topk self) in *. set (w := Z.to_nat k).
  assert (Ep : Qltb 0 (sampling_topp self) = false) by now apply Qltb_false.
  assert (Ek : (0 <? k)%Z = true) by (apply Z.ltb_lt; lia).
  assert (Hresc : rescore && (0 <? step) = false).
  { destruct Hmode as [-> | ->]; [reflexivity | apply andb_false_r]. }
  destruct lprobs as [|m t]; [destruct Hwf as [Hl _]; simpl in Hl; lia|].
  pose proof (size3_wf Hwf HK) as Hsz.
  pose proof (ranked_0 scores Hwf HK) as R.
  unfold ranked in R. rewrite Hsz in R. cbn [Nat.eqb] in R.
  unfold Sampling_step. rewrite Hsz. fold k. clear Hsz.
  set (lp0 := m :: t) in *.
  rewrite Ep, Ek, Hresc. cbn [orb].
  destruct (step =? 0) eqn:E0.
  - (* step 0: one row per batch element *)
    rewrite R. cbn [bind].
    assert (W0 : wf3 B 1 V (map (firstn 1) lp0)).
    { destruct (@ranked_wf B K V 0 lp0 scores Hwf HK) as (cum & Ec & Wc).
      { intros Hc. inversion Hc. }
      rewrite (ranked_0 scores Hwf HK) in Ec. now injection Ec as <-. }
    assert (F0 : Forall (Forall (fun row => has_finite row = true))
                        (map (firstn 1) lp0)).
    { rewrite Forall_map. eapply Forall_impl; [|exact Hfin].
      intros beams Hb. apply Forall_forall. intros row Hr.
      rewrite Forall_forall in Hb. apply Hb.
      eapply In_firstn; eauto. }
    destruct (topk_tables exp_ W0 Hk Hnn Hpos F0)
      as (Etop & Eprobs & Eti & Wp & Wti & Hvalid).
    rewrite Etop. cbn [bind]. rewrite Eprobs, Eti.
    set (probs := map (map (topk_weights exp_ k)) (map (firstn 1) lp0)) in *.
    set (ti := map (map (topk_ids k)) (map (firstn 1) lp0)) in *.
    destruct (@multinomial_total _ draw w K (view_flat probs) Hd) with (g := g)
      as (idx & g1 & Em & Hlm & HFm).
    { unfold view_flat. rewrite Forall_map.
      eapply Forall_impl; [|exact Hvalid]. intros beams [H1 Hb].
      destruct beams as [|r [|r2 rest]]; try discriminate H1.
      apply Forall_inv in Hb. simpl. now rewrite app_nil_r. }
    rewrite Em. cbn [bind].
    assert (Hlidx : length idx = B).
    { rewrite Hlm. unfold view_flat. rewrite length_map. apply Wp. }
    destruct (wf2_idx Hlidx HFm) as [Widx Ridx].
    destruct (@expand_dim1_total _ B K 1 w probs Wp (or_introl eq_refl) HK)
      as (probs2 & Ee & Wp2).
    rewrite Ee. cbn [bind].
    destruct (gather_dim2_total Wp2 Widx Ridx) as (picked & Eg & Wpk).
    rewrite Eg. cbn [bind].
    destruct (@expand_dim1_total _ B K 1 w ti Wti (or_introl eq_refl) HK)
      as (ti' & Ee' & Wti').
    rewrite Ee'. cbn [bind].
    destruct (gather_dim2_total Wti' Widx Ridx) as (i & Ei & Wi).
    rewrite Ei. cbn [bind].
    do 4 eexists. split; [reflexivity|].
    split; [now apply wf2_map_log|]. split; [exact Wi|].
    split; [apply repeat_length|].
    apply Forall_forall. intros r Hr. apply repeat_spec in Hr. subst r.
    apply repeat_length.
  - (* later steps: one row per beam *)
    cbn [bind].
    destruct (topk_tables exp_ Hwf Hk Hnn Hpos Hfin)
      as (Etop & Eprobs & Eti & Wp & Wti & Hvalid).
    rewrite Etop. cbn [bind]. rewrite Eprobs, Eti.
    set (probs := map (map (topk_weights exp_ k)) lp0) in *.
    set (ti := map (map (topk_ids k)) lp0) in *.
    destruct (@multinomial_each_total _ draw w K probs Hd Hvalid g)
      as (idx & g1 & Em & Hlm & HFm).
    rewrite Em. cbn [bind].
    assert (Hlidx : length idx = B) by (rewrite Hlm; apply Wp).
    destruct (wf2_idx Hlidx HFm) as [Widx Ridx].
    destruct (gather_dim2_total Wp Widx Ridx) as (picked & Eg & Wpk).
    rewrite Eg. cbn [bind].
    destruct (@expand_dim1_total _ B K K w ti Wti (or_intror eq_refl) HK)
      as (ti' & Ee' & Wti').
    rewrite Ee'. cbn [bind].
    destruct (gather_dim2_total Wti' Widx Ridx) as (i & Ei & Wi).
    rewrite Ei. cbn [bind].
    apply Nat.eqb_neq in E0.
    destruct (Hs ltac:(lia)) as (T & HT & HleT).
    destruct (@history_total B K T step scores (map (map log_) picked) HT
                ltac:(lia) (wf2_map_log log_ Wpk))
      as (last & prior & s & El & Epr & Es & Wsc).
    rewrite El. cbn [bind]. rewrite Epr. cbn [bind]. rewrite Es. cbn [bind].
    do 4 eexists. split; [reflexivity|].
    split; [exact Wsc|]. split; [exact Wi|].
    split; [apply repeat_length|].
    apply Forall_forall. intros r Hr. apply repeat_spec in Hr. subst r.
    apply length_seq.
Qed.

Lemma example_exp_pos (q : Q) : (0 < example_exp (Fin q))%Q.
Proof.
  unfold example_exp. destruct (Qle_bool q 0) eqn:E.
  - apply Qle_bool_iff in E. apply Qinv_lt_0_compat. lra.
  - assert (~ (q <= 0)%Q) by (intros Hc; apply Qle_bool_iff in Hc; congruence).
    lra.
Qed.

Lemma example_exp_nonneg (x : lprob) : (0 <= example_exp x)%Q.
Proof.
  destruct x as [|q]; [simpl; lra|].
  apply Qlt_le_weak, example_exp_pos.
Qed.

Lemma example_draw_in_range : draw_in_range example_draw.
Proof.
  intros g row Hv. unfold example_draw. simpl.
  apply Nat.mod_upper_bound. destruct row; [|discriminate].
  vm_compute in Hv. discriminate.
Qed.

Lemma Sampling_step_topk_returns_witness :
  exists s i bm g',
    Sampling_step example_exp example_log example_draw example_rescoring
                  {| sampling_topk := 2; sampling_topp := -1 |}
                  false 1 example_lprobs example_history 0
    = Ok (s, i, bm, g') /\
    wf2 1 3 s /\ wf2 1 3 i /\ wf2 1 3 bm.
Proof.
  apply (@Sampling_step_topk_returns
           example_exp example_log nat example_draw example_rescoring
           {| sampling_topk := 2; sampling_topp := -1 |} false 1 3 4 1
           example_lprobs example_history 0).
  - split; [reflexivity|]. repeat constructor.
  - lia.
  - lia.
  - simpl. discriminate.
  - simpl. lia.
  - left. reflexivity.
  - intros _. exists 1. split; [|lia].
    split; [reflexivity|]. repeat constructor.
  - apply example_exp_nonneg.
  - apply example_exp_pos.
  - apply example_draw_in_range.
  - repeat constructor.
Defined.

(** ** DiverseSiblingsSearch.step with diversity_rate = 0 *)

Lemma lp_leb_eq_l (a a' b : lprob) :
  lp_eq a a' -> lp_leb a b = lp_leb a' b.
Proof.
  destruct a as [|x], a' as [|x'], b as [|y]; simpl; intros H;
    try reflexivity; try contradiction.
  apply eq_true_iff_eq. rewrite !Qle_bool_iff. now rewrite H.
Qed.

Lemma lp_leb_eq_r (a b b' : lprob) :
  lp_eq b b' -> lp_leb a b = lp_leb a b'.
Proof.
  destruct a as [|x], b as [|y], b' as [|y']; simpl; intros H;
    try reflexivity; try contradiction.
  apply eq_true_iff_eq. rewrite !Qle_bool_iff. now rewrite H.
Qed.

Lemma lp_eq_sym (a b : lprob) : lp_eq a b -> lp_eq b a.
Proof.
  destruct a, b; simpl; intros H; try exact I; try contradiction.
  now symmetry.
Qed.

Lemma no_ties_spec (row : list lprob) (p q : nat) :
  no_ties row = true -> p < length row -> q < length row ->
  lp_leb (nth p row NegInf) (nth q row NegInf) = true ->
  lp_leb (nth q row NegInf) (nth p row NegInf) = true -> p = q.
Proof.
  intros H Hp Hq H1 H2. unfold no_ties in H.
  rewrite forallb_forall in H.
  assert (Hin : forall n, n < length row ->
                          In (nth n row NegInf, n) (enumerate row)).
  { intros n Hn. apply enumerate_In. now apply nth_error_nth'. }
  specialize (H _ (Hin p Hp)). rewrite forallb_forall in H.
  specialize (H _ (Hin q Hq)). simpl in H.
  rewrite H1, H2 in H. simpl in H. rewrite orb_false_r in H.
  now apply Nat.eqb_eq.
Qed.

Lemma not_incl_witness (l l' : list nat) :
  ~ incl l' l -> exists x, In x l' /\ ~ In x l.
Proof.
  induction l' as [|a l' IH]; intros H.
  - exfalso. apply H. intros x [].
  - destruct (in_dec Nat.eq_dec a l) as [Ha|Ha].
    + destruct IH as (x & Hx & Hn).
      { intros Hi. apply H. intros x [<-|Hx]; [exact Ha | now apply Hi]. }
      exists x. split; [now right | exact Hn].
    + exists a. split; [now left | exact Ha].
Qed.

Lemma sorted_same_set (val : nat -> lprob) (P P' : list nat) :
  NoDup P -> NoDup P' -> incl P P' -> incl P' P ->
  (forall p q, In p P -> In q P -> lp_leb (val p) (val q) = true ->
               lp_leb (val q) (val p) = true -> p = q) ->
  StronglySorted (fun p q => lp_leb (val q) (val p) = true) P ->
  StronglySorted (fun p q => lp_leb (val q) (val p) = true) P' ->
  P = P'.
Proof.
  revert P'. induction P as [|a l IH]; intros P' HN HN' Hi Hi' Htie HS HS'.
  - destruct P' as [|a' l']; [reflexivity|].
    destruct (Hi' a' (or_introl eq_refl)).
  - destruct P' as [|a' l'].
    { destruct (Hi a (or_introl eq_refl)). }
    inversion HS as [|? ? HSl Hal]; subst.
    inversion HS' as [|? ? HSl' Hal']; subst.
    inversion HN as [|? ? Hna HNl]; subst.
    inversion HN' as [|? ? Hna' HNl']; subst.
    rewrite Forall_forall in Hal, Hal'.
    assert (Haa : a = a').
    { destruct (Nat.eq_dec a a') as [E|E]; [exact E|].
      apply Htie; [now left | apply Hi'; now left | |].
      - destruct (Hi a (or_introl eq_refl)) as [Hc|Hc]; [congruence|].
        now apply Hal'.
      - destruct (Hi' a' (or_introl eq_refl)) as [Hc|Hc]; [congruence|].
        now apply Hal. }
    subst a'. f_equal. apply IH; try assumption.
    + intros x Hx. destruct (Hi x (or_intror Hx)) as [<-|H]; [contradiction|].
      exact H.
    + intros x Hx. destruct (Hi' x (or_intror Hx)) as [<-|H]; [contradiction|].
      exact H.
    + intros p q Hp Hq. apply Htie; now right.
Qed.

(** Without ties the positions of the [k] best entries are determined. *)
Lemma top_positions_unique (row : list lprob) (k : nat) (P P' : list nat) :
  no_ties row = true ->
  top_positions row k P -> top_positions row k P' -> P = P'.
Proof.
  intros Hnt (Hl & HN & HR & HS & HB) (Hl' & HN' & HR' & HS' & HB').
  rewrite Forall_forall in HR, HR'.
  assert (Hsub : forall Q Q' : list nat,
             length Q = k -> length Q' = k -> NoDup Q -> NoDup Q' ->
             (forall p, In p Q -> p < length row) ->
             (forall p, In p Q' -> p < length row) ->
             (forall p q, p < length row -> ~ In p Q -> In q Q ->
                lp_leb (nth p row NegInf) (nth q row NegInf) = true) ->
             (forall p q, p < length row -> ~ In p Q' -> In q Q' ->
                lp_leb (nth p row NegInf) (nth q row NegInf) = true) ->
             incl Q Q').
  { intros Q Q' HlQ HlQ' HNQ HNQ' HRQ HRQ' HBQ HBQ' p Hp.
    destruct (in_dec Nat.eq_dec p Q') as [Hin|Hout]; [exact Hin|].
    exfalso.
    assert (Hni : ~ incl Q' Q).
    { intros Hi. apply Hout.
      assert (Hi2 : incl Q Q')
        by (apply (@NoDup_length_incl _ Q' Q HNQ'); [lia | exact Hi]).
      now apply Hi2. }
    destruct (not_incl_witness Hni) as (p' & Hp' & Hnp').
    assert (p = p').
    { apply (@no_ties_spec row p p' Hnt (HRQ p Hp) (HRQ' p' Hp')).
      - apply HBQ'; auto.
      - apply HBQ; auto. }
    subst p'. contradiction. }
  apply (@sorted_same_set (fun p => nth p row NegInf)); try assumption.
  - apply (Hsub P P'); auto.
  - apply (Hsub P' P); auto.
  - intros p q Hp Hq. apply (@no_ties_spec row p q Hnt); auto.
Qed.

Lemma top_list_nth (k : Z) (row : list lprob) (x : lprob * nat) :
  In x (top_list k row) -> fst x = nth (snd x) row NegInf.
Proof.
  destruct x as [v p]. intros H. apply top_list_In in H. simpl.
  symmetry. now apply nth_error_nth.
Qed.

Lemma sorted_map_snd (row : list lprob) (l : list (lprob * nat)) :
  (forall x, In x l -> fst x = nth (snd x) row NegInf) ->
  StronglySorted (fun x y => lp_leb (fst y) (fst x) = true) l ->
  StronglySorted
    (fun p q => lp_leb (nth q row NegInf) (nth p row NegInf) = true)
    (map snd l).
Proof.
  intros Hval HS. induction HS as [|x l _ IH Hx]; simpl; constructor.
  - apply IH. intros y Hy. apply Hval. now right.
  - rewrite Forall_map. rewrite Forall_forall in Hx |- *.
    intros y Hy. rewrite <- (Hval x (or_introl eq_refl)).
    rewrite <- (Hval y (or_intror Hy)). now apply Hx.
Qed.

(** [torch.topk] returns the positions of the [k] best entries. *)
Lemma top_list_positions (k : Z) (row : list lprob) :
  (0 <= k <= Z.of_nat (length row))%Z ->
  top_positions row (Z.to_nat k) (map snd (top_list k row)).
Proof.
  intros Hk. split; [|split; [|split; [|split]]].
  - rewrite length_map. now apply top_list_length.
  - apply top_list_NoDup.
  - apply top_list_snd_range.
  - apply sorted_map_snd; [apply top_list_nth | apply top_list_sorted].
  - intros p q Hp Hout Hq. apply in_map_iff in Hq.
    destruct Hq as (x & <- & Hx).
    rewrite <- (@top_list_nth k row x Hx).
    apply (@top_list_best k row p (nth p row NegInf) x); try assumption.
    now apply nth_error_nth'.
Qed.

Lemma sorted_map_in (A C : Type) (R : A -> A -> Prop) (R' : C -> C -> Prop)
  (f : A -> C) (l : list A) :
  (forall x y, In x l -> In y l -> R x y -> R' (f x) (f y)) ->
  StronglySorted R l -> StronglySorted R' (map f l).
Proof.
  intros Hf HS. induction HS as [|x l _ IH Hx]; simpl; constructor.
  - apply IH. intros a b Ha Hb. apply Hf; now right.
  - rewrite Forall_map. rewrite Forall_forall in Hx |- *.
    intros y Hy. apply Hf; [now left | now right | now apply Hx].
Qed.

(** The [k] best of a pool of candidates are the [k] best of the full
    list, when the pool holds, through [tau], entries of the full list with
    their scores, and every entry left out of the pool is matched by [k]
    entries of the pool that score at least as high. *)
Lemma top_positions_transfer (pool full : list lprob) (tau : nat -> nat)
  (k : Z) :
  (0 <= k <= Z.of_nat (length pool))%Z ->
  (forall q, q < length pool ->
             tau q < length full /\
             lp_eq (nth q pool NegInf) (nth (tau q) full NegInf)) ->
  (forall q q', q < length pool -> q' < length pool ->
                tau q = tau q' -> q = q') ->
  (forall p, p < length full ->
             ~ In p (map tau (seq 0 (length pool))) ->
             exists Qs,
               NoDup Qs /\ length Qs = Z.to_nat k /\
               Forall (fun q => q < length pool /\
                                lp_leb (nth p full NegInf)
                                       (nth q pool NegInf) = true) Qs) ->
  top_positions full (Z.to_nat k) (map tau (map snd (top_list k pool))).
Proof.
  intros Hk Hval Hinj Hcov.
  destruct (@top_list_positions k pool Hk) as (HlW & HNW & HRW & HSW & HBW).
  set (W := map snd (top_list k pool)) in *.
  rewrite Forall_forall in HRW.
  split; [|split; [|split; [|split]]].
  - now rewrite length_map.
  - apply NoDup_map_injective; [|exact HNW].
    intros x y Hx Hy. apply Hinj; now apply HRW.
  - rewrite Forall_map. apply Forall_forall. intros q Hq.
    apply (Hval q (HRW q Hq)).
  - eapply sorted_map_in; [|exact HSW].
    intros x y Hx Hy Hxy. cbv beta in *.
    destruct (Hval x (HRW x Hx)) as [_ Ex].
    destruct (Hval y (HRW y Hy)) as [_ Ey].
    rewrite <- (@lp_leb_eq_l _ _ _ Ey), <- (@lp_leb_eq_r _ _ _ Ex). exact Hxy.
  - intros p q' Hp Hout Hq'. apply in_map_iff in Hq'.
    destruct Hq' as (q & <- & Hq).
    destruct (Hval q (HRW q Hq)) as [_ Eq].
    rewrite <- (@lp_leb_eq_r _ _ _ Eq).
    destruct (in_dec Nat.eq_dec p (map tau (seq 0 (length pool))))
      as [Hin|Hnin].
    + apply in_map_iff in Hin. destruct Hin as (q0 & <- & Hq0).
      apply in_seq in Hq0.
      destruct (Hval q0 ltac:(lia)) as [_ E0].
      rewrite <- (@lp_leb_eq_l _ _ _ E0). apply HBW; [lia| |exact Hq].
      intros Hc. apply Hout. now apply in_map.
    + destruct (Hcov p Hp Hnin) as (Qs & HNQ & HlQ & HFQ).
      rewrite Forall_forall in HFQ.
      destruct (lp_leb (nth p full NegInf) (nth q pool NegInf)) eqn:E;
        [reflexivity|]. exfalso.
      assert (Hi : incl Qs W).
      { intros q2 Hq2. destruct (in_dec Nat.eq_dec q2 W) as [H|H]; [exact H|].
        exfalso. destruct (HFQ q2 Hq2) as [Hr2 Hle2].
        pose proof (HBW q2 q Hr2 H Hq) as Hle.
        rewrite (@lp_leb_trans _ _ _ Hle2 Hle) in E. discriminate. }
      assert (Hi' : incl W Qs)
        by (apply (@NoDup_length_incl _ Qs W HNQ); [lia | exact Hi]).
      destruct (HFQ q (Hi' q Hq)) as [_ Hle]. congruence.
Qed.

Lemma lp_sub_zero (x : lprob) (q : Q) : (q == 0)%Q -> lp_eq (lp_sub x q) x.
Proof.
  intros Hq. destruct x as [|y]; simpl; [exact I|]. rewrite Hq. ring.
Qed.

Lemma sibling_penalty_zero (rate : Q) (i : nat) :
  (rate == 0)%Q -> (sibling_penalty rate i == 0)%Q.
Proof. intros H. unfold sibling_penalty. rewrite H. ring. Qed.

Lemma combine_nth_error (A C : Type) (l1 : list A) (l2 : list C) j a c :
  nth_error l1 j = Some a -> nth_error l2 j = Some c ->
  nth_error (combine l1 l2) j = Some (a, c).
Proof.
  revert l2 j. induction l1 as [|x l1 IH]; intros [|y l2] [|j];
    simpl; intros H1 H2; try discriminate.
  - now injection H1 as <-; injection H2 as <-.
  - now apply IH.
Qed.

Lemma slot_candidates_nth (rate : Q) (k : Z) (row : list lprob) (j : nat) e :
  (0 <= k <= Z.of_nat (length row))%Z ->
  nth_error (top_list k row) j = Some e ->
  nth_error (slot_candidates rate k row) j
  = Some (lp_sub (fst e) (sibling_penalty rate j), snd e).
Proof.
  intros Hk He. unfold slot_candidates.
  assert (Hj : j < Z.to_nat k).
  { rewrite <- (@top_list_length k row Hk). apply nth_error_Some.
    congruence. }
  rewrite nth_error_map.
  assert (Hc : nth_error (combine (seq 0 (Z.to_nat k)) (top_list k row)) j
               = Some (j, e)).
  { assert (Hs : nth_error (seq 0 (Z.to_nat k)) j = Some j).
    { rewrite nth_error_seq.
      destruct (Nat.ltb_spec j (Z.to_nat k)); [reflexivity | lia]. }
    now apply combine_nth_error. }
  rewrite Hc. reflexivity.
Qed.

(** The pooled entry [q]: its score and the candidate it stands for. *)
Lemma pooled_entry (K V : nat) (rate : Q) (k : Z) (beams : tensor2 lprob)
  (q : nat) :
  wf2 K V beams -> (0 <= k <= Z.of_nat V)%Z -> q < K * Z.to_nat k ->
  exists row e,
    nth_error beams (q / Z.to_nat k) = Some row /\
    length row = V /\
    nth_error (top_list k row) (q mod Z.to_nat k) = Some e /\
    snd e < V /\
    pooled_position V k beams q = (q / Z.to_nat k) * V + snd e /\
    nth_error (pooled_scores rate k beams) q
    = Some (lp_sub (fst e) (sibling_penalty rate (q mod Z.to_nat k))) /\
    nth_error (concat beams) (pooled_position V k beams q) = Some (fst e) /\
    nth2 (map (slot_candidates rate k) beams)
         (q / Z.to_nat k) (q mod Z.to_nat k)
    = Some (lp_sub (fst e) (sibling_penalty rate (q mod Z.to_nat k)), snd e).
Proof.
  intros Hw Hk Hq. set (kn := Z.to_nat k) in *.
  assert (Hkn : 1 <= kn) by (destruct kn; lia).
  assert (Hi : q / kn < K) by (apply Nat.Div0.div_lt_upper_bound; lia).
  assert (Hj : q mod kn < kn) by (apply Nat.mod_upper_bound; lia).
  destruct (nth_error beams (q / kn)) as [row|] eqn:Er;
    [|apply nth_error_None in Er; destruct Hw; lia].
  assert (Hrow : length row = V).
  { destruct Hw as [_ HF]. rewrite Forall_forall in HF.
    apply HF. eapply nth_error_In; eauto. }
  assert (Hk' : (0 <= k <= Z.of_nat (length row))%Z) by (rewrite Hrow; lia).
  destruct (nth_error (top_list k row) (q mod kn)) as [e|] eqn:Ee.
  2:{ apply nth_error_None in Ee. rewrite (@top_list_length k row Hk') in Ee.
      fold kn in Ee. lia. }
  assert (Hse : snd e < V).
  { pose proof (top_list_snd_range k row) as Hr.
    rewrite Forall_forall in Hr. rewrite <- Hrow. apply Hr.
    apply in_map. eapply nth_error_In; eauto. }
  assert (Hpos : pooled_position V k beams q = q / kn * V + snd e).
  { unfold pooled_position. fold kn.
    rewrite (nth_error_nth _ _ [] Er), (nth_error_nth _ _ (NegInf, 0) Ee).
    reflexivity. }
  pose proof (@slot_candidates_nth rate k row (q mod kn) e Hk' Ee) as Hslot.
  exists row, e. split; [reflexivity|]. split; [exact Hrow|].
  split; [exact Ee|]. split; [exact Hse|]. split; [exact Hpos|].
  split; [|split].
  - unfold pooled_scores.
    rewrite (Nat.div_mod_eq q kn) at 1.
    rewrite (Nat.mul_comm kn (q / kn)).
    apply (@nth_error_concat_at _ K kn _ (q / kn) (q mod kn)
             (map fst (slot_candidates rate k row))).
    + apply (pool_scores_wf rate Hw Hk).
    + rewrite nth_error_map, Er. reflexivity.
    + rewrite nth_error_map, Hslot. reflexivity.
  - rewrite Hpos.
    apply (@nth_error_concat_at _ K V _ (q / kn) (snd e) row); try assumption.
    destruct e as [v t]. apply (@top_list_In k row v t).
    eapply nth_error_In; eauto.
  - unfold nth2. rewrite nth_error_map, Er. simpl. exact Hslot.
Qed.

Lemma div_mod_pos (n d i j : nat) :
  j < d -> n = i * d + j -> n / d = i /\ n mod d = j.
Proof.
  intros Hj ->. split.
  - rewrite Nat.div_add_l by lia. rewrite Nat.div_small by lia. lia.
  - rewrite Nat.add_comm, Nat.Div0.mod_add. now apply Nat.mod_small.
Qed.

(** With diversity_rate = 0 the winners of the pooled ranking stand for the
    [k] best candidates of the batch element, best first. *)
Lemma pooled_winners_positions (K V : nat) (rate : Q) (k : Z)
  (beams : tensor2 lprob) :
  wf2 K V beams -> 1 <= K -> (0 <= k <= Z.of_nat V)%Z -> (rate == 0)%Q ->
  top_positions (concat beams) (Z.to_nat k)
    (map (pooled_position V k beams)
         (map snd (pooled_winners rate k beams))).
Proof.
  intros Hw HK Hk Hrate. set (kn := Z.to_nat k).
  assert (Hlp : length (pooled_scores rate k beams) = K * kn).
  { unfold pooled_scores.
    apply (concat_length_wf2 (pool_scores_wf rate Hw Hk)). }
  assert (Hlf : length (concat beams) = K * V)
    by (apply (concat_length_wf2 Hw)).
  unfold pooled_winners. fold (pooled_scores rate k beams).
  apply top_positions_transfer.
  - rewrite Hlp. unfold kn. nia.
  - intros q Hq. rewrite Hlp in Hq.
    destruct (@pooled_entry K V rate k beams q Hw Hk Hq)
      as (row & e & Er & Hrow & Ee & Hse & Hpos & Hps & Hfull & _).
    fold kn in Er, Ee, Hpos, Hps.
    assert (Hi : q / kn < K)
      by (apply Nat.Div0.div_lt_upper_bound; lia).
    split; [rewrite Hlf, Hpos; nia|].
    rewrite (nth_error_nth _ _ NegInf Hps), (nth_error_nth _ _ NegInf Hfull).
    apply lp_sub_zero, sibling_penalty_zero, Hrate.
  - intros q q' Hq Hq' Ht. rewrite Hlp in Hq, Hq'.
    destruct (@pooled_entry K V rate k beams q Hw Hk Hq)
      as (row & e & Er & Hrow & Ee & Hse & Hpos & _).
    destruct (@pooled_entry K V rate k beams q' Hw Hk Hq')
      as (row' & e' & Er' & Hrow' & Ee' & Hse' & Hpos' & _).
    fold kn in Er, Ee, Hpos, Er', Ee', Hpos'.
    rewrite Hpos, Hpos' in Ht.
    destruct (@div_mod_pos _ V (q / kn) (snd e) Hse eq_refl) as [D1 M1].
    destruct (@div_mod_pos _ V (q' / kn) (snd e') Hse' eq_refl) as [D2 M2].
    rewrite Ht in D1, M1.
    assert (Ei : q / kn = q' / kn) by congruence.
    assert (Et : snd e = snd e') by congruence.
    rewrite Ei in Er. rewrite Er in Er'. injection Er' as <-.
    assert (Ej : q mod kn = q' mod kn).
    { pose proof (top_list_NoDup k row) as HN.
      rewrite NoDup_nth_error in HN. apply HN.
      - apply nth_error_Some. rewrite nth_error_map, Ee. discriminate.
      - rewrite !nth_error_map, Ee, Ee'. simpl. now rewrite Et. }
    rewrite (Nat.div_mod_eq q kn), (Nat.div_mod_eq q' kn). congruence.
  - intros p Hp Hnin. rewrite Hlf in Hp. rewrite Hlp in Hnin.
    assert (HV : 1 <= V) by (destruct V; lia).
    assert (Hi : p / V < K)
      by (apply Nat.Div0.div_lt_upper_bound; lia).
    assert (Htv : p mod V < V) by (apply Nat.mod_upper_bound; lia).
    destruct (nth_error beams (p / V)) as [row|] eqn:Er;
      [|apply nth_error_None in Er; destruct Hw; lia].
    assert (Hrow : length row = V).
    { destruct Hw as [_ HF]. rewrite Forall_forall in HF.
      apply HF. eapply nth_error_In; eauto. }
    assert (Hslot : forall j, j < kn ->
               p / V * kn + j < K * kn /\
               exists e,
                 nth_error (top_list k row) j = Some e /\
                 pooled_position V k beams (p / V * kn + j)
                 = p / V * V + snd e /\
                 nth_error (pooled_scores rate k beams) (p / V * kn + j)
                 = Some (lp_sub (fst e) (sibling_penalty rate j))).
    { intros j Hj.
      assert (Hq : p / V * kn + j < K * kn) by nia.
      split; [exact Hq|].
      destruct (@div_mod_pos _ kn (p / V) j Hj eq_refl) as [D M].
      destruct (@pooled_entry K V rate k beams _ Hw Hk Hq)
        as (row' & e & Er' & _ & Ee & _ & Hpos & Hps & _).
      fold kn in Er', Ee, Hpos, Hps. rewrite D in Er', Hpos.
      rewrite M in Ee, Hps. rewrite Er in Er'. injection Er' as <-.
      exists e. repeat split; assumption. }
    assert (Hout : ~ In (p mod V) (map snd (top_list k row))).
    { intros Hin. apply In_nth_error in Hin. destruct Hin as [j Hj].
      assert (Hjk : j < kn).
      { unfold kn. rewrite <- (@top_list_length k row) by (rewrite Hrow; lia).
        rewrite <- (length_map snd). apply nth_error_Some. congruence. }
      destruct (Hslot j Hjk) as (Hq & e & Ee & Hpos & _).
      rewrite nth_error_map, Ee in Hj. simpl in Hj. injection Hj as Hse.
      apply Hnin. apply in_map_iff. exists (p / V * kn + j). split.
      - rewrite Hpos, Hse. rewrite (Nat.div_mod_eq p V) at 3. lia.
      - apply in_seq. lia. }
    exists (map (fun j => p / V * kn + j) (seq 0 kn)).
    split; [|split].
    + apply NoDup_map_injective; [|apply seq_NoDup].
      intros x y _ _ H. lia.
    + now rewrite length_map, length_seq.
    + rewrite Forall_map. apply Forall_forall. intros j Hj.
      apply in_seq in Hj.
      destruct (Hslot j ltac:(lia)) as (Hq & e & Ee & _ & Hps).
      rewrite Hlp. split; [exact Hq|].
      rewrite (nth_error_nth _ _ NegInf Hps).
      rewrite (@lp_leb_eq_r _ _ (fst e)
                 (lp_sub_zero _ (sibling_penalty_zero j Hrate))).
      apply (@top_list_best k row (p mod V)).
      * assert (Hp' : nth_error (concat beams) p
                      = nth_error row (p mod V)).
        { destruct (nth_error row (p mod V)) as [x|] eqn:Ex;
            [|apply nth_error_None in Ex; lia].
          rewrite (Nat.div_mod_eq p V) at 1.
          rewrite (Nat.mul_comm V (p / V)).
          apply (nth_error_concat_at _ _ Hw Er Ex). }
        destruct (nth_error (concat beams) p) as [x|] eqn:Ex;
          [|apply nth_error_None in Ex; lia].
        rewrite (nth_error_nth _ _ NegInf Ex). now rewrite <- Hp'.
      * exact Hout.
      * eapply nth_error_In; eauto.
Qed.

(** One batch element: with diversity_rate = 0 and no ties, the pooled
    ranking returns the tokens and the beams of the flat ranking, and its
    scores. *)
Lemma siblings_rate_0_batch (K V : nat) (rate : Q) (k : Z)
  (beams : tensor2 lprob) (toks : list nat) :
  wf2 K V beams -> 1 <= K -> 1 <= V -> (0 <= k <= Z.of_nat V)%Z ->
  (rate == 0)%Q -> no_ties (concat beams) = true ->
  gather_row
    (concat (map (fun row => map snd (slot_candidates rate k row)) beams))
    (map snd (pooled_winners rate k beams)) = Ok toks ->
  toks = map (fun x => snd x mod V) (top_list k (concat beams)) /\
  map (fun w => snd w / Z.to_nat k) (pooled_winners rate k beams)
  = map (fun x => snd x / V) (top_list k (concat beams)) /\
  Forall2 lp_eq (map fst (pooled_winners rate k beams))
          (map fst (top_list k (concat beams))).
Proof.
  intros Hw HK HV Hk Hrate Hnt Etoks. set (kn := Z.to_nat k).
  assert (Hlf : length (concat beams) = K * V)
    by (apply (concat_length_wf2 Hw)).
  assert (Hkf : (0 <= k <= Z.of_nat (length (concat beams)))%Z)
    by (rewrite Hlf; nia).
  pose proof (@top_list_positions k (concat beams) Hkf) as HP.
  pose proof (pooled_winners_positions Hw HK Hk Hrate) as HD.
  pose proof (top_positions_unique Hnt HD HP) as EDP.
  set (winners := pooled_winners rate k beams) in *.
  set (flat := top_list k (concat beams)) in *.
  pose proof (pooled_winners_range rate Hw Hk) as Hrange.
  fold winners in Hrange. rewrite Forall_forall in Hrange.
  assert (Hent : forall w, In w winners ->
             exists e,
               pooled_position V k beams (snd w) = snd w / kn * V + snd e /\
               snd e < V /\
               nth2 (map (slot_candidates rate k) beams)
                    (snd w / kn) (snd w mod kn)
               = Some (lp_sub (fst e) (sibling_penalty rate (snd w mod kn)),
                       snd e) /\
               lp_eq (fst w)
                     (nth (pooled_position V k beams (snd w))
                          (concat beams) NegInf)).
  { intros w Hin.
    destruct (@pooled_entry K V rate k beams (snd w) Hw Hk (Hrange w Hin))
      as (row & e & _ & _ & _ & Hse & Hpos & Hps & Hfull & Htab).
    exists e. split; [exact Hpos|]. split; [exact Hse|].
    split; [exact Htab|].
    rewrite (nth_error_nth _ _ NegInf Hfull).
    assert (Hw' : fst w = nth (snd w) (pooled_scores rate k beams) NegInf)
      by (apply (@top_list_nth k (pooled_scores rate k beams) w Hin)).
    rewrite Hw', (nth_error_nth _ _ NegInf Hps).
    apply lp_sub_zero, sibling_penalty_zero, Hrate. }
  assert (Hflat : map snd flat
                  = map (fun w => pooled_position V k beams (snd w)) winners).
  { rewrite <- EDP. now rewrite map_map. }
  split; [|split].
  - destruct (@gather_winner_tokens K V rate k beams Hw Hk)
      as (toks' & Et' & Hlen & Hspec).
    fold winners in Et', Hlen, Hspec. rewrite Etoks in Et'.
    injection Et' as <-.
    rewrite <- (map_map snd (fun p => p mod V)), Hflat, map_map.
    apply nth_error_ext. intros j. rewrite nth_error_map.
    destruct (nth_error winners j) as [w|] eqn:Ew.
    + destruct (Hspec j w Ew) as (c & Hc & _ & Htok).
      destruct (Hent w (nth_error_In _ _ Ew)) as (e & Hpos & Hse & Htab & _).
      fold kn in Hc. rewrite Htab in Hc. injection Hc as <-.
      rewrite Htok. simpl. f_equal. rewrite Hpos.
      symmetry. apply (@div_mod_pos _ V (snd w / kn) (snd e) Hse eq_refl).
    + simpl. apply nth_error_None. apply nth_error_None in Ew. lia.
  - rewrite <- (map_map snd (fun p => p / V) flat), Hflat, map_map.
    apply map_ext_in. intros w Hin.
    destruct (Hent w Hin) as (e & Hpos & Hse & _).
    rewrite Hpos. symmetry.
    apply (@div_mod_pos _ V (snd w / kn) (snd e) Hse eq_refl).
  - apply Forall2_from_nth.
    + rewrite !length_map.
      rewrite <- (length_map snd flat), Hflat. now rewrite length_map.
    + intros n a c Ha Hc. rewrite nth_error_map in Ha, Hc.
      destruct (nth_error winners n) as [w|] eqn:Ew; [|discriminate].
      destruct (nth_error flat n) as [x|] eqn:Ex; [|discriminate].
      simpl in Ha, Hc. injection Ha as <-. injection Hc as <-.
      destruct (Hent w (nth_error_In _ _ Ew)) as (e & _ & _ & _ & Heq).
      assert (Hsx : snd x = pooled_position V k beams (snd w)).
      { pose proof (map_nth_error snd _ _ Ex) as H1. rewrite Hflat in H1.
        rewrite (map_nth_error (fun w => pooled_position V k beams (snd w))
                               _ _ Ew) in H1.
        now injection H1 as ->. }
      rewrite (@top_list_nth k (concat beams) x (nth_error_In _ _ Ex)), Hsx.
      exact Heq.
Qed.

Lemma ranked_later (B K V step : nat) (lprobs scores : tensor3 lprob) :
  0 < step -> ranked step lprobs scores = add_last_score step lprobs scores.
Proof.
  intros Hstep. unfold ranked. destruct (size3 lprobs) as [[bsz bs] vs].
  destruct (step =? 0) eqn:E0; [apply Nat.eqb_eq in E0; lia | reflexivity].
Qed.

(** X26: the docstring's "if diversity_rate == 0 is equivalent to
    BeamSearch", where it holds.  After step 0, when k =
    min(2 * beam_size, beam_size * vocab_size - 1) does not exceed
    vocab_size, diversity_rate is 0 and no two cumulative scores of a batch
    element are equal, [DiverseSiblingsSearch.step] returns the token ids
    and the beam ids that [BeamSearch.step] returns on the same input, and
    the same scores. *)
Theorem DiverseSiblingsSearch_rate_0 (self : DiverseSiblingsSearch)
  (B K V step : nat) (lprobs scores cum : tensor3 lprob) :
  wf3 B K V lprobs -> 1 <= B -> 1 <= K -> 1 <= V -> 0 < step ->
  wf_scores B K step scores ->
  (siblings_k K V <= Z.of_nat V)%Z ->
  (diversity_rate self == 0)%Q ->
  add_last_score step lprobs scores = Ok cum ->
  Forall (fun beams => no_ties (concat beams) = true) cum ->
  exists s s' i bm,
    DiverseSiblingsSearch_step self step lprobs scores = Ok (s, i, bm) /\
    BeamSearch_step step lprobs scores = Ok (s', i, bm) /\
    Forall2 (Forall2 lp_eq) s s'.
Proof.
  intros Hwf HB HK HV Hstep Hs Hle Hrate Ecum Hnt.
  destruct (DiverseSiblingsSearch_step_closed self Hwf HB HK HV Hstep Hs Hle)
    as (cum' & toks & Ecum' & Wcum & Etoks & EDSS).
  rewrite Ecum in Ecum'. injection Ecum' as <-.
  destruct (BeamSearch_step_closed Hwf HK HV Hs) as (cum' & Ec & _ & EBS).
  rewrite (@ranked_later B K V step lprobs scores Hstep), Ecum in Ec.
  injection Ec as <-. cbv zeta in EBS.
  set (k := siblings_k K V) in *. set (rate := diversity_rate self) in *.
  assert (Ek : beam_k step K V = k).
  { unfold beam_k, flat_size, k, siblings_k.
    destruct (step =? 0) eqn:E0; [apply Nat.eqb_eq in E0; lia | reflexivity]. }
  rewrite Ek in EBS.
  assert (Hk : (0 <= k <= Z.of_nat V)%Z).
  { split; [|exact Hle]. unfold k, siblings_k. nia. }
  assert (Wc : forall beams, In beams cum -> wf2 K V beams).
  { destruct Wcum as [_ Wc]. now rewrite Forall_forall in Wc. }
  rewrite Forall_forall in Hnt.
  assert (Hbatch : forall beams t,
             In beams cum ->
             gather_row
               (concat (map (fun row => map snd (slot_candidates rate k row))
                            beams))
               (map snd (pooled_winners rate k beams)) = Ok t ->
             t = map (fun x => snd x mod V) (top_list k (concat beams)) /\
             map (fun w => snd w / Z.to_nat k) (pooled_winners rate k beams)
             = map (fun x => snd x / V) (top_list k (concat beams)) /\
             Forall2 lp_eq (map fst (pooled_winners rate k beams))
                     (map fst (top_list k (concat beams)))).
  { intros beams t Hb Ht.
    apply (siblings_rate_0_batch (Wc beams Hb) HK HV Hk Hrate
                                 (Hnt beams Hb) Ht). }
  assert (Htoks : toks
                  = map (fun beams =>
                           map (fun x => snd x mod V)
                               (top_list k (concat beams))) cum).
  { apply (@mapM_closed _ _ _ _ _ _ Etoks). intros beams t Hb Ht.
    apply (Hbatch beams t Hb Ht). }
  assert (Htotal : forall beams, In beams cum ->
             exists t,
               gather_row
                 (concat (map (fun row =>
                                 map snd (slot_candidates rate k row)) beams))
                 (map snd (pooled_winners rate k beams)) = Ok t).
  { intros beams Hb.
    destruct (@gather_winner_tokens K V rate k beams (Wc beams Hb) Hk)
      as (t & Et & _). eauto. }
  do 4 eexists. split; [exact EDSS|]. split.
  - rewrite EBS. unfold view_flat. rewrite !map_map. rewrite Htoks.
    do 2 f_equal. apply map_ext_in. intros beams Hb.
    destruct (Htotal beams Hb) as (t & Et).
    symmetry. apply (Hbatch beams t Hb Et).
  - unfold view_flat. rewrite ?map_map.
    apply Forall2_from_nth; [now rewrite !length_map|].
    intros n a c Ha Hc. rewrite nth_error_map in Ha, Hc.
    destruct (nth_error cum n) as [beams|] eqn:Eb; [|discriminate].
    simpl in Ha, Hc. injection Ha as <-. injection Hc as <-.
    pose proof (nth_error_In _ _ Eb) as Hb.
    destruct (Htotal beams Hb) as (t & Et).
    apply (Hbatch beams t Hb Et).
Qed.

Lemma DiverseSiblingsSearch_rate_0_witness :
  exists s s' i bm,
    DiverseSiblingsSearch_step {| diversity_rate := 0 |} 1
      [[[lp (-5); lp 0; lp (-3); lp 1]; [lp (-1); lp (-3); lp (-6); lp (-8)]]]
      [[[lp (-1)]; [lp (-2)]]]
    = Ok (s, i, bm) /\
    BeamSearch_step 1
      [[[lp (-5); lp 0; lp (-3); lp 1]; [lp (-1); lp (-3); lp (-6); lp (-8)]]]
      [[[lp (-1)]; [lp (-2)]]]
    = Ok (s', i, bm) /\
    Forall2 (Forall2 lp_eq) s s'.
Proof.
  apply (@DiverseSiblingsSearch_rate_0 {| diversity_rate := 0 |} 1 2 4 1
           [[[lp (-5); lp 0; lp (-3); lp 1];
             [lp (-1); lp (-3); lp (-6); lp (-8)]]]
           [[[lp (-1)]; [lp (-2)]]]
           [[[lp (-6); lp (-1); lp (-4); lp 0];
             [lp (-3); lp (-5); lp (-8); lp (-10)]]]).
  - split; [reflexivity|]. repeat constructor.
  - lia.
  - lia.
  - lia.
  - lia.
  - intros _. exists 1. split; [|lia].
    split; [reflexivity|]. repeat constructor.
  - vm_compute. intros Hc. discriminate Hc.
  - reflexivity.
  - vm_compute. reflexivity.
  - repeat constructor.
Defined.

(** ** LengthConstrainedBeamSearch.step: the maximum length *)

Lemma masked_row_at_max (self : LengthConstrainedBeamSearch) (step : nat)
  (src : Z) (row : list lprob) :
  Z.of_nat step = (max_len_a self * src + max_len_b self)%Z ->
  eos (lc_base self) < length row ->
  nth_error (masked_row self step src row) (eos (lc_base self))
  = Some (Fin 0) /\
  forall v, v <> eos (lc_base self) ->
            nth_error (masked_row self step src row) v = nth_error row v.
Proof.
  intros Hmax He. unfold masked_row.
  destruct (Z.eqb_spec (Z.of_nat step)
                       (max_len_a self * src + max_len_b self)); [|lia].
  destruct (Z.ltb_spec (max_len_a self * src + max_len_b self)
                       (Z.of_nat step)); [lia|].
  destruct (Z.of_nat step <? min_len_a self * src + min_len_b self)%Z;
    (split; [|intros v Hv]);
    repeat first [ reflexivity
                 | rewrite upd_same by (rewrite ?upd_length; lia)
                 | rewrite upd_other by assumption ].
Qed.

Lemma top_list_head (k : Z) (row : list lprob) (x y : lprob * nat) :
  nth_error (top_list k row) 0 = Some x -> In y (enumerate row) ->
  lp_leb (fst y) (fst x) = true.
Proof.
  unfold top_list. intros Hx Hy.
  pose proof (sort_desc_sorted lp_geb_fst lp_geb_fst_total lp_geb_fst_trans
                               (enumerate row)) as HS.
  pose proof (sort_desc_perm lp_geb_fst (enumerate row)) as HP.
  apply (Permutation_in _ (Permutation_sym HP)) in Hy.
  destruct (sort_desc lp_geb_fst (enumerate row)) as [|z rest].
  - destruct (Z.to_nat k); discriminate.
  - destruct (Z.to_nat k) as [|kn]; [discriminate|].
    simpl in Hx. injection Hx as ->.
    inversion HS as [|? ? _ Hall]; subst.
    destruct Hy as [<-|Hy].
    + destruct (lp_leb_total (fst x) (fst x)); assumption.
    + rewrite Forall_forall in Hall. apply (Hall y Hy).
Qed.

Lemma lp_leb_antisym (a b : lprob) :
  lp_leb a b = true -> lp_leb b a = true -> lp_eq a b.
Proof.
  destruct a as [|x], b as [|y]; simpl; intros H1 H2;
    try exact I; try discriminate.
  apply Qle_bool_iff in H1. apply Qle_bool_iff in H2. lra.
Qed.

Lemma lp_add_nonpos (a h : lprob) :
  lp_leb a (Fin 0) = true -> is_finite h = true ->
  lp_leb (lp_add a h) h = true.
Proof.
  destruct a as [|x], h as [|y]; simpl; intros Ha Hh;
    try reflexivity; try discriminate.
  apply Qle_bool_iff in Ha. apply Qle_bool_iff. lra.
Qed.

Lemma lp_add_zero (h : lprob) :
  is_finite h = true -> lp_leb h (lp_add (Fin 0) h) = true.
Proof.
  destruct h as [|y]; simpl; intros Hh; [discriminate|].
  apply Qle_bool_iff. lra.
Qed.

(** X27: at the maximum length of an example finishing costs nothing.  When
    the step (> 0) equals the example's maximum length, no other
    log-probability of the example is positive and its history scores are
    finite, the best score [LengthConstrainedBeamSearch.step] returns for
    the example is the greatest of its last history scores: the score of a
    hypothesis that ends here. *)
Theorem LengthConstrainedBeamSearch_step_max_len_score
  (self : LengthConstrainedBeamSearch) (B K V step : nat) (lens : list Z)
  (lprobs scores : tensor3 lprob) s i bm n src sc :
  src_lengths (lc_base self) = Vector1 lens -> length lens = B ->
  wf3 B K V lprobs -> 1 <= K -> eos (lc_base self) < V ->
  0 < step -> wf_scores B K step scores ->
  nth_error lens n = Some src ->
  Z.of_nat step = (max_len_a self * src + max_len_b self)%Z ->
  (forall beam v x, v <> eos (lc_base self) ->
                    nth3 lprobs n beam v = Some x ->
                    lp_leb x (Fin 0) = true) ->
  (forall beam h, nth3 scores n beam (step - 1) = Some h ->
                  is_finite h = true) ->
  LengthConstrainedBeamSearch_step self step lprobs scores = Ok (s, i, bm) ->
  nth2 s n 0 = Some sc ->
  (exists beam h, nth3 scores n beam (step - 1) = Some h /\ lp_eq sc h) /\
  (forall beam h, nth3 scores n beam (step - 1) = Some h ->
                  lp_leb h sc = true).
Proof.
  intros Hsrc Hl Hwf HK He Hstep Hs Hn Hmax Hneg Hhist E Hsc.
  assert (HV : 1 <= V) by lia.
  assert (E0 : (step =? 0) = false) by (apply Nat.eqb_neq; lia).
  destruct (@length_mask_rows self B K V step lens lprobs Hsrc Hl Hwf He)
    as (masked & Em & Wm & N).
  unfold LengthConstrainedBeamSearch_step in E. rewrite Em in E.
  cbn [bind] in E.
  destruct (BeamSearch_step_rows Wm HK HV Hs E)
    as (cum & Ec & Wc & -> & _ & _).
  rewrite E0 in Wc.
  destruct (@nth2_map_rows _ _ _ _ _ _ _ _ _ Hsc) as (cb & x & Eb & Ex & ->).
  assert (Hcb : wf2 K V cb).
  { destruct Wc as [_ Wc]. rewrite Forall_forall in Wc.
    exact (Wc cb (nth_error_In _ _ Eb)). }
  assert (Hmasked : forall beam v y,
             nth3 masked n beam v = Some y ->
             lp_leb y (Fin 0) = true /\
             (v = eos (lc_base self) -> y = Fin 0)).
  { intros beam v y Hy. unfold nth3 in Hy.
    destruct (nth_error lprobs n) as [beams|] eqn:Ebs.
    - rewrite (N _ _ _ Hn Ebs) in Hy. unfold nth2 in Hy.
      rewrite nth_error_map in Hy.
      destruct (nth_error beams beam) as [row|] eqn:Er; [|discriminate].
      simpl in Hy.
      assert (Hrow : eos (lc_base self) < length row).
      { destruct Hwf as [_ HF]. rewrite Forall_forall in HF.
        destruct (HF beams (nth_error_In _ _ Ebs)) as [_ HR].
        rewrite Forall_forall in HR. rewrite (HR row (nth_error_In _ _ Er)).
        exact He. }
      destruct (masked_row_at_max self step src row Hmax Hrow)
        as [Heos Hother].
      destruct (Nat.eq_dec v (eos (lc_base self))) as [->|Hv].
      + rewrite Heos in Hy. injection Hy as <-.
        split; [reflexivity | intros _; reflexivity].
      + rewrite (Hother v Hv) in Hy. split; [|intros Hc; contradiction].
        apply (Hneg beam v y Hv). unfold nth3, nth2. now rewrite Ebs, Er.
    - destruct Wm as [Wm _]. destruct Hwf as [Hwf _].
      apply nth_error_None in Ebs.
      assert (H0 : nth_error masked n = None) by (apply nth_error_None; lia).
      rewrite H0 in Hy. discriminate. }
  (* the best candidate costs at most the history score of its beam *)
  destruct (@beam_top_position _ V step K cb x Hcb HV (nth_error_In _ _ Ex))
    as [Hpx Hvx].
  assert (Hx3 : nth3 cum n (snd x / V) (snd x mod V) = Some (fst x))
    by (unfold nth3; now rewrite Eb).
  pose proof (@ranked_entries _ _ _ _ _ _ _ _ _ _ _ Wm HK Ec Hx3) as Rx.
  rewrite E0 in Rx. destruct Rx as (a & h & Ha & Hh & Hxa).
  assert (Hup : lp_leb (fst x) h = true).
  { rewrite Hxa. apply lp_add_nonpos.
    - exact (proj1 (Hmasked _ _ _ Ha)).
    - exact (Hhist _ _ Hh). }
  (* and at least the history score of every beam *)
  assert (Hlow : forall beam h', nth3 scores n beam (step - 1) = Some h' ->
                                 lp_leb h' (fst x) = true).
  { intros beam h' Hh'.
    assert (Hbeam : beam < K).
    { destruct (Hs Hstep) as (T & [HlT HFT] & _).
      unfold nth3 in Hh'.
      destruct (nth_error scores n) as [hist|] eqn:Eh; [|discriminate].
      rewrite Forall_forall in HFT.
      exact (proj1 (@nth2_bounds _ _ _ _ _ _ _
                      (HFT hist (nth_error_In _ _ Eh)) Hh')). }
    destruct (@wf2_nth2 _ _ _ cb beam (eos (lc_base self)) Hcb Hbeam He)
      as (ye & Hye).
    assert (Hye3 : nth3 cum n beam (eos (lc_base self)) = Some ye)
      by (unfold nth3; now rewrite Eb).
    pose proof (@ranked_entries _ _ _ _ _ _ _ _ _ _ _ Wm HK Ec Hye3) as Re.
    rewrite E0 in Re. destruct Re as (a' & h'' & Ha' & Hh'' & Hyea).
    rewrite Hh' in Hh''. injection Hh'' as <-.
    rewrite (proj2 (Hmasked _ _ _ Ha') eq_refl) in Hyea.
    assert (Hle : lp_leb ye (fst x) = true).
    { apply (@top_list_head (beam_k step K V) (concat cb) x
                            (ye, beam * V + eos (lc_base self))).
      - exact Ex.
      - apply enumerate_In. unfold nth2 in Hye.
        destruct (nth_error cb beam) as [row|] eqn:Er; [|discriminate].
        apply (nth_error_concat_at _ _ Hcb Er Hye). }
    apply (@lp_leb_trans _ _ _ (@lp_add_zero h' (Hhist _ _ Hh'))).
    now rewrite <- Hyea. }
  split; [|exact Hlow].
  exists (snd x / V), h. split; [exact Hh|].
  apply lp_leb_antisym; [exact Hup | exact (Hlow _ _ Hh)].
Qed.

Lemma LengthConstrainedBeamSearch_step_max_len_score_witness :
  (exists beam h,
      nth3 [[[lp 0; lp 0; lp (-1)]; [lp 0; lp 0; lp (-4)]]] 0 beam (3 - 1)
      = Some h /\ lp_eq (lp (-1)) h) /\
  (forall beam h,
      nth3 [[[lp 0; lp 0; lp (-1)]; [lp 0; lp 0; lp (-4)]]] 0 beam (3 - 1)
      = Some h -> lp_leb h (lp (-1)) = true).
Proof.
  apply (@LengthConstrainedBeamSearch_step_max_len_score
           {| lc_base := set_src_lengths (Search_init example_dict)
                                         (Vector1 [4%Z]);
              min_len_a := 0; min_len_b := 1;
              max_len_a := 0; max_len_b := 3 |}
           1 2 4 3 [4%Z]
           [[[lp (-5); lp (-1); lp (-7); lp (-2)];
             [lp (-6); lp (-8); lp (-1); lp (-4)]]]
           [[[lp 0; lp 0; lp (-1)]; [lp 0; lp 0; lp (-4)]]]
           [[lp (-1); lp (-2); lp (-3); lp (-4)]]
           [[2; 1; 3; 2]] [[0; 0; 0; 1]] 0 4%Z (lp (-1))).
  - reflexivity.
  - reflexivity.
  - split; [reflexivity|]. repeat constructor.
  - lia.
  - vm_compute. lia.
  - lia.
  - intros _. exists 3. split; [|lia].
    split; [reflexivity|]. repeat constructor.
  - reflexivity.
  - reflexivity.
  - intros [|[|[|beam]]] [|[|[|[|[|v]]]]] x Hv Hx; vm_compute in Hx;
      try discriminate Hx; try (exfalso; apply Hv; reflexivity);
      injection Hx as <-; reflexivity.
  - intros [|[|[|beam]]] h Hh; vm_compute in Hh; try discriminate Hh;
      injection Hh as <-; reflexivity.
  - vm_compute. reflexivity.
  - reflexivity.
Defined.
